(** * Bank Management System (bank.cpp): a shallow embedding and its properties

    The program keeps a [std::vector<BankAccount>] in memory, gates every
    mutation of an existing account behind a PIN check, and persists the
    vector to a text file through the stream inserters and extractors.

    Modelling choices, all following the source:
    - [double] is IEEE 754 binary64, taken from the Standard Library's
      [SpecFloat] with [prec = 53] and [emax = 1024]; [+=], [-=], [<] and
      [<=] are [SFadd], [SFsub], [SFltb] and [SFleb];
    - [int] and [size_t] are [Z]; their ranges matter only where a value is
      read back from text, and are checked there;
    - [std::vector<BankAccount>] is a [list]; an iterator or a
      [reference_wrapper] into it is an index, and a mutation through it is
      an update at that index;
    - a C++ exception is the left summand of a [result]; the vector left
      behind by a throwing member function is returned next to it;
    - [std::hash<std::string>] and [std::ranges::sort] are library code:
      the first is a parameter, the second a parameter with its contract;
      the [std::sort] of libstdc++, which [std::ranges::sort] runs, is
      embedded next to it and shown to meet that contract;
    - the line that [authenticate] reads from [std::cin] is an argument of
      every operation that can reach it;
    - the text written to [std::cout] is not modelled; what an operation
      reported is returned as a [report];
    - [std::cin] is the text still to be read together with its state
      bits; the input helpers, the member functions that read the PIN and
      [main] run on it, the loops among them with a bound on their
      turns. *)

From Stdlib Require Import ZArith String Ascii List Lia Sorted Permutation.
From Stdlib Require Import Floats.SpecFloat.
From stdpp Require Import base list gmap strings.

Local Open Scope Z_scope.

(* ================================================================== *)
(** * Part I: definitions                                               *)
(* ================================================================== *)

(** ** [double] *)

Module Double.

Definition prec : Z := 53.
Definition emax : Z := 1024.

Definition double : Type := spec_float.

Definition zero : double := S754_zero false.

Definition add (x y : double) : double := SFadd prec emax x y.
Definition sub (x y : double) : double := SFsub prec emax x y.
Definition ltb (x y : double) : bool := SFltb x y.
Definition leb (x y : double) : bool := SFleb x y.

(** A C++ [double] always holds a canonical binary64 value; [spec_float]
    also has other triples, which [valid] rules out. *)
Definition valid (x : double) : bool := valid_binary prec emax x.

Definition is_nan (x : double) : bool :=
  match x with S754_nan => true | _ => false end.

Definition is_finite (x : double) : bool :=
  match x with
  | S754_zero _ | S754_finite _ _ _ => true
  | _ => false
  end.

(** The double nearest to an integer (exact below [2^53]): the value of
    literals such as [100.0]. *)
Definition of_Z (n : Z) : double := binary_normalize prec emax n 0 false.

(** The double nearest to [n / d], for [d > 0]: the value of literals
    such as [0.01], and the conversion [strtod] performs. *)
Definition of_ratio (n d : Z) : double :=
  match n with
  | Z0 => S754_zero false
  | Zpos _ =>
      let '(q, e, l) := SFdiv_core_binary prec emax n 0 d 0 in
      binary_round_aux prec emax false q e l
  | Zneg p =>
      let '(q, e, l) := SFdiv_core_binary prec emax (Zpos p) 0 d 0 in
      binary_round_aux prec emax true q e l
  end.

(** The rational a finite double stands for, as numerator and
    denominator. *)
Definition to_ratio (m : positive) (e : Z) : Z * Z :=
  match e with
  | Zneg p => (Zpos m, 2 ^ Zpos p)
  | _ => (Zpos m * 2 ^ e, 1)
  end.

(** A key that orders the doubles other than NaN as [<] does:
    lexicographic on (class, exponent, mantissa). *)
Definition key (x : double) : Z * Z * Z :=
  match x with
  | S754_nan => (0, 0, 0)
  | S754_zero _ => (0, 0, 0)
  | S754_infinity true => (-2, 0, 0)
  | S754_infinity false => (2, 0, 0)
  | S754_finite true m e => (-1, - e, - Zpos m)
  | S754_finite false m e => (1, e, Zpos m)
  end.

Definition key_lt (a b : Z * Z * Z) : Prop :=
  let '(a1, a2, a3) := a in
  let '(b1, b2, b3) := b in
  a1 < b1 \/ (a1 = b1 /\ (a2 < b2 \/ (a2 = b2 /\ a3 < b3))).

(** The canonical mantissa and exponent of a whole number below [2^53]. *)
Definition whole_mantissa (n : positive) : positive :=
  Z.to_pos (Zpos n * 2 ^ (53 - Zpos (digits2_pos n))).

Definition whole_exponent (n : positive) : Z := Zpos (digits2_pos n) - 53.

End Double.

Abbreviation double := Double.double.

(** ** Exceptions and results *)

Inductive exception : Type :=
| invalid_argument (what : string)
| runtime_error (what : string).

Definition result (A : Type) : Type := (exception + A)%type.

(** The errors of the specification, as the source throws them. *)
Definition InvalidDeposit : exception := invalid_argument "Deposit must be positive".
Definition InvalidWithdrawal : exception := invalid_argument "Withdrawal must be positive".
Definition InsufficientFunds : exception := runtime_error "Insufficient balance".
Definition EmptyName : exception := invalid_argument "Name cannot be empty".
Definition DuplicateAccount : exception := runtime_error "Account number already exists".
Definition AccountNotFound : exception := runtime_error "One or both accounts not found".
Definition SameAccountTransfer : exception := runtime_error "Cannot transfer to same account".
Definition IOError : exception := runtime_error "Cannot open file for saving".
Definition InvalidPIN : exception := invalid_argument "PIN must be 4 digits.".

(** ** Stream insertion and extraction

    What [operator<<] writes and [operator>>] reads for the four field
    types of a record, in the default stream state (decimal base, general
    floating-point notation with precision 6, [skipws] set, classic
    locale).  The extractors follow the GNU implementation field by field;
    [None] is a stream left with [failbit] set. *)

Module Stream.

Definition text : Type := list ascii.

Definition dquote : ascii := "034"%char.
Definition backslash : ascii := "092"%char.

Definition digit_char (d : Z) : ascii :=
  match d with
  | 0 => "0" | 1 => "1" | 2 => "2" | 3 => "3" | 4 => "4"
  | 5 => "5" | 6 => "6" | 7 => "7" | 8 => "8" | _ => "9"
  end%char.

(** The value of a digit: its code less that of the character 0. *)
Definition digit_val (c : ascii) : option Z :=
  let code := Z.of_N (N_of_ascii c) in
  if (48 <=? code) && (code <=? 57) then Some (code - 48) else None.

(** [::isdigit] and [std::isspace] in the classic locale. *)
Definition is_digit (c : ascii) : bool :=
  match digit_val c with Some _ => true | None => false end.

Definition is_space (c : ascii) : bool :=
  match c with
  | " " | "009" | "010" | "011" | "012" | "013" => true
  | _ => false
  end%char.

(** *** Insertion *)

(** Decimal digits, most significant first.  [fuel] bounds the number of
    divisions; [Z.log2 n] of them are always enough. *)
Fixpoint digits_of (fuel : nat) (n : Z) (acc : text) : text :=
  let acc' := digit_char (n mod 10) :: acc in
  match fuel with
  | O => acc'
  | S fuel' => if n <? 10 then acc' else digits_of fuel' (n / 10) acc'
  end.

Definition show_unsigned (n : Z) : text :=
  digits_of (Z.to_nat (Z.log2 n)) n [].

(** [out << accountNum] and [out << pinHash]. *)
Definition show_int (n : Z) : text :=
  if n <? 0 then "-"%char :: show_unsigned (- n) else show_unsigned n.

Definition show_size_t (n : Z) : text := show_unsigned n.

(** [out << quoted(name)]: the delimiter and the escape character are
    each preceded by the escape character. *)
Definition escape (c : ascii) : text :=
  if bool_decide (c = dquote) || bool_decide (c = backslash)
  then [backslash; c] else [c].

Definition show_quoted (s : string) : text :=
  dquote :: flat_map escape (list_ascii_of_string s) ++ [dquote].

(** [out << balance]: the [%g] conversion with precision 6. *)

(** The largest [k >= 0] with [d * 10^k <= n], for [d <= n]. *)
Fixpoint exp10_up (fuel : nat) (n d k : Z) : Z :=
  match fuel with
  | O => k
  | S fuel' => if d * 10 <=? n then exp10_up fuel' n (d * 10) (k + 1) else k
  end.

(** The smallest [k >= 1] with [d <= n * 10^k], for [n < d]. *)
Fixpoint exp10_down (fuel : nat) (n d k : Z) : Z :=
  match fuel with
  | O => k
  | S fuel' =>
      if d <=? n * 10 then k + 1 else exp10_down fuel' (n * 10) d (k + 1)
  end.

(** The decimal exponent [X] of [n / d]: [10^X <= n / d < 10^(X+1)]. *)
Definition decimal_exponent (n d : Z) : Z :=
  if d <=? n then exp10_up (S (Z.to_nat (Z.log2 n))) n d 0
  else - exp10_down (S (Z.to_nat (Z.log2 d))) n d 0.

Definition round_half_even (n d : Z) : Z :=
  let q := n / d in
  match 2 * (n mod d) ?= d with
  | Lt => q
  | Gt => q + 1
  | Eq => if Z.even q then q else q + 1
  end.

(** [n / d] rounded to [P] significant decimal digits: the digits as an
    integer [D] with [10^(P-1) <= D < 10^P], and the exponent [X] of the
    rounded value. *)
Definition significand (P : nat) (n d : Z) : Z * Z :=
  let X := decimal_exponent n d in
  let s := X - (Z.of_nat P - 1) in
  let D := if 0 <=? s then round_half_even n (d * 10 ^ s)
           else round_half_even (n * 10 ^ (- s)) d in
  if 10 ^ Z.of_nat P <=? D then (10 ^ (Z.of_nat P - 1), X + 1) else (D, X).

Definition fixed_digits (P : nat) (D : Z) : text :=
  map (fun i => digit_char ((D / 10 ^ Z.of_nat (P - 1 - i)) mod 10)) (seq 0 P).

Fixpoint strip_trailing_zeros (t : text) : text :=
  match t with
  | [] => []
  | c :: t' =>
      match strip_trailing_zeros t' with
      | [] => if bool_decide (c = "0"%char) then [] else [c]
      | r => c :: r
      end
  end.

(** Trailing zeros of the fraction are removed, and the point with them
    when nothing is left. *)
Definition with_fraction (ip fp : text) : text :=
  match strip_trailing_zeros fp with
  | [] => ip
  | f => ip ++ "."%char :: f
  end.

(** The exponent is written with a sign and at least two digits. *)
Definition show_exponent (X : Z) : text :=
  "e"%char :: (if X <? 0 then "-"%char else "+"%char) ::
  (if Z.abs X <? 10 then "0"%char :: show_unsigned (Z.abs X)
   else show_unsigned (Z.abs X)).

Definition show_general (P : nat) (n d : Z) : text :=
  let '(D, X) := significand P n d in
  let ds := fixed_digits P D in
  if (X <? -4) || (Z.of_nat P <=? X) then
    with_fraction (take 1 ds) (drop 1 ds) ++ show_exponent X
  else if X <? 0 then
    with_fraction ["0"%char] (replicate (Z.to_nat (- X - 1)) "0"%char ++ ds)
  else
    with_fraction (take (Z.to_nat (X + 1)) ds) (drop (Z.to_nat (X + 1)) ds).

Definition sign_text (s : bool) : text := if s then ["-"%char] else [].

Definition show_double (x : double) : text :=
  match x with
  | S754_nan => list_ascii_of_string "nan"
  | S754_infinity s => sign_text s ++ list_ascii_of_string "inf"
  | S754_zero s => sign_text s ++ ["0"%char]
  | S754_finite s m e =>
      let '(n, d) := Double.to_ratio m e in
      sign_text s ++ show_general 6 n d
  end.

(** *** Extraction *)

Fixpoint skip_ws (s : text) : text :=
  match s with
  | c :: s' => if is_space c then skip_ws s' else s
  | [] => []
  end.

Definition read_sign (s : text) : bool * text :=
  match s with
  | c :: s' =>
      if bool_decide (c = "-"%char) then (true, s')
      else if bool_decide (c = "+"%char) then (false, s')
      else (false, s)
  | [] => (false, s)
  end.

(** The longest prefix of digits, as their values. *)
Fixpoint read_digits (s : text) : list Z * text :=
  match s with
  | c :: s' =>
      match digit_val c with
      | Some d => let '(ds, r) := read_digits s' in (d :: ds, r)
      | None => ([], s)
      end
  | [] => ([], [])
  end.

Definition digits_value (ds : list Z) : Z :=
  fold_left (fun acc d => 10 * acc + d) ds 0.

(** Sign, magnitude and rest of an integer field; at least one digit. *)
Definition read_integer (s : text) : option (bool * Z * text) :=
  let '(neg, s1) := read_sign (skip_ws s) in
  let '(ds, s2) := read_digits s1 in
  match ds with
  | [] => None
  | _ => Some (neg, digits_value ds, s2)
  end.

Definition INT_MIN : Z := - 2 ^ 31.
Definition INT_MAX : Z := 2 ^ 31 - 1.
Definition SIZE_MAX : Z := 2 ^ 64 - 1.

(** [in >> ac], [ac] an [int]: a value out of range sets [failbit]. *)
Definition read_int (s : text) : option (Z * text) :=
  '(neg, n, r) ← read_integer s;
  let v := if neg : bool then - n else n in
  if (INT_MIN <=? v) && (v <=? INT_MAX) then Some (v, r) else None.

(** [in >> hash], [hash] a [size_t]: a minus sign negates modulo
    [2^64]. *)
Definition read_size_t (s : text) : option (Z * text) :=
  '(neg, n, r) ← read_integer s;
  if n <=? SIZE_MAX
  then Some (if neg : bool then (- n) mod 2 ^ 64 else n, r)
  else None.

(** The double nearest to [(-1)^neg * N * 10^k]: what [strtod] returns
    for the accumulated field. *)
Definition of_decimal (neg : bool) (N k : Z) : double :=
  match N with
  | Z0 => S754_zero neg
  | _ =>
      let N' := if neg then - N else N in
      if 0 <=? k then Double.of_Z (N' * 10 ^ k)
      else Double.of_ratio N' (10 ^ (- k))
  end.

(** The exponent part: absent, or [e] or [E], an optional sign and at
    least one digit. *)
Definition read_exponent (s : text) : option (Z * text) :=
  match s with
  | c :: s' =>
      if bool_decide (c = "e"%char) || bool_decide (c = "E"%char) then
        let '(neg, s1) := read_sign s' in
        let '(ds, s2) := read_digits s1 in
        match ds with
        | [] => None
        | _ => Some (if neg then - digits_value ds else digits_value ds, s2)
        end
      else Some (0, s)
  | [] => Some (0, s)
  end.

(** The fraction part: absent, or a point and the digits after it. *)
Definition read_fraction (s : text) : list Z * text :=
  match s with
  | c :: s' => if bool_decide (c = "."%char) then read_digits s' else ([], s)
  | [] => ([], s)
  end.

(** [in >> bal], [bal] a [double]: an optional sign, digits with at most
    one point, an optional exponent; the field must convert as a whole,
    and a value that overflows sets [failbit]. *)
Definition read_double (s : text) : option (double * text) :=
  let '(neg, s1) := read_sign (skip_ws s) in
  let '(ip, s2) := read_digits s1 in
  let '(fp, s3) := read_fraction s2 in
  match ip ++ fp with
  | [] => None
  | ds =>
      '(ex, s4) ← read_exponent s3;
      match of_decimal neg (digits_value ds) (ex - Z.of_nat (length fp)) with
      | S754_infinity _ | S754_nan => None
      | v => Some (v, s4)
      end
  end.

(** Inside the quotes: an escape character gives way to the character
    after it; the unescaped delimiter ends the string; the end of the
    input before that is a failure. *)
Fixpoint read_quoted_body (s : text) : option (text * text) :=
  match s with
  | [] => None
  | c :: s' =>
      if bool_decide (c = backslash) then
        match s' with
        | [] => None
        | c' :: s'' =>
            '(n, r) ← read_quoted_body s''; Some (c' :: n, r)
        end
      else if bool_decide (c = dquote) then Some ([], s')
      else '(n, r) ← read_quoted_body s'; Some (c :: n, r)
  end.

(** [in >> word]: up to the next white space. *)
Fixpoint read_word (s : text) : text * text :=
  match s with
  | c :: s' =>
      if is_space c then ([], s)
      else let '(w, r) := read_word s' in (c :: w, r)
  | [] => ([], [])
  end.

(** [in >> quoted(n)]: a field that does not start with the delimiter is
    read as a plain word. *)
Definition read_quoted (s : text) : option (string * text) :=
  match skip_ws s with
  | [] => None
  | c :: s' =>
      if bool_decide (c = dquote) then
        '(n, r) ← read_quoted_body s'; Some (string_of_list_ascii n, r)
      else
        let '(w, r) := read_word (c :: s') in Some (string_of_list_ascii w, r)
  end.

End Stream.

(** ** std::cin

    The standard input as the program reads it: the characters not yet
    read and the two state bits that reading can set.  [eofbit] is set by
    a read that runs into the end of the input, [failbit] by a read that
    delivers nothing; a stream with a bit set is not [good], and every
    read of it fails at once until [clear] resets the bits. *)

Module Cin.

Record istream : Type := mkIstream {
  buffer : Stream.text;
  eofbit : bool;
  failbit : bool
}.

(** The standard input before anything is read. *)
Definition opened (s : Stream.text) : istream :=
  {| buffer := s; eofbit := false; failbit := false |}.

Definition good (cin : istream) : bool := negb (eofbit cin) && negb (failbit cin).

(** [setstate(failbit)] and [clear()]. *)
Definition setfail (cin : istream) : istream :=
  {| buffer := buffer cin; eofbit := eofbit cin; failbit := true |}.

Definition clear (cin : istream) : istream :=
  {| buffer := buffer cin; eofbit := false; failbit := false |}.

(** The stream after a numeric field was scanned down to [r]: the scan saw
    the end of the input exactly when nothing is left. *)
Definition scanned (r : Stream.text) (failed : bool) : istream :=
  {| buffer := r; eofbit := bool_decide (r = []); failbit := failed |}.

(** What the scan of an integer field takes, whether or not the field
    converts: white space, a sign, digits. *)
Definition after_integer (s : Stream.text) : Stream.text :=
  snd (Stream.read_digits (snd (Stream.read_sign (Stream.skip_ws s)))).

(** What the scan of a floating-point field takes: white space, a sign,
    digits with at most one point and, once a digit was seen, [e] or [E]
    with a sign and digits. *)
Definition after_exponent (s : Stream.text) : Stream.text :=
  match s with
  | c :: s' =>
      if bool_decide (c = "e"%char) || bool_decide (c = "E"%char)
      then snd (Stream.read_digits (snd (Stream.read_sign s')))
      else s
  | [] => []
  end.

Definition after_double (s : Stream.text) : Stream.text :=
  let '(_, s1) := Stream.read_sign (Stream.skip_ws s) in
  let '(ip, s2) := Stream.read_digits s1 in
  let '(fp, s3) := Stream.read_fraction s2 in
  match ip ++ fp with
  | [] => s3
  | _ => after_exponent s3
  end.

(** [cin >> value], [value] an [int] or a [double]: the value when the
    extraction succeeds, and the stream it leaves. *)
Definition extract_int (cin : istream) : option Z * istream :=
  if good cin then
    match Stream.read_int (buffer cin) with
    | Some (v, r) => (Some v, scanned r false)
    | None => (None, scanned (after_integer (buffer cin)) true)
    end
  else (None, setfail cin).

Definition extract_double (cin : istream) : option double * istream :=
  if good cin then
    match Stream.read_double (buffer cin) with
    | Some (v, r) => (Some v, scanned r false)
    | None => (None, scanned (after_double (buffer cin)) true)
    end
  else (None, setfail cin).

(** The characters before the next newline, and what follows the newline
    when there is one. *)
Fixpoint read_line (s : Stream.text) : Stream.text * option Stream.text :=
  match s with
  | [] => ([], None)
  | c :: s' =>
      if bool_decide (c = "010"%char) then ([], Some s')
      else let '(l, r) := read_line s' in (c :: l, r)
  end.

(** [cin.ignore(numeric_limits<streamsize>::max(), '\n')]. *)
Definition ignore_line (cin : istream) : istream :=
  if good cin then
    match snd (read_line (buffer cin)) with
    | Some r => {| buffer := r; eofbit := false; failbit := false |}
    | None => {| buffer := []; eofbit := true; failbit := false |}
    end
  else setfail cin.

(** [getline(cin, str)]: the string is left alone when the stream is not
    good, and is empty when nothing at all could be taken. *)
Definition getline (cin : istream) (str : string) : string * istream :=
  if good cin then
    match buffer cin with
    | [] => ("", {| buffer := []; eofbit := true; failbit := true |})
    | _ =>
        match read_line (buffer cin) with
        | (l, Some r) =>
            (string_of_list_ascii l, {| buffer := r; eofbit := false; failbit := false |})
        | (l, None) =>
            (string_of_list_ascii l, {| buffer := []; eofbit := true; failbit := false |})
        end
    end
  else (str, setfail cin).

End Cin.

(** ** The input helpers

    Each helper loops until a line is acceptable.  [fuel] bounds the
    number of lines tried; [None] is a loop that has not ended within
    it. *)

Fixpoint getInt (fuel : nat) (min max : Z) (cin : Cin.istream)
  : option (Z * Cin.istream) :=
  match fuel with
  | O => None
  | S fuel' =>
      match Cin.extract_int cin with
      | (Some value, cin1) =>
          if (min <=? value) && (value <=? max)
          then Some (value, Cin.ignore_line cin1)
          else getInt fuel' min max (Cin.ignore_line (Cin.clear cin1))
      | (None, cin1) => getInt fuel' min max (Cin.ignore_line (Cin.clear cin1))
      end
  end.

Fixpoint getDouble (fuel : nat) (min max : double) (cin : Cin.istream)
  : option (double * Cin.istream) :=
  match fuel with
  | O => None
  | S fuel' =>
      match Cin.extract_double cin with
      | (Some value, cin1) =>
          if Double.leb min value && Double.leb value max
          then Some (value, Cin.ignore_line cin1)
          else getDouble fuel' min max (Cin.ignore_line (Cin.clear cin1))
      | (None, cin1) => getDouble fuel' min max (Cin.ignore_line (Cin.clear cin1))
      end
  end.

Fixpoint getNonEmptyString (fuel : nat) (cin : Cin.istream) (value : string)
  : option (string * Cin.istream) :=
  match fuel with
  | O => None
  | S fuel' =>
      let '(value', cin') := Cin.getline cin value in
      if bool_decide (value' = "") then getNonEmptyString fuel' cin' value'
      else Some (value', cin')
  end.

(** ** class BankAccount *)

Record BankAccount : Type := mkBankAccount {
  name : string;
  accountNum : Z;
  balance : double;
  pinHash : Z
}.

(** [BankAccount() = default]: every member value-initialised. *)
Definition BankAccount_default : BankAccount :=
  {| name := ""; accountNum := 0; balance := Double.zero; pinHash := 0 |}.

#[global] Instance BankAccount_inhabited : Inhabited BankAccount :=
  populate BankAccount_default.

Definition set_balance (b : double) (acc : BankAccount) : BankAccount :=
  {| name := name acc; accountNum := accountNum acc; balance := b;
     pinHash := pinHash acc |}.

Definition set_name (n : string) (acc : BankAccount) : BankAccount :=
  {| name := n; accountNum := accountNum acc; balance := balance acc;
     pinHash := pinHash acc |}.

Module BankAccount.

Section WithHash.

(** [std::hash<std::string>], as [hashPIN] calls it. *)
Variable hashPIN : string -> Z.

(** The four-argument constructor: no argument is checked. *)
Definition create (n : string) (ac : Z) (bal : double) (pin : string)
  : BankAccount :=
  {| name := n; accountNum := ac; balance := bal; pinHash := hashPIN pin |}.

Definition verifyPIN (acc : BankAccount) (pin : string) : bool :=
  bool_decide (pinHash acc = hashPIN pin).

End WithHash.

Definition deposit (amount : double) (acc : BankAccount) : result BankAccount :=
  if Double.leb amount Double.zero then inl InvalidDeposit
  else inr (set_balance (Double.add (balance acc) amount) acc).

Definition withdraw (amount : double) (acc : BankAccount) : result BankAccount :=
  if Double.leb amount Double.zero then inl InvalidWithdrawal
  else if Double.ltb (balance acc) amount then inl InsufficientFunds
  else inr (set_balance (Double.sub (balance acc) amount) acc).

Definition updateName (newName : string) (acc : BankAccount) : result BankAccount :=
  if bool_decide (newName = "") then inl EmptyName
  else inr (set_name newName acc).

(** One record: [accountNum balance pinHash "name"] and a newline. *)
Definition save (acc : BankAccount) : Stream.text :=
  Stream.show_int (accountNum acc) ++ " "%char ::
  Stream.show_double (balance acc) ++ " "%char ::
  Stream.show_size_t (pinHash acc) ++ " "%char ::
  Stream.show_quoted (name acc) ++ ["010"%char].

(** The four extractions in a row; the first that fails ends the
    record.  The members are assigned as read: the constructor is not
    involved. *)
Definition load (s : Stream.text) : option (BankAccount * Stream.text) :=
  '(ac, s1) ← Stream.read_int s;
  '(bal, s2) ← Stream.read_double s1;
  '(hash, s3) ← Stream.read_size_t s2;
  '(n, s4) ← Stream.read_quoted s3;
  Some ({| name := n; accountNum := ac; balance := bal; pinHash := hash |}, s4).

End BankAccount.

(** ** The file system

    A path names nothing, a regular file, or something an [ofstream]
    cannot open (a directory stands for all of those). *)

Inductive entry : Type :=
| RegularFile (content : Stream.text)
| Directory.

Abbreviation filesystem := (gmap string entry).

(** ** class BankManagement *)

(** What an operation that returned normally told the user. *)
Inductive report : Type :=
| Successful
| NotFound
| AuthenticationFailed.

Module BankManagement.

(** A member function runs on the vector, returns or throws, and leaves
    a vector behind. *)
Definition M (A : Type) : Type :=
  list BankAccount -> result A * list BankAccount.

Definition ret {A} (x : A) : M A := fun accounts => (inr x, accounts).

Definition throw {A} (e : exception) : M A := fun accounts => (inl e, accounts).

Definition bind {A B} (m : M A) (k : A -> M B) : M B :=
  fun accounts =>
    match m accounts with
    | (inl e, accounts') => (inl e, accounts')
    | (inr x, accounts') => k x accounts'
    end.

Definition gets {A} (f : list BankAccount -> A) : M A :=
  fun accounts => (inr (f accounts), accounts).

Definition modify (f : list BankAccount -> list BankAccount) : M unit :=
  fun accounts => (inr tt, f accounts).

#[global] Instance M_ret : MRet M := @ret.
#[global] Instance M_bind : MBind M := fun A B k m => bind m k.

(** A member function of [BankAccount] called through a reference into
    the vector: the element is replaced unless the call throws. *)
Definition call (i : nat) (f : BankAccount -> result BankAccount) : M unit :=
  fun accounts =>
    match f (accounts !!! i) with
    | inl e => (inl e, accounts)
    | inr acc => (inr tt, <[i := acc]> accounts)
    end.

(** [ranges::find_if] by account number: the position of the first
    match. *)
Definition findAccount (accNum : Z) (accounts : list BankAccount) : option nat :=
  fst <$> list_find (fun acc => accountNum acc = accNum) accounts.

(** The accounts [showHighBalance] prints. *)
Definition showHighBalance (threshold : double) (accounts : list BankAccount)
  : list BankAccount :=
  filter (fun acc => Double.leb threshold (balance acc) = true) accounts.

Section Operations.

Variable hashPIN : string -> Z.

(** [std::ranges::sort] with a comparison on the projected keys. *)
Variable ranges_sort :
  forall A : Type, (A -> A -> bool) -> list A -> list A.

(** [pin] is the line read from the input. *)
Definition authenticate (i : nat) (pin : string) : M bool :=
  gets (fun accounts => BankAccount.verifyPIN hashPIN (accounts !!! i) pin).

Definition addAccount (n : string) (accNum : Z) (bal : double) (pin : string)
  : M report :=
  dup ← gets (fun accounts =>
                bool_decide (Exists (fun acc => accountNum acc = accNum) accounts));
  if dup : bool then throw DuplicateAccount
  else
    modify (fun accounts => accounts ++ [BankAccount.create hashPIN n accNum bal pin]);;
    mret Successful.

Definition deposit (accNum : Z) (amount : double) (pin : string) : M report :=
  acc ← gets (findAccount accNum);
  match acc with
  | None => mret NotFound
  | Some i =>
      ok ← authenticate i pin;
      if negb ok then mret AuthenticationFailed
      else call i (BankAccount.deposit amount);; mret Successful
  end.

Definition withdraw (accNum : Z) (amount : double) (pin : string) : M report :=
  acc ← gets (findAccount accNum);
  match acc with
  | None => mret NotFound
  | Some i =>
      ok ← authenticate i pin;
      if negb ok then mret AuthenticationFailed
      else call i (BankAccount.withdraw amount);; mret Successful
  end.

Definition transfer (fromAcc toAcc : Z) (amount : double) (pin : string)
  : M report :=
  from ← gets (findAccount fromAcc);
  to ← gets (findAccount toAcc);
  match from, to with
  | Some i, Some j =>
      if bool_decide (fromAcc = toAcc) then throw SameAccountTransfer
      else
        ok ← authenticate i pin;
        if negb ok then mret AuthenticationFailed
        else
          call i (BankAccount.withdraw amount);;
          call j (BankAccount.deposit amount);;
          mret Successful
  | _, _ => throw AccountNotFound
  end.

Definition updateName (accNum : Z) (newName : string) (pin : string)
  : M report :=
  acc ← gets (findAccount accNum);
  match acc with
  | None => mret NotFound
  | Some i =>
      ok ← authenticate i pin;
      if negb ok then mret AuthenticationFailed
      else call i (BankAccount.updateName newName);; mret Successful
  end.

Definition closeAccount (accNum : Z) (pin : string) : M report :=
  it ← gets (findAccount accNum);
  match it with
  | None => mret NotFound
  | Some i =>
      ok ← authenticate i pin;
      if negb ok then mret AuthenticationFailed
      else modify (delete i);; mret Successful
  end.

Definition by_balance (a b : BankAccount) : bool :=
  Double.ltb (balance a) (balance b).

Definition sortAccountsByBalance : M report :=
  modify (ranges_sort BankAccount by_balance);; mret Successful.

End Operations.

(** [saveToFile]: the file is replaced by the records of the vector, in
    order. *)
Definition saveToFile (filename : string) (accounts : list BankAccount)
    (fs : filesystem) : result unit * filesystem :=
  match fs !! filename with
  | Some Directory => (inl IOError, fs)
  | _ => (inr tt, <[filename := RegularFile (flat_map BankAccount.save accounts)]> fs)
  end.

(** The loop of [loadFromFile].  [None] is a loop cut short by [fuel];
    every record read takes at least one character, so the length of the
    input and one more is enough. *)
Fixpoint load_loop (fuel : nat) (s : Stream.text) (accounts : list BankAccount)
  : option (list BankAccount) :=
  match fuel with
  | O => None
  | S fuel' =>
      match BankAccount.load s with
      | None => Some accounts
      | Some (acc, s') => load_loop fuel' s' (accounts ++ [acc])
      end
  end.

Definition load_all (s : Stream.text) : list BankAccount :=
  default [] (load_loop (S (length s)) s []).

(** [loadFromFile]: a path that names nothing returns at once; anything
    else clears the vector and reads records until one fails. *)
Definition loadFromFile (filename : string) (fs : filesystem) : M unit :=
  match fs !! filename with
  | None => mret tt
  | Some (RegularFile content) => modify (fun _ => load_all content)
  | Some Directory => modify (fun _ => load_all [])
  end.

End BankManagement.

(** ** The member functions of BankManagement, reading the PIN

    [authenticate] reads the PIN from [std::cin], and only when it is
    reached: the member functions once more, on the vector and the input
    together. *)

Module Console.

Definition M (A : Type) : Type :=
  Cin.istream * list BankAccount -> result A * (Cin.istream * list BankAccount).

Definition ret {A} (x : A) : M A := fun w => (inr x, w).

Definition throw {A} (e : exception) : M A := fun w => (inl e, w).

Definition bind {A B} (m : M A) (k : A -> M B) : M B :=
  fun w =>
    match m w with
    | (inl e, w') => (inl e, w')
    | (inr x, w') => k x w'
    end.

(** A step that does not read the input. *)
Definition lift {A} (m : BankManagement.M A) : M A :=
  fun '(cin, accounts) =>
    let '(r, accounts') := m accounts in (r, (cin, accounts')).

Section Operations.

Variable hashPIN : string -> Z.

Definition authenticate (i : nat) : M bool :=
  fun '(cin, accounts) =>
    let '(pin, cin') := Cin.getline cin "" in
    (inr (BankAccount.verifyPIN hashPIN (accounts !!! i) pin), (cin', accounts)).

Definition deposit (accNum : Z) (amount : double) : M report :=
  bind (lift (BankManagement.gets (BankManagement.findAccount accNum))) (fun acc =>
  match acc with
  | None => ret NotFound
  | Some i =>
      bind (authenticate i) (fun ok =>
      if negb ok then ret AuthenticationFailed
      else bind (lift (BankManagement.call i (BankAccount.deposit amount)))
                (fun _ => ret Successful))
  end).

Definition withdraw (accNum : Z) (amount : double) : M report :=
  bind (lift (BankManagement.gets (BankManagement.findAccount accNum))) (fun acc =>
  match acc with
  | None => ret NotFound
  | Some i =>
      bind (authenticate i) (fun ok =>
      if negb ok then ret AuthenticationFailed
      else bind (lift (BankManagement.call i (BankAccount.withdraw amount)))
                (fun _ => ret Successful))
  end).

Definition transfer (fromAcc toAcc : Z) (amount : double) : M report :=
  bind (lift (BankManagement.gets (BankManagement.findAccount fromAcc))) (fun from =>
  bind (lift (BankManagement.gets (BankManagement.findAccount toAcc))) (fun to =>
  match from, to with
  | Some i, Some j =>
      if bool_decide (fromAcc = toAcc) then throw SameAccountTransfer
      else
        bind (authenticate i) (fun ok =>
        if negb ok then ret AuthenticationFailed
        else
          bind (lift (BankManagement.call i (BankAccount.withdraw amount))) (fun _ =>
          bind (lift (BankManagement.call j (BankAccount.deposit amount))) (fun _ =>
          ret Successful)))
  | _, _ => throw AccountNotFound
  end)).

Definition updateName (accNum : Z) (newName : string) : M report :=
  bind (lift (BankManagement.gets (BankManagement.findAccount accNum))) (fun acc =>
  match acc with
  | None => ret NotFound
  | Some i =>
      bind (authenticate i) (fun ok =>
      if negb ok then ret AuthenticationFailed
      else bind (lift (BankManagement.call i (BankAccount.updateName newName)))
                (fun _ => ret Successful))
  end).

Definition closeAccount (accNum : Z) : M report :=
  bind (lift (BankManagement.gets (BankManagement.findAccount accNum))) (fun it =>
  match it with
  | None => ret NotFound
  | Some i =>
      bind (authenticate i) (fun ok =>
      if negb ok then ret AuthenticationFailed
      else bind (lift (BankManagement.modify (delete i))) (fun _ => ret Successful))
  end).

End Operations.

End Console.

(** A member function given the PIN as an argument, run on the input: the
    next line is taken for the PIN when the call gets as far as
    [authenticate], and the input is left alone when it does not. *)
Definition asking (reached : bool) (op : string -> BankManagement.M report)
  : Console.M report :=
  fun '(cin, accounts) =>
    if reached then
      let '(pin, cin') := Cin.getline cin "" in
      let '(r, accounts') := op pin accounts in (r, (cin', accounts'))
    else
      let '(r, accounts') := op "" accounts in (r, (cin, accounts')).

(** ** main: one turn of the menu loop

    The inputs of a menu choice as the input helpers deliver them, and the
    body of the [switch] for the choices that change the vector.  The
    [catch] of the loop prints the exception and goes on with the vector
    as it is. *)

Inductive Menu : Type :=
| CreateAccount (n : string) (num : Z) (bal : double) (pin : string)
| Deposit (num : Z) (amt : double) (pin : string)
| Withdraw (num : Z) (amt : double) (pin : string)
| Transfer (from to : Z) (amt : double) (pin : string)
| CloseAccount (num : Z) (pin : string)
| UpdateName (num : Z) (newName : string) (pin : string)
| SortAccounts.

(** [pin.size() != 4 || !ranges::all_of(pin, ::isdigit)], negated. *)
Definition four_digits (pin : string) : bool :=
  bool_decide (length (list_ascii_of_string pin) = 4%nat)
  && forallb Stream.is_digit (list_ascii_of_string pin).

Section Main.

Variable hashPIN : string -> Z.
Variable ranges_sort : forall A : Type, (A -> A -> bool) -> list A -> list A.

Definition dispatch (choice : Menu) : BankManagement.M report :=
  match choice with
  | CreateAccount n num bal pin =>
      if four_digits pin
      then BankManagement.addAccount hashPIN n num bal pin
      else BankManagement.throw InvalidPIN
  | Deposit num amt pin => BankManagement.deposit hashPIN num amt pin
  | Withdraw num amt pin => BankManagement.withdraw hashPIN num amt pin
  | Transfer from to amt pin => BankManagement.transfer hashPIN from to amt pin
  | CloseAccount num pin => BankManagement.closeAccount hashPIN num pin
  | UpdateName num newName pin => BankManagement.updateName hashPIN num newName pin
  | SortAccounts => BankManagement.sortAccountsByBalance ranges_sort
  end.

Definition turn (accounts : list BankAccount) (choice : Menu) : list BankAccount :=
  snd (dispatch choice accounts).

Definition session (choices : list Menu) (accounts : list BankAccount)
  : list BankAccount :=
  fold_left turn choices accounts.

End Main.

(** ** The contract of [std::ranges::sort], and a sort that meets it *)

(** The comparison is a strict weak ordering of the elements of the
    range: irreflexive, transitive, and with a transitive equivalence. *)
Definition strict_weak_order_on {A : Type} (lt : A -> A -> bool) (l : list A)
  : Prop :=
  (forall x, x ∈ l -> lt x x = false) /\
  (forall x y z, x ∈ l -> y ∈ l -> z ∈ l ->
     lt x y = true -> lt y z = true -> lt x z = true) /\
  (forall x y z, x ∈ l -> y ∈ l -> z ∈ l ->
     lt x y = false -> lt y x = false ->
     lt y z = false -> lt z y = false ->
     lt x z = false /\ lt z x = false).

(** On such a range the result is a permutation in which no element is
    less than an earlier one.  Nothing is promised about the order of
    equivalent elements. *)
Definition sorts (sort : forall A : Type, (A -> A -> bool) -> list A -> list A)
  : Prop :=
  forall (A : Type) (lt : A -> A -> bool) (l : list A),
    strict_weak_order_on lt l ->
    sort A lt l ≡ₚ l /\
    StronglySorted (fun x y => lt y x = false) (sort A lt l).

(** [x] goes in front of the first element [y] with [before x y]. *)
Fixpoint insert_by {A : Type} (before : A -> A -> bool) (x : A) (l : list A)
  : list A :=
  match l with
  | [] => [x]
  | y :: l' => if before x y then x :: y :: l' else y :: insert_by before x l'
  end.

(** Insertion sort, an element going in front of its equivalents to the
    right: equivalent elements keep their order. *)
Definition insertion_sort (A : Type) (lt : A -> A -> bool) (l : list A) : list A :=
  foldr (insert_by (fun x y => negb (lt y x))) [] l.

(** Equivalent elements keep their relative order. *)
Definition stable {A : Type} (lt : A -> A -> bool) (l l' : list A) : Prop :=
  forall x,
    filter (fun y => lt x y = false /\ lt y x = false) l'
    = filter (fun y => lt x y = false /\ lt y x = false) l.

(** ** The sort of the library *)

(** [std::ranges::sort] of libstdc++ (bits/ranges_algo.h) passes the range
    to [std::sort] with the comparison of the projections; [std::sort]
    (bits/stl_algo.h, with the heap of bits/stl_heap.h) is an introsort.
    The vector is a list and an iterator an index from [begin]; a read or a
    write outside the vector is undefined behaviour, here [None]. *)
Module Libstdcxx.
Local Open Scope nat_scope.

Section Sort.
Context {A : Type} (comp : A -> A -> bool).

Definition _S_threshold : nat := 16.

(** [*i = x] *)
Definition assign (i : nat) (x : A) (v : list A) : option (list A) :=
  _ ← v !! i; Some (<[i := x]> v).

Definition iter_swap (a b : nat) (v : list A) : option (list A) :=
  x ← v !! a; y ← v !! b; Some (<[b := x]> (<[a := y]> v)).

Definition __move_median_to_first (result a b c : nat) (v : list A)
  : option (list A) :=
  x ← v !! a; y ← v !! b; z ← v !! c;
  if comp x y then
    if comp y z then iter_swap result b v
    else if comp x z then iter_swap result c v
    else iter_swap result a v
  else if comp x z then iter_swap result a v
  else if comp y z then iter_swap result c v
  else iter_swap result b v.

(** *** The heap *)

(** The loop of [__push_heap]; the hole moves up, so its index bounds the
    number of turns. *)
Fixpoint push_heap_loop (turns : nat) (first holeIndex topIndex : nat)
    (value : A) (v : list A) : option (list A) :=
  let parent := (holeIndex - 1) / 2 in
  if bool_decide (topIndex < holeIndex) then
    p ← v !! (first + parent);
    if comp p value then
      match turns with
      | 0 => None
      | S turns' =>
          v' ← assign (first + holeIndex) p v;
          push_heap_loop turns' first parent topIndex value v'
      end
    else assign (first + holeIndex) value v
  else assign (first + holeIndex) value v.

Definition __push_heap (first holeIndex topIndex : nat) (value : A)
    (v : list A) : option (list A) :=
  push_heap_loop holeIndex first holeIndex topIndex value v.

(** The first loop of [__adjust_heap]: the hole moves down to a leaf; the
    result is the vector with the hole index and [__secondChild]. *)
Fixpoint adjust_heap_loop (turns : nat) (first holeIndex secondChild len : nat)
    (v : list A) : option (list A * nat * nat) :=
  if bool_decide (secondChild < (len - 1) / 2) then
    match turns with
    | 0 => None
    | S turns' =>
        let secondChild := 2 * (secondChild + 1) in
        r ← v !! (first + secondChild);
        l ← v !! (first + (secondChild - 1));
        let secondChild := if comp r l then secondChild - 1 else secondChild in
        x ← v !! (first + secondChild);
        v' ← assign (first + holeIndex) x v;
        adjust_heap_loop turns' first secondChild secondChild len v'
    end
  else Some (v, holeIndex, secondChild).

Definition __adjust_heap (first holeIndex len : nat) (value : A) (v : list A)
  : option (list A) :=
  let topIndex := holeIndex in
  '(v, holeIndex, secondChild) ← adjust_heap_loop len first holeIndex holeIndex len v;
  '(v, holeIndex) ←
    (if bool_decide (len mod 2 = 0) && bool_decide (secondChild = (len - 2) / 2)
     then
       let secondChild := 2 * (secondChild + 1) in
       x ← v !! (first + (secondChild - 1));
       v' ← assign (first + holeIndex) x v;
       Some (v', secondChild - 1)
     else Some (v, holeIndex));
  __push_heap first holeIndex topIndex value v.

Definition __pop_heap (first last result : nat) (v : list A)
  : option (list A) :=
  value ← v !! result;
  x ← v !! first;
  v' ← assign result x v;
  __adjust_heap first 0 (last - first) value v'.

Fixpoint make_heap_loop (first parent len : nat) (v : list A)
  : option (list A) :=
  value ← v !! (first + parent);
  v' ← __adjust_heap first parent len value v;
  match parent with
  | 0 => Some v'
  | S parent' => make_heap_loop first parent' len v'
  end.

Definition __make_heap (first last : nat) (v : list A) : option (list A) :=
  if bool_decide (last - first < 2) then Some v
  else
    let len := last - first in
    make_heap_loop first ((len - 2) / 2) len v.

(** [while (__last - __first > 1)], by the length of the range. *)
Fixpoint sort_heap_loop (len : nat) (first : nat) (v : list A)
  : option (list A) :=
  match len with
  | S (S _ as len') =>
      v' ← __pop_heap first (first + len') (first + len') v;
      sort_heap_loop len' first v'
  | _ => Some v
  end.

Definition __sort_heap (first last : nat) (v : list A) : option (list A) :=
  sort_heap_loop (last - first) first v.

(** [for (__i = __middle; __i < __last; ++__i)], by the number of turns. *)
Fixpoint heap_select_loop (turns : nat) (first middle i : nat) (v : list A)
  : option (list A) :=
  match turns with
  | 0 => Some v
  | S turns' =>
      x ← v !! i; f ← v !! first;
      v' ← (if comp x f then __pop_heap first middle i v else Some v);
      heap_select_loop turns' first middle (S i) v'
  end.

Definition __heap_select (first middle last : nat) (v : list A)
  : option (list A) :=
  v' ← __make_heap first middle v;
  heap_select_loop (last - middle) first middle middle v'.

Definition __partial_sort (first middle last : nat) (v : list A)
  : option (list A) :=
  v' ← __heap_select first middle last v;
  __sort_heap first middle v'.

(** *** Insertion *)

(** The loop of [__unguarded_linear_insert]: nothing stops it at the
    beginning of the range. *)
Fixpoint unguarded_linear_insert_loop (val : A) (last : nat) (v : list A)
  : option (list A) :=
  match last with
  | 0 => None
  | S next =>
      x ← v !! next;
      if comp val x then
        v' ← assign last x v;
        unguarded_linear_insert_loop val next v'
      else assign last val v
  end.

Definition __unguarded_linear_insert (last : nat) (v : list A)
  : option (list A) :=
  val ← v !! last;
  unguarded_linear_insert_loop val last v.

(** [std::move_backward(first, i, i + 1)], then [*first = val]. *)
Definition move_to_first (first i : nat) (val : A) (v : list A) : list A :=
  take first v ++ val :: take (i - first) (drop first v) ++ drop (S i) v.

Fixpoint insertion_sort_loop (turns : nat) (first i : nat) (v : list A)
  : option (list A) :=
  match turns with
  | 0 => Some v
  | S turns' =>
      x ← v !! i; f ← v !! first;
      v' ← (if comp x f then Some (move_to_first first i x v)
            else __unguarded_linear_insert i v);
      insertion_sort_loop turns' first (S i) v'
  end.

Definition __insertion_sort (first last : nat) (v : list A) : option (list A) :=
  if bool_decide (first = last) then Some v
  else insertion_sort_loop (last - (first + 1)) first (first + 1) v.

Fixpoint unguarded_insertion_sort_loop (turns : nat) (i : nat) (v : list A)
  : option (list A) :=
  match turns with
  | 0 => Some v
  | S turns' =>
      v' ← __unguarded_linear_insert i v;
      unguarded_insertion_sort_loop turns' (S i) v'
  end.

Definition __unguarded_insertion_sort (first last : nat) (v : list A)
  : option (list A) :=
  unguarded_insertion_sort_loop (last - first) first v.

Definition __final_insertion_sort (first last : nat) (v : list A)
  : option (list A) :=
  if bool_decide (_S_threshold < last - first) then
    v' ← __insertion_sort first (first + _S_threshold) v;
    __unguarded_insertion_sort (first + _S_threshold) last v'
  else __insertion_sort first last v.

(** *** Partition *)

(** [while (__comp(__first, __pivot)) ++__first;] over what is left of the
    vector from [first] on. *)
Fixpoint scan_up (pivot : A) (first : nat) (rest : list A) : option nat :=
  match rest with
  | [] => None
  | x :: rest' =>
      if comp x pivot then scan_up pivot (S first) rest' else Some first
  end.

(** [while (__comp(__pivot, __last)) --__last;] *)
Fixpoint scan_down (pivot : A) (last : nat) (v : list A) : option nat :=
  x ← v !! last;
  if comp pivot x then
    match last with
    | 0 => None
    | S last' => scan_down pivot last' v
    end
  else Some last.

(** The loop of [__unguarded_partition]; [first] goes up at every turn. *)
Fixpoint unguarded_partition_loop (turns : nat) (first last pivot : nat)
    (v : list A) : option (nat * list A) :=
  p ← v !! pivot;
  first ← scan_up p first (drop first v);
  last ← (match last with 0 => None | S last' => scan_down p last' v end);
  if bool_decide (first < last) then
    match turns with
    | 0 => None
    | S turns' =>
        v' ← iter_swap first last v;
        unguarded_partition_loop turns' (S first) last pivot v'
    end
  else Some (first, v).

Definition __unguarded_partition (first last pivot : nat) (v : list A)
  : option (nat * list A) :=
  unguarded_partition_loop (last - first) first last pivot v.

Definition __unguarded_partition_pivot (first last : nat) (v : list A)
  : option (nat * list A) :=
  let mid := first + (last - first) / 2 in
  v' ← __move_median_to_first first (first + 1) mid (last - 1) v;
  __unguarded_partition (first + 1) last first v'.

(** *** Introsort *)

(** The loop and the recursion of [__introsort_loop] both go down on
    [__depth_limit]. *)
Fixpoint __introsort_loop (depth_limit : nat) (first last : nat) (v : list A)
  : option (list A) :=
  if bool_decide (_S_threshold < last - first) then
    match depth_limit with
    | 0 => __partial_sort first last last v
    | S depth_limit' =>
        '(cut, v1) ← __unguarded_partition_pivot first last v;
        v2 ← __introsort_loop depth_limit' cut last v1;
        __introsort_loop depth_limit' first cut v2
    end
  else Some v.

Definition __lg (n : nat) : nat := Nat.log2 n.

Definition __sort (first last : nat) (v : list A) : option (list A) :=
  if bool_decide (first = last) then Some v
  else
    v' ← __introsort_loop (__lg (last - first) * 2) first last v;
    __final_insertion_sort first last v'.

End Sort.

(** [std::ranges::sort(r, comp, proj)] on a whole vector. *)
Definition sort {A : Type} (lt : A -> A -> bool) (v : list A) : option (list A) :=
  __sort lt 0 (length v) v.

End Libstdcxx.

(** [std::ranges::sort] as the program runs it.  Undefined behaviour has
    no result; the vector is then left as it is, and nothing below is
    stated of that case. *)
Definition libstdcxx_sort (A : Type) (lt : A -> A -> bool) (l : list A)
  : list A :=
  default l (Libstdcxx.sort lt l).

(** ** What the proofs about the sort speak of *)

(** Every element of the vector is one of the range. *)
Definition within {A : Type} (range v : list A) : Prop :=
  Forall (fun x => x ∈ range) v.

(** In a heap the element at [i] is under the one at [parent i]. *)
Definition parent (i : nat) : nat := ((i - 1) / 2)%nat.

(** [k] is in the tree under [t]. *)
Inductive under (t : nat) : nat -> Prop :=
| under_top : under t t
| under_left k : under t k -> under t (2 * k + 1)%nat
| under_right k : under t k -> under t (2 * k + 2)%nat.

Section SortNotions.

Context {A : Type} (lt : A -> A -> bool).

(** No element is less than an earlier one. *)
Definition ascending (v : list A) : Prop :=
  StronglySorted (fun x y => lt y x = false) v.

(** Every element of [r] has an element before it that it is not less
    than. *)
Definition guarded (p r : list A) : Prop :=
  forall r1 x r2, r = r1 ++ x :: r2 -> exists y, y ∈ p ++ r1 /\ lt x y = false.

(** From the seventeenth element on, every element has an element before
    it that it is not less than: what the partitions leave. *)
Definition nearly (v : list A) : Prop :=
  forall l1 x l2,
    v = l1 ++ x :: l2 -> (Libstdcxx._S_threshold <= length l1)%nat ->
    exists y, y ∈ l1 /\ lt x y = false.

(** From [t] on, no element is less than one of the two under it. *)
Definition heap_from (t : nat) (h : list A) : Prop :=
  forall i x y, (0 < i)%nat -> (t <= parent i)%nat ->
    h !! i = Some x -> h !! parent i = Some y -> lt y x = false.

(** The same with the element at [k] taken out. *)
Definition edges_ok (t k : nat) (h : list A) : Prop :=
  forall i x y, (0 < i)%nat -> (t <= parent i)%nat -> i <> k -> parent i <> k ->
    h !! i = Some x -> h !! parent i = Some y -> lt y x = false.

(** What is under the hole is not above what is over it. *)
Definition below_hole_ok (t k : nat) (h : list A) : Prop :=
  (t < k)%nat ->
  forall i x y, (0 < i)%nat -> parent i = k ->
    h !! i = Some x -> h !! parent k = Some y -> lt y x = false.

(** What is under the hole is not above the value that looks for its
    place. *)
Definition below_value (k : nat) (val : A) (h : list A) : Prop :=
  forall i x, (0 < i)%nat -> parent i = k -> h !! i = Some x -> lt val x = false.

End SortNotions.

(** ** A hash to run examples with *)

Definition example_hash (s : string) : Z :=
  fold_left (fun h c => (31 * h + Z.of_nat (nat_of_ascii c)) mod 2 ^ 64)
            (list_ascii_of_string s) 7.

(** ** Predicates of the statements *)

Definition nonneg (x : double) : Prop := Double.leb Double.zero x = true.

Definition in_int_range (n : Z) : Prop := Stream.INT_MIN <= n <= Stream.INT_MAX.
Definition in_size_t_range (n : Z) : Prop := 0 <= n <= Stream.SIZE_MAX.

(** The value the extractor reads back from the text the inserter wrote
    for [b], when that text is a readable field. *)
Definition reread (b b' : double) : Prop :=
  Stream.read_double (Stream.show_double b) = Some (b', []).

Definition numbers (accounts : list BankAccount) : list Z :=
  accountNum <$> accounts.

(** A text that does not go on with a character of class [p]. *)
Definition stops (p : ascii -> bool) (s : Stream.text) : Prop :=
  match s with
  | [] => True
  | c :: _ => p c = false
  end.

Definition is_digit_value (d : Z) : Prop := 0 <= d <= 9.

(** The sign of a double that has one. *)
Definition has_sign (s : bool) (x : double) : Prop :=
  match x with
  | S754_zero s' | S754_infinity s' | S754_finite s' _ _ => s' = s
  | S754_nan => False
  end.

(** An element replaced by one with the same number. *)
Definition updated (i : nat) (acc' : BankAccount) (accounts accounts' : list BankAccount)
  : Prop :=
  (i < length accounts)%nat /\ accountNum acc' = accountNum (accounts !!! i) /\
  accounts' = <[i := acc']> accounts.

(** A balance the program can rely on: a canonical double, not negative. *)
Definition good (acc : BankAccount) : Prop :=
  Double.valid (balance acc) = true /\ nonneg (balance acc).

(** The inputs of a menu choice that the properties rely on: doubles are
    canonical, an initial balance is not negative, an amount is finite. *)
Definition admissible (choice : Menu) : Prop :=
  match choice with
  | CreateAccount _ _ bal _ => Double.valid bal = true /\ nonneg bal
  | Deposit _ amt _ | Withdraw _ amt _ | Transfer _ _ amt _ =>
      Double.valid amt = true /\ Double.is_finite amt = true
  | _ => True
  end.

(** From good balances to good balances, and then from numbers without a
    duplicate to numbers without a duplicate. *)
Definition keeps (accounts accounts' : list BankAccount) : Prop :=
  Forall good accounts ->
  Forall good accounts' /\
  (NoDup (numbers accounts) -> NoDup (numbers accounts')).

(** The fields of a record that the extractors can read back: an [int]
    and a [size_t]. *)
Definition storable (a : BankAccount) : Prop :=
  in_int_range (accountNum a) /\ in_size_t_range (pinHash a).

(** What [load] gives for a record that [save] wrote: the name, the number
    and the digest as they were, the balance as read back from its text. *)
Definition reloads (a a' : BankAccount) : Prop :=
  name a' = name a /\ accountNum a' = accountNum a /\ pinHash a' = pinHash a /\
  reread (balance a) (balance a').

(** What identifies an account and protects it: its number and the digest
    of its PIN. *)
Definition credentials (acc : BankAccount) : Z * Z :=
  (accountNum acc, pinHash acc).

(** What the extractors guarantee of a record they have read, whatever
    the file held: a number that is an [int], a digest that is a [size_t]
    and a balance that is a canonical finite double. *)
Definition readable (acc : BankAccount) : Prop :=
  in_int_range (accountNum acc) /\ in_size_t_range (pinHash acc) /\
  Double.valid (balance acc) = true /\ Double.is_finite (balance acc) = true.

(** A balance in whole units, with at most six digits. *)
Definition whole_balance (acc : BankAccount) : Prop :=
  exists n : Z, 0 <= n < 10 ^ 6 /\ balance acc = Double.of_Z n.

(** ** Accounts and sessions to run examples with *)

Definition alice : BankAccount :=
  BankAccount.create example_hash "Alice" 1001 (Double.of_Z 100) "1234".
Definition bob : BankAccount :=
  BankAccount.create example_hash "Bob" 1002 (Double.of_Z 50) "5678".

Definition carol : BankAccount :=
  BankAccount.create example_hash "Carol" 1003 (Double.of_Z 50) "0000".

(** Two accounts under one number, as a file can hold them. *)
Definition twin : BankAccount :=
  {| name := "Alice again"; accountNum := 1001; balance := Double.of_Z 5;
     pinHash := example_hash "9999" |}.

(** An account opened with a negative balance: the constructor takes it. *)
Definition overdrawn : BankAccount :=
  BankAccount.create example_hash "Eve" 7 (Double.of_Z (-10)) "0000".

(** An account no prompt would let through. *)
Definition nameless : BankAccount :=
  BankAccount.create example_hash "" 0 (Double.of_Z (-1)) "12ab".

(** Eight and fifty-two hundredths, and one hundredth to move. *)
Definition small : BankAccount :=
  BankAccount.create example_hash "Ann" 1 (Double.of_ratio 8 100) "1111".
Definition large : BankAccount :=
  BankAccount.create example_hash "Ben" 2 (Double.of_ratio 52 100) "2222".

(** An account whose balance is NaN, as a deposit of NaN leaves it. *)
Definition adrift : BankAccount :=
  BankAccount.create example_hash "Dan" 1005 S754_nan "0000".

(** Seventeen accounts of balance 50, as the menu opens them one after
    the other, and the choices that open them. *)
Definition saver (k : Z) : BankAccount :=
  BankAccount.create example_hash "Saver" (2000 + k) (Double.of_Z 50) "0000".

Definition savers : list BankAccount :=
  saver <$> [1; 2; 3; 4; 5; 6; 7; 8; 9; 10; 11; 12; 13; 14; 15; 16; 17].

Definition savers_open : list Menu :=
  (fun k => CreateAccount "Saver" (2000 + k) (Double.of_Z 50) "0000")
    <$> [1; 2; 3; 4; 5; 6; 7; 8; 9; 10; 11; 12; 13; 14; 15; 16; 17].

(** The same accounts in the order in which the sort leaves them. *)
Definition savers_sorted : list BankAccount :=
  saver <$> [9; 17; 16; 15; 14; 13; 12; 11; 10; 1; 8; 7; 6; 5; 4; 3; 2].

(** [DBL_MAX], the largest amount the prompt of the menu lets through. *)
Definition DBL_MAX : double := S754_finite false (2 ^ 53 - 1) 971.

(** An account with seven significant digits in its balance. *)
Definition rich : BankAccount :=
  BankAccount.create example_hash "Rich" 1004 (Double.of_Z 1234567) "1234".

(** A session: two creations, one more under a number taken, a transfer,
    a sort and a closing. *)
Definition busy_session : list Menu :=
  [ CreateAccount "Alice" 1001 (Double.of_Z 100) "1234";
    CreateAccount "Bob" 1002 (Double.of_Z 50) "5678";
    CreateAccount "Mallory" 1001 (Double.of_Z 7) "4321";
    Transfer 1001 1002 (Double.of_Z 30) "1234";
    Withdraw 1002 (Double.of_Z 1000) "5678";
    SortAccounts;
    CloseAccount 1002 "5678" ].

(** ** main

    The program from its first statement to [return 0]: the file is
    loaded, the menu loop runs on the standard input, and the one way out
    is the choice 0 once [saveToFile] has returned.  An exception thrown
    under the [try] ends the turn and nothing else.  What the program
    prints is not modelled.  [fuel] bounds the turns of the loop and the
    lines each helper tries; [None] is a run that has not ended within
    it. *)

Definition filename : string := "accounts_secure.txt".

(** How a turn of the loop ends. *)
Inductive step : Type :=
| Returned (fs : filesystem)
| Again (cin : Cin.istream) (accounts : list BankAccount).

Section Program.

Variable hashPIN : string -> Z.
Variable ranges_sort : forall A : Type, (A -> A -> bool) -> list A -> list A.

(** A member function called under the [try]: the turn goes on with the
    input and the vector it left, whether it returned or threw. *)
Definition under_try (m : Console.M report) (cin : Cin.istream)
    (accounts : list BankAccount) : option step :=
  let '(_, (cin', accounts')) := m (cin, accounts) in Some (Again cin' accounts').

Definition menu_turn (fuel : nat) (fs : filesystem) (cin : Cin.istream)
    (accounts : list BankAccount) : option step :=
  '(choice, cin) ← getInt fuel 0 10 cin;
  match choice with
  | 1 =>
      '(n, cin) ← getNonEmptyString fuel cin "";
      '(num, cin) ← getInt fuel 1 Stream.INT_MAX cin;
      '(bal, cin) ← getDouble fuel Double.zero DBL_MAX cin;
      '(pin, cin) ← getNonEmptyString fuel cin "";
      Some (Again cin (turn hashPIN ranges_sort accounts (CreateAccount n num bal pin)))
  | 2 => Some (Again cin accounts)
  | 3 =>
      '(num, cin) ← getInt fuel 1 Stream.INT_MAX cin;
      Some (Again cin accounts)
  | 4 =>
      '(num, cin) ← getInt fuel 1 Stream.INT_MAX cin;
      '(amt, cin) ← getDouble fuel (Double.of_ratio 1 100) DBL_MAX cin;
      under_try (Console.deposit hashPIN num amt) cin accounts
  | 5 =>
      '(num, cin) ← getInt fuel 1 Stream.INT_MAX cin;
      '(amt, cin) ← getDouble fuel (Double.of_ratio 1 100) DBL_MAX cin;
      under_try (Console.withdraw hashPIN num amt) cin accounts
  | 6 =>
      '(from, cin) ← getInt fuel 1 Stream.INT_MAX cin;
      '(to, cin) ← getInt fuel 1 Stream.INT_MAX cin;
      '(amt, cin) ← getDouble fuel (Double.of_ratio 1 100) DBL_MAX cin;
      under_try (Console.transfer hashPIN from to amt) cin accounts
  | 7 =>
      '(num, cin) ← getInt fuel 1 Stream.INT_MAX cin;
      under_try (Console.closeAccount hashPIN num) cin accounts
  | 8 =>
      '(num, cin) ← getInt fuel 1 Stream.INT_MAX cin;
      '(newName, cin) ← getNonEmptyString fuel cin "";
      under_try (Console.updateName hashPIN num newName) cin accounts
  | 9 =>
      '(threshold, cin) ← getDouble fuel Double.zero DBL_MAX cin;
      Some (Again cin accounts)
  | 10 => Some (Again cin (turn hashPIN ranges_sort accounts SortAccounts))
  | 0 =>
      match BankManagement.saveToFile filename accounts fs with
      | (inr _, fs') => Some (Returned fs')
      | (inl _, _) => Some (Again cin accounts)
      end
  | _ => Some (Again cin accounts)
  end.

Fixpoint menu_loop (fuel : nat) (fs : filesystem) (cin : Cin.istream)
    (accounts : list BankAccount) : option filesystem :=
  match fuel with
  | O => None
  | S fuel' =>
      match menu_turn fuel' fs cin accounts with
      | None => None
      | Some (Returned fs') => Some fs'
      | Some (Again cin' accounts') => menu_loop fuel' fs cin' accounts'
      end
  end.

Definition main (fuel : nat) (input : Stream.text) (fs : filesystem)
  : option filesystem :=
  menu_loop fuel fs (Cin.opened input)
    (snd (BankManagement.loadFromFile filename fs [])).

End Program.

(** ** What the prompts let through *)

(** A menu choice with inputs within the bounds of its prompts: a name
    that is not empty, a number from 1 up, a balance from 0 up, an amount
    from one hundredth up, each a finite double. *)
Definition entered (choice : Menu) : Prop :=
  match choice with
  | CreateAccount n num bal pin =>
      n <> "" /\ 1 <= num <= Stream.INT_MAX /\
      Double.valid bal = true /\ Double.is_finite bal = true /\ nonneg bal /\
      pin <> ""
  | Deposit num amt _ | Withdraw num amt _ =>
      1 <= num <= Stream.INT_MAX /\
      Double.valid amt = true /\ Double.is_finite amt = true /\
      Double.leb (Double.of_ratio 1 100) amt = true
  | Transfer from to amt _ =>
      1 <= from <= Stream.INT_MAX /\ 1 <= to <= Stream.INT_MAX /\
      Double.valid amt = true /\ Double.is_finite amt = true /\
      Double.leb (Double.of_ratio 1 100) amt = true
  | CloseAccount num _ => 1 <= num <= Stream.INT_MAX
  | UpdateName num newName _ => 1 <= num <= Stream.INT_MAX /\ newName <> ""
  | SortAccounts => True
  end.

(** What the menu checks of an account when it opens it, and what no
    operation changes: a name that is not empty, a number from 1 up and
    the digest of a PIN of four digits. *)
Definition registered (hashPIN : string -> Z) (acc : BankAccount) : Prop :=
  name acc <> "" /\ 1 <= accountNum acc <= Stream.INT_MAX /\
  exists pin, four_digits pin = true /\ pinHash acc = hashPIN pin.

(** An account as the menu opens it and its operations keep it. *)
Definition proper (hashPIN : string -> Z) (acc : BankAccount) : Prop :=
  registered hashPIN acc /\ good acc.

(** A vector after a turn of the loop that did not end the program: left
    alone, or taken where a menu choice with inputs from the prompts takes
    it. *)
Definition turned (hashPIN : string -> Z)
    (ranges_sort : forall A : Type, (A -> A -> bool) -> list A -> list A)
    (accounts accounts' : list BankAccount) : Prop :=
  accounts' = accounts \/
  exists choice, entered choice /\ accounts' = turn hashPIN ranges_sort accounts choice.

(** Lines as they are typed, each ended by a newline. *)
Definition typed (lines : list string) : Stream.text :=
  flat_map (fun l => list_ascii_of_string l ++ ["010"%char]) lines.

(** What is typed in a short run: an account is opened, 25 is paid in,
    and the program is left. *)
Definition short_run : Stream.text :=
  typed ["1"; "Alice"; "1001"; "100"; "1234"; "4"; "1001"; "25"; "1234"; "0"].

(* ================================================================== *)
(** * Part II: properties                                               *)
(* ================================================================== *)

(** ** Facts about [double] *)

Section DoubleFacts.
Import Double.

Lemma compare_cont_Eq_spec (p q : positive) :
  match Pos.compare_cont Eq p q with
  | Lt => Zpos p < Zpos q
  | Eq => p = q
  | Gt => Zpos q < Zpos p
  end.
Proof.
  change (Pos.compare_cont Eq p q) with (Pos.compare p q).
  destruct (Pos.compare_spec p q); lia.
Qed.

(** [SFcompare] orders the doubles other than NaN by their keys. *)
Lemma compare_key (x y : double) :
  is_nan x = false -> is_nan y = false ->
  exists c, SFcompare x y = Some c /\
    match c with
    | Lt => key_lt (key x) (key y)
    | Eq => key x = key y
    | Gt => key_lt (key y) (key x)
    end.
Proof.
  intros Hx Hy.
  destruct x as [sx|sx| |sx mx ex], y as [sy|sy| |sy my ey];
    try discriminate; simpl;
    try (destruct sx); try (destruct sy); simpl;
    try (eexists; split; [reflexivity|]; simpl; (reflexivity || lia)).
  all: eexists; split; [reflexivity|].
  all: destruct (Z.compare_spec ex ey); simpl; try lia.
  all: pose proof (compare_cont_Eq_spec mx my) as Hc;
       destruct (Pos.compare_cont Eq mx my); simpl; subst; try lia.
  all: try (f_equal; lia). 
  all: try (inversion Hc; reflexivity).
Qed.

Lemma key_lt_cases (a b : Z * Z * Z) :
  (key_lt a b /\ a <> b /\ ~ key_lt b a) \/
  (a = b /\ ~ key_lt a b /\ ~ key_lt b a) \/
  (key_lt b a /\ a <> b /\ ~ key_lt a b).
Proof.
  destruct a as [[a1 a2] a3], b as [[b1 b2] b3]; unfold key_lt.
  destruct (Z.lt_total a1 b1) as [?|[?|?]];
    destruct (Z.lt_total a2 b2) as [?|[?|?]];
    destruct (Z.lt_total a3 b3) as [?|[?|?]];
    subst;
    first [ left; split; [lia | split; [intros [=]; lia | lia]]
          | right; left; split; [reflexivity | lia]
          | right; right; split; [lia | split; [intros [=]; lia | lia]] ].
Qed.

Lemma key_lt_trans (a b c : Z * Z * Z) : key_lt a b -> key_lt b c -> key_lt a c.
Proof.
  destruct a as [[a1 a2] a3], b as [[b1 b2] b3], c as [[c1 c2] c3].
  unfold key_lt. lia.
Qed.

Lemma key_lt_neg_trans (a b c : Z * Z * Z) :
  ~ key_lt a b -> ~ key_lt b c -> ~ key_lt a c.
Proof.
  destruct a as [[a1 a2] a3], b as [[b1 b2] b3], c as [[c1 c2] c3].
  unfold key_lt. lia.
Qed.

Lemma ltb_key (x y : double) :
  is_nan x = false -> is_nan y = false ->
  ltb x y = true <-> key_lt (key x) (key y).
Proof.
  intros Hx Hy. destruct (compare_key x y Hx Hy) as (c & Hc & Hk).
  unfold ltb, SFltb. rewrite Hc.
  destruct (key_lt_cases (key x) (key y)) as [(?&?&?)|[(?&?&?)|(?&?&?)]];
    destruct c; split; intros; try discriminate; try reflexivity;
    try contradiction; try assumption.
Qed.

Lemma leb_key (x y : double) :
  is_nan x = false -> is_nan y = false ->
  leb x y = true <-> ~ key_lt (key y) (key x).
Proof.
  intros Hx Hy. destruct (compare_key x y Hx Hy) as (c & Hc & Hk).
  unfold leb, SFleb. rewrite Hc.
  destruct (key_lt_cases (key x) (key y)) as [(?&?&?)|[(?&?&?)|(?&?&?)]];
    destruct c; split; intros; try discriminate; try reflexivity;
    try contradiction; try assumption.
Qed.

Lemma ltb_nan_l y : ltb S754_nan y = false.
Proof. reflexivity. Qed.

Lemma ltb_nan_r x : ltb x S754_nan = false.
Proof. destruct x; reflexivity. Qed.

Lemma leb_nan_l y : leb S754_nan y = false.
Proof. reflexivity. Qed.

Lemma leb_nan_r x : leb x S754_nan = false.
Proof. destruct x; reflexivity. Qed.

Lemma ltb_true_not_nan x y : ltb x y = true -> is_nan x = false /\ is_nan y = false.
Proof. destruct x, y; simpl; try discriminate; auto. Qed.

Lemma leb_true_not_nan x y : leb x y = true -> is_nan x = false /\ is_nan y = false.
Proof. destruct x, y; simpl; try discriminate; auto. Qed.

(** [x <= y] is [!(y < x)] away from NaN. *)
Lemma leb_negb_ltb x y :
  is_nan x = false -> is_nan y = false -> leb x y = negb (ltb y x).
Proof.
  intros Hx Hy.
  pose proof (leb_key x y Hx Hy) as Hl. pose proof (ltb_key y x Hy Hx) as Ht.
  destruct (leb x y), (ltb y x); simpl; try reflexivity; exfalso; intuition congruence.
Qed.

Lemma ltb_leb x y : ltb x y = true -> leb x y = true.
Proof.
  unfold ltb, leb, SFltb, SFleb. destruct (SFcompare x y) as [[]|]; congruence.
Qed.

Lemma nonneg_cases x :
  nonneg x <-> match x with
               | S754_zero _ | S754_infinity false | S754_finite false _ _ => True
               | _ => False
               end.
Proof.
  unfold nonneg. destruct x as [s|[]| |[] m e]; simpl; split; intros; try easy.
Qed.

(** [!(x <= 0)] for a double that is not NaN: [x] is positive. *)
Lemma positive_cases x :
  is_nan x = false -> leb x zero = false ->
  match x with
  | S754_infinity false | S754_finite false _ _ => True
  | _ => False
  end.
Proof. destruct x as [s|[]| |[] m e]; simpl; intros; try easy. Qed.

(** *** Shifts and digits *)

Lemma digits2_pos_bounds (m : positive) :
  2 ^ (Zpos (digits2_pos m) - 1) <= Zpos m < 2 ^ Zpos (digits2_pos m).
Proof.
  induction m as [m IH|m IH|]; simpl digits2_pos.
  - rewrite Pos2Z.inj_succ.
    replace (Z.succ (Zpos (digits2_pos m)) - 1) with (Z.succ (Zpos (digits2_pos m) - 1)) by lia.
    rewrite !Z.pow_succ_r by lia. lia.
  - rewrite Pos2Z.inj_succ.
    replace (Z.succ (Zpos (digits2_pos m)) - 1) with (Z.succ (Zpos (digits2_pos m) - 1)) by lia.
    rewrite !Z.pow_succ_r by lia. lia.
  - simpl. lia.
Qed.

Lemma iter_xO_value (m d : positive) :
  Zpos (Pos.iter xO m d) = Zpos m * 2 ^ Zpos d.
Proof.
  revert m. induction d as [|d IH] using Pos.peano_ind; intros m.
  - simpl. lia.
  - rewrite Pos.iter_succ, Pos2Z.inj_succ, Z.pow_succ_r by lia.
    rewrite Pos2Z.inj_xO, IH. lia.
Qed.

Lemma shl_align_value (m : positive) (e e' : Z) :
  e' <= e -> Zpos (fst (shl_align m e e')) = Zpos m * 2 ^ (e - e').
Proof.
  intros He. unfold shl_align.
  destruct (e' - e) as [|p|p] eqn:Hd; simpl.
  - replace (e - e') with 0 by lia. lia.
  - lia.
  - rewrite iter_xO_value. f_equal. f_equal. lia.
Qed.

Lemma valid_finite (s : bool) (m : positive) (e : Z) :
  valid (S754_finite s m e) = true ->
  Zpos (digits2_pos m) <= 53 /\ -1074 <= e <= 971 /\
  (-1074 < e -> Zpos (digits2_pos m) = 53).
Proof.
  unfold valid, valid_binary, bounded, canonical_mantissa, fexp, emin, prec, emax.
  intros H. apply andb_prop in H as [H1 H2].
  apply Z.eqb_eq in H1. apply Z.leb_le in H2. lia.
Qed.

(** *** The sign of a rounded result *)

Lemma shr_1_nonneg mrs : 0 <= shr_m mrs -> 0 <= shr_m (shr_1 mrs).
Proof.
  destruct mrs as [m r s]. simpl. destruct m as [|[p|p|]|[p|p|]]; simpl; lia.
Qed.

Lemma iter_pos_shr_1_nonneg (n : positive) mrs :
  0 <= shr_m mrs -> 0 <= shr_m (SpecFloat.iter_pos shr_1 n mrs).
Proof.
  revert mrs. induction n as [n IH|n IH|]; intros mrs H; simpl.
  - apply IH, IH, shr_1_nonneg, H.
  - apply IH, IH, H.
  - apply shr_1_nonneg, H.
Qed.

Lemma shr_record_of_loc_m m l : shr_m (shr_record_of_loc m l) = m.
Proof. destruct l as [|[]]; reflexivity. Qed.

Lemma shr_fexp_nonneg m e l :
  0 <= m -> 0 <= shr_m (fst (shr_fexp prec emax m e l)).
Proof.
  intros H. unfold shr_fexp, shr.
  destruct (fexp prec emax (Zdigits2 m + e) - e); simpl;
    rewrite ?shr_record_of_loc_m; try assumption.
  apply iter_pos_shr_1_nonneg. rewrite shr_record_of_loc_m. assumption.
Qed.

Lemma round_nearest_even_nonneg m l : 0 <= m -> 0 <= round_nearest_even m l.
Proof.
  intros H. destruct l as [|[]]; simpl; try lia. destruct (Z.even m); lia.
Qed.

Lemma binary_round_aux_sign s m e l :
  0 <= m -> has_sign s (binary_round_aux prec emax s m e l).
Proof.
  intros H. unfold binary_round_aux.
  pose proof (shr_fexp_nonneg m e l H) as H1.
  destruct (shr_fexp prec emax m e l) as [mrs' e'] eqn:E1. simpl in H1.
  pose proof (shr_fexp_nonneg _ e' loc_Exact
                (round_nearest_even_nonneg _ (loc_of_shr_record mrs') H1)) as H2.
  destruct (shr_fexp prec emax _ e' loc_Exact) as [mrs'' e''] eqn:E2. simpl in H2.
  destruct (shr_m mrs'') as [|p|p]; simpl; try reflexivity.
  - destruct (e'' <=? emax - prec); reflexivity.
  - lia.
Qed.

Lemma binary_round_sign s m e : has_sign s (binary_round prec emax s m e).
Proof.
  unfold binary_round. destruct (shl_align _ _ _) as [mz ez].
  apply binary_round_aux_sign. lia.
Qed.

Lemma binary_normalize_nonneg m e : 0 <= m -> nonneg (binary_normalize prec emax m e false).
Proof.
  intros H. apply nonneg_cases. destruct m as [|p|p]; simpl; try easy; try lia.
  pose proof (binary_round_sign false p e) as Hs.
  destruct (binary_round prec emax false p e) as [s'|s'| |s' m' e'];
    simpl in Hs; subst; easy.
Qed.

(** [b + amount >= 0] when [b >= 0] and [amount > 0]. *)
Lemma add_nonneg (b a : double) :
  nonneg b -> is_nan a = false -> leb a zero = false -> nonneg (add b a).
Proof.
  intros Hb Hn Ha. apply nonneg_cases in Hb. pose proof (positive_cases a Hn Ha) as Hp.
  destruct b as [sb|[]| |[] mb eb]; try easy;
    destruct a as [sa|[]| |[] ma ea]; try easy;
    try (apply nonneg_cases; exact I).
  unfold add, SFadd. apply binary_normalize_nonneg. simpl. lia.
Qed.

(** [b - amount >= 0] when [amount > 0] is finite and [!(b < amount)]. *)
Lemma sub_nonneg (b a : double) :
  valid b = true -> valid a = true ->
  is_nan b = false -> is_finite a = true ->
  leb a zero = false -> ltb b a = false ->
  nonneg (sub b a).
Proof.
  intros Vb Va Nb Fa Ha Hlt.
  assert (Na : is_nan a = false) by (destruct a; easy).
  pose proof (positive_cases a Na Ha) as Hp.
  pose proof (ltb_key b a Nb Na) as Hk.
  assert (Hnk : ~ key_lt (key b) (key a)) by (intros K; apply Hk in K; congruence).
  destruct a as [sa|[]| |[] ma ea]; try easy.
  destruct b as [sb|[]| |[] mb eb]; try easy;
    try (exfalso; apply Hnk; simpl; lia);
    try (apply nonneg_cases; exact I).
  simpl in Hnk.
  apply valid_finite in Va as (Da & Ea & Ca), Vb as (Db & Eb & Cb).
  pose proof (digits2_pos_bounds ma) as Ba. pose proof (digits2_pos_bounds mb) as Bb.
  unfold sub, SFsub. apply binary_normalize_nonneg. simpl cond_Zopp.
  rewrite !shl_align_value by lia.
  destruct (Z.lt_total eb ea) as [Hlt'|[Heq|Hgt]].
  - exfalso. apply Hnk. lia.
  - subst. rewrite Z.min_id, Z.sub_diag. simpl. lia.
  - rewrite Z.min_r by lia. rewrite Z.sub_diag, Z.pow_0_r, Z.mul_1_r.
    rewrite Cb in Bb by lia.
    assert (2 ^ 53 <= Zpos mb * 2 ^ (eb - ea)).
    { replace (2 ^ 53) with (2 ^ 52 * 2 ^ 1) by reflexivity.
      apply Z.mul_le_mono_nonneg; try lia.
      apply Z.pow_le_mono_r; lia. }
    assert (Zpos ma < 2 ^ 53).
    { eapply Z.lt_le_trans; [apply Ba|]. apply Z.pow_le_mono_r; lia. }
    lia.
Qed.

(** *** A rounded result is a canonical double *)

Lemma Zdigits2_bounds (m : Z) :
  0 < m -> 0 < Zdigits2 m /\ 2 ^ (Zdigits2 m - 1) <= m < 2 ^ Zdigits2 m.
Proof.
  destruct m as [|p|p]; try lia. intros _. simpl.
  split; [lia | apply digits2_pos_bounds].
Qed.

Lemma Zdigits2_unique (m d : Z) :
  0 < d -> 2 ^ (d - 1) <= m < 2 ^ d -> Zdigits2 m = d.
Proof.
  intros Hd Hm.
  assert (0 < m) by (pose proof (Z.pow_pos_nonneg 2 (d - 1)); lia).
  destruct (Zdigits2_bounds m H) as (Hk & Hb).
  destruct (Z.lt_total (Zdigits2 m) d) as [Hlt|[?|Hgt]]; [|assumption|]; exfalso.
  - assert (2 ^ Zdigits2 m <= 2 ^ (d - 1)) by (apply Z.pow_le_mono_r; lia). lia.
  - assert (2 ^ d <= 2 ^ (Zdigits2 m - 1)) by (apply Z.pow_le_mono_r; lia). lia.
Qed.

Lemma Zdigits2_0 : Zdigits2 0 = 0.
Proof. reflexivity. Qed.

(** Digits after a shift to the right. *)
Lemma Zdigits2_div_pow2 (m n : Z) :
  0 < m -> 0 <= n -> Zdigits2 (m / 2 ^ n) = Z.max 0 (Zdigits2 m - n).
Proof.
  intros Hm Hn. destruct (Zdigits2_bounds m Hm) as (Hd & Hb).
  assert (0 < 2 ^ n) by (apply Z.pow_pos_nonneg; lia).
  destruct (Z.le_gt_cases (Zdigits2 m) n) as [Hle|Hgt].
  - rewrite Z.max_l by lia.
    assert (2 ^ Zdigits2 m <= 2 ^ n) by (apply Z.pow_le_mono_r; lia).
    rewrite Z.div_small by lia. reflexivity.
  - rewrite Z.max_r by lia. apply Zdigits2_unique; [lia|].
    split.
    + apply Z.div_le_lower_bound; [lia|].
      rewrite <- Z.pow_add_r by lia.
      replace (n + (Zdigits2 m - n - 1)) with (Zdigits2 m - 1) by lia. lia.
    + apply Z.div_lt_upper_bound; [lia|].
      rewrite <- Z.pow_add_r by lia.
      replace (n + (Zdigits2 m - n)) with (Zdigits2 m) by lia. lia.
Qed.

(** Digits after a shift to the left. *)
Lemma Zdigits2_mul_pow2 (m n : Z) :
  0 < m -> 0 <= n -> Zdigits2 (m * 2 ^ n) = Zdigits2 m + n.
Proof.
  intros Hm Hn. destruct (Zdigits2_bounds m Hm) as (Hd & Hb).
  assert (0 < 2 ^ n) by (apply Z.pow_pos_nonneg; lia).
  apply Zdigits2_unique; [lia|].
  replace (Zdigits2 m + n - 1) with (Zdigits2 m - 1 + n) by lia.
  rewrite !Z.pow_add_r by lia. nia.
Qed.

(** Digits after adding one: the same, or one more at a power of two. *)
Lemma Zdigits2_succ (m : Z) :
  0 <= m ->
  Zdigits2 (m + 1) = Zdigits2 m \/
  (Zdigits2 (m + 1) = Zdigits2 m + 1 /\ m + 1 = 2 ^ Zdigits2 m).
Proof.
  intros Hm. destruct (Z.eq_dec m 0) as [->|Hne].
  - right. simpl. split; reflexivity.
  - destruct (Zdigits2_bounds m ltac:(lia)) as (Hd & Hb).
    destruct (Z.eq_dec (m + 1) (2 ^ Zdigits2 m)) as [He|Hn].
    + right. split; [|assumption]. apply Zdigits2_unique; [lia|].
      replace (Zdigits2 m + 1 - 1) with (Zdigits2 m) by lia.
      rewrite He. rewrite Z.pow_add_r by lia. lia.
    + left. apply Zdigits2_unique; [lia|]. lia.
Qed.

Lemma shr_1_m mrs : 0 <= shr_m mrs -> shr_m (shr_1 mrs) = shr_m mrs / 2.
Proof.
  destruct mrs as [m r s]. simpl. intros H.
  destruct m as [|[p|p|]|[p|p|]]; simpl; try lia; try reflexivity.
  - rewrite Pos2Z.inj_xI. apply Z.div_unique with (r := 1); lia.
  - rewrite Pos2Z.inj_xO. apply Z.div_unique with (r := 0); lia.
Qed.

Lemma iter_pos_shr_1_m (n : positive) mrs :
  0 <= shr_m mrs ->
  shr_m (SpecFloat.iter_pos shr_1 n mrs) = shr_m mrs / 2 ^ Zpos n.
Proof.
  revert mrs. induction n as [n IH|n IH|]; intros mrs H; simpl SpecFloat.iter_pos.
  - rewrite IH by (apply iter_pos_shr_1_nonneg, shr_1_nonneg, H).
    rewrite IH by (apply shr_1_nonneg, H).
    rewrite shr_1_m by assumption.
    rewrite !Z.div_div by (try apply Z.pow_pos_nonneg; lia).
    f_equal. replace (Zpos n~1) with (1 + Zpos n + Zpos n) by lia.
    rewrite !Z.pow_add_r by lia. lia.
  - rewrite IH by (apply iter_pos_shr_1_nonneg, H).
    rewrite IH by assumption.
    rewrite !Z.div_div by (try apply Z.pow_pos_nonneg; lia).
    f_equal. replace (Zpos n~0) with (Zpos n + Zpos n) by lia.
    rewrite !Z.pow_add_r by lia. lia.
  - rewrite shr_1_m by assumption. reflexivity.
Qed.

(** [shr_fexp] on a mantissa that is not too short: the mantissa is
    divided, the exponent becomes [fexp]. *)
Lemma shr_fexp_spec (m e : Z) l :
  0 <= m -> e <= fexp prec emax (Zdigits2 m + e) ->
  let n := fexp prec emax (Zdigits2 m + e) - e in
  shr_m (fst (shr_fexp prec emax m e l)) = m / 2 ^ n /\
  snd (shr_fexp prec emax m e l) = e + n.
Proof.
  intros Hm He n. unfold shr_fexp, shr. fold n.
  destruct n as [|p|p] eqn:Hn; simpl; rewrite ?shr_record_of_loc_m.
  - rewrite Z.div_1_r. lia.
  - rewrite iter_pos_shr_1_m by (rewrite shr_record_of_loc_m; lia).
    rewrite shr_record_of_loc_m. split; reflexivity.
  - lia.
Qed.

Lemma round_nearest_even_cases m l :
  round_nearest_even m l = m \/ round_nearest_even m l = m + 1.
Proof. destruct l as [|[]]; simpl; auto. destruct (Z.even m); auto. Qed.

Lemma binary_round_aux_valid s (m e : Z) l :
  0 <= m -> e <= fexp prec emax (Zdigits2 m + e) ->
  valid (binary_round_aux prec emax s m e l) = true.
Proof.
  intros Hm He. unfold binary_round_aux.
  destruct (shr_fexp_spec m e l Hm He) as (M1 & E1).
  destruct (shr_fexp prec emax m e l) as [mrs' e'] eqn:S1. simpl in M1, E1.
  set (m1 := round_nearest_even (shr_m mrs') (loc_of_shr_record mrs')).
  assert (Hn1 : 0 <= fexp prec emax (Zdigits2 m + e) - e) by lia.
  assert (Hm' : 0 <= shr_m mrs').
  { rewrite M1. apply Z.div_pos; [lia | apply Z.pow_pos_nonneg; lia]. }
  assert (Hm1 : 0 <= m1) by (apply round_nearest_even_nonneg, Hm').
  assert (D' : Zdigits2 (shr_m mrs') = Z.max 0 (Zdigits2 m + e - e')).
  { destruct (Z.eq_dec m 0) as [->|Hne].
    - rewrite M1. rewrite Z.div_0_l by (apply Z.pow_nonzero; lia).
      simpl in *. unfold fexp, emin, prec, emax in *. lia.
    - rewrite M1, Zdigits2_div_pow2 by lia. f_equal. lia. }
  assert (C1 : m1 = shr_m mrs' \/ m1 = shr_m mrs' + 1)
    by apply round_nearest_even_cases.
  clearbody m1.
  assert (He' : e' <= fexp prec emax (Zdigits2 m1 + e')).
  { unfold fexp, emin, prec, emax in *.
    destruct C1 as [->| ->]; [|destruct (Zdigits2_succ _ Hm') as [->|[-> _]]]; lia. }
  destruct (shr_fexp_spec m1 e' loc_Exact Hm1 He') as (M2 & E2).
  destruct (shr_fexp prec emax m1 e' loc_Exact) as [mrs'' e''] eqn:S2.
  simpl in M2, E2.
  destruct (shr_m mrs'') as [|p|p] eqn:Hp; try reflexivity.
  destruct (e'' <=? emax - prec) eqn:Hle; [|reflexivity].
  unfold valid, valid_binary, bounded. rewrite Hle, andb_true_r.
  unfold canonical_mantissa. apply Z.eqb_eq.
  assert (Hdp : Zdigits2 (shr_m mrs'') = Zpos (digits2_pos p)) by (rewrite Hp; reflexivity).
  rewrite <- Hdp. clear Hdp. rewrite <- Hp in M2.
  clear Hle S1 S2.
  assert (Hpos : 0 < shr_m mrs'') by lia. clear Hp.
  unfold fexp, emin, prec, emax in *.
  destruct C1 as [C1|C1].
  - (* the mantissa is kept *)
    rewrite C1 in *.
    destruct (Z.eq_dec (shr_m mrs') 0) as [Z0|NZ].
    + exfalso. rewrite Z0 in *.
      rewrite Z.div_0_l in M2 by (apply Z.pow_nonzero; simpl in *; lia). lia.
    + assert (Hn2 : Z.max (Zdigits2 (shr_m mrs') + e' - 53) (3 - 1024 - 53) - e' = 0) by lia.
      rewrite Hn2 in *. rewrite Z.pow_0_r, Z.div_1_r in M2. rewrite M2. lia.
  - (* the mantissa is incremented *)
    destruct (Zdigits2_succ _ Hm') as [Hs|[Hs Hpow]]; rewrite <- C1 in Hs.
    + destruct (Z.eq_dec (shr_m mrs') 0) as [Z0|NZ].
      * exfalso. rewrite C1, Z0 in Hs. simpl in Hs. discriminate.
      * assert (Hn2 : Z.max (Zdigits2 m1 + e' - 53) (3 - 1024 - 53) - e' = 0) by lia.
        rewrite Hn2 in *. rewrite Z.pow_0_r, Z.div_1_r in M2. rewrite M2. lia.
    + rewrite <- C1 in Hpow.
      destruct (Z.eq_dec (Zdigits2 (shr_m mrs')) 53) as [E53|N53].
      * assert (Hn2 : Z.max (Zdigits2 m1 + e' - 53) (3 - 1024 - 53) - e' = 1) by lia.
        rewrite Hn2 in *. rewrite Hpow, E53 in M2.
        change (2 ^ 53 / 2 ^ 1) with (2 ^ 52) in M2. rewrite M2.
        change (Zdigits2 (2 ^ 52)) with 53. lia.
      * assert (Hn2 : Z.max (Zdigits2 m1 + e' - 53) (3 - 1024 - 53) - e' = 0) by lia.
        rewrite Hn2 in *. rewrite Z.pow_0_r, Z.div_1_r in M2. rewrite M2. lia.
Qed.

Lemma binary_round_valid s (m : positive) (e : Z) :
  valid (binary_round prec emax s m e) = true.
Proof.
  unfold binary_round.
  destruct (shl_align m e (fexp prec emax (Zpos (digits2_pos m) + e)))
    as [mz ez] eqn:S.
  apply binary_round_aux_valid; [lia|].
  unfold shl_align in S.
  destruct (fexp prec emax (Zpos (digits2_pos m) + e) - e) as [|d|d] eqn:Hd;
    inversion S; subst; clear S.
  - simpl. lia.
  - simpl. lia.
  - change (Zdigits2 (Zpos (Pos.iter xO m d))) with (Zdigits2 (Zpos (Pos.iter xO m d))).
    rewrite iter_xO_value, Zdigits2_mul_pow2 by lia. simpl Zdigits2.
    unfold fexp, emin, prec, emax in *. lia.
Qed.

Lemma binary_normalize_valid (m e : Z) (sz : bool) :
  valid (binary_normalize prec emax m e sz) = true.
Proof. destruct m; simpl; try reflexivity; apply binary_round_valid. Qed.

Lemma add_valid (x y : double) :
  valid x = true -> valid y = true -> valid (add x y) = true.
Proof.
  intros Vx Vy. destruct x as [sx|sx| |sx mx ex], y as [sy|sy| |sy my ey];
    try reflexivity; try assumption;
    try (destruct sx, sy; reflexivity).
  apply binary_normalize_valid.
Qed.

Lemma sub_valid (x y : double) :
  valid x = true -> valid y = true -> valid (sub x y) = true.
Proof.
  intros Vx Vy. destruct x as [sx|sx| |sx mx ex], y as [sy|sy| |sy my ey];
    try reflexivity; try assumption;
    try (destruct sx, sy; reflexivity).
  apply binary_normalize_valid.
Qed.

End DoubleFacts.

(** ** Whole numbers below 2^53 are added and subtracted exactly *)

Section WholeNumbers.
Import Double.

(** A canonical mantissa is left as it is. *)
Lemma binary_round_aux_canonical (s : bool) (m : positive) (e : Z) :
  fexp prec emax (Zpos (digits2_pos m) + e) = e -> e <= emax - prec ->
  binary_round_aux prec emax s (Zpos m) e loc_Exact = S754_finite s m e.
Proof.
  intros Hc He. unfold binary_round_aux, shr_fexp. simpl Zdigits2.
  rewrite Hc, Z.sub_diag. simpl. rewrite Hc, Z.sub_diag. simpl.
  apply Z.leb_le in He. rewrite He. reflexivity.
Qed.

Lemma shr_1_even (q : Z) :
  0 <= q -> shr_1 (Build_shr_record (2 * q) false false) = Build_shr_record q false false.
Proof. destruct q as [|p|p]; [reflexivity | reflexivity | lia]. Qed.

(** A shift to the right that drops zero bits only is exact. *)
Lemma iter_pos_shr_1_exact (n : positive) (q : Z) :
  0 <= q ->
  SpecFloat.iter_pos shr_1 n (Build_shr_record (q * 2 ^ Zpos n) false false)
  = Build_shr_record q false false.
Proof.
  revert q. induction n as [n IH|n IH|]; intros q Hq; cbn [SpecFloat.iter_pos].
  - replace (q * 2 ^ Zpos n~1) with (2 * ((q * 2 ^ Zpos n) * 2 ^ Zpos n)).
    + rewrite shr_1_even by (apply Z.mul_nonneg_nonneg; [apply Z.mul_nonneg_nonneg|]; lia).
      rewrite IH by (apply Z.mul_nonneg_nonneg; lia). apply IH, Hq.
    + replace (Zpos n~1) with (1 + Zpos n + Zpos n) by lia.
      rewrite !Z.pow_add_r by lia. lia.
  - replace (q * 2 ^ Zpos n~0) with ((q * 2 ^ Zpos n) * 2 ^ Zpos n).
    + rewrite IH by (apply Z.mul_nonneg_nonneg; lia). apply IH, Hq.
    + replace (Zpos n~0) with (Zpos n + Zpos n) by lia.
      rewrite !Z.pow_add_r by lia. lia.
  - replace (q * 2 ^ 1) with (2 * q) by lia. apply shr_1_even, Hq.
Qed.

(** The rounding of [m * 2^e] when it is [q * 2^t] with [t] the exponent
    that [m] calls for and [q] an integer: it is [q * 2^t]. *)
Lemma binary_round_exact (s : bool) (m q : positive) (e t : Z) :
  t = fexp prec emax (Zpos (digits2_pos m) + e) ->
  t <= emax - prec ->
  (t <= e -> Zpos q = Zpos m * 2 ^ (e - t)) ->
  (e < t -> Zpos m = Zpos q * 2 ^ (t - e)) ->
  binary_round prec emax s m e = S754_finite s q t.
Proof.
  intros Ht Hmax Hle Hgt. unfold binary_round, shl_align. rewrite <- Ht.
  destruct (Z.le_gt_cases t e) as [Hte|Het].
  - specialize (Hle Hte). clear Hgt.
    assert (Hd : Zdigits2 (Zpos q) + t = Zpos (digits2_pos m) + e).
    { rewrite Hle. rewrite Zdigits2_mul_pow2 by lia. simpl Zdigits2. lia. }
    destruct (t - e) as [|d|d] eqn:Hd'; try lia.
    + assert (t = e) by lia. subst e. rewrite Z.sub_diag in Hle.
      assert (q = m) by lia. subst q.
      apply binary_round_aux_canonical; [|assumption]. symmetry. exact Ht.
    + assert (Hq : Pos.iter xO m d = q).
      { apply Pos2Z.inj. rewrite iter_xO_value, Hle. f_equal. f_equal. lia. }
      rewrite Hq. apply binary_round_aux_canonical; [|assumption].
      simpl Zdigits2 in Hd. rewrite Hd. symmetry. exact Ht.
  - specialize (Hgt Het). clear Hle.
    destruct (t - e) as [|d|d] eqn:Hd'; try lia.
    unfold binary_round_aux, shr_fexp. simpl Zdigits2. rewrite <- Ht, Hd'.
    unfold shr. simpl shr_record_of_loc.
    rewrite Hgt, iter_pos_shr_1_exact by lia. simpl.
    assert (Hd : Zdigits2 (Zpos q) + t = Zpos (digits2_pos m) + e).
    { change (Zpos (digits2_pos m)) with (Zdigits2 (Zpos m)).
      rewrite Hgt, Zdigits2_mul_pow2 by lia. simpl Zdigits2. lia. }
    simpl Zdigits2 in Hd.
    replace (e + Zpos d) with t by lia.
    rewrite Hd, <- Ht, Z.sub_diag. simpl.
    apply Z.leb_le in Hmax. rewrite Hmax. reflexivity.
Qed.


Lemma digits_below (n : positive) : Zpos n < 2 ^ 53 -> Zpos (digits2_pos n) <= 53.
Proof.
  intros Hn. pose proof (digits2_pos_bounds n) as (Hl & _).
  destruct (Z.le_gt_cases (Zpos (digits2_pos n)) 53) as [|Hgt]; [assumption|].
  assert (2 ^ 53 <= 2 ^ (Zpos (digits2_pos n) - 1)) by (apply Z.pow_le_mono_r; lia).
  lia.
Qed.

Lemma whole_mantissa_value (n : positive) :
  Zpos n < 2 ^ 53 ->
  Zpos (whole_mantissa n) = Zpos n * 2 ^ (53 - Zpos (digits2_pos n)).
Proof.
  intros Hn. pose proof (digits_below n Hn). unfold whole_mantissa.
  rewrite Z2Pos.id; [reflexivity|].
  apply Z.mul_pos_pos; [lia | apply Z.pow_pos_nonneg; lia].
Qed.

(** Rounding a whole number [n < 2^53], given as [M * 2^ez] with
    [ez <= 0], gives its canonical form. *)
Lemma binary_round_whole (s : bool) (M n : positive) (ez : Z) :
  ez <= 0 -> Zpos M = Zpos n * 2 ^ (- ez) -> Zpos n < 2 ^ 53 ->
  binary_round prec emax s M ez
  = S754_finite s (whole_mantissa n) (whole_exponent n).
Proof.
  intros Hez HM Hn. pose proof (digits_below n Hn) as Hd.
  pose proof (whole_mantissa_value n Hn) as Hq.
  assert (HdM : Zpos (digits2_pos M) = Zpos (digits2_pos n) - ez).
  { change (Zpos (digits2_pos M)) with (Zdigits2 (Zpos M)).
    rewrite HM, Zdigits2_mul_pow2 by lia. simpl. lia. }
  unfold whole_exponent.
  apply binary_round_exact.
  - rewrite HdM. unfold fexp, emin, prec, emax. lia.
  - unfold emax, prec. lia.
  - intros Hle. rewrite Hq, HM, <- Z.mul_assoc, <- Z.pow_add_r by lia.
    f_equal. f_equal. lia.
  - intros Hlt. rewrite Hq, HM, <- Z.mul_assoc, <- Z.pow_add_r by lia.
    f_equal. f_equal. lia.
Qed.

Lemma of_Z_pos (n : positive) :
  Zpos n < 2 ^ 53 ->
  of_Z (Zpos n) = S754_finite false (whole_mantissa n) (whole_exponent n).
Proof.
  intros Hn. unfold of_Z. simpl binary_normalize.
  apply binary_round_whole; [lia | simpl; lia | assumption].
Qed.

(** The mantissa of a whole number, aligned to an exponent below its
    own. *)
Lemma whole_aligned (n : positive) (ez : Z) :
  Zpos n < 2 ^ 53 -> ez <= whole_exponent n ->
  Zpos (fst (shl_align (whole_mantissa n) (whole_exponent n) ez))
  = Zpos n * 2 ^ (- ez).
Proof.
  intros Hn Hez. pose proof (digits_below n Hn) as Hd. unfold whole_exponent in *.
  rewrite shl_align_value by assumption.
  rewrite (whole_mantissa_value n Hn), <- Z.mul_assoc, <- Z.pow_add_r by lia.
  f_equal. f_equal. lia.
Qed.

Lemma whole_exponent_nonpos (n : positive) :
  Zpos n < 2 ^ 53 -> whole_exponent n <= 0.
Proof. intros Hn. pose proof (digits_below n Hn). unfold whole_exponent. lia. Qed.

(** Whole numbers are added exactly as long as the sum is below 2^53. *)
Lemma add_whole (a b : Z) :
  0 <= a -> 0 <= b -> a + b < 2 ^ 53 ->
  add (of_Z a) (of_Z b) = of_Z (a + b).
Proof.
  intros Ha Hb Hs.
  destruct a as [|pa|pa]; [|clear Ha|lia].
  { destruct b as [|pb|pb]; [reflexivity| |lia].
    rewrite Z.add_0_l, of_Z_pos by lia. reflexivity. }
  destruct b as [|pb|pb]; [|clear Hb|lia].
  { rewrite Z.add_0_r, of_Z_pos by lia. reflexivity. }
  assert (Hpa : Zpos pa < 2 ^ 53) by lia. assert (Hpb : Zpos pb < 2 ^ 53) by lia.
  change (Zpos pa + Zpos pb) with (Zpos (pa + pb)) in *.
  rewrite !of_Z_pos by assumption.
  pose proof (whole_exponent_nonpos pa Hpa). pose proof (whole_exponent_nonpos pb Hpb).
  unfold add, SFadd. cbn [cond_Zopp].
  set (ez := Z.min (whole_exponent pa) (whole_exponent pb)).
  rewrite !whole_aligned by (assumption || unfold ez; lia).
  rewrite <- Z.mul_add_distr_r.
  change (Zpos pa + Zpos pb) with (Zpos (pa + pb)).
  assert (Hpos : 0 < Zpos (pa + pb) * 2 ^ (- ez))
    by (apply Z.mul_pos_pos; [lia | apply Z.pow_pos_nonneg; unfold ez; lia]).
  destruct (Zpos (pa + pb) * 2 ^ (- ez)) as [|M|M] eqn:HM; try lia.
  simpl binary_normalize.
  apply binary_round_whole; [unfold ez; lia | congruence | assumption].
Qed.

(** Whole numbers are subtracted exactly. *)
Lemma sub_whole (a b : Z) :
  0 <= b -> b <= a -> a < 2 ^ 53 ->
  sub (of_Z a) (of_Z b) = of_Z (a - b).
Proof.
  intros Hb Hba Ha.
  destruct b as [|pb|pb]; [|clear Hb|lia].
  { rewrite Z.sub_0_r. destruct a as [|pa|pa]; [reflexivity| |lia].
    rewrite of_Z_pos by lia. reflexivity. }
  destruct a as [|pa|pa]; [lia| |lia].
  assert (Hpa : Zpos pa < 2 ^ 53) by lia. assert (Hpb : Zpos pb < 2 ^ 53) by lia.
  rewrite (of_Z_pos pa), (of_Z_pos pb) by assumption.
  pose proof (whole_exponent_nonpos pa Hpa). pose proof (whole_exponent_nonpos pb Hpb).
  unfold sub, SFsub. cbn [cond_Zopp].
  set (ez := Z.min (whole_exponent pa) (whole_exponent pb)).
  rewrite !whole_aligned by (assumption || unfold ez; lia).
  rewrite <- Z.mul_sub_distr_r.
  destruct (Z.eq_dec (Zpos pa) (Zpos pb)) as [Heq|Hne].
  - rewrite Heq, Z.sub_diag. reflexivity.
  - assert (Hd : 0 < Zpos pa - Zpos pb) by lia.
    destruct (Zpos pa - Zpos pb) as [|pd|pd] eqn:Hpd; try lia.
    assert (Hpos : 0 < Zpos pd * 2 ^ (- ez))
      by (apply Z.mul_pos_pos; [lia | apply Z.pow_pos_nonneg; unfold ez; lia]).
    destruct (Zpos pd * 2 ^ (- ez)) as [|M|M] eqn:HM; try lia.
    simpl binary_normalize. rewrite of_Z_pos by lia.
    apply binary_round_whole; [unfold ez; lia | congruence | lia].
Qed.

(** Whole numbers compare as doubles the way they do as integers. *)
Lemma ltb_zero_whole (x : Z) : 0 < x < 2 ^ 53 -> ltb zero (of_Z x) = true.
Proof.
  intros Hx. destruct x as [|p|p]; try lia. rewrite of_Z_pos by lia. reflexivity.
Qed.

Lemma leb_whole (x a : Z) :
  0 < x -> x <= a -> a < 2 ^ 53 -> leb (of_Z x) (of_Z a) = true.
Proof.
  intros Hx Hxa Ha.
  destruct x as [|px|px]; try lia. destruct a as [|pa|pa]; try lia.
  assert (Hpx : Zpos px < 2 ^ 53) by lia.
  rewrite (of_Z_pos px), (of_Z_pos pa) by assumption.
  apply leb_key; [reflexivity | reflexivity |]. simpl. unfold whole_exponent.
  rewrite !whole_mantissa_value by assumption.
  pose proof (digits2_pos_bounds px) as Bx. pose proof (digits2_pos_bounds pa) as Ba.
  pose proof (digits_below px Hpx). pose proof (digits_below pa Ha).
  set (dx := Zpos (digits2_pos px)) in *. set (da := Zpos (digits2_pos pa)) in *.
  assert (dx <= da).
  { destruct (Z.le_gt_cases dx da); [assumption|].
    assert (2 ^ da <= 2 ^ (dx - 1)) by (apply Z.pow_le_mono_r; lia). lia. }
  intros [Hlt|[_ [Hlt|[Heq Hlt]]]]; try lia.
  assert (dx = da) by lia.
  assert (0 < 2 ^ (53 - da)) by (apply Z.pow_pos_nonneg; lia).
  replace dx with da in Hlt by lia. nia.
Qed.

End WholeNumbers.

(** ** The two insertion sorts meet the contract *)

Section InsertionSort.

Context {A : Type} (lt : A -> A -> bool).

Lemma swo_incl (l l' : list A) :
  (forall a, a ∈ l' -> a ∈ l) ->
  strict_weak_order_on lt l -> strict_weak_order_on lt l'.
Proof.
  intros Hin (Hi & Ht & He). repeat split.
  - intros a Ha. apply Hi; auto.
  - intros a b c Ha Hb Hc. apply Ht; auto.
  - eapply (He x y z); auto.
  - eapply (He x y z); auto.
Qed.

Lemma swo_tail (x : A) (l : list A) :
  strict_weak_order_on lt (x :: l) -> strict_weak_order_on lt l.
Proof. apply swo_incl. intros a Ha. by right. Qed.

Lemma swo_asym (l : list A) (x y : A) :
  strict_weak_order_on lt l -> x ∈ l -> y ∈ l ->
  lt x y = true -> lt y x = false.
Proof.
  intros (Hi & Ht & _) Hx Hy Hxy.
  destruct (lt y x) eqn:Hyx; [|reflexivity].
  pose proof (Ht x y x Hx Hy Hx Hxy Hyx) as Hxx.
  rewrite (Hi x Hx) in Hxx. discriminate.
Qed.

(** Not being less is transitive. *)
Lemma swo_neg_trans (l : list A) (x y z : A) :
  strict_weak_order_on lt l -> x ∈ l -> y ∈ l -> z ∈ l ->
  lt x y = false -> lt y z = false -> lt x z = false.
Proof.
  intros Hswo Hx Hy Hz Hxy Hyz.
  pose proof Hswo as (Hi & Ht & He).
  destruct (lt x z) eqn:Hxz; [|reflexivity]. exfalso.
  destruct (lt y x) eqn:Hyx.
  { pose proof (Ht y x z Hy Hx Hz Hyx Hxz). congruence. }
  destruct (lt z y) eqn:Hzy.
  { pose proof (Ht x z y Hx Hz Hy Hxz Hzy). congruence. }
  destruct (He x y z Hx Hy Hz Hxy Hyx Hyz Hzy). congruence.
Qed.

Lemma insert_by_perm (before : A -> A -> bool) (x : A) (l : list A) :
  insert_by before x l ≡ₚ x :: l.
Proof.
  induction l as [|y l IH]; simpl; [reflexivity|].
  destruct (before x y); [reflexivity|].
  rewrite IH. apply perm_swap.
Qed.

Lemma insert_by_sorted (before : A -> A -> bool) (x : A) (l : list A) :
  strict_weak_order_on lt (x :: l) ->
  (forall y, y ∈ l -> before x y = true -> lt y x = false) ->
  (forall y, y ∈ l -> before x y = false -> lt x y = false) ->
  StronglySorted (fun a b => lt b a = false) l ->
  StronglySorted (fun a b => lt b a = false) (insert_by before x l).
Proof.
  intros Hswo Hb Hnb Hs. revert Hswo Hb Hnb.
  induction Hs as [|y l Hs IH Hy]; intros Hswo Hb Hnb; simpl.
  - constructor; constructor.
  - destruct (before x y) eqn:E.
    + constructor; [by constructor|].
      constructor; [apply Hb; [by left | assumption]|].
      rewrite Forall_forall in Hy |- *. intros z Hz.
      apply (swo_neg_trans (x :: y :: l) z y x Hswo).
      * by do 2 right.
      * right; by left.
      * by left.
      * by apply Hy.
      * apply Hb; [by left | assumption].
    + constructor.
      * apply IH.
        -- revert Hswo. apply swo_incl. intros a Ha.
           inversion Ha; subst; [by left | by do 2 right].
        -- intros z Hz. apply Hb. by right.
        -- intros z Hz. apply Hnb. by right.
      * eapply Permutation_Forall; [symmetry; apply insert_by_perm|].
        constructor; [apply Hnb; [by left | assumption] | assumption].
Qed.

End InsertionSort.

Lemma insertion_sort_sorts : sorts insertion_sort.
Proof.
  intros A lt l. induction l as [|x l IH]; intros Hswo.
  - split; [reflexivity | constructor].
  - destruct (IH (swo_tail lt x l Hswo)) as (Hp & Hs).
    unfold insertion_sort in *. simpl. split.
    + rewrite insert_by_perm. by constructor.
    + assert (Hswo' : strict_weak_order_on lt (x :: foldr (insert_by (fun x y => negb (lt y x))) [] l)).
      { revert Hswo. apply swo_incl. intros a Ha. by rewrite Hp in Ha. }
      apply insert_by_sorted; try assumption.
      * intros y Hy E. by apply negb_true_iff in E.
      * intros y Hy E. apply negb_false_iff in E.
        apply (swo_asym lt _ y x Hswo'); [by right | by left | assumption].
Qed.

(** ** The sort of the library meets its contract

    [std::sort] as embedded above, on a range that its comparison orders
    strictly and weakly: no read or write leaves the vector, and the result
    is a permutation of the range in which no element is less than an
    earlier one.  The partitions and the heap sort leave the range nearly
    sorted, every element from the seventeenth on with an element before it
    that it is not less than; that is what stops the unguarded insertions
    at the end. *)

Section LibrarySort.

Local Open Scope nat_scope.

Context {A : Type} (lt : A -> A -> bool) (range : list A).
Hypothesis Hswo : strict_weak_order_on lt range.

Lemma within_lookup (v : list A) (i : nat) (x : A) :
  within range v -> v !! i = Some x -> x ∈ range.
Proof. intros Hv Hx. exact (Forall_lookup_1 _ _ _ _ Hv Hx). Qed.

Lemma within_insert (v : list A) (i : nat) (x : A) :
  within range v -> x ∈ range -> within range (<[i := x]> v).
Proof. intros Hv Hx. by apply Forall_insert. Qed.

Lemma within_perm (v v' : list A) : v ≡ₚ v' -> within range v -> within range v'.
Proof. intros Hp Hv. unfold within. by rewrite <- Hp. Qed.

Lemma lt_irrefl (x : A) : x ∈ range -> lt x x = false.
Proof. destruct Hswo as (Hi & _). apply Hi. Qed.

Lemma lt_asym (x y : A) :
  x ∈ range -> y ∈ range -> lt x y = true -> lt y x = false.
Proof. apply (swo_asym lt range); assumption. Qed.

Lemma lt_neg_trans (x y z : A) :
  x ∈ range -> y ∈ range -> z ∈ range ->
  lt x y = false -> lt y z = false -> lt x z = false.
Proof. apply (swo_neg_trans lt range); assumption. Qed.

(** ** Assignments and swaps *)

Lemma assign_Some (i : nat) (x : A) (v : list A) :
  i < length v -> Libstdcxx.assign i x v = Some (<[i := x]> v).
Proof.
  intros Hi. unfold Libstdcxx.assign.
  destruct (lookup_lt_is_Some_2 v i Hi) as (y & ->). reflexivity.
Qed.

Lemma iter_swap_Some (a b : nat) (x y : A) (v : list A) :
  v !! a = Some x -> v !! b = Some y ->
  Libstdcxx.iter_swap a b v = Some (<[b := x]> (<[a := y]> v)).
Proof. intros Ha Hb. unfold Libstdcxx.iter_swap. rewrite Ha, Hb. reflexivity. Qed.

(** Two elements changing places leave a permutation. *)
Lemma swap_perm (a b : nat) (x y : A) (v : list A) :
  v !! a = Some x -> v !! b = Some y ->
  <[b := x]> (<[a := y]> v) ≡ₚ v.
Proof.
  revert a b. induction v as [|z v IH]; intros a b Ha Hb; [done|].
  destruct a as [|a], b as [|b]; simpl in *.
  - by simplify_eq.
  - simplify_eq. clear IH. revert b Hb. induction v as [|w v IH]; intros b Hb; [done|].
    destruct b as [|b]; simpl in *.
    + simplify_eq. apply perm_swap.
    + rewrite (perm_swap w y (<[b:=x]> v)), (IH b Hb). apply perm_swap.
  - simplify_eq. clear IH. revert a Ha. induction v as [|w v IH]; intros a Ha; [done|].
    destruct a as [|a]; simpl in *.
    + simplify_eq. apply perm_swap.
    + rewrite (perm_swap w x (<[a:=y]> v)), (IH a Ha). apply perm_swap.
  - constructor. by apply IH.
Qed.

(** Putting [x] in a place of a vector that has [y] there, next to [y]. *)
Lemma insert_perm (i : nat) (x y : A) (v : list A) :
  v !! i = Some y -> x :: v ≡ₚ y :: <[i := x]> v.
Proof.
  revert i. induction v as [|z v IH]; intros i Hi; [done|].
  destruct i as [|i]; simpl in *.
  - simplify_eq. apply perm_swap.
  - rewrite (perm_swap z x v), (IH i Hi). apply perm_swap.
Qed.


(** ** Sorted vectors *)

Lemma ascending_app (l1 l2 : list A) :
  ascending lt (l1 ++ l2) <->
  (forall x y, x ∈ l1 -> y ∈ l2 -> lt y x = false) /\ ascending lt l1 /\ ascending lt l2.
Proof.
  unfold ascending. induction l1 as [|a l1 IH]; simpl.
  - split; [intros H|intros (_ & _ & H); exact H].
    split; [intros x y Hx; by apply elem_of_nil in Hx|]. split; [constructor|exact H].
  - split.
    + intros H. apply StronglySorted_inv in H as (H1 & H2).
      apply IH in H1 as (Hc & Hs1 & Hs2). rewrite Forall_forall in H2.
      split; [|split; [|exact Hs2]].
      * intros x y [->|Hx]%elem_of_cons Hy.
        -- apply H2, elem_of_app. by right.
        -- by apply Hc.
      * constructor; [exact Hs1|]. rewrite Forall_forall. intros y Hy.
        apply H2, elem_of_app. by left.
    + intros (Hc & Hs1 & Hs2). apply StronglySorted_inv in Hs1 as (H1 & H2).
      constructor.
      * apply IH. split; [|split; assumption].
        intros x y Hx Hy. apply Hc; [by right|assumption].
      * rewrite Forall_forall in H2 |- *. intros y [Hy|Hy]%elem_of_app.
        -- by apply H2.
        -- apply Hc; [by left|assumption].
Qed.

(** ** Insertion *)

Lemma unguarded_linear_insert_loop_S (val : A) (next : nat) (v : list A) :
  Libstdcxx.unguarded_linear_insert_loop lt val (S next) v
  = x ← v !! next;
    if lt val x then
      v' ← Libstdcxx.assign (S next) x v;
      Libstdcxx.unguarded_linear_insert_loop lt val next v'
    else Libstdcxx.assign (S next) val v.
Proof. reflexivity. Qed.

(** The element goes down past what it is less than, and stops behind the
    first element it is not less than. *)
Lemma unguarded_linear_insert_loop_stops (val y : A) (mid : list A) :
  forall (pre : list A) (z : A) (post : list A),
  lt val y = false ->
  Forall (fun x => lt val x = true) mid ->
  Libstdcxx.unguarded_linear_insert_loop lt val (length (pre ++ y :: mid))
    ((pre ++ y :: mid) ++ z :: post)
  = Some ((pre ++ y :: val :: mid) ++ post).
Proof.
  induction mid as [|m mid IH] using rev_ind; intros pre z post Hy Hmid.
  - replace (length (pre ++ [y])) with (S (length pre))
      by (rewrite length_app; simpl; lia).
    rewrite unguarded_linear_insert_loop_S.
    rewrite <- app_assoc. simpl.
    rewrite (list_lookup_middle pre _ y (length pre)) by reflexivity. simpl.
    rewrite Hy. rewrite assign_Some by (rewrite length_app; simpl; lia).
    f_equal. rewrite <- app_assoc. simpl.
    replace (S (length pre)) with (length pre + 1) by lia.
    rewrite insert_app_r. reflexivity.
  - apply Forall_app in Hmid as (Hmid & Hm). apply Forall_cons in Hm as (Hm & _).
    replace (pre ++ y :: mid ++ [m]) with ((pre ++ y :: mid) ++ [m])
      by (rewrite <- app_assoc; reflexivity).
    replace (length ((pre ++ y :: mid) ++ [m])) with (S (length (pre ++ y :: mid)))
      by (rewrite (length_app _ [m]); simpl; lia).
    rewrite unguarded_linear_insert_loop_S.
    rewrite <- (app_assoc _ [m]). simpl.
    rewrite (list_lookup_middle (pre ++ y :: mid) _ m) by reflexivity. simpl.
    rewrite Hm. rewrite assign_Some by (rewrite !length_app; simpl; lia).
    simpl.
    replace (S (length (pre ++ y :: mid))) with (length (pre ++ y :: mid) + 1) by lia.
    rewrite insert_app_r. simpl.
    rewrite (IH pre m (m :: post) Hy Hmid).
    f_equal. rewrite <- !app_assoc. simpl. rewrite <- app_assoc. reflexivity.
Qed.

(** What is left of [x] splits at the last element [x] is not less than. *)
Lemma split_at_guard (x : A) (p : list A) :
  (exists y, y ∈ p /\ lt x y = false) ->
  exists pre y mid,
    p = pre ++ y :: mid /\ lt x y = false /\ Forall (fun z => lt x z = true) mid.
Proof.
  induction p as [|w p IH] using rev_ind; intros (y & Hy & Hxy).
  - by apply elem_of_nil in Hy.
  - destruct (lt x w) eqn:Hw.
    + apply elem_of_app in Hy as [Hy|Hy]; [|apply elem_of_cons in Hy as [->|Hy]; [congruence|by apply elem_of_nil in Hy]].
      destruct IH as (pre & y' & mid & -> & Hy' & Hmid); [by eauto|].
      exists pre, y', (mid ++ [w]). split; [by rewrite <- app_assoc|].
      split; [assumption|]. apply Forall_app. split; [assumption|].
      constructor; [assumption|constructor].
    + exists p, w, []. split; [reflexivity|]. split; [assumption|constructor].
Qed.

(** One element put into a sorted start of the vector, given an element
    before it that it is not less than. *)
Lemma unguarded_linear_insert_sorted (p : list A) (x : A) (rest : list A) :
  within range (p ++ [x]) -> ascending lt p ->
  (exists y, y ∈ p /\ lt x y = false) ->
  exists p',
    Libstdcxx.__unguarded_linear_insert lt (length p) (p ++ x :: rest)
    = Some (p' ++ rest) /\
    p' ≡ₚ p ++ [x] /\ ascending lt p'.
Proof.
  intros Hw Hs Hg. destruct (split_at_guard x p Hg) as (pre & y & mid & -> & Hy & Hmid).
  exists (pre ++ y :: x :: mid). split; [|split].
  - unfold Libstdcxx.__unguarded_linear_insert.
    rewrite (list_lookup_middle _ rest x) by reflexivity. simpl.
    apply unguarded_linear_insert_loop_stops; assumption.
  - rewrite <- app_assoc. simpl. apply Permutation_app_head. constructor.
    apply Permutation_cons_append.
  - apply Forall_app in Hw as (Hw & Hx). apply Forall_cons in Hx as (Hx & _).
    apply Forall_app in Hw as (Hpre & Hymid). apply Forall_cons in Hymid as (Hyr & Hmidr).
    apply ascending_app in Hs as (Hc & Hs1 & Hs2).
    apply StronglySorted_inv in Hs2 as (Hs2 & Hym).
    apply ascending_app. split; [|split; [assumption|]].
    + intros a b Ha Hb. apply elem_of_cons in Hb as [->|Hb]; [apply Hc; [assumption|by left]|].
      apply elem_of_cons in Hb as [->|Hb].
      * apply (lt_neg_trans x y a); try assumption.
        -- rewrite Forall_forall in Hpre. by apply Hpre.
        -- apply Hc; [assumption|by left].
      * apply Hc; [assumption|by right].
    + constructor; [constructor; [assumption|]|].
      * rewrite Forall_forall in Hmid, Hmidr |- *. intros b Hb.
        apply lt_asym; auto.
      * constructor.
        -- assumption.
        -- assumption.
Qed.


Lemma permutation_not_nil (l l' : list A) : l ≡ₚ l' -> l' <> [] -> l <> [].
Proof. intros Hp Hl ->. apply Permutation_nil in Hp. by symmetry in Hp. Qed.

(** The guarded lt insertion sort, from a sorted start of the vector on. *)
Lemma insertion_sort_loop_sorted (r1 : list A) :
  forall (p r2 : list A),
  p <> [] -> within range (p ++ r1) -> ascending lt p ->
  exists p',
    Libstdcxx.insertion_sort_loop lt (length r1) 0 (length p) (p ++ r1 ++ r2)
    = Some (p' ++ r2) /\
    p' ≡ₚ p ++ r1 /\ ascending lt p'.
Proof.
  induction r1 as [|x r1 IH]; intros p r2 Hp Hw Hs.
  - exists p. simpl. rewrite app_nil_r. auto.
  - destruct p as [|f p0] eqn:Ep; [done|]. rewrite <- Ep in *.
    change ((x :: r1) ++ r2) with (x :: r1 ++ r2).
    assert (Hf : (p ++ x :: r1 ++ r2) !! 0 = Some f) by (rewrite Ep; reflexivity).
    assert (Hx : (p ++ x :: r1 ++ r2) !! length p = Some x)
      by (by rewrite (list_lookup_middle p _ x)).
    assert (Hwx : within range (p ++ [x])).
    { apply Forall_app in Hw as (Hw1 & Hw2). apply Forall_cons in Hw2 as (Hw2 & _).
      apply Forall_app. split; [assumption|]. constructor; [assumption|constructor]. }
    assert (Hstep : exists p1,
      (if lt x f then Some (Libstdcxx.move_to_first 0 (length p) x (p ++ x :: r1 ++ r2))
       else Libstdcxx.__unguarded_linear_insert lt (length p) (p ++ x :: r1 ++ r2))
      = Some (p1 ++ r1 ++ r2) /\ p1 ≡ₚ p ++ [x] /\ ascending lt p1).
    { destruct (lt x f) eqn:Hxf.
      - exists (x :: p). split; [|split].
        + unfold Libstdcxx.move_to_first. simpl take at 1. rewrite drop_0, Nat.sub_0_r.
          rewrite take_app_length. simpl.
          replace (S (length p)) with (length (p ++ [x])) by (rewrite length_app; simpl; lia).
          replace (p ++ x :: r1 ++ r2) with ((p ++ [x]) ++ r1 ++ r2)
            by (rewrite <- app_assoc; reflexivity).
          rewrite drop_app_length. reflexivity.
        + apply Permutation_cons_append.
        + constructor; [assumption|]. rewrite Forall_forall. intros y Hy.
          apply Forall_app in Hwx as (Hwp & Hwx). apply Forall_cons in Hwx as (Hwx & _).
          rewrite Forall_forall in Hwp.
          assert (Hfr : f ∈ range) by (apply Hwp; rewrite Ep; by left).
          apply (lt_neg_trans y f x); auto.
          * rewrite Ep in Hy, Hs. apply elem_of_cons in Hy as [->|Hy]; [by apply lt_irrefl|].
            apply StronglySorted_inv in Hs as (_ & Hs). rewrite Forall_forall in Hs. by apply Hs.
          * by apply lt_asym.
      - destruct (unguarded_linear_insert_sorted p x (r1 ++ r2) Hwx Hs) as (p1 & E & Hp1 & Hs1).
        + exists f. split; [rewrite Ep; by left|assumption].
        + exists p1. auto. }
    destruct Hstep as (p1 & E1 & Hp1 & Hs1).
    destruct (IH p1 r2) as (p' & E & Hp' & Hs').
    + apply (permutation_not_nil _ _ Hp1). by destruct p.
    + apply (within_perm ((p ++ [x]) ++ r1)).
      * by rewrite Hp1.
      * by rewrite <- app_assoc.
    + assumption.
    + exists p'. split; [|split; [|assumption]].
      * cbn [Libstdcxx.insertion_sort_loop length]. rewrite Hx, Hf. cbn [mbind option_bind].
        rewrite E1. cbn [mbind option_bind].
        replace (S (length p)) with (length p1)
          by (rewrite Hp1, length_app; simpl; lia).
        exact E.
      * rewrite Hp', Hp1, <- app_assoc. reflexivity.
Qed.

Lemma insertion_sort_sorted (l1 l2 : list A) :
  within range l1 ->
  exists p',
    Libstdcxx.__insertion_sort lt 0 (length l1) (l1 ++ l2) = Some (p' ++ l2) /\
    p' ≡ₚ l1 /\ ascending lt p'.
Proof.
  intros Hw. unfold Libstdcxx.__insertion_sort. destruct l1 as [|f l1].
  - exists []. simpl. split; [reflexivity|]. split; [reflexivity|constructor].
  - rewrite bool_decide_eq_false_2 by (simpl; lia).
    destruct (insertion_sort_loop_sorted l1 [f] l2) as (p' & E & Hp & Hs).
    + done.
    + exact Hw.
    + repeat constructor.
    + exists p'. split; [|auto]. simpl length. simpl in E.
      replace (S (length l1) - (0 + 1)) with (length l1) by lia. exact E.
Qed.

Lemma unguarded_insertion_sort_loop_sorted (r1 : list A) :
  forall (p r2 : list A),
  within range (p ++ r1) -> ascending lt p -> guarded lt p r1 ->
  exists p',
    Libstdcxx.unguarded_insertion_sort_loop lt (length r1) (length p) (p ++ r1 ++ r2)
    = Some (p' ++ r2) /\
    p' ≡ₚ p ++ r1 /\ ascending lt p'.
Proof.
  induction r1 as [|x r1 IH]; intros p r2 Hw Hs Hg.
  - exists p. simpl. rewrite app_nil_r. auto.
  - assert (Hwx : within range (p ++ [x])).
    { apply Forall_app in Hw as (Hw1 & Hw2). apply Forall_cons in Hw2 as (Hw2 & _).
      apply Forall_app. split; [assumption|]. constructor; [assumption|constructor]. }
    destruct (unguarded_linear_insert_sorted p x (r1 ++ r2) Hwx Hs) as (p1 & E1 & Hp1 & Hs1).
    { destruct (Hg [] x r1 eq_refl) as (y & Hy & Hxy). rewrite app_nil_r in Hy. eauto. }
    destruct (IH p1 r2) as (p' & E & Hp' & Hs').
    + apply (within_perm ((p ++ [x]) ++ r1)).
      * by rewrite Hp1.
      * by rewrite <- app_assoc.
    + assumption.
    + intros ra z rb ->. destruct (Hg (x :: ra) z rb eq_refl) as (y & Hy & Hzy).
      exists y. split; [|assumption]. rewrite Hp1, <- app_assoc. exact Hy.
    + exists p'. split; [|split; [|assumption]].
      * cbn [Libstdcxx.unguarded_insertion_sort_loop length].
        change (p ++ (x :: r1) ++ r2) with (p ++ x :: r1 ++ r2).
        rewrite E1. cbn [mbind option_bind].
        replace (S (length p)) with (length p1)
          by (rewrite Hp1, length_app; simpl; lia).
        exact E.
      * rewrite Hp', Hp1, <- app_assoc. reflexivity.
Qed.

Lemma final_insertion_sort_long (l1 l2 : list A) :
  length l1 = Libstdcxx._S_threshold -> l2 <> [] ->
  within range (l1 ++ l2) -> nearly lt (l1 ++ l2) ->
  exists v',
    Libstdcxx.__final_insertion_sort lt 0 (length (l1 ++ l2)) (l1 ++ l2) = Some v' /\
    v' ≡ₚ l1 ++ l2 /\ ascending lt v'.
Proof.
  intros Hl1 Hl2 Hw Hn. unfold Libstdcxx.__final_insertion_sort.
  rewrite Nat.sub_0_r, length_app.
  rewrite bool_decide_eq_true_2 by (destruct l2; [done|simpl; lia]).
  apply Forall_app in Hw as (Hw1 & Hw2).
  destruct (insertion_sort_sorted l1 l2 Hw1) as (p & E & Hp & Hs).
  replace (0 + Libstdcxx._S_threshold) with (length l1) by lia.
  rewrite E. cbn [mbind option_bind].
  destruct (unguarded_insertion_sort_loop_sorted l2 p []) as (p' & E' & Hp' & Hs').
  - apply Forall_app. split; [|assumption]. by apply (within_perm l1).
  - assumption.
  - intros ra x rb ->. destruct (Hn (l1 ++ ra) x rb) as (y & Hy & Hxy).
    + by rewrite <- app_assoc.
    + rewrite length_app. lia.
    + exists y. split; [|assumption]. by rewrite Hp.
  - exists p'. rewrite !app_nil_r in E'. split; [|split; [|assumption]].
    + unfold Libstdcxx.__unguarded_insertion_sort.
      replace (length l1 + length l2 - length l1) with (length l2) by lia.
      rewrite <- (Permutation_length Hp). exact E'.
    + rewrite Hp', Hp. reflexivity.
Qed.

Lemma final_insertion_sort_sorted (v : list A) :
  within range v -> nearly lt v ->
  exists v',
    Libstdcxx.__final_insertion_sort lt 0 (length v) v = Some v' /\
    v' ≡ₚ v /\ ascending lt v'.
Proof.
  intros Hw Hn. destruct (decide (Libstdcxx._S_threshold < length v)) as [Hlen|Hlen].
  - rewrite <- (take_drop Libstdcxx._S_threshold v) in Hw, Hn |- *.
    apply final_insertion_sort_long; try assumption.
    + rewrite length_take. lia.
    + intros E. apply (f_equal length) in E. rewrite length_drop in E. simpl in E. lia.
  - unfold Libstdcxx.__final_insertion_sort.
    rewrite Nat.sub_0_r, bool_decide_eq_false_2 by assumption.
    destruct (insertion_sort_sorted v [] Hw) as (p & E & Hp & Hs).
    rewrite !app_nil_r in E. eauto.
Qed.


(** ** Partition *)

Lemma scan_up_stops (p : A) (rest : list A) :
  forall (first j : nat) (x : A),
  rest !! j = Some x -> lt x p = false ->
  exists k x',
    Libstdcxx.scan_up lt p first rest = Some (first + k) /\
    k <= j /\ rest !! k = Some x' /\ lt x' p = false.
Proof.
  induction rest as [|y rest IH]; intros first j x Hj Hx; [done|].
  simpl. destruct (lt y p) eqn:Hy.
  - destruct j as [|j]; simpl in Hj; [simplify_eq; congruence|].
    destruct (IH (S first) j x Hj Hx) as (k & x' & E & Hk & Hx' & Hlt).
    exists (S k), x'. rewrite E. split; [f_equal; lia|]. split; [lia|]. auto.
  - exists 0, y. rewrite Nat.add_0_r. split; [reflexivity|]. split; [lia|]. auto.
Qed.

Lemma scan_down_stops (p : A) (v : list A) (pv : nat) :
  v !! pv = Some p -> lt p p = false ->
  forall e : nat, pv <= e -> e < length v ->
  exists L',
    Libstdcxx.scan_down lt p e v = Some L' /\
    pv <= L' /\ L' <= e /\
    (exists x, v !! L' = Some x /\ lt p x = false) /\
    (forall q y, L' < q -> q <= e -> v !! q = Some y -> lt p y = true).
Proof.
  intros Hp Hpp. induction e as [|e IH]; intros Hle Hlen.
  - assert (pv = 0) as -> by lia. simpl. rewrite Hp. simpl. rewrite Hpp.
    exists 0. split; [reflexivity|]. split; [lia|]. split; [lia|].
    split; [by eauto|]. intros q y Hq1 Hq2. lia.
  - destruct (lookup_lt_is_Some_2 v (S e) Hlen) as (x & Hx).
    simpl. rewrite Hx. simpl. destruct (lt p x) eqn:Hpx.
    + assert (pv <= e).
      { destruct (decide (pv = S e)) as [->|]; [|lia]. congruence. }
      destruct IH as (L' & E & H1 & H2 & H3 & H4); [assumption|lia|].
      exists L'. split; [assumption|]. split; [assumption|]. split; [lia|].
      split; [assumption|]. intros q y Hq1 Hq2 Hy.
      destruct (decide (q = S e)) as [->|]; [congruence|]. apply (H4 q); [lia|lia|assumption].
    + exists (S e). split; [reflexivity|]. split; [assumption|]. split; [lia|].
      split; [by eauto|]. intros q y Hq1 Hq2. lia.
Qed.

Lemma unguarded_partition_loop_eq (turns first last pivot : nat) (v : list A) :
  Libstdcxx.unguarded_partition_loop lt turns first last pivot v =
  p ← v !! pivot;
  first ← Libstdcxx.scan_up lt p first (drop first v);
  last ← (match last with
          | 0 => None
          | S last' => Libstdcxx.scan_down lt p last' v
          end);
  if bool_decide (first < last) then
    match turns with
    | 0 => None
    | S turns' =>
        v' ← Libstdcxx.iter_swap first last v;
        Libstdcxx.unguarded_partition_loop lt turns' (S first) last pivot v'
    end
  else Some (first, v).
Proof. destruct turns; reflexivity. Qed.

(** The loop of the partition, with the pivot at [pv] in front of the
    part [F, lastN) it works on.  Some element from [F] to [L] is not less
    than the pivot, so the way up stops; the pivot stops the way down.  What
    is left from the cut on is not less than the pivot. *)
Lemma unguarded_partition_loop_spec (p : A) (pv lastN : nat) (turns : nat) :
  forall (F L : nat) (v : list A),
  within range v ->
  v !! pv = Some p -> pv < F -> F <= L -> L <= lastN -> lastN <= length v ->
  (exists j x, F <= j /\ j <= L /\ j < lastN /\ v !! j = Some x /\ lt x p = false) ->
  (forall q x, L <= q -> q < lastN -> v !! q = Some x -> lt x p = false) ->
  L - F <= turns ->
  exists cut v',
    Libstdcxx.unguarded_partition_loop lt turns F L pv v = Some (cut, v') /\
    F <= cut /\ cut < lastN /\
    v' ≡ₚ v /\ length v' = length v /\
    (forall q, q < F \/ lastN <= q -> v' !! q = v !! q) /\
    (forall q x, cut <= q -> q < lastN -> v' !! q = Some x -> lt x p = false).
Proof.
  induction turns as [|turns IH]; intros F L v Hw Hp HpF HFL HL Hlen (j & xj & Hj1 & Hj2 & Hj3 & Hj & Hxj) Hright Hturns.
  all: rewrite unguarded_partition_loop_eq, Hp; cbn [mbind option_bind].
  all: assert (Hpr : p ∈ range) by (by apply (within_lookup v pv)).
  all: destruct (scan_up_stops p (drop F v) F (j - F) xj) as (k & x' & -> & Hk & Hx' & Hx'p);
    [rewrite lookup_drop; by replace (F + (j - F)) with j by lia|assumption|].
  all: rewrite lookup_drop in Hx'; cbn [mbind option_bind].
  all: destruct L as [|Lm]; [lia|].
  all: destruct (scan_down_stops p v pv Hp (lt_irrefl p Hpr) Lm) as (L' & -> & HL1 & HL2 & (xl & Hxl & Hpxl) & Hskip);
    [lia|lia|]; cbn [mbind option_bind].
  all: case_bool_decide as Hcmp.
  - lia.
  - exists (F + k), v. split; [reflexivity|]. split; [lia|]. split; [lia|].
    split; [reflexivity|]. split; [reflexivity|]. split; [reflexivity|].
    intros q y Hq1 Hq2 Hy. destruct (decide (q = F + k)) as [->|Hne]; [congruence|].
    assert (Hyr : y ∈ range) by (by apply (within_lookup v q)).
    destruct (decide (q <= Lm)) as [Hq|Hq].
    + apply lt_asym; [assumption|assumption|]. apply (Hskip q); [lia|lia|assumption].
    + apply (Hright q); [lia|lia|assumption].
  - rewrite (iter_swap_Some _ _ x' xl) by assumption. cbn [mbind option_bind].
    set (v1 := <[L' := x']> (<[F + k := xl]> v)).
    assert (Hlen1 : length v1 = length v) by (unfold v1; by rewrite !length_insert).
    assert (Hout : forall q, q <> F + k -> q <> L' -> v1 !! q = v !! q).
    { intros q Hq1 Hq2. unfold v1. by rewrite !list_lookup_insert_ne by auto. }
    assert (HL' : v1 !! L' = Some x').
    { unfold v1. apply list_lookup_insert_eq. rewrite length_insert. lia. }
    destruct (IH (S (F + k)) L' v1) as (cut & v' & E & Hc1 & Hc2 & Hperm & Hlen' & Hframe & Hpost).
    + unfold v1. apply within_insert; [apply within_insert; [assumption|]|].
      * by apply (within_lookup v L').
      * by apply (within_lookup v (F + k)).
    + rewrite Hout by lia. assumption.
    + lia.
    + lia.
    + lia.
    + lia.
    + exists L', x'. split; [lia|]. split; [lia|]. split; [lia|]. auto.
    + intros q y Hq1 Hq2 Hy. destruct (decide (q = L')) as [->|Hne]; [congruence|].
      rewrite Hout in Hy by lia.
      assert (Hyr : y ∈ range) by (by apply (within_lookup v q)).
      destruct (decide (q <= Lm)) as [Hq|Hq].
      * apply lt_asym; [assumption|assumption|]. apply (Hskip q); [lia|lia|assumption].
      * apply (Hright q); [lia|lia|assumption].
    + lia.
    + exists cut, v'. split; [exact E|]. split; [lia|]. split; [lia|].
      split; [rewrite Hperm; unfold v1; by apply swap_perm|].
      split; [lia|]. split; [|assumption].
      intros q Hq. rewrite Hframe by lia. apply Hout; lia.
  - exists (F + k), v. split; [reflexivity|]. split; [lia|]. split; [lia|].
    split; [reflexivity|]. split; [reflexivity|]. split; [reflexivity|].
    intros q y Hq1 Hq2 Hy. destruct (decide (q = F + k)) as [->|Hne]; [congruence|].
    assert (Hyr : y ∈ range) by (by apply (within_lookup v q)).
    destruct (decide (q <= Lm)) as [Hq|Hq].
    + apply lt_asym; [assumption|assumption|]. apply (Hskip q); [lia|lia|assumption].
    + apply (Hright q); [lia|lia|assumption].
Qed.


Lemma move_median_to_first_spec (r a b c : nat) (v : list A) (w x y z : A) :
  within range v -> a <> b -> b <> c -> a <> c ->
  v !! r = Some w -> v !! a = Some x -> v !! b = Some y -> v !! c = Some z ->
  exists m p j q,
    Libstdcxx.__move_median_to_first lt r a b c v
    = Some (<[m := w]> (<[r := p]> v)) /\
    v !! m = Some p /\ (m = a \/ m = b \/ m = c) /\
    v !! j = Some q /\ (j = a \/ j = b \/ j = c) /\ j <> m /\
    lt q p = false.
Proof.
  intros Hw Hab Hbc Hac Hr Ha Hb Hc.
  assert (Hx : x ∈ range) by (by apply (within_lookup v a)).
  assert (Hy : y ∈ range) by (by apply (within_lookup v b)).
  assert (Hz : z ∈ range) by (by apply (within_lookup v c)).
  unfold Libstdcxx.__move_median_to_first. rewrite Ha, Hb, Hc. cbn [mbind option_bind].
  destruct (lt x y) eqn:Hxy; [destruct (lt y z) eqn:Hyz; [|destruct (lt x z) eqn:Hxz]
                             |destruct (lt x z) eqn:Hxz; [|destruct (lt y z) eqn:Hyz]].
  - exists b, y, c, z. rewrite (iter_swap_Some r b w y) by assumption.
    repeat split; auto using lt_asym.
  - exists c, z, b, y. rewrite (iter_swap_Some r c w z) by assumption.
    repeat split; auto using lt_asym.
  - exists a, x, b, y. rewrite (iter_swap_Some r a w x) by assumption.
    repeat split; auto using lt_asym.
  - exists a, x, c, z. rewrite (iter_swap_Some r a w x) by assumption.
    repeat split; auto using lt_asym.
  - exists c, z, a, x. rewrite (iter_swap_Some r c w z) by assumption.
    repeat split; auto using lt_asym.
  - exists b, y, a, x. rewrite (iter_swap_Some r b w y) by assumption.
    repeat split; auto using lt_asym.
Qed.

Lemma half_between (n : nat) : 4 <= n -> 2 <= n / 2 /\ n / 2 < n - 1.
Proof.
  intros Hn. pose proof (Nat.div_mod_eq n 2) as H1.
  pose proof (Nat.mod_upper_bound n 2) as H2. lia.
Qed.

(** The partition of [first, last): the pivot is left at [first], and
    from the cut on no element is less than it. *)
Lemma unguarded_partition_pivot_spec (first last : nat) (v : list A) :
  within range v -> first + 4 <= last -> last <= length v ->
  exists cut v' p,
    Libstdcxx.__unguarded_partition_pivot lt first last v = Some (cut, v') /\
    first < cut /\ cut < last /\
    v' ≡ₚ v /\ length v' = length v /\
    (forall q, q < first \/ last <= q -> v' !! q = v !! q) /\
    v' !! first = Some p /\
    (forall q x, cut <= q -> q < last -> v' !! q = Some x -> lt x p = false).
Proof.
  intros Hw Hlen Hlast. unfold Libstdcxx.__unguarded_partition_pivot.
  destruct (half_between (last - first)) as (Hm1 & Hm2); [lia|].
  set (mid := first + (last - first) / 2).
  destruct (lookup_lt_is_Some_2 v first) as (w & Hr); [lia|].
  destruct (lookup_lt_is_Some_2 v (first + 1)) as (x & Ha); [lia|].
  destruct (lookup_lt_is_Some_2 v mid) as (y & Hb); [unfold mid; lia|].
  destruct (lookup_lt_is_Some_2 v (last - 1)) as (z & Hc); [lia|].
  destruct (move_median_to_first_spec first (first + 1) mid (last - 1) v w x y z)
    as (m & p & j & q & -> & Hm & Hmr & Hj & Hjr & Hjm & Hqp); try assumption.
  { unfold mid. lia. } { unfold mid. lia. } { lia. }
  cbn [mbind option_bind]. set (v1 := <[m := w]> (<[first := p]> v)).
  assert (Hmb : first < m /\ m < last) by (unfold mid in Hmr; lia).
  assert (Hjb : first < j /\ j < last) by (unfold mid in Hjr; lia).
  assert (Hlen1 : length v1 = length v) by (unfold v1; by rewrite !length_insert).
  assert (Hout : forall i, i <> first -> i <> m -> v1 !! i = v !! i).
  { intros i Hi1 Hi2. unfold v1. by rewrite !list_lookup_insert_ne by auto. }
  assert (Hp1 : v1 !! first = Some p).
  { unfold v1. rewrite list_lookup_insert_ne by lia. apply list_lookup_insert_eq. lia. }
  destruct (unguarded_partition_loop_spec p first last (last - (first + 1))
              (first + 1) last v1)
    as (cut & v' & E & Hc1 & Hc2 & Hperm & Hlen' & Hframe & Hpost).
  - unfold v1. apply within_insert; [apply within_insert; [assumption|]|].
    + by apply (within_lookup v m).
    + by apply (within_lookup v first).
  - assumption.
  - lia.
  - lia.
  - lia.
  - lia.
  - exists j, q. split; [lia|]. split; [lia|]. split; [lia|].
    split; [|assumption]. rewrite Hout by lia. assumption.
  - intros i y' Hi1 Hi2. lia.
  - lia.
  - exists cut, v', p. unfold Libstdcxx.__unguarded_partition. rewrite E.
    split; [reflexivity|]. split; [lia|]. split; [lia|].
    split; [rewrite Hperm; unfold v1; by apply swap_perm|].
    split; [lia|]. split; [|split; [|assumption]].
    + intros i Hi. rewrite Hframe by lia. apply Hout; lia.
    + rewrite Hframe by lia. assumption.
Qed.

(** ** Parts of the vector *)

(** What is changed within range a part only is the vector with that part
    replaced. *)
Lemma frame_segment (pre seg post v' : list A) :
  length v' = length (pre ++ seg ++ post) ->
  (forall q, q < length pre \/ length pre + length seg <= q ->
             v' !! q = (pre ++ seg ++ post) !! q) ->
  v' ≡ₚ pre ++ seg ++ post ->
  exists seg', v' = pre ++ seg' ++ post /\ seg' ≡ₚ seg.
Proof.
  intros Hlen Hframe Hperm. rewrite !length_app in Hlen.
  assert (Hpre : take (length pre) v' = pre).
  { apply list_eq. intros i. destruct (decide (i < length pre)) as [Hi|Hi].
    - rewrite lookup_take_lt, Hframe by auto. by rewrite lookup_app_l.
    - rewrite lookup_take_ge by lia. symmetry. apply lookup_ge_None_2. lia. }
  assert (Hpost : drop (length pre + length seg) v' = post).
  { apply list_eq. intros i. rewrite lookup_drop, Hframe by lia.
    rewrite app_assoc, lookup_app_r by (rewrite length_app; lia).
    f_equal. rewrite length_app. lia. }
  exists (take (length seg) (drop (length pre) v')).
  assert (Hv : v' = pre ++ take (length seg) (drop (length pre) v') ++ post).
  { rewrite <- (take_drop (length pre) v') at 1. rewrite Hpre. f_equal.
    rewrite <- (take_drop (length seg) (drop (length pre) v')) at 1.
    by rewrite drop_drop, Hpost. }
  split; [exact Hv|]. rewrite Hv in Hperm at 1.
  apply Permutation_app_inv_l in Hperm. by apply Permutation_app_inv_r in Hperm.
Qed.

Lemma partition_segments (pre seg post : list A) :
  within range (pre ++ seg ++ post) -> 4 <= length seg ->
  exists p L0 R,
    Libstdcxx.__unguarded_partition_pivot lt (length pre) (length pre + length seg)
      (pre ++ seg ++ post)
    = Some (length pre + S (length L0), pre ++ (p :: L0 ++ R) ++ post) /\
    p :: L0 ++ R ≡ₚ seg /\
    Forall (fun x => lt x p = false) R.
Proof.
  intros Hw Hlen.
  destruct (unguarded_partition_pivot_spec (length pre) (length pre + length seg)
              (pre ++ seg ++ post))
    as (cut & v' & p & E & Hc1 & Hc2 & Hperm & Hlen' & Hframe & Hp & Hpost).
  { assumption. } { lia. } { rewrite !length_app. lia. }
  destruct (frame_segment pre seg post v' Hlen' Hframe Hperm) as (seg' & -> & Hseg).
  assert (Hlseg : length seg' = length seg) by (by rewrite Hseg).
  rewrite lookup_app_r in Hp by lia. rewrite Nat.sub_diag in Hp.
  destruct seg' as [|p' s]; [simpl in Hlseg; lia|]. simpl in Hp. simplify_eq.
  simpl in Hlseg.
  exists p, (take (cut - length pre - 1) s), (drop (cut - length pre - 1) s).
  rewrite take_drop. split; [|split; [assumption|]].
  - rewrite E. f_equal. f_equal. rewrite length_take. lia.
  - apply Forall_lookup. intros i x Hx. rewrite lookup_drop in Hx.
    apply (Hpost (cut + i)); [lia| |].
    + apply lookup_lt_Some in Hx. lia.
    + rewrite lookup_app_r by lia.
      replace (cut + i - length pre) with (S (cut - length pre - 1 + i)) by lia.
      simpl. rewrite lookup_app_l by (apply lookup_lt_Some in Hx; lia). assumption.
Qed.


(** ** The heap *)

(** A part of the vector, read and written from its beginning. *)
Lemma segment_lookup (pre h post : list A) (i : nat) :
  i < length h -> (pre ++ h ++ post) !! (length pre + i) = h !! i.
Proof.
  intros Hi. rewrite lookup_app_r by lia.
  replace (length pre + i - length pre) with i by lia. by rewrite lookup_app_l.
Qed.

Lemma segment_assign (pre h post : list A) (i : nat) (x : A) :
  i < length h ->
  Libstdcxx.assign (length pre + i) x (pre ++ h ++ post)
  = Some (pre ++ <[i := x]> h ++ post).
Proof.
  intros Hi. rewrite assign_Some by (rewrite !length_app; lia).
  rewrite insert_app_r. by rewrite insert_app_l.
Qed.

Lemma parent_cases (i : nat) :
  0 < i -> i = 2 * parent i + 1 \/ i = 2 * parent i + 2.
Proof.
  intros Hi. unfold parent.
  pose proof (Nat.div_mod_eq (i - 1) 2). pose proof (Nat.mod_upper_bound (i - 1) 2). lia.
Qed.

Lemma parent_left (k : nat) : parent (2 * k + 1) = k.
Proof.
  unfold parent. replace (2 * k + 1 - 1) with (k * 2) by lia. apply Nat.div_mul. lia.
Qed.

Lemma parent_right (k : nat) : parent (2 * k + 2) = k.
Proof.
  unfold parent. replace (2 * k + 2 - 1) with (1 + k * 2) by lia.
  rewrite Nat.div_add by lia. reflexivity.
Qed.

Lemma under_ge (t k : nat) : under t k -> t <= k.
Proof. induction 1; lia. Qed.

Lemma under_parent (t k : nat) : under t k -> t < k -> under t (parent k).
Proof.
  intros H Hk. destruct H as [|k H|k H]; [lia| |].
  - by rewrite parent_left.
  - by rewrite parent_right.
Qed.

Lemma push_heap_loop_eq (turns first holeIndex topIndex : nat) (value : A) (v : list A) :
  Libstdcxx.push_heap_loop lt turns first holeIndex topIndex value v =
  if bool_decide (topIndex < holeIndex) then
    p ← v !! (first + (holeIndex - 1) / 2);
    if lt p value then
      match turns with
      | 0 => None
      | S turns' =>
          v' ← Libstdcxx.assign (first + holeIndex) p v;
          Libstdcxx.push_heap_loop lt turns' first ((holeIndex - 1) / 2) topIndex value v'
      end
    else Libstdcxx.assign (first + holeIndex) value v
  else Libstdcxx.assign (first + holeIndex) value v.
Proof. destruct turns; reflexivity. Qed.

(** The hole exchanged with another place. *)
Lemma hole_moves (k c : nat) (val x : A) (h : list A) :
  k <> c -> k < length h -> h !! c = Some x ->
  <[c := val]> (<[k := x]> h) ≡ₚ <[k := val]> h.
Proof.
  intros Hkc Hk Hc.
  rewrite <- (list_insert_insert_eq h k x val).
  apply swap_perm.
  - by apply list_lookup_insert_eq.
  - by rewrite list_lookup_insert_ne.
Qed.

(** The value goes up from the hole to its place. *)
Lemma push_heap_loop_spec (t : nat) (val : A) (pre post h0 : list A) (turns : nat) :
  forall (k : nat) (h : list A),
  k <= turns -> val ∈ range -> within range h -> k < length h -> under t k ->
  edges_ok lt t k h -> below_hole_ok lt t k h -> below_value lt k val h ->
  <[k := val]> h ≡ₚ h0 ->
  exists h',
    Libstdcxx.push_heap_loop lt turns (length pre) k t val (pre ++ h ++ post)
    = Some (pre ++ h' ++ post) /\
    h' ≡ₚ h0 /\ heap_from lt t h'.
Proof.
  induction turns as [|turns IH]; intros k h Hturns Hval Hw Hk Hu He Hb Hv Hp.
  all: rewrite push_heap_loop_eq.
  all: assert (Hplace : t < k -> (forall y, h !! parent k = Some y -> lt y val = false) ->
                        heap_from lt t (<[k := val]> h)).
  1,3: intros Htk Hpar i x y Hi Hti Hx Hy;
       destruct (decide (i = k)) as [->|Hik];
       [rewrite list_lookup_insert_eq in Hx by assumption;
        rewrite list_lookup_insert_ne in Hy by (pose proof (parent_cases k); lia);
        simplify_eq; by apply Hpar
       |rewrite list_lookup_insert_ne in Hx by auto;
        destruct (decide (parent i = k)) as [Hpk|Hpk];
        [rewrite Hpk, list_lookup_insert_eq in Hy by assumption; simplify_eq;
         by apply (Hv i)
        |rewrite list_lookup_insert_ne in Hy by auto; by apply (He i)]].
  all: assert (Htop : ~ t < k -> heap_from lt t (<[k := val]> h)).
  1,3: intros Htk i x y Hi Hti Hx Hy; pose proof (under_ge _ _ Hu);
       assert (k = t) as -> by lia;
       destruct (decide (i = t)) as [->|Hik];
       [pose proof (parent_cases t); lia|];
       rewrite list_lookup_insert_ne in Hx by auto;
       destruct (decide (parent i = t)) as [Hpk|Hpk];
       [rewrite Hpk, list_lookup_insert_eq in Hy by assumption; simplify_eq;
        by apply (Hv i)
       |rewrite list_lookup_insert_ne in Hy by auto; by apply (He i)].
  all: case_bool_decide as Htk;
    [|rewrite segment_assign by assumption; eexists; split; [reflexivity|];
      split; [assumption|by apply Htop]].
  all: fold (parent k); pose proof (parent_cases k) as Hpc.
  all: destruct (lookup_lt_is_Some_2 h (parent k)) as (p & Hpk); [lia|].
  all: rewrite segment_lookup, Hpk by lia; cbn [mbind option_bind].
  all: destruct (lt p val) eqn:Hpv;
    [|rewrite segment_assign by assumption; eexists; split; [reflexivity|];
      split; [assumption|apply Hplace; [assumption|]; intros y Hy; by simplify_eq]].
  - lia.
  - rewrite segment_assign by assumption. cbn [mbind option_bind].
    assert (Hpr : p ∈ range) by (by apply (within_lookup h (parent k))).
    destruct (IH (parent k) (<[k := p]> h)) as (h' & E & Hp' & Hh').
    + lia.
    + assumption.
    + by apply within_insert.
    + rewrite length_insert. lia.
    + by apply under_parent.
    + intros i x y Hi Hti Hik Hpik Hx Hy.
      destruct (decide (i = k)) as [->|Hne]; [done|].
      rewrite list_lookup_insert_ne in Hx by auto.
      destruct (decide (parent i = k)) as [Hpik'|Hpik'].
      * rewrite Hpik' in Hy. rewrite list_lookup_insert_eq in Hy by assumption.
        simplify_eq. by apply (Hb Htk i).
      * rewrite list_lookup_insert_ne in Hy by auto. by apply (He i).
    + intros Htp i x y Hi Hpi Hx Hy.
      rewrite list_lookup_insert_ne in Hy by (pose proof (parent_cases (parent k)); lia).
      assert (Hpp : lt y p = false).
      { apply (He (parent k)); try assumption; try lia.
        - pose proof (under_ge _ _ (under_parent _ _ (under_parent _ _ Hu Htk) Htp)). lia.
        - pose proof (parent_cases (parent k)). lia. }
      destruct (decide (i = k)) as [->|Hne].
      * rewrite list_lookup_insert_eq in Hx by assumption. by simplify_eq.
      * rewrite list_lookup_insert_ne in Hx by auto.
        apply (lt_neg_trans y p x); try assumption.
        -- by apply (within_lookup h (parent (parent k))).
        -- by apply (within_lookup h i).
        -- pose proof (under_ge _ _ (under_parent _ _ Hu Htk)).
           apply (He i); try assumption; try lia. by rewrite Hpi.
    + intros i x Hi Hpi Hx.
      destruct (decide (i = k)) as [->|Hne].
      * rewrite list_lookup_insert_eq in Hx by assumption. simplify_eq.
        by apply (lt_asym).
      * rewrite list_lookup_insert_ne in Hx by auto.
        apply (lt_neg_trans val p x); try assumption.
        -- by apply (within_lookup h i).
        -- by apply (lt_asym).
        -- pose proof (under_ge _ _ (under_parent _ _ Hu Htk)).
           apply (He i); try assumption; try lia. by rewrite Hpi.
    + rewrite <- Hp. apply hole_moves; [lia|assumption|assumption].
    + exists h'. rewrite E. auto.
Qed.


(** The hole goes down to the place [c] under it, whose element goes up;
    the other element under the hole is not above that one. *)
Lemma hole_down (t k c : nat) (x val : A) (h h0 : list A) :
  within range h -> k < length h -> 0 < c -> parent c = k -> h !! c = Some x ->
  (forall i y, 0 < i -> parent i = k -> i <> c -> h !! i = Some y -> lt x y = false) ->
  under t k -> edges_ok lt t k h -> below_hole_ok lt t k h ->
  <[k := val]> h ≡ₚ h0 ->
  within range (<[k := x]> h) /\ under t c /\
  edges_ok lt t c (<[k := x]> h) /\ below_hole_ok lt t c (<[k := x]> h) /\
  <[c := val]> (<[k := x]> h) ≡ₚ h0.
Proof.
  intros Hw Hk Hc Hpc Hx Hother Hu He Hb Hp.
  pose proof (parent_cases c Hc) as Hcc. rewrite Hpc in Hcc.
  split; [|split; [|split; [|split]]].
  - apply within_insert; [assumption|]. by apply (within_lookup h c).
  - destruct Hcc as [->| ->]; by constructor.
  - intros i a b Hi Hti Hic Hpic Ha Hb'.
    destruct (decide (i = k)) as [Hik|Hik]; [subst i|].
    + rewrite list_lookup_insert_eq in Ha by assumption.
      assert (a = x) as -> by congruence.
      rewrite list_lookup_insert_ne in Hb' by (pose proof (parent_cases k); lia).
      apply (Hb ltac:(pose proof (parent_cases k); lia) c); auto.
    + rewrite list_lookup_insert_ne in Ha by auto.
      destruct (decide (parent i = k)) as [Hpik|Hpik].
      * rewrite Hpik, list_lookup_insert_eq in Hb' by assumption.
        assert (b = x) as -> by congruence.
        by apply (Hother i).
      * rewrite list_lookup_insert_ne in Hb' by auto. by apply (He i).
  - intros Htc i a b Hi Hpi Ha Hb'. rewrite Hpc in Hb'.
    rewrite list_lookup_insert_eq in Hb' by assumption.
    assert (b = x) as -> by congruence.
    rewrite list_lookup_insert_ne in Ha by (pose proof (parent_cases i); lia).
    apply (He i); try assumption.
    + pose proof (under_ge _ _ Hu). lia.
    + pose proof (parent_cases i). lia.
    + lia.
    + by rewrite Hpi.
  - rewrite <- Hp. apply hole_moves; [lia|assumption|assumption].
Qed.

Lemma two_under (k len : nat) : k < (len - 1) / 2 -> 2 * (k + 1) < len.
Proof.
  intros Hk. pose proof (Nat.div_mod_eq (len - 1) 2).
  pose proof (Nat.mod_upper_bound (len - 1) 2). lia.
Qed.

Lemma one_under_at_most (k len : nat) : ~ k < (len - 1) / 2 -> len <= 2 * k + 2.
Proof.
  intros Hk. pose proof (Nat.div_mod_eq (len - 1) 2).
  pose proof (Nat.mod_upper_bound (len - 1) 2). lia.
Qed.

Lemma adjust_heap_loop_eq (turns first holeIndex secondChild len : nat) (v : list A) :
  Libstdcxx.adjust_heap_loop lt turns first holeIndex secondChild len v =
  if bool_decide (secondChild < (len - 1) / 2) then
    match turns with
    | 0 => None
    | S turns' =>
        r ← v !! (first + 2 * (secondChild + 1));
        l ← v !! (first + (2 * (secondChild + 1) - 1));
        x ← v !! (first + (if lt r l then 2 * (secondChild + 1) - 1
                           else 2 * (secondChild + 1)));
        v' ← Libstdcxx.assign (first + holeIndex) x v;
        Libstdcxx.adjust_heap_loop lt turns' first
          (if lt r l then 2 * (secondChild + 1) - 1 else 2 * (secondChild + 1))
          (if lt r l then 2 * (secondChild + 1) - 1 else 2 * (secondChild + 1))
          len v'
    end
  else Some (v, holeIndex, secondChild).
Proof. destruct turns; reflexivity. Qed.

(** The hole goes down, the greater of the two under it going up, as long
    as there are two. *)
Lemma adjust_heap_loop_spec (t len : nat) (val : A) (pre post h0 : list A) (turns : nat) :
  forall (k : nat) (h : list A),
  length h = len -> len - k <= turns -> within range h -> k < len -> under t k ->
  edges_ok lt t k h -> below_hole_ok lt t k h -> <[k := val]> h ≡ₚ h0 ->
  exists k' h',
    Libstdcxx.adjust_heap_loop lt turns (length pre) k k len (pre ++ h ++ post)
    = Some (pre ++ h' ++ post, k', k') /\
    length h' = len /\ within range h' /\ k' < len /\ under t k' /\
    edges_ok lt t k' h' /\ below_hole_ok lt t k' h' /\ <[k' := val]> h' ≡ₚ h0 /\
    ~ k' < (len - 1) / 2.
Proof.
  induction turns as [|turns IH]; intros k h Hlen Hturns Hw Hk Hu He Hb Hp.
  all: rewrite adjust_heap_loop_eq.
  all: case_bool_decide as Hcond;
    [|exists k, h; split; [reflexivity|]; repeat (split; [assumption|]); assumption].
  - lia.
  - pose proof (two_under k len Hcond) as Hsc.
    destruct (lookup_lt_is_Some_2 h (2 * (k + 1))) as (r & Hr); [lia|].
    destruct (lookup_lt_is_Some_2 h (2 * (k + 1) - 1)) as (l & Hl); [lia|].
    rewrite !segment_lookup, Hr, Hl by lia. cbn [mbind option_bind].
    assert (Hrr : r ∈ range) by (by apply (within_lookup h (2 * (k + 1)))).
    assert (Hlr : l ∈ range) by (by apply (within_lookup h (2 * (k + 1) - 1))).
    set (c := if lt r l then 2 * (k + 1) - 1 else 2 * (k + 1)).
    set (x := if lt r l then l else r).
    assert (Hc : c = 2 * k + 1 \/ c = 2 * k + 2) by (unfold c; destruct (lt r l); lia).
    assert (Hx : h !! c = Some x) by (unfold c, x; by destruct (lt r l)).
    assert (Hpc : parent c = k)
      by (destruct Hc as [-> | ->]; [apply parent_left|apply parent_right]).
    rewrite segment_lookup, Hx by lia. cbn [mbind option_bind].
    rewrite segment_assign by lia. cbn [mbind option_bind].
    destruct (hole_down t k c x val h h0) as (Hw' & Hu' & He' & Hb' & Hp'); try assumption; try lia.
    { intros i y Hi Hpi Hic Hy. pose proof (parent_cases i Hi) as Hcases.
      rewrite Hpi in Hcases. unfold c, x in *. destruct (lt r l) eqn:Hrl.
      - assert (i = 2 * (k + 1)) as -> by lia. simplify_eq.
        by apply (lt_asym).
      - assert (i = 2 * (k + 1) - 1) as -> by lia. by simplify_eq. }
    destruct (IH c (<[k := x]> h)) as (k' & h' & E & H1 & H2 & H3 & H4 & H5 & H6 & H7 & H8);
      try assumption.
    + by rewrite length_insert.
    + lia.
    + lia.
    + exists k', h'. split; [exact E|]. repeat (split; [assumption|]). assumption.
Qed.


Lemma last_alone (k len : nat) :
  len mod 2 = 0 -> k = (len - 2) / 2 -> k < len -> 2 * k + 1 = len - 1 /\ 2 <= len.
Proof.
  intros Hm -> Hk. pose proof (Nat.div_mod_eq len 2).
  pose proof (Nat.div_mod_eq (len - 2) 2). pose proof (Nat.mod_upper_bound (len - 2) 2).
  assert (len <> 0) by lia.
  assert ((len - 2) mod 2 = 0).
  { destruct (decide (len = 1)) as [->|]; [simpl in Hm; lia|].
    replace len with (len - 2 + 1 * 2) in Hm by lia. by rewrite Nat.Div0.mod_add in Hm. }
  lia.
Qed.

Lemma no_under (k len : nat) :
  ~ k < (len - 1) / 2 -> ~ (len mod 2 = 0 /\ k = (len - 2) / 2) -> k < len ->
  len <= 2 * k + 1.
Proof.
  intros H1 H2 Hk. pose proof (one_under_at_most k len H1).
  destruct (decide (len = 2 * k + 2)) as [->|]; [|lia]. exfalso. apply H2. split.
  - replace (2 * k + 2) with (0 + (k + 1) * 2) by lia. by rewrite Nat.Div0.mod_add.
  - replace (2 * k + 2 - 2) with (k * 2) by lia. by rewrite Nat.div_mul.
Qed.

(** [__adjust_heap]: a value put in at the top of a tree whose two parts
    are heaps. *)
Lemma adjust_heap_spec (pre h post : list A) (t : nat) (val : A) :
  within range h -> val ∈ range -> t < length h -> heap_from lt (S t) h ->
  exists h',
    Libstdcxx.__adjust_heap lt (length pre) t (length h) val (pre ++ h ++ post)
    = Some (pre ++ h' ++ post) /\
    h' ≡ₚ <[t := val]> h /\ heap_from lt t h'.
Proof.
  intros Hw Hval Ht Hheap. unfold Libstdcxx.__adjust_heap.
  destruct (adjust_heap_loop_spec t (length h) val pre post (<[t := val]> h) (length h) t h)
    as (k & h1 & -> & Hlen1 & Hw1 & Hk & Hu & He & Hb & Hp & Hcond); try done; try lia.
  { constructor. }
  { intros i x y Hi Hti Hit Hpit. apply Hheap; [assumption|lia]. }
  { intros Htt. lia. }
  cbn [mbind option_bind].
  destruct (bool_decide (length h mod 2 = 0) && bool_decide (k = (length h - 2) / 2)) eqn:Hone.
  - apply andb_true_iff in Hone as (H1%bool_decide_eq_true & H2%bool_decide_eq_true).
    destruct (last_alone k (length h) H1 H2 Hk) as (Hc & Hlen2).
    destruct (lookup_lt_is_Some_2 h1 (2 * (k + 1) - 1)) as (x & Hx); [lia|].
    rewrite segment_lookup, Hx by lia. cbn [mbind option_bind].
    rewrite segment_assign by lia. cbn [mbind option_bind].
    destruct (hole_down t k (2 * (k + 1) - 1) x val h1 (<[t := val]> h))
      as (Hw' & Hu' & He' & Hb' & Hp'); try assumption; try lia.
    { replace (2 * (k + 1) - 1) with (2 * k + 1) by lia. apply parent_left. }
    { intros i y Hi Hpi Hic Hy. apply lookup_lt_Some in Hy.
      pose proof (parent_cases i Hi). lia. }
    destruct (push_heap_loop_spec t val pre post (<[t := val]> h) (2 * (k + 1) - 1)
                (2 * (k + 1) - 1) (<[k := x]> h1))
      as (h' & E & Hp'' & Hh'); try assumption; try lia.
    { rewrite length_insert. lia. }
    { intros i y Hi Hpi Hy. apply lookup_lt_Some in Hy. rewrite length_insert in Hy.
      pose proof (parent_cases i Hi). lia. }
    exists h'. unfold Libstdcxx.__push_heap. rewrite E. auto.
  - assert (Hleaf : length h <= 2 * k + 1).
    { apply no_under; [assumption| |assumption]. intros (H1 & H2).
      rewrite (bool_decide_eq_true_2 _ H1), (bool_decide_eq_true_2 _ H2) in Hone. done. }
    destruct (push_heap_loop_spec t val pre post (<[t := val]> h) k k h1)
      as (h' & E & Hp'' & Hh'); try assumption; try lia.
    { intros i y Hi Hpi Hy. apply lookup_lt_Some in Hy.
      pose proof (parent_cases i Hi). lia. }
    exists h'. cbn [mbind option_bind]. unfold Libstdcxx.__push_heap. rewrite E. auto.
Qed.

(** ** Heapsort *)

Lemma heap_from_le (t t' : nat) (h : list A) : t <= t' -> heap_from lt t h -> heap_from lt t' h.
Proof. intros Ht Hh i x y Hi Hti. apply Hh; [assumption|lia]. Qed.

Lemma make_heap_loop_spec (pre post : list A) (t : nat) :
  forall h : list A,
  within range h -> t < length h -> heap_from lt (S t) h ->
  exists h',
    Libstdcxx.make_heap_loop lt (length pre) t (length h) (pre ++ h ++ post)
    = Some (pre ++ h' ++ post) /\
    h' ≡ₚ h /\ heap_from lt 0 h'.
Proof.
  induction t as [|t IH]; intros h Hw Ht Hh.
  all: destruct (lookup_lt_is_Some_2 h _ Ht) as (val & Hval).
  all: cbn [Libstdcxx.make_heap_loop]; rewrite segment_lookup, Hval by assumption.
  all: cbn [mbind option_bind].
  all: destruct (adjust_heap_spec pre h post _ val Hw
                   (within_lookup h _ val Hw Hval) Ht Hh) as (h1 & -> & Hp1 & Hh1).
  all: rewrite list_insert_id in Hp1 by assumption; cbn [mbind option_bind].
  - exists h1. auto.
  - destruct (IH h1) as (h' & E & Hp' & Hh').
    + by apply (within_perm h).
    + rewrite Hp1. lia.
    + assumption.
    + exists h'. rewrite <- (Permutation_length Hp1). rewrite E.
      split; [reflexivity|]. split; [by rewrite Hp'|assumption].
Qed.

Lemma make_heap_spec (pre h post : list A) :
  within range h ->
  exists h',
    Libstdcxx.__make_heap lt (length pre) (length pre + length h) (pre ++ h ++ post)
    = Some (pre ++ h' ++ post) /\
    h' ≡ₚ h /\ heap_from lt 0 h'.
Proof.
  intros Hw. unfold Libstdcxx.__make_heap.
  replace (length pre + length h - length pre) with (length h) by lia.
  case_bool_decide as Hlen.
  - exists h. split; [reflexivity|]. split; [reflexivity|].
    intros i x y Hi Hti Hx Hy. apply lookup_lt_Some in Hx. lia.
  - pose proof (Nat.div_mod_eq (length h - 2) 2).
    pose proof (Nat.mod_upper_bound (length h - 2) 2).
    apply make_heap_loop_spec; [assumption|lia|].
    intros i x y Hi Hti Hx Hy. apply lookup_lt_Some in Hx.
    pose proof (parent_cases i Hi). lia.
Qed.

(** The first element of a heap is not less than any other. *)
Lemma heap_first_greatest (h : list A) (m : A) :
  within range h -> heap_from lt 0 h -> h !! 0 = Some m ->
  forall i x, h !! i = Some x -> lt m x = false.
Proof.
  intros Hw Hh Hm i. induction i as [i IH] using lt_wf_ind. intros x Hx.
  destruct (decide (i = 0)) as [->|Hi].
  - simplify_eq. apply (lt_irrefl). by apply (within_lookup h 0).
  - pose proof (parent_cases i ltac:(lia)) as Hpc.
    destruct (lookup_lt_is_Some_2 h (parent i)) as (y & Hy).
    { apply lookup_lt_Some in Hx. lia. }
    apply (lt_neg_trans m y x).
    + by apply (within_lookup h 0).
    + by apply (within_lookup h (parent i)).
    + by apply (within_lookup h i).
    + apply (IH (parent i)); [lia|assumption].
    + apply (Hh i); [lia|lia|assumption|assumption].
Qed.


(** [__pop_heap] with the result at the end of the heap: the first
    element goes there, and what is left is a heap again. *)
Lemma pop_heap_spec (pre hp post : list A) (m xn : A) :
  within range (hp ++ [xn]) -> hp !! 0 = Some m -> heap_from lt 0 (hp ++ [xn]) ->
  exists h',
    Libstdcxx.__pop_heap lt (length pre) (length pre + length hp)
      (length pre + length hp) (pre ++ (hp ++ [xn]) ++ post)
    = Some (pre ++ (h' ++ [m]) ++ post) /\
    h' ≡ₚ <[0 := xn]> hp /\ heap_from lt 0 h'.
Proof.
  intros Hw Hm Hh. unfold Libstdcxx.__pop_heap.
  assert (Hlen : 0 < length hp) by (by apply lookup_lt_Some in Hm).
  rewrite segment_lookup by (rewrite length_app; simpl; lia).
  rewrite (list_lookup_middle hp [] xn) by reflexivity. cbn [mbind option_bind].
  assert (Hfirst : (pre ++ (hp ++ [xn]) ++ post) !! length pre = Some m).
  { pose proof (segment_lookup pre (hp ++ [xn]) post 0) as H0.
    rewrite Nat.add_0_r in H0. rewrite H0 by (rewrite length_app; simpl; lia).
    by apply lookup_app_l_Some. }
  rewrite Hfirst. cbn [mbind option_bind].
  rewrite segment_assign by (rewrite length_app; simpl; lia). cbn [mbind option_bind].
  assert (Hput : <[length hp := m]> (hp ++ [xn]) = hp ++ [m]).
  { pose proof (insert_app_r hp [xn] 0 m) as H0. by rewrite Nat.add_0_r in H0. }
  rewrite Hput.
  replace (length pre + length hp - length pre) with (length hp) by lia.
  replace (pre ++ (hp ++ [m]) ++ post) with (pre ++ hp ++ m :: post)
    by (by rewrite <- app_assoc).
  apply Forall_app in Hw as (Hw & Hxn). apply Forall_cons in Hxn as (Hxn & _).
  destruct (adjust_heap_spec pre hp (m :: post) 0 xn) as (h' & E & Hp & Hh'); try assumption.
  { intros i x y Hi Hti Hx Hy. apply (Hh i); try assumption; try lia.
    - by apply lookup_app_l_Some.
    - by apply lookup_app_l_Some. }
  exists h'. rewrite E. split; [by rewrite <- app_assoc|]. auto.
Qed.

Lemma sort_heap_loop_SS (n first : nat) (v : list A) :
  Libstdcxx.sort_heap_loop lt (S (S n)) first v
  = v' ← Libstdcxx.__pop_heap lt first (first + S n) (first + S n) v;
    Libstdcxx.sort_heap_loop lt (S n) first v'.
Proof. reflexivity. Qed.

Lemma sort_heap_loop_spec (pre post : list A) (n : nat) :
  forall h T : list A,
  length h = S n -> within range (h ++ T) -> heap_from lt 0 h ->
  (forall x y, x ∈ h -> y ∈ T -> lt y x = false) ->
  exists m rest,
    Libstdcxx.sort_heap_loop lt (S n) (length pre) (pre ++ (h ++ T) ++ post)
    = Some (pre ++ (m :: rest) ++ post) /\
    m :: rest ≡ₚ h ++ T /\
    Forall (fun x => lt x m = false) rest.
Proof.
  induction n as [|n IH]; intros h T Hlen Hw Hh HT.
  - destruct h as [|m [|? ?]]; try done. exists m, T. simpl.
    split; [reflexivity|]. split; [reflexivity|].
    rewrite Forall_forall. intros y Hy. apply HT; [by left|assumption].
  - destruct (decide (h = [])) as [->|Hne]; [done|].
    destruct (exists_last Hne) as (hp & xn & ->).
    rewrite length_app in Hlen. simpl in Hlen.
    destruct hp as [|m hp'] eqn:Ehp; [simpl in Hlen; lia|]. rewrite <- Ehp in *.
    assert (Hm : hp !! 0 = Some m) by (by rewrite Ehp).
    apply Forall_app in Hw as (Hw1 & Hw2).
    destruct (pop_heap_spec pre hp (T ++ post) m xn Hw1 Hm Hh) as (h' & E & Hp' & Hh').
    rewrite sort_heap_loop_SS.
    replace (length pre + S n) with (length pre + length hp) by lia.
    replace (pre ++ ((hp ++ [xn]) ++ T) ++ post) with (pre ++ (hp ++ [xn]) ++ T ++ post)
      by (by rewrite <- !app_assoc).
    rewrite E. cbn [mbind option_bind].
    assert (Hperm : h' ++ [m] ≡ₚ hp ++ [xn]).
    { rewrite Hp', Ehp. simpl. rewrite <- !Permutation_cons_append. apply perm_swap. }
    destruct (IH h' (m :: T)) as (m' & rest & E' & Hp'' & Hrest).
    + rewrite Hp', length_insert. lia.
    + apply (within_perm ((hp ++ [xn]) ++ T)).
      * rewrite <- Hperm. rewrite <- !app_assoc. reflexivity.
      * apply Forall_app. auto.
    + assumption.
    + intros x y Hx Hy.
      assert (Hxh : x ∈ hp ++ [xn]).
      { rewrite <- Hperm. apply elem_of_app. by left. }
      apply elem_of_cons in Hy as [->|Hy]; [|by apply HT].
      apply list_elem_of_lookup in Hxh as (i & Hi).
      exact (heap_first_greatest (hp ++ [xn]) m Hw1 Hh (lookup_app_l_Some _ _ _ _ Hm) i x Hi).
    + exists m', rest.
      replace (pre ++ (h' ++ [m]) ++ T ++ post) with (pre ++ (h' ++ m :: T) ++ post)
        by (by rewrite <- !app_assoc).
      rewrite E'.
      split; [reflexivity|]. split; [|assumption].
      rewrite Hp'', <- Hperm, <- !app_assoc. reflexivity.
Qed.

(** Heapsort leaves a permutation of the part whose first element is not
    above any other. *)
Lemma partial_sort_segments (pre seg post : list A) :
  within range (pre ++ seg ++ post) ->
  exists seg',
    Libstdcxx.__partial_sort lt (length pre) (length pre + length seg)
      (length pre + length seg) (pre ++ seg ++ post)
    = Some (pre ++ seg' ++ post) /\
    seg' ≡ₚ seg /\
    (forall m rest, seg' = m :: rest -> Forall (fun x => lt x m = false) rest).
Proof.
  intros Hw. apply Forall_app in Hw as (_ & Hw). apply Forall_app in Hw as (Hw & _).
  unfold Libstdcxx.__partial_sort, Libstdcxx.__heap_select.
  destruct (make_heap_spec pre seg post Hw) as (h & -> & Hp & Hh).
  cbn [mbind option_bind]. rewrite Nat.sub_diag. cbn [Libstdcxx.heap_select_loop].
  cbn [mbind option_bind]. unfold Libstdcxx.__sort_heap.
  replace (length pre + length seg - length pre) with (length h) by (rewrite Hp; lia).
  destruct h as [|m0 h0] eqn:Eh.
  - exists []. simpl. split; [reflexivity|]. split; [assumption|]. intros m rest [=].
  - rewrite <- Eh in *.
    destruct (sort_heap_loop_spec pre post (length h0) h []) as (m & rest & E & Hp' & Hrest).
    + rewrite Eh. reflexivity.
    + rewrite app_nil_r. by apply (within_perm seg).
    + assumption.
    + intros x y _ Hy. by apply elem_of_nil in Hy.
    + exists (m :: rest). rewrite app_nil_r in E, Hp'.
      replace (length h) with (S (length h0)) by (rewrite Eh; reflexivity).
      rewrite E. split; [reflexivity|]. split; [by rewrite Hp', Hp|].
      intros m' rest' [= <- <-]. assumption.
Qed.

(** ** Introsort *)

Lemma nearly_short (v : list A) : length v <= Libstdcxx._S_threshold -> nearly lt v.
Proof.
  intros Hlen l1 x l2 -> Hl1. rewrite length_app in Hlen. simpl in Hlen. lia.
Qed.

Lemma nearly_least_first (m : A) (rest : list A) :
  Forall (fun x => lt x m = false) rest -> nearly lt (m :: rest).
Proof.
  intros Hm l1 x l2 E Hl1. destruct l1 as [|m' l1]; [simpl in Hl1; unfold Libstdcxx._S_threshold in Hl1; lia|].
  simpl in E. injection E as <- ->. exists m. split; [by left|].
  rewrite Forall_forall in Hm. apply Hm. apply elem_of_app. right. by left.
Qed.

Lemma nearly_app (p : A) (L R : list A) :
  nearly lt L -> nearly lt R -> p ∈ L -> Forall (fun x => lt x p = false) R ->
  nearly lt (L ++ R).
Proof.
  intros HL HR Hp Hright l1 x l2 E Hl1.
  apply app_eq_app in E as (l & [(-> & E)|(-> & E)]).
  - destruct l as [|y l].
    + simpl in E. rewrite app_nil_r in *. exists p. split; [assumption|].
      rewrite Forall_forall in Hright. apply Hright. rewrite <- E. by left.
    + simpl in E. injection E as -> ->.
      destruct (HL l1 y l) as (z & Hz & Hyz); [reflexivity|assumption|].
      eauto.
  - exists p. split; [apply elem_of_app; by left|].
    rewrite Forall_forall in Hright. apply Hright. rewrite E.
    apply elem_of_app. right. by left.
Qed.

Lemma introsort_loop_eq (depth_limit first last : nat) (v : list A) :
  Libstdcxx.__introsort_loop lt depth_limit first last v =
  if bool_decide (Libstdcxx._S_threshold < last - first) then
    match depth_limit with
    | 0 => Libstdcxx.__partial_sort lt first last last v
    | S depth_limit' =>
        '(cut, v1) ← Libstdcxx.__unguarded_partition_pivot lt first last v;
        v2 ← Libstdcxx.__introsort_loop lt depth_limit' cut last v1;
        Libstdcxx.__introsort_loop lt depth_limit' first cut v2
    end
  else Some v.
Proof. destruct depth_limit; reflexivity. Qed.

(** The partitions leave a permutation of the part they work on, in which
    from the seventeenth element on every element has one before it that it
    is not less than. *)
Lemma introsort_loop_segments (depth_limit : nat) :
  forall pre seg post : list A,
  within range (pre ++ seg ++ post) ->
  exists seg',
    Libstdcxx.__introsort_loop lt depth_limit (length pre) (length pre + length seg)
      (pre ++ seg ++ post)
    = Some (pre ++ seg' ++ post) /\
    seg' ≡ₚ seg /\ nearly lt seg'.
Proof.
  induction depth_limit as [|d IH]; intros pre seg post Hw.
  all: rewrite introsort_loop_eq.
  all: replace (length pre + length seg - length pre) with (length seg) by lia.
  all: case_bool_decide as Hlen;
    [|exists seg; split; [reflexivity|]; split; [reflexivity|];
      apply nearly_short; lia].
  - destruct (partial_sort_segments pre seg post Hw) as (seg' & E & Hp & Hm).
    exists seg'. split; [assumption|]. split; [assumption|].
    destruct seg' as [|m rest]; [apply nearly_short; simpl; lia|].
    apply nearly_least_first. by apply Hm.
  - destruct (partition_segments pre seg post Hw) as (p & L0 & R & -> & Hp & Hright);
      [unfold Libstdcxx._S_threshold in Hlen; lia|].
    cbn [mbind option_bind].
    assert (Hseg : length seg = S (length L0) + length R).
    { rewrite <- Hp. simpl. rewrite length_app. reflexivity. }
    assert (Hw1 : within range (pre ++ (p :: L0 ++ R) ++ post)).
    { apply (within_perm (pre ++ seg ++ post)); [|assumption]. by rewrite Hp. }
    destruct (IH (pre ++ p :: L0) R post) as (R' & ER & HpR & HnR).
    { rewrite <- app_assoc. simpl in *. by rewrite <- app_assoc in Hw1. }
    replace (length pre + S (length L0)) with (length (pre ++ p :: L0))
      by (rewrite length_app; reflexivity).
    replace (length pre + length seg) with (length (pre ++ p :: L0) + length R)
      by (rewrite length_app; simpl; lia).
    replace (pre ++ (p :: L0 ++ R) ++ post) with ((pre ++ p :: L0) ++ R ++ post)
      by (rewrite <- !app_assoc; simpl; by rewrite <- app_assoc).
    rewrite ER. cbn [mbind option_bind].
    destruct (IH pre (p :: L0) (R' ++ post)) as (L' & EL & HpL & HnL).
    { apply (within_perm (pre ++ (p :: L0 ++ R) ++ post)); [|assumption].
      rewrite HpR. simpl. by rewrite <- app_assoc. }
    replace ((pre ++ p :: L0) ++ R' ++ post) with (pre ++ (p :: L0) ++ R' ++ post)
      by (by rewrite <- app_assoc).
    replace (length (pre ++ p :: L0)) with (length pre + length (p :: L0))
      by (by rewrite length_app).
    rewrite EL. exists (L' ++ R'). split; [by rewrite <- app_assoc|].
    split.
    + rewrite HpL, HpR. exact Hp.
    + apply (nearly_app p); try assumption.
      * rewrite HpL. by left.
      * by rewrite HpR.
Qed.

(** [std::sort] on a strict weak ordering: defined, a permutation,
    sorted. *)
Lemma sort_sorted (v : list A) :
  within range v ->
  exists v', Libstdcxx.sort lt v = Some v' /\ v' ≡ₚ v /\ ascending lt v'.
Proof.
  intros Hw. unfold Libstdcxx.sort, Libstdcxx.__sort. case_bool_decide as Hlen.
  - destruct v; [|done]. exists []. split; [reflexivity|]. split; [reflexivity|constructor].
  - destruct (introsort_loop_segments (Libstdcxx.__lg (length v - 0) * 2) [] v [])
      as (v1 & E & Hp & Hn).
    { simpl. by rewrite app_nil_r. }
    simpl in E. rewrite app_nil_r in E. rewrite E. cbn [mbind option_bind].
    rewrite app_nil_r.
    destruct (final_insertion_sort_sorted v1) as (v' & E' & Hp' & Hs).
    + by apply (within_perm v).
    + assumption.
    + exists v'. rewrite <- (Permutation_length Hp). split; [assumption|].
      split; [by rewrite Hp'|assumption].
Qed.


End LibrarySort.

(** A range is within itself. *)
Lemma within_refl {A : Type} (l : list A) : within l l.
Proof. unfold within. rewrite Forall_forall. auto. Qed.

Lemma libstdcxx_sort_sorts : sorts libstdcxx_sort.
Proof.
  intros A lt l Hswo.
  destruct (sort_sorted lt l Hswo l (within_refl l)) as (l' & E & Hp & Hs).
  unfold libstdcxx_sort. rewrite E. simpl. auto.
Qed.

(** ** [<] on balances that are not NaN *)

Lemma ltb_false_key (x y : double) :
  Double.is_nan x = false -> Double.is_nan y = false ->
  Double.ltb x y = false <-> ~ Double.key_lt (Double.key x) (Double.key y).
Proof.
  intros Hx Hy. pose proof (ltb_key x y Hx Hy) as H.
  destruct (Double.ltb x y); split; intros; try reflexivity; try discriminate.
  - exfalso. tauto.
  - intros K. apply H in K. discriminate.
Qed.

Lemma by_balance_swo (accounts : list BankAccount) :
  Forall (fun acc => Double.is_nan (balance acc) = false) accounts ->
  strict_weak_order_on BankManagement.by_balance accounts.
Proof.
  rewrite Forall_forall. intros Hn. unfold BankManagement.by_balance.
  assert (Hn' : forall x, x ∈ accounts -> Double.is_nan (balance x) = false)
    by (intros x Hx; exact (Hn x Hx)).
  split; [|split].
  - intros x Hx. apply ltb_false_key; auto.
    destruct (key_lt_cases (Double.key (balance x)) (Double.key (balance x)))
      as [(?&?&?)|[(?&?&?)|(?&?&?)]]; tauto.
  - intros x y z Hx Hy Hz. rewrite !ltb_key by auto. apply key_lt_trans.
  - intros x y z Hx Hy Hz. rewrite !ltb_false_key by auto.
    intros Hxy Hyx Hyz Hzy. split; eapply key_lt_neg_trans; eassumption.
Qed.

(** ** Facts about insertion and extraction *)

Section StreamFacts.
Import Stream.

Lemma digit_val_char (d : Z) : is_digit_value d -> digit_val (digit_char d) = Some d.
Proof.
  unfold is_digit_value. intros H.
  assert (d = 0 \/ d = 1 \/ d = 2 \/ d = 3 \/ d = 4 \/ d = 5 \/ d = 6 \/ d = 7
          \/ d = 8 \/ d = 9) as Hd by lia.
  repeat (destruct Hd as [->|Hd]; [reflexivity|]). subst. reflexivity.
Qed.

Lemma is_digit_char (d : Z) : is_digit (digit_char d) = true.
Proof.
  unfold digit_char. destruct d as [|p|p]; try reflexivity.
  do 4 (destruct p as [p|p|]; try reflexivity).
Qed.

Lemma is_digit_not_space (c : ascii) : is_digit c = true -> is_space c = false.
Proof.
  destruct c as [[] [] [] [] [] [] [] []]; vm_compute; congruence.
Qed.

Lemma is_digit_not_sign (c : ascii) :
  is_digit c = true -> c <> "-"%char /\ c <> "+"%char.
Proof.
  destruct c as [[] [] [] [] [] [] [] []]; vm_compute; intros; split; congruence.
Qed.

Lemma read_digits_app (ds : list Z) (rest : text) :
  Forall is_digit_value ds -> stops is_digit rest ->
  read_digits (map digit_char ds ++ rest) = (ds, rest).
Proof.
  intros Hds Hr. induction Hds as [|d ds Hd _ IH]; simpl.
  - destruct rest as [|c rest]; [reflexivity|]. simpl in *.
    unfold is_digit in Hr. destruct (digit_val c); [discriminate|reflexivity].
  - rewrite digit_val_char by assumption. rewrite IH. reflexivity.
Qed.

Lemma digits_value_snoc (ds : list Z) (d : Z) :
  digits_value (ds ++ [d]) = 10 * digits_value ds + d.
Proof. unfold digits_value. rewrite fold_left_app. reflexivity. Qed.

(** The digits that [digits_of] writes, and their value. *)
Lemma digits_of_spec (fuel : nat) (n : Z) (acc : text) :
  0 <= n < 2 ^ (Z.of_nat fuel + 1) ->
  exists ds, digits_of fuel n acc = map digit_char ds ++ acc /\
             Forall is_digit_value ds /\ ds <> [] /\ digits_value ds = n.
Proof.
  revert n acc. induction fuel as [|fuel IH]; intros n acc Hn.
  - exists [n]. simpl in *. repeat split.
    + replace (n mod 10) with n by (symmetry; apply Z.mod_small; lia). reflexivity.
    + constructor; [unfold is_digit_value; lia | constructor].
    + discriminate.
  - cbn [digits_of]. destruct (n <? 10) eqn:E.
    + apply Z.ltb_lt in E. exists [n]. repeat split.
      * replace (n mod 10) with n by (symmetry; apply Z.mod_small; lia). reflexivity.
      * constructor; [unfold is_digit_value; lia | constructor].
      * discriminate.
    + apply Z.ltb_ge in E.
      destruct (IH (n / 10) (digit_char (n mod 10) :: acc)) as (ds & Hds & Hall & Hne & Hv).
      { split; [apply Z.div_pos; lia|].
        apply Z.div_lt_upper_bound; [lia|].
        rewrite Nat2Z.inj_succ in Hn.
        replace (Z.succ (Z.of_nat fuel) + 1) with (Z.succ (Z.of_nat fuel + 1)) in Hn by lia.
        rewrite Z.pow_succ_r in Hn by lia. lia. }
      exists (ds ++ [n mod 10]). repeat split.
      * rewrite Hds, map_app, <- app_assoc. reflexivity.
      * apply Forall_app. split; [assumption|].
        constructor; [|constructor]. unfold is_digit_value.
        pose proof (Z.mod_pos_bound n 10). lia.
      * destruct ds; discriminate.
      * rewrite digits_value_snoc, Hv. pose proof (Z.div_mod n 10). lia.
Qed.

Lemma show_unsigned_spec (n : Z) :
  0 <= n ->
  exists ds, show_unsigned n = map digit_char ds /\
             Forall is_digit_value ds /\ ds <> [] /\ digits_value ds = n.
Proof.
  intros Hn. unfold show_unsigned.
  destruct (digits_of_spec (Z.to_nat (Z.log2 n)) n []) as (ds & H1 & H2 & H3 & H4).
  - split; [assumption|]. rewrite Z2Nat.id by apply Z.log2_nonneg.
    destruct (Z.eq_dec n 0) as [->|Hne]; [reflexivity|].
    replace (Z.log2 n + 1) with (Z.succ (Z.log2 n)) by lia.
    apply Z.log2_spec. lia.
  - exists ds. rewrite app_nil_r in H1. auto.
Qed.

Lemma skip_ws_stop (s : text) : stops is_space s -> skip_ws s = s.
Proof. destruct s as [|c s]; simpl; [reflexivity|]. intros ->. reflexivity. Qed.

Lemma map_digit_char_head (ds : list Z) (rest : text) :
  ds <> [] -> exists c s, map digit_char ds ++ rest = c :: s /\ is_digit c = true.
Proof.
  destruct ds as [|d ds]; [congruence|]. intros _. simpl.
  eexists _, _. split; [reflexivity | apply is_digit_char].
Qed.

(** An unsigned field written by the inserter reads back. *)
Lemma read_integer_show_unsigned (n : Z) (rest : text) :
  0 <= n -> stops is_digit rest ->
  read_integer (show_unsigned n ++ rest) = Some (false, n, rest).
Proof.
  intros Hn Hr. destruct (show_unsigned_spec n Hn) as (ds & -> & Hall & Hne & Hv).
  destruct (map_digit_char_head ds rest Hne) as (c & s & Hcs & Hc).
  unfold read_integer.
  rewrite skip_ws_stop by (rewrite Hcs; simpl; by apply is_digit_not_space).
  assert (read_sign (map digit_char ds ++ rest) = (false, map digit_char ds ++ rest)) as ->.
  { rewrite Hcs. unfold read_sign. destruct (is_digit_not_sign c Hc) as (H1 & H2).
    rewrite !bool_decide_eq_false_2 by assumption. reflexivity. }
  cbv beta iota. rewrite read_digits_app by assumption.
  destruct ds; [congruence|]. rewrite Hv. reflexivity.
Qed.

Lemma read_integer_show_negative (n : Z) (rest : text) :
  0 <= n -> stops is_digit rest ->
  read_integer ("-"%char :: show_unsigned n ++ rest) = Some (true, n, rest).
Proof.
  intros Hn Hr. destruct (show_unsigned_spec n Hn) as (ds & -> & Hall & Hne & Hv).
  unfold read_integer. simpl skip_ws. simpl read_sign. cbv beta iota.
  rewrite read_digits_app by assumption.
  destruct ds; [congruence|]. rewrite Hv. reflexivity.
Qed.

Lemma read_int_show_int (n : Z) (rest : text) :
  in_int_range n -> stops is_digit rest ->
  read_int (show_int n ++ rest) = Some (n, rest).
Proof.
  unfold in_int_range, INT_MIN, INT_MAX. intros Hn Hr. unfold read_int, show_int.
  destruct (n <? 0) eqn:E.
  - apply Z.ltb_lt in E. rewrite <- app_comm_cons.
    rewrite read_integer_show_negative by (assumption || lia). simpl.
    rewrite Z.opp_involutive.
    destruct (_ && _) eqn:B; [reflexivity|].
    apply andb_false_iff in B as [B|B]; [apply Z.leb_gt in B | apply Z.leb_gt in B];
      unfold INT_MIN, INT_MAX in B; lia.
  - apply Z.ltb_ge in E.
    rewrite read_integer_show_unsigned by assumption. simpl.
    destruct (_ && _) eqn:B; [reflexivity|].
    apply andb_false_iff in B as [B|B]; [apply Z.leb_gt in B | apply Z.leb_gt in B];
      unfold INT_MIN, INT_MAX in B; lia.
Qed.

Lemma read_size_t_show_size_t (n : Z) (rest : text) :
  in_size_t_range n -> stops is_digit rest ->
  read_size_t (show_size_t n ++ rest) = Some (n, rest).
Proof.
  unfold in_size_t_range. intros Hn Hr. unfold read_size_t, show_size_t.
  rewrite read_integer_show_unsigned by (assumption || lia). simpl.
  destruct (n <=? SIZE_MAX) eqn:B; [reflexivity|]. apply Z.leb_gt in B. lia.
Qed.

Lemma read_quoted_body_escape (l rest : text) :
  read_quoted_body (flat_map escape l ++ dquote :: rest) = Some (l, rest).
Proof.
  induction l as [|c l IH]; simpl.
  - reflexivity.
  - rewrite <- app_assoc.
    destruct (decide (c = dquote)) as [->|Nq]; [simpl; rewrite IH; reflexivity|].
    destruct (decide (c = backslash)) as [->|Nb]; [simpl; rewrite IH; reflexivity|].
    unfold escape at 1.
    rewrite (bool_decide_eq_false_2 (c = dquote)) by assumption.
    rewrite (bool_decide_eq_false_2 (c = backslash)) by assumption.
    cbn [orb app read_quoted_body].
    rewrite (bool_decide_eq_false_2 (c = dquote)) by assumption.
    rewrite (bool_decide_eq_false_2 (c = backslash)) by assumption.
    rewrite IH. reflexivity.
Qed.

(** A name written by [quoted] reads back, whatever it holds. *)
Lemma read_quoted_show_quoted (n : string) (rest : text) :
  read_quoted (show_quoted n ++ rest) = Some (n, rest).
Proof.
  unfold read_quoted, show_quoted. rewrite <- app_comm_cons. simpl skip_ws.
  cbv beta iota. rewrite <- app_assoc. simpl app.
  change (bool_decide (dquote = dquote)) with true. cbv beta iota.
  rewrite read_quoted_body_escape. simpl.
  rewrite string_of_list_ascii_of_string. reflexivity.
Qed.

(** *** A field followed by a space

    A space belongs to no field: an extractor that stopped at the end of
    the text stops at the space just the same. *)

Lemma skip_ws_app (s t : text) :
  skip_ws s <> [] -> skip_ws (s ++ t) = skip_ws s ++ t.
Proof.
  induction s as [|c s IH]; simpl; [congruence|].
  destruct (is_space c); [apply IH | reflexivity].
Qed.

Lemma read_sign_space (s r : text) :
  read_sign (s ++ " "%char :: r)
  = (fst (read_sign s), snd (read_sign s) ++ " "%char :: r).
Proof.
  destruct s as [|c s]; simpl; [reflexivity|].
  destruct (bool_decide (c = "-"%char)); [reflexivity|].
  destruct (bool_decide (c = "+"%char)); reflexivity.
Qed.

Lemma read_digits_space (s r : text) :
  read_digits (s ++ " "%char :: r)
  = (fst (read_digits s), snd (read_digits s) ++ " "%char :: r).
Proof.
  induction s as [|c s IH]; simpl; [reflexivity|].
  destruct (digit_val c); [|reflexivity].
  rewrite IH. destruct (read_digits s). reflexivity.
Qed.

Lemma read_exponent_space (s r : text) :
  read_exponent (s ++ " "%char :: r)
  = (fun '(e, s') => (e, s' ++ " "%char :: r)) <$> read_exponent s.
Proof.
  destruct s as [|c s]; simpl; [reflexivity|].
  destruct (bool_decide (c = "e"%char) || bool_decide (c = "E"%char)); [|reflexivity].
  rewrite read_sign_space. destruct (read_sign s) as [neg s1]. simpl.
  rewrite read_digits_space. destruct (read_digits s1) as [ds s2]. simpl.
  destruct ds; reflexivity.
Qed.

Lemma read_fraction_space (s r : text) :
  read_fraction (s ++ " "%char :: r)
  = (fst (read_fraction s), snd (read_fraction s) ++ " "%char :: r).
Proof.
  destruct s as [|c s]; simpl; [reflexivity|].
  destruct (bool_decide (c = "."%char)); [|reflexivity].
  apply read_digits_space.
Qed.

Lemma read_double_space (s r : text) (v : double) (s' : text) :
  read_double s = Some (v, s') ->
  read_double (s ++ " "%char :: r) = Some (v, s' ++ " "%char :: r).
Proof.
  unfold read_double. intros H.
  assert (Hws : skip_ws s <> []).
  { intros E. rewrite E in H. simpl in H. discriminate. }
  rewrite skip_ws_app by assumption. rewrite read_sign_space.
  destruct (read_sign (skip_ws s)) as [neg s1]. simpl fst; simpl snd.
  cbv beta iota in H |- *.
  rewrite read_digits_space. destruct (read_digits s1) as [ip s2].
  simpl fst; simpl snd. cbv beta iota in H |- *.
  rewrite read_fraction_space. destruct (read_fraction s2) as [fp s3].
  simpl fst; simpl snd. cbv beta iota in H |- *.
  destruct (ip ++ fp) as [|d ds]; [discriminate|].
  rewrite read_exponent_space.
  destruct (read_exponent s3) as [[ex s4]|]; [|discriminate]. simpl in H |- *.
  destruct (of_decimal neg (digits_value (d :: ds)) (ex - Z.of_nat (length fp)));
    try discriminate; inversion H; subst; reflexivity.
Qed.

(** *** An extraction takes characters away *)

Lemma skip_ws_length (s : text) : (length (skip_ws s) <= length s)%nat.
Proof.
  induction s as [|c s IH]; simpl; [lia|]. destruct (is_space c); simpl; lia.
Qed.

Lemma read_sign_length (s : text) : (length (snd (read_sign s)) <= length s)%nat.
Proof.
  destruct s as [|c s]; simpl; [lia|].
  destruct (bool_decide (c = "-"%char)); simpl; [lia|].
  destruct (bool_decide (c = "+"%char)); simpl; lia.
Qed.

Lemma read_digits_length (s : text) :
  (length (snd (read_digits s)) + length (fst (read_digits s)) = length s)%nat.
Proof.
  induction s as [|c s IH]; simpl; [lia|].
  destruct (digit_val c); simpl; [|lia].
  destruct (read_digits s); simpl in *. lia.
Qed.

Lemma read_fraction_length (s : text) :
  (length (snd (read_fraction s)) <= length s)%nat.
Proof.
  destruct s as [|c s]; simpl; [lia|].
  destruct (bool_decide (c = "."%char)); simpl; [|lia].
  pose proof (read_digits_length s). lia.
Qed.

Lemma read_exponent_length (s : text) (e : Z) (r : text) :
  read_exponent s = Some (e, r) -> (length r <= length s)%nat.
Proof.
  destruct s as [|c s]; simpl.
  - intros [= <- <-]. simpl. lia.
  - destruct (_ || _).
    + pose proof (read_sign_length s) as H1.
      destruct (read_sign s) as [neg s1]. simpl in H1.
      pose proof (read_digits_length s1) as H2.
      destruct (read_digits s1) as [ds s2]. simpl in H2.
      destruct ds; [discriminate|]. intros [= <- <-]. lia.
    + intros [= <- <-]. simpl. lia.
Qed.

Lemma read_integer_length (s : text) neg n (r : text) :
  read_integer s = Some (neg, n, r) -> (length r < length s)%nat.
Proof.
  unfold read_integer.
  pose proof (skip_ws_length s) as H0.
  pose proof (read_sign_length (skip_ws s)) as H1.
  destruct (read_sign (skip_ws s)) as [sg s1]. simpl in H1.
  pose proof (read_digits_length s1) as H2.
  destruct (read_digits s1) as [ds s2]. simpl in H2.
  destruct ds; [discriminate|]. intros [= <- <- <-]. simpl in H2. lia.
Qed.

Lemma read_int_length (s : text) n (r : text) :
  read_int s = Some (n, r) -> (length r < length s)%nat.
Proof.
  unfold read_int. destruct (read_integer s) as [[[neg m] r']|] eqn:E; [|discriminate].
  simpl. destruct (_ && _); [|discriminate]. intros [= <- <-].
  eapply read_integer_length, E.
Qed.

Lemma read_size_t_length (s : text) n (r : text) :
  read_size_t s = Some (n, r) -> (length r < length s)%nat.
Proof.
  unfold read_size_t. destruct (read_integer s) as [[[neg m] r']|] eqn:E; [|discriminate].
  simpl. destruct (_ <=? _); [|discriminate]. intros [= <- <-].
  eapply read_integer_length, E.
Qed.

Lemma read_double_length (s : text) v (r : text) :
  read_double s = Some (v, r) -> (length r <= length s)%nat.
Proof.
  unfold read_double.
  pose proof (skip_ws_length s) as H0.
  pose proof (read_sign_length (skip_ws s)) as H1.
  destruct (read_sign (skip_ws s)) as [sg s1]. simpl in H1.
  pose proof (read_digits_length s1) as H2.
  destruct (read_digits s1) as [ip s2]. simpl in H2.
  pose proof (read_fraction_length s2) as H3.
  destruct (read_fraction s2) as [fp s3]. simpl in H3.
  destruct (ip ++ fp); [discriminate|].
  destruct (read_exponent s3) as [[ex s4]|] eqn:E; [|discriminate].
  apply read_exponent_length in E. simpl.
  destruct (of_decimal _ _ _); try discriminate; intros [= <- <-]; lia.
Qed.

Lemma read_quoted_body_length (s : text) n (r : text) :
  read_quoted_body s = Some (n, r) -> (length r < length s)%nat.
Proof.
  remember (length s) as k eqn:Hk. revert s n r Hk.
  induction k as [k IH] using lt_wf_ind. intros s n r -> H.
  destruct s as [|c s]; [discriminate|]. simpl in H.
  destruct (bool_decide (c = backslash)).
  - destruct s as [|c' s]; [discriminate|].
    destruct (read_quoted_body s) as [[n' r']|] eqn:E; [|discriminate].
    simpl in H. injection H as <- <-.
    pose proof (IH (length s) ltac:(simpl; lia) s n' r' eq_refl E). simpl. lia.
  - destruct (bool_decide (c = dquote)).
    + injection H as <- <-. simpl. lia.
    + destruct (read_quoted_body s) as [[n' r']|] eqn:E; [|discriminate].
      simpl in H. injection H as <- <-.
      pose proof (IH (length s) ltac:(simpl; lia) s n' r' eq_refl E). simpl. lia.
Qed.

Lemma read_word_length (s : text) :
  (length (snd (read_word s)) <= length s)%nat.
Proof.
  induction s as [|c s IH]; simpl; [lia|].
  destruct (is_space c); simpl; [lia|].
  destruct (read_word s); simpl in *. lia.
Qed.

Lemma read_quoted_length (s : text) n (r : text) :
  read_quoted s = Some (n, r) -> (length r <= length s)%nat.
Proof.
  unfold read_quoted. pose proof (skip_ws_length s) as H0.
  destruct (skip_ws s) as [|c s']; [discriminate|]. simpl in H0.
  destruct (bool_decide (c = dquote)).
  - destruct (read_quoted_body s') as [[n' r']|] eqn:E; [|discriminate].
    apply read_quoted_body_length in E. simpl. intros [= <- <-]. lia.
  - pose proof (read_word_length (c :: s')) as H1.
    destruct (read_word (c :: s')) as [w r']. simpl in H1. intros [= <- <-]. lia.
Qed.

End StreamFacts.

(** ** One record, and the loop over the file *)

Lemma load_length (s : Stream.text) (acc : BankAccount) (r : Stream.text) :
  BankAccount.load s = Some (acc, r) -> (length r < length s)%nat.
Proof.
  unfold BankAccount.load. intros H.
  destruct (Stream.read_int s) as [[ac s1]|] eqn:E1; simpl in H; [|discriminate].
  destruct (Stream.read_double s1) as [[bal s2]|] eqn:E2; simpl in H; [|discriminate].
  destruct (Stream.read_size_t s2) as [[h s3]|] eqn:E3; simpl in H; [|discriminate].
  destruct (Stream.read_quoted s3) as [[n s4]|] eqn:E4; simpl in H; [|discriminate].
  injection H as <- <-.
  apply read_int_length in E1. apply read_double_length in E2.
  apply read_size_t_length in E3. apply read_quoted_length in E4. lia.
Qed.

(** The loop of [loadFromFile] ends before its fuel does. *)
Lemma load_loop_total (fuel : nat) (s : Stream.text) (accounts : list BankAccount) :
  (length s < fuel)%nat -> is_Some (BankManagement.load_loop fuel s accounts).
Proof.
  revert s accounts. induction fuel as [|fuel IH]; intros s accounts Hf; [lia|].
  simpl. destruct (BankAccount.load s) as [[acc r]|] eqn:E; [|by eexists].
  apply IH. apply load_length in E. lia.
Qed.

(** More fuel changes nothing. *)
Lemma load_loop_fuel (f1 f2 : nat) (s : Stream.text) (accounts l : list BankAccount) :
  BankManagement.load_loop f1 s accounts = Some l -> (f1 <= f2)%nat ->
  BankManagement.load_loop f2 s accounts = Some l.
Proof.
  revert f2 s accounts. induction f1 as [|f1 IH]; intros f2 s accounts H Hle;
    [discriminate|].
  destruct f2 as [|f2]; [lia|]. simpl in *.
  destruct (BankAccount.load s) as [[acc r]|]; [|assumption].
  apply IH; [assumption | lia].
Qed.

Lemma load_newline (s : Stream.text) :
  BankAccount.load ("010"%char :: s) = BankAccount.load s.
Proof. reflexivity. Qed.

Lemma space_stops_digit (r : Stream.text) :
  stops Stream.is_digit (" "%char :: r).
Proof. reflexivity. Qed.

(** A record written by [save] is read back by [load], the balance as the
    extractor reads it. *)
Lemma load_save (acc : BankAccount) (b' : double) (rest : Stream.text) :
  in_int_range (accountNum acc) -> in_size_t_range (pinHash acc) ->
  reread (balance acc) b' ->
  BankAccount.load (BankAccount.save acc ++ rest)
  = Some (set_balance b' acc, "010"%char :: rest).
Proof.
  intros Hn Hh Hb. unfold BankAccount.load, BankAccount.save.
  repeat (rewrite <- ?app_assoc, <- ?app_comm_cons).
  rewrite read_int_show_int by (assumption || apply space_stops_digit).
  cbv beta iota delta [mbind option_bind].
  change (Stream.read_double (" "%char :: ?s)) with (Stream.read_double s).
  erewrite read_double_space by exact Hb.
  cbv beta iota delta [mbind option_bind].
  change (Stream.read_size_t ([] ++ " "%char :: ?s)) with (Stream.read_size_t s).
  rewrite read_size_t_show_size_t by (assumption || apply space_stops_digit).
  cbv beta iota delta [mbind option_bind].
  change (Stream.read_quoted (" "%char :: ?s)) with (Stream.read_quoted s).
  rewrite read_quoted_show_quoted. reflexivity.
Qed.

(** ** The operations of BankManagement, step by step *)

Ltac run :=
  unfold BankManagement.deposit, BankManagement.withdraw, BankManagement.transfer,
    BankManagement.updateName, BankManagement.closeAccount,
    BankManagement.addAccount, BankManagement.sortAccountsByBalance,
    BankManagement.authenticate, BankManagement.call, BankManagement.gets,
    BankManagement.modify, BankManagement.throw,
    mbind, mret, BankManagement.M_bind, BankManagement.M_ret,
    BankManagement.bind, BankManagement.ret.

Lemma findAccount_Some (n : Z) (accounts : list BankAccount) (i : nat) :
  BankManagement.findAccount n accounts = Some i <->
  exists acc, accounts !! i = Some acc /\ accountNum acc = n /\
    forall j acc', accounts !! j = Some acc' -> (j < i)%nat -> accountNum acc' <> n.
Proof.
  unfold BankManagement.findAccount. rewrite fmap_Some. split.
  - intros ([i' acc] & H & ->). apply list_find_Some in H as (H1 & H2 & H3).
    exists acc. auto.
  - intros (acc & H1 & H2 & H3). exists (i, acc). split; [|reflexivity].
    apply list_find_Some. auto.
Qed.

Lemma findAccount_None (n : Z) (accounts : list BankAccount) :
  BankManagement.findAccount n accounts = None <->
  Forall (fun acc => accountNum acc <> n) accounts.
Proof.
  unfold BankManagement.findAccount. rewrite fmap_None. apply list_find_None.
Qed.

Lemma findAccount_lt (n : Z) (accounts : list BankAccount) (i : nat) :
  BankManagement.findAccount n accounts = Some i -> (i < length accounts)%nat.
Proof.
  intros (acc & H & _)%findAccount_Some. eapply lookup_lt_Some, H.
Qed.

Lemma findAccount_total (n : Z) (accounts : list BankAccount) (i : nat) :
  BankManagement.findAccount n accounts = Some i ->
  accounts !! i = Some (accounts !!! i) /\ accountNum (accounts !!! i) = n.
Proof.
  intros (acc & H & Hn & _)%findAccount_Some.
  rewrite (list_lookup_total_correct _ _ _ H). auto.
Qed.

(** Two numbers that differ are found at places that differ. *)
Lemma findAccount_ne (n m : Z) (accounts : list BankAccount) (i j : nat) :
  BankManagement.findAccount n accounts = Some i ->
  BankManagement.findAccount m accounts = Some j ->
  n <> m -> i <> j.
Proof.
  intros (Hi & Hn)%findAccount_total (Hj & Hm)%findAccount_total Hne ->.
  congruence.
Qed.

(** The search sees the numbers only. *)
Lemma findAccount_numbers (n : Z) (l l' : list BankAccount) :
  numbers l = numbers l' ->
  BankManagement.findAccount n l = BankManagement.findAccount n l'.
Proof.
  unfold numbers. revert l'. induction l as [|a l IH]; intros [|a' l'] H;
    try discriminate; [reflexivity|].
  injection H as Ha Hl. unfold BankManagement.findAccount in *. simpl.
  rewrite Ha. destruct (decide (accountNum a' = n)); [reflexivity|].
  specialize (IH l' Hl).
  destruct (list_find _ l) as [[i x]|], (list_find _ l') as [[i' x']|];
    simpl in *; congruence.
Qed.

(** *** The member functions of BankAccount *)

Lemma deposit_inr (amount : double) (acc acc' : BankAccount) :
  BankAccount.deposit amount acc = inr acc' ->
  Double.leb amount Double.zero = false /\
  acc' = set_balance (Double.add (balance acc) amount) acc.
Proof.
  unfold BankAccount.deposit. destruct (Double.leb amount Double.zero); [discriminate|].
  intros [= <-]. auto.
Qed.

Lemma withdraw_inr (amount : double) (acc acc' : BankAccount) :
  BankAccount.withdraw amount acc = inr acc' ->
  Double.leb amount Double.zero = false /\
  Double.ltb (balance acc) amount = false /\
  acc' = set_balance (Double.sub (balance acc) amount) acc.
Proof.
  unfold BankAccount.withdraw. destruct (Double.leb amount Double.zero); [discriminate|].
  destruct (Double.ltb (balance acc) amount); [discriminate|].
  intros [= <-]. auto.
Qed.

Lemma updateName_inr (newName : string) (acc acc' : BankAccount) :
  BankAccount.updateName newName acc = inr acc' ->
  newName <> "" /\ acc' = set_name newName acc.
Proof.
  unfold BankAccount.updateName. case_bool_decide; [discriminate|].
  intros [= <-]. auto.
Qed.

(** *** What one operation does to the vector *)

Lemma updated_numbers i acc' accounts accounts' :
  updated i acc' accounts accounts' -> numbers accounts' = numbers accounts.
Proof.
  intros (Hi & Hn & ->). unfold numbers. rewrite list_fmap_insert.
  apply list_insert_id. rewrite list_lookup_fmap.
  rewrite (list_lookup_lookup_total_lt _ _ Hi). simpl. congruence.
Qed.

Section Operations.

Variable hashPIN : string -> Z.

Lemma deposit_cases (n : Z) (amount : double) (pin : string) (accounts : list BankAccount) :
  BankManagement.deposit hashPIN n amount pin accounts =
  match BankManagement.findAccount n accounts with
  | None => (inr NotFound, accounts)
  | Some i =>
      if BankAccount.verifyPIN hashPIN (accounts !!! i) pin then
        match BankAccount.deposit amount (accounts !!! i) with
        | inl e => (inl e, accounts)
        | inr acc => (inr Successful, <[i := acc]> accounts)
        end
      else (inr AuthenticationFailed, accounts)
  end.
Proof.
  run. destruct (BankManagement.findAccount n accounts) as [i|]; [|reflexivity].
  destruct (BankAccount.verifyPIN hashPIN (accounts !!! i) pin); [|reflexivity].
  simpl. destruct (BankAccount.deposit amount (accounts !!! i)); reflexivity.
Qed.

Lemma withdraw_cases (n : Z) (amount : double) (pin : string) (accounts : list BankAccount) :
  BankManagement.withdraw hashPIN n amount pin accounts =
  match BankManagement.findAccount n accounts with
  | None => (inr NotFound, accounts)
  | Some i =>
      if BankAccount.verifyPIN hashPIN (accounts !!! i) pin then
        match BankAccount.withdraw amount (accounts !!! i) with
        | inl e => (inl e, accounts)
        | inr acc => (inr Successful, <[i := acc]> accounts)
        end
      else (inr AuthenticationFailed, accounts)
  end.
Proof.
  run. destruct (BankManagement.findAccount n accounts) as [i|]; [|reflexivity].
  destruct (BankAccount.verifyPIN hashPIN (accounts !!! i) pin); [|reflexivity].
  simpl. destruct (BankAccount.withdraw amount (accounts !!! i)); reflexivity.
Qed.

Lemma updateName_cases (n : Z) (newName pin : string) (accounts : list BankAccount) :
  BankManagement.updateName hashPIN n newName pin accounts =
  match BankManagement.findAccount n accounts with
  | None => (inr NotFound, accounts)
  | Some i =>
      if BankAccount.verifyPIN hashPIN (accounts !!! i) pin then
        match BankAccount.updateName newName (accounts !!! i) with
        | inl e => (inl e, accounts)
        | inr acc => (inr Successful, <[i := acc]> accounts)
        end
      else (inr AuthenticationFailed, accounts)
  end.
Proof.
  run. destruct (BankManagement.findAccount n accounts) as [i|]; [|reflexivity].
  destruct (BankAccount.verifyPIN hashPIN (accounts !!! i) pin); [|reflexivity].
  simpl. destruct (BankAccount.updateName newName (accounts !!! i)); reflexivity.
Qed.

Lemma closeAccount_cases (n : Z) (pin : string) (accounts : list BankAccount) :
  BankManagement.closeAccount hashPIN n pin accounts =
  match BankManagement.findAccount n accounts with
  | None => (inr NotFound, accounts)
  | Some i =>
      if BankAccount.verifyPIN hashPIN (accounts !!! i) pin
      then (inr Successful, delete i accounts)
      else (inr AuthenticationFailed, accounts)
  end.
Proof.
  run. destruct (BankManagement.findAccount n accounts) as [i|]; [|reflexivity].
  destruct (BankAccount.verifyPIN hashPIN (accounts !!! i) pin); reflexivity.
Qed.

Lemma transfer_cases (from to : Z) (amount : double) (pin : string)
    (accounts : list BankAccount) :
  BankManagement.transfer hashPIN from to amount pin accounts =
  match BankManagement.findAccount from accounts,
        BankManagement.findAccount to accounts with
  | Some i, Some j =>
      if bool_decide (from = to) then (inl SameAccountTransfer, accounts)
      else if BankAccount.verifyPIN hashPIN (accounts !!! i) pin then
        match BankAccount.withdraw amount (accounts !!! i) with
        | inl e => (inl e, accounts)
        | inr a =>
            match BankAccount.deposit amount (<[i := a]> accounts !!! j) with
            | inl e => (inl e, <[i := a]> accounts)
            | inr b => (inr Successful, <[j := b]> (<[i := a]> accounts))
            end
        end
      else (inr AuthenticationFailed, accounts)
  | _, _ => (inl AccountNotFound, accounts)
  end.
Proof.
  run. destruct (BankManagement.findAccount from accounts) as [i|];
    destruct (BankManagement.findAccount to accounts) as [j|]; try reflexivity.
  destruct (bool_decide (from = to)); [reflexivity|].
  destruct (BankAccount.verifyPIN hashPIN (accounts !!! i) pin); [|reflexivity].
  simpl. destruct (BankAccount.withdraw amount (accounts !!! i)); [reflexivity|].
  destruct (BankAccount.deposit amount (<[i := _]> accounts !!! j)); reflexivity.
Qed.

Lemma addAccount_cases (n : string) (num : Z) (bal : double) (pin : string)
    (accounts : list BankAccount) :
  BankManagement.addAccount hashPIN n num bal pin accounts =
  if bool_decide (num ∈ numbers accounts) then (inl DuplicateAccount, accounts)
  else (inr Successful, accounts ++ [BankAccount.create hashPIN n num bal pin]).
Proof.
  run.
  assert (bool_decide (Exists (fun acc => accountNum acc = num) accounts)
          = bool_decide (num ∈ numbers accounts)) as ->.
  { apply bool_decide_ext. unfold numbers. rewrite Exists_exists, list_elem_of_fmap.
    split; intros (a & H1 & H2); exists a; auto. }
  destruct (bool_decide (num ∈ numbers accounts)); reflexivity.
Qed.

End Operations.

(** ** What a session keeps *)

Lemma nonneg_not_nan (x : double) : nonneg x -> Double.is_nan x = false.
Proof. intros H. apply nonneg_cases in H. destruct x; easy. Qed.

Lemma finite_not_nan (x : double) : Double.is_finite x = true -> Double.is_nan x = false.
Proof. destruct x; easy. Qed.

Lemma good_deposit (amount : double) (acc acc' : BankAccount) :
  Double.valid amount = true -> Double.is_finite amount = true ->
  BankAccount.deposit amount acc = inr acc' ->
  accountNum acc' = accountNum acc /\ (good acc -> good acc').
Proof.
  intros Va Fa (Hpos & ->)%deposit_inr. simpl. split; [reflexivity|].
  intros (Vb & Nb). split; simpl.
  - by apply add_valid.
  - apply add_nonneg; auto using finite_not_nan.
Qed.

Lemma good_withdraw (amount : double) (acc acc' : BankAccount) :
  Double.valid amount = true -> Double.is_finite amount = true ->
  BankAccount.withdraw amount acc = inr acc' ->
  accountNum acc' = accountNum acc /\ (good acc -> good acc').
Proof.
  intros Va Fa (Hpos & Hlt & ->)%withdraw_inr. simpl. split; [reflexivity|].
  intros (Vb & Nb). split; simpl.
  - by apply sub_valid.
  - apply sub_nonneg; auto using nonneg_not_nan.
Qed.

Lemma good_updateName (newName : string) (acc acc' : BankAccount) :
  BankAccount.updateName newName acc = inr acc' ->
  accountNum acc' = accountNum acc /\ (good acc -> good acc').
Proof. intros (_ & ->)%updateName_inr. auto. Qed.

Lemma good_lookup (i : nat) (accounts : list BankAccount) :
  Forall good accounts -> (i < length accounts)%nat -> good (accounts !!! i).
Proof.
  intros Hg Hi. rewrite Forall_forall in Hg. apply Hg.
  apply list_elem_of_lookup. exists i. by apply list_lookup_lookup_total_lt.
Qed.

Lemma good_no_nan (accounts : list BankAccount) :
  Forall good accounts ->
  Forall (fun acc => Double.is_nan (balance acc) = false) accounts.
Proof.
  intros H. eapply Forall_impl; [exact H|].
  intros acc (_ & Hn). by apply nonneg_not_nan.
Qed.

Lemma keeps_refl (accounts : list BankAccount) : keeps accounts accounts.
Proof. intros Hg. auto. Qed.

Lemma keeps_trans (l1 l2 l3 : list BankAccount) :
  keeps l1 l2 -> keeps l2 l3 -> keeps l1 l3.
Proof.
  intros H12 H23 Hg. destruct (H12 Hg) as (Hg2 & Hd2).
  destruct (H23 Hg2) as (Hg3 & Hd3). auto.
Qed.

Lemma keeps_insert (i : nat) (acc' : BankAccount) (accounts : list BankAccount) :
  (i < length accounts)%nat ->
  accountNum acc' = accountNum (accounts !!! i) ->
  (good (accounts !!! i) -> good acc') ->
  keeps accounts (<[i := acc']> accounts).
Proof.
  intros Hi Hn Hg' Hg. split.
  - apply Forall_insert; [assumption|]. apply Hg'. by apply good_lookup.
  - rewrite (updated_numbers i acc' accounts (<[i := acc']> accounts)); [auto|].
    by repeat split.
Qed.

Lemma keeps_delete (i : nat) (accounts : list BankAccount) :
  keeps accounts (delete i accounts).
Proof.
  intros Hg. split; [by apply Forall_delete|]. intros Hd.
  unfold numbers. rewrite list_fmap_delete.
  eapply sublist_NoDup; [exact Hd | apply sublist_delete].
Qed.

Lemma keeps_perm (accounts accounts' : list BankAccount) :
  accounts' ≡ₚ accounts -> keeps accounts accounts'.
Proof.
  intros Hp Hg. split; [by rewrite Hp|]. unfold numbers. by rewrite Hp.
Qed.

Lemma keeps_app (acc : BankAccount) (accounts : list BankAccount) :
  accountNum acc ∉ numbers accounts -> good acc ->
  keeps accounts (accounts ++ [acc]).
Proof.
  intros Hn Hg' Hg. split.
  - apply Forall_app. split; [assumption | by constructor].
  - intros Hd. unfold numbers. rewrite fmap_app. apply NoDup_app.
    repeat split; [assumption| |].
    + intros x Hx [->|[]%elem_of_nil]%elem_of_cons. contradiction.
    + apply NoDup_singleton.
Qed.

Section Session.

Variable hashPIN : string -> Z.
Variable ranges_sort : forall A : Type, (A -> A -> bool) -> list A -> list A.
Hypothesis ranges_sort_sorts : sorts ranges_sort.

Lemma turn_keeps (choice : Menu) (accounts : list BankAccount) :
  admissible choice -> keeps accounts (turn hashPIN ranges_sort accounts choice).
Proof.
  intros Ha. unfold turn.
  destruct choice as [n num bal pin|num amt pin|num amt pin|from to amt pin
                      |num pin|num newName pin|]; simpl in *.
  - destruct (four_digits pin); [|apply keeps_refl].
    rewrite addAccount_cases. case_bool_decide; simpl; [apply keeps_refl|].
    by apply keeps_app.
  - rewrite deposit_cases.
    destruct (BankManagement.findAccount num accounts) as [i|] eqn:F; [|apply keeps_refl].
    apply findAccount_lt in F.
    destruct (BankAccount.verifyPIN _ _ _); [|apply keeps_refl].
    destruct (BankAccount.deposit amt (accounts !!! i)) as [e|acc'] eqn:D;
      [apply keeps_refl|].
    simpl. destruct Ha as (Va & Fa).
    destruct (good_deposit _ _ _ Va Fa D). by apply keeps_insert.
  - rewrite withdraw_cases.
    destruct (BankManagement.findAccount num accounts) as [i|] eqn:F; [|apply keeps_refl].
    apply findAccount_lt in F.
    destruct (BankAccount.verifyPIN _ _ _); [|apply keeps_refl].
    destruct (BankAccount.withdraw amt (accounts !!! i)) as [e|acc'] eqn:D;
      [apply keeps_refl|].
    simpl. destruct Ha as (Va & Fa).
    destruct (good_withdraw _ _ _ Va Fa D). by apply keeps_insert.
  - rewrite transfer_cases.
    destruct (BankManagement.findAccount from accounts) as [i|] eqn:Fi; [|apply keeps_refl].
    destruct (BankManagement.findAccount to accounts) as [j|] eqn:Fj; [|apply keeps_refl].
    apply findAccount_lt in Fi, Fj.
    case_bool_decide; [apply keeps_refl|].
    destruct (BankAccount.verifyPIN _ _ _); [|apply keeps_refl].
    destruct (BankAccount.withdraw amt (accounts !!! i)) as [e|a] eqn:W;
      [apply keeps_refl|].
    destruct Ha as (Va & Fa).
    destruct (good_withdraw _ _ _ Va Fa W).
    assert (K1 : keeps accounts (<[i := a]> accounts)) by by apply keeps_insert.
    destruct (BankAccount.deposit amt (<[i := a]> accounts !!! j)) as [e|b] eqn:D;
      [assumption|].
    simpl. destruct (good_deposit _ _ _ Va Fa D).
    apply (keeps_trans _ _ _ K1). apply keeps_insert; auto.
    by rewrite length_insert.
  - rewrite closeAccount_cases.
    destruct (BankManagement.findAccount num accounts) as [i|]; [|apply keeps_refl].
    destruct (BankAccount.verifyPIN _ _ _); [|apply keeps_refl].
    apply keeps_delete.
  - rewrite updateName_cases.
    destruct (BankManagement.findAccount num accounts) as [i|] eqn:F; [|apply keeps_refl].
    apply findAccount_lt in F.
    destruct (BankAccount.verifyPIN _ _ _); [|apply keeps_refl].
    destruct (BankAccount.updateName newName (accounts !!! i)) as [e|acc'] eqn:D;
      [apply keeps_refl|].
    simpl. destruct (good_updateName _ _ _ D). by apply keeps_insert.
  - run. simpl. intros Hg.
    destruct (ranges_sort_sorts BankAccount BankManagement.by_balance accounts) as (Hp & _).
    { by apply by_balance_swo, good_no_nan. }
    by apply (keeps_perm accounts).
Qed.

Lemma session_keeps (choices : list Menu) (accounts : list BankAccount) :
  Forall admissible choices ->
  keeps accounts (session hashPIN ranges_sort choices accounts).
Proof.
  intros Ha. revert accounts. induction Ha as [|c choices Hc _ IH]; intros accounts.
  - apply keeps_refl.
  - simpl. eapply keeps_trans; [by apply turn_keeps | apply IH].
Qed.

End Session.

(** ** Comparisons the claims use *)

Lemma lt_zero_not_le (a : double) :
  Double.ltb Double.zero a = true -> Double.leb a Double.zero = false.
Proof.
  intros H. destruct (ltb_true_not_nan _ _ H) as (Hz & Ha).
  rewrite (leb_negb_ltb a Double.zero Ha Hz), H. reflexivity.
Qed.

Lemma le_not_lt (a b : double) :
  Double.leb a b = true -> Double.ltb b a = false.
Proof.
  intros H. destruct (leb_true_not_nan _ _ H) as (Ha & Hb).
  rewrite (leb_negb_ltb a b Ha Hb) in H. by apply negb_true_iff in H.
Qed.

(** Above a balance that is not negative is above zero. *)
Lemma above_nonneg_positive (b a : double) :
  nonneg b -> Double.ltb b a = true -> Double.leb a Double.zero = false.
Proof.
  intros Hb Hlt. destruct (ltb_true_not_nan _ _ Hlt) as (Nb & Na).
  assert (Nz : Double.is_nan Double.zero = false) by reflexivity.
  apply (ltb_key b a Nb Na) in Hlt.
  apply (leb_key Double.zero b Nz Nb) in Hb.
  destruct (Double.leb a Double.zero) eqn:E; [|reflexivity]. exfalso.
  apply (leb_key a Double.zero Na Nz) in E.
  exact (key_lt_neg_trans _ _ _ Hb E Hlt).
Qed.

Lemma withdraw_insufficient (amount : double) (acc : BankAccount) :
  Double.leb amount Double.zero = false ->
  Double.ltb (balance acc) amount = true ->
  BankAccount.withdraw amount acc = inl InsufficientFunds.
Proof. unfold BankAccount.withdraw. intros -> ->. reflexivity. Qed.

Lemma withdraw_sufficient (amount : double) (acc : BankAccount) :
  Double.ltb Double.zero amount = true ->
  Double.leb amount (balance acc) = true ->
  BankAccount.withdraw amount acc
  = inr (set_balance (Double.sub (balance acc) amount) acc).
Proof.
  unfold BankAccount.withdraw. intros H0 H1.
  rewrite (lt_zero_not_le _ H0), (le_not_lt _ _ H1). reflexivity.
Qed.

Lemma deposit_positive (amount : double) (acc : BankAccount) :
  Double.leb amount Double.zero = false ->
  BankAccount.deposit amount acc
  = inr (set_balance (Double.add (balance acc) amount) acc).
Proof. unfold BankAccount.deposit. intros ->. reflexivity. Qed.

(** ** Withdrawals (C4) *)

(** C4, as stated, fails: an account opened with balance -10 is asked for
    -5, an amount above its balance; the withdrawal is refused as not
    positive, not for insufficient funds. *)
Lemma withdraw_above_negative_balance :
  BankManagement.addAccount example_hash "Eve" 7 (Double.of_Z (-10)) "0000" []
    = (inr Successful, [overdrawn]) /\
  Double.ltb (balance overdrawn) (Double.of_Z (-5)) = true /\
  BankManagement.withdraw example_hash 7 (Double.of_Z (-5)) "0000" [overdrawn]
    = (inl InvalidWithdrawal, [overdrawn]) /\
  InvalidWithdrawal <> InsufficientFunds.
Proof. repeat split; try (vm_compute; reflexivity). discriminate. Qed.

(** C4, amended: an amount that is not above zero is refused first, with
    the error of a withdrawal that is not positive, whatever the balance;
    for a positive amount, a withdrawal above the balance fails with
    InsufficientFunds, and one within the balance succeeds and leaves the
    double [b - amount].  A refused withdrawal changes nothing.  This holds
    of the account and of the vector around it.  An amount above a balance
    that is not negative is positive. *)
Theorem withdraw_by_amount
    (hashPIN : string -> Z) (accounts : list BankAccount)
    (n : Z) (i : nat) (amount : double) (pin : string) :
  let acc := accounts !!! i in
  BankManagement.findAccount n accounts = Some i ->
  BankAccount.verifyPIN hashPIN acc pin = true ->
  (Double.leb amount Double.zero = true ->
     BankAccount.withdraw amount acc = inl InvalidWithdrawal /\
     BankManagement.withdraw hashPIN n amount pin accounts
       = (inl InvalidWithdrawal, accounts)) /\
  (Double.ltb Double.zero amount = true \/ nonneg (balance acc) ->
   Double.ltb (balance acc) amount = true ->
     BankAccount.withdraw amount acc = inl InsufficientFunds /\
     BankManagement.withdraw hashPIN n amount pin accounts
       = (inl InsufficientFunds, accounts)) /\
  (Double.ltb Double.zero amount = true ->
   Double.leb amount (balance acc) = true ->
     BankAccount.withdraw amount acc
       = inr (set_balance (Double.sub (balance acc) amount) acc) /\
     BankManagement.withdraw hashPIN n amount pin accounts
       = (inr Successful,
          <[i := set_balance (Double.sub (balance acc) amount) acc]> accounts)).
Proof.
  intros acc F P. rewrite withdraw_cases, F. fold acc. rewrite P.
  split; [|split].
  - intros H0. unfold BankAccount.withdraw. rewrite H0. auto.
  - intros Hpos Hlt.
    assert (Hle : Double.leb amount Double.zero = false).
    { destruct Hpos as [H0|Hb]; [by apply lt_zero_not_le|].
      by apply (above_nonneg_positive (balance acc)). }
    rewrite (withdraw_insufficient _ _ Hle Hlt). auto.
  - intros H0 H1. rewrite (withdraw_sufficient _ _ H0 H1). auto.
Qed.

Lemma withdraw_by_amount_witness :
  BankManagement.withdraw example_hash 1002 (Double.of_Z (-5)) "5678" [alice; bob]
    = (inl InvalidWithdrawal, [alice; bob]) /\
  BankManagement.withdraw example_hash 1002 (Double.of_Z 1000) "5678" [alice; bob]
    = (inl InsufficientFunds, [alice; bob]) /\
  BankManagement.withdraw example_hash 1002 (Double.of_Z 20) "5678" [alice; bob]
    = (inr Successful, [alice; set_balance (Double.of_Z 30) bob]).
Proof.
  pose proof (withdraw_by_amount example_hash [alice; bob] 1002 1
                (Double.of_Z (-5)) "5678" eq_refl eq_refl)
    as (H0 & _).
  pose proof (withdraw_by_amount example_hash [alice; bob] 1002 1
                (Double.of_Z 1000) "5678" eq_refl eq_refl)
    as (_ & H1 & _).
  pose proof (withdraw_by_amount example_hash [alice; bob] 1002 1
                (Double.of_Z 20) "5678" eq_refl eq_refl)
    as (_ & _ & H2).
  split; [|split].
  - exact (proj2 (H0 eq_refl)).
  - exact (proj2 (H1 (or_introl eq_refl) eq_refl)).
  - exact (proj2 (H2 eq_refl eq_refl)).
Defined.

(** ** Transfers (C5) *)

(** C5, as stated, fails twice.  An amount of -5 is within the balance of
    the source, yet the transfer is refused and the source does not go from
    100 to 105.  And with 0.08 and 0.52 on the two accounts, moving 0.01
    succeeds and leaves balances whose sum is not the sum before: each
    update is rounded. *)
Lemma transfer_not_exact :
  (Double.leb (Double.of_Z (-5)) (balance alice) = true /\
   BankManagement.transfer example_hash 1001 1002 (Double.of_Z (-5)) "1234" [alice; bob]
     = (inl InvalidWithdrawal, [alice; bob]) /\
   balance alice <> Double.sub (balance alice) (Double.of_Z (-5))) /\
  (Double.leb (Double.of_ratio 1 100) (balance small) = true /\
   exists a b,
     BankManagement.transfer example_hash 1 2 (Double.of_ratio 1 100) "1111" [small; large]
       = (inr Successful, [a; b]) /\
     Double.add (balance a) (balance b)
       <> Double.add (balance small) (balance large)).
Proof.
  split.
  - repeat split; try (vm_compute; reflexivity). vm_compute. discriminate.
  - split; [vm_compute; reflexivity|].
    eexists _, _. split; [vm_compute; reflexivity|]. vm_compute. discriminate.
Qed.

(** C5, amended: between two different existing accounts, with the PIN of
    the source and [0 < amount <= balance(a)], the transfer succeeds; the
    source holds the double [balance(a) - amount], the destination the
    double [balance(b) + amount], every other account is as before.  When
    the balances and the amount are whole numbers and the sum of the two
    balances is below [2^53], neither update rounds: the balances are
    exactly the difference and the sum, and their sum is what it was. *)
Theorem transfer_moves_amount
    (hashPIN : string -> Z) (accounts : list BankAccount)
    (a b : Z) (i j : nat) (amount : double) (pin : string) :
  let from := accounts !!! i in
  let to := accounts !!! j in
  a <> b ->
  BankManagement.findAccount a accounts = Some i ->
  BankManagement.findAccount b accounts = Some j ->
  BankAccount.verifyPIN hashPIN from pin = true ->
  Double.ltb Double.zero amount = true ->
  Double.leb amount (balance from) = true ->
  exists accounts',
    BankManagement.transfer hashPIN a b amount pin accounts
      = (inr Successful, accounts') /\
    length accounts' = length accounts /\
    balance (accounts' !!! i) = Double.sub (balance from) amount /\
    balance (accounts' !!! j) = Double.add (balance to) amount /\
    (forall k, k <> i -> k <> j -> accounts' !! k = accounts !! k) /\
    numbers accounts' = numbers accounts /\
    (forall A B X : Z,
       balance from = Double.of_Z A -> balance to = Double.of_Z B ->
       amount = Double.of_Z X ->
       0 < X <= A -> 0 <= B -> A + B < 2 ^ 53 ->
       balance (accounts' !!! i) = Double.of_Z (A - X) /\
       balance (accounts' !!! j) = Double.of_Z (B + X) /\
       Double.add (balance (accounts' !!! i)) (balance (accounts' !!! j))
         = Double.add (balance from) (balance to)).
Proof.
  intros from to Hab Fi Fj P H0 H1.
  pose proof (findAccount_ne a b accounts i j Fi Fj Hab) as Hij.
  pose proof (findAccount_lt _ _ _ Fi) as Li.
  pose proof (findAccount_lt _ _ _ Fj) as Lj.
  rewrite transfer_cases, Fi, Fj.
  rewrite bool_decide_eq_false_2 by assumption. fold from. rewrite P.
  rewrite (withdraw_sufficient _ _ H0 H1).
  rewrite list_lookup_total_insert_ne by assumption. fold to.
  rewrite (deposit_positive _ _ (lt_zero_not_le _ H0)).
  set (from' := set_balance (Double.sub (balance from) amount) from).
  set (to' := set_balance (Double.add (balance to) amount) to).
  assert (Bi : balance (<[j := to']> (<[i := from']> accounts) !!! i)
               = Double.sub (balance from) amount).
  { rewrite list_lookup_total_insert_ne by auto.
    rewrite list_lookup_total_insert_eq by assumption. reflexivity. }
  assert (Bj : balance (<[j := to']> (<[i := from']> accounts) !!! j)
               = Double.add (balance to) amount).
  { rewrite list_lookup_total_insert_eq by (by rewrite length_insert). reflexivity. }
  eexists. split; [reflexivity|].
  split; [by rewrite !length_insert|].
  split; [exact Bi|]. split; [exact Bj|]. split; [|split].
  - intros k Hi Hj. rewrite !list_lookup_insert_ne by auto. reflexivity.
  - transitivity (numbers (<[i := from']> accounts)).
    + apply (updated_numbers j to'). split; [by rewrite length_insert|].
      split; [|reflexivity].
      rewrite list_lookup_total_insert_ne by assumption. reflexivity.
    + apply (updated_numbers i from'). split; [assumption|].
      split; reflexivity.
  - intros A B X HA HB HX HXA HB0 HAB. rewrite Bi, Bj, HA, HB, HX.
    rewrite sub_whole, add_whole by lia.
    split; [reflexivity|]. split; [reflexivity|].
    rewrite !add_whole by lia. f_equal. lia.
Qed.

Lemma transfer_moves_amount_witness :
  exists accounts',
    BankManagement.transfer example_hash 1001 1002 (Double.of_Z 30) "1234" [alice; bob]
      = (inr Successful, accounts') /\
    balance (accounts' !!! 0%nat) = Double.of_Z 70 /\
    balance (accounts' !!! 1%nat) = Double.of_Z 80 /\
    Double.add (balance (accounts' !!! 0%nat)) (balance (accounts' !!! 1%nat))
      = Double.add (balance alice) (balance bob).
Proof.
  destruct (transfer_moves_amount example_hash [alice; bob] 1001 1002 0 1
              (Double.of_Z 30) "1234")
    as (accounts' & Ht & _ & _ & _ & _ & _ & Hw).
  - discriminate.
  - reflexivity.
  - reflexivity.
  - reflexivity.
  - reflexivity.
  - reflexivity.
  - exists accounts'. split; [exact Ht|].
    apply (Hw 100 50 30); (reflexivity || lia).
Defined.

(** The scenario of the specification: 100 and 50, 30 moved, then 1000
    asked of the 80. *)
Example scenario :
  BankManagement.transfer example_hash 1001 1002 (Double.of_Z 30) "1234" [alice; bob]
    = (inr Successful,
       [set_balance (Double.of_Z 70) alice; set_balance (Double.of_Z 80) bob]) /\
  BankManagement.withdraw example_hash 1002 (Double.of_Z 1000) "5678"
      [set_balance (Double.of_Z 70) alice; set_balance (Double.of_Z 80) bob]
    = (inl InsufficientFunds,
       [set_balance (Double.of_Z 70) alice; set_balance (Double.of_Z 80) bob]).
Proof. split; vm_compute; reflexivity. Qed.

(** ** A transfer to the same account (C8) *)

(** C8, as stated, fails: a transfer from a number to itself on a vector
    that does not hold the number fails for the missing account. *)
Lemma transfer_to_self_missing :
  BankManagement.transfer example_hash 1003 1003 (Double.of_Z 5) "1234" [alice; bob]
    = (inl AccountNotFound, [alice; bob]) /\
  AccountNotFound <> SameAccountTransfer.
Proof. split; [vm_compute; reflexivity | discriminate]. Qed.

(** C8, amended: a transfer from a number to itself never changes the
    vector; it fails with SameAccountTransfer when the account exists,
    whatever the amount, the funds and the PIN, and with AccountNotFound
    when it does not. *)
Theorem transfer_to_self
    (hashPIN : string -> Z) (accounts : list BankAccount)
    (a : Z) (amount : double) (pin : string) :
  BankManagement.transfer hashPIN a a amount pin accounts
  = (inl (if bool_decide (a ∈ numbers accounts)
          then SameAccountTransfer else AccountNotFound), accounts).
Proof.
  rewrite transfer_cases.
  destruct (BankManagement.findAccount a accounts) as [i|] eqn:F.
  - rewrite bool_decide_eq_true_2 by reflexivity.
    rewrite bool_decide_eq_true_2; [reflexivity|].
    apply findAccount_total in F as (F & Hn).
    unfold numbers. apply list_elem_of_fmap. exists (accounts !!! i). split; [done|].
    apply list_elem_of_lookup. eauto.
  - rewrite bool_decide_eq_false_2; [reflexivity|].
    apply findAccount_None in F. unfold numbers.
    intros (acc & -> & Hin)%list_elem_of_fmap.
    rewrite Forall_forall in F. by apply (F acc).
Qed.

(** ** Loading from a path that names nothing (C9) *)

(** C9, as stated, fails: with nothing under the path, a vector that holds
    accounts still holds them after the call. *)
Lemma load_missing_keeps_accounts :
  BankManagement.loadFromFile "accounts_secure.txt" ∅ [alice; bob]
    = (inr tt, [alice; bob]) /\
  [alice; bob] <> [].
Proof. split; [reflexivity | discriminate]. Qed.

(** C9, amended: with nothing under the path, [loadFromFile] returns
    without an error and leaves the vector as it was; an empty vector stays
    empty. *)
Theorem load_missing_file
    (fs : filesystem) (filename : string) (accounts : list BankAccount) :
  fs !! filename = None ->
  BankManagement.loadFromFile filename fs accounts = (inr tt, accounts).
Proof. intros H. unfold BankManagement.loadFromFile. rewrite H. reflexivity. Qed.

Lemma load_missing_file_witness :
  BankManagement.loadFromFile "accounts_secure.txt" ∅ [] = (inr tt, []).
Proof. apply (load_missing_file ∅ "accounts_secure.txt" []). reflexivity. Defined.

(** ** Account creation (C7) *)

(** C7, as stated, fails: [addAccount] takes an empty name, the number 0,
    a negative balance and a PIN that is not four digits, and adds the
    account. *)
Lemma addAccount_unchecked :
  BankManagement.addAccount example_hash "" 0 (Double.of_Z (-1)) "12ab" []
    = (inr Successful, [nameless]) /\
  name nameless = "" /\ accountNum nameless <= 0 /\
  Double.ltb (balance nameless) Double.zero = true /\ four_digits "12ab" = false.
Proof. repeat split; try (vm_compute; reflexivity). vm_compute. discriminate. Qed.

Lemma four_digits_spec (pin : string) :
  four_digits pin = true <->
  length (list_ascii_of_string pin) = 4%nat /\
  Forall (fun c => Stream.is_digit c = true) (list_ascii_of_string pin).
Proof.
  unfold four_digits. rewrite andb_true_iff, bool_decide_eq_true.
  rewrite forallb_forall, Forall_forall.
  split; intros (H1 & H2); (split; [assumption|]); intros c Hc; apply H2.
  - by apply list_elem_of_In.
  - by apply list_elem_of_In.
Qed.

(** C7, amended: the constructor and [addAccount] check nothing but the
    number being new: with a new number the account is appended whatever
    the name, the number, the balance and the PIN.  The one check of the
    creation path is the menu's: a PIN that is not exactly four digits
    fails with [invalid_argument] before [addAccount] is reached, and
    nothing is added. *)
Theorem creation_checks
    (hashPIN : string -> Z)
    (ranges_sort : forall A : Type, (A -> A -> bool) -> list A -> list A)
    (accounts : list BankAccount)
    (n : string) (num : Z) (bal : double) (pin : string) :
  (num ∉ numbers accounts ->
     BankManagement.addAccount hashPIN n num bal pin accounts
     = (inr Successful, accounts ++ [BankAccount.create hashPIN n num bal pin])) /\
  (~ (length (list_ascii_of_string pin) = 4%nat /\
      Forall (fun c => Stream.is_digit c = true) (list_ascii_of_string pin)) ->
     dispatch hashPIN ranges_sort (CreateAccount n num bal pin) accounts
     = (inl InvalidPIN, accounts)) /\
  (length (list_ascii_of_string pin) = 4%nat ->
   Forall (fun c => Stream.is_digit c = true) (list_ascii_of_string pin) ->
     dispatch hashPIN ranges_sort (CreateAccount n num bal pin) accounts
     = BankManagement.addAccount hashPIN n num bal pin accounts).
Proof.
  split; [|split].
  - intros Hn. rewrite addAccount_cases.
    rewrite bool_decide_eq_false_2 by assumption. reflexivity.
  - intros Hp. simpl. destruct (four_digits pin) eqn:E; [|reflexivity].
    apply four_digits_spec in E. contradiction.
  - intros H1 H2. simpl.
    rewrite (proj2 (four_digits_spec pin) (conj H1 H2)). reflexivity.
Qed.

Lemma creation_checks_witness :
  BankManagement.addAccount example_hash "" 0 (Double.of_Z (-1)) "12ab" [alice]
    = (inr Successful, [alice; nameless]) /\
  dispatch example_hash insertion_sort
    (CreateAccount "Bob" 1002 (Double.of_Z 50) "12ab") [alice]
    = (inl InvalidPIN, [alice]) /\
  dispatch example_hash insertion_sort
    (CreateAccount "Bob" 1002 (Double.of_Z 50) "5678") [alice]
    = (inr Successful, [alice; bob]).
Proof.
  split; [|split].
  - apply (creation_checks example_hash insertion_sort [alice] "" 0
             (Double.of_Z (-1)) "12ab").
    vm_compute. intros H. inversion H as [|? ? ? H']; subst. inversion H'.
  - apply (creation_checks example_hash insertion_sort [alice] "Bob" 1002
             (Double.of_Z 50) "12ab").
    intros (_ & H). vm_compute in H.
    inversion H as [|? ? _ H1]; subst. inversion H1 as [|? ? _ H2]; subst.
    inversion H2 as [|? ? H3 _]; subst. discriminate.
  - rewrite (proj2 (proj2 (creation_checks example_hash insertion_sort [alice] "Bob"
                             1002 (Double.of_Z 50) "5678"))).
    + reflexivity.
    + reflexivity.
    + repeat constructor.
Defined.

(** ** Several accounts under one number (C10) *)

(** C10: the search returns the first account with the number; closing
    removes that element and no other; deposit, withdraw and updateName
    replace that element and no other, and it is the PIN of that element
    they ask for.  A transfer from the number to another
    one checks the PIN against the first match of the source number, takes
    the amount from that element and adds it to the first match of the
    destination number; it replaces these two elements and no other. *)
Theorem first_match
    (hashPIN : string -> Z) (accounts : list BankAccount) (n : Z) (i : nat) :
  BankManagement.findAccount n accounts = Some i ->
  (* the first match *)
  (exists acc, accounts !! i = Some acc /\ accountNum acc = n /\
     forall j acc', accounts !! j = Some acc' -> (j < i)%nat -> accountNum acc' <> n) /\
  (* closeAccount *)
  (forall pin,
     BankAccount.verifyPIN hashPIN (accounts !!! i) pin = true ->
     BankManagement.closeAccount hashPIN n pin accounts
     = (inr Successful, take i accounts ++ drop (S i) accounts)) /\
  (* deposit, withdraw, updateName *)
  (forall amount pin,
     BankAccount.verifyPIN hashPIN (accounts !!! i) pin = true ->
     forall acc', BankAccount.deposit amount (accounts !!! i) = inr acc' ->
     BankManagement.deposit hashPIN n amount pin accounts
     = (inr Successful, <[i := acc']> accounts)) /\
  (forall amount pin,
     BankAccount.verifyPIN hashPIN (accounts !!! i) pin = true ->
     forall acc', BankAccount.withdraw amount (accounts !!! i) = inr acc' ->
     BankManagement.withdraw hashPIN n amount pin accounts
     = (inr Successful, <[i := acc']> accounts)) /\
  (forall newName pin,
     BankAccount.verifyPIN hashPIN (accounts !!! i) pin = true ->
     forall acc', BankAccount.updateName newName (accounts !!! i) = inr acc' ->
     BankManagement.updateName hashPIN n newName pin accounts
     = (inr Successful, <[i := acc']> accounts)) /\
  (forall amount pin k,
     k <> i ->
     snd (BankManagement.deposit hashPIN n amount pin accounts) !! k = accounts !! k /\
     snd (BankManagement.withdraw hashPIN n amount pin accounts) !! k = accounts !! k) /\
  (forall newName pin k,
     k <> i ->
     snd (BankManagement.updateName hashPIN n newName pin accounts) !! k
     = accounts !! k) /\
  (* transfer *)
  (forall m j amount pin k,
     BankManagement.findAccount m accounts = Some j ->
     k <> i -> k <> j ->
     snd (BankManagement.transfer hashPIN n m amount pin accounts) !! k
     = accounts !! k) /\
  (forall m j amount pin,
     BankManagement.findAccount m accounts = Some j ->
     n <> m ->
     i <> j /\
     (BankAccount.verifyPIN hashPIN (accounts !!! i) pin = false ->
        BankManagement.transfer hashPIN n m amount pin accounts
        = (inr AuthenticationFailed, accounts)) /\
     (BankAccount.verifyPIN hashPIN (accounts !!! i) pin = true ->
      forall e, BankAccount.withdraw amount (accounts !!! i) = inl e ->
        BankManagement.transfer hashPIN n m amount pin accounts
        = (inl e, accounts)) /\
     (BankAccount.verifyPIN hashPIN (accounts !!! i) pin = true ->
      forall a, BankAccount.withdraw amount (accounts !!! i) = inr a ->
        a = set_balance (Double.sub (balance (accounts !!! i)) amount)
              (accounts !!! i) /\
        exists b,
          BankAccount.deposit amount (accounts !!! j) = inr b /\
          b = set_balance (Double.add (balance (accounts !!! j)) amount)
                (accounts !!! j) /\
          BankManagement.transfer hashPIN n m amount pin accounts
          = (inr Successful, <[j := b]> (<[i := a]> accounts)))) /\
  (* the PIN asked for *)
  (forall pin,
     BankAccount.verifyPIN hashPIN (accounts !!! i) pin = false ->
     BankManagement.closeAccount hashPIN n pin accounts
       = (inr AuthenticationFailed, accounts) /\
     (forall amount,
        BankManagement.deposit hashPIN n amount pin accounts
          = (inr AuthenticationFailed, accounts) /\
        BankManagement.withdraw hashPIN n amount pin accounts
          = (inr AuthenticationFailed, accounts)) /\
     (forall newName,
        BankManagement.updateName hashPIN n newName pin accounts
          = (inr AuthenticationFailed, accounts))).
Proof.
  intros F. split; [by apply findAccount_Some|].
  split; [|split; [|split; [|split; [|split; [|split; [|split; [|split]]]]]]].
  - intros pin P. rewrite closeAccount_cases, F, P, delete_take_drop. reflexivity.
  - intros amount pin P acc' D. rewrite deposit_cases, F, P, D. reflexivity.
  - intros amount pin P acc' D. rewrite withdraw_cases, F, P, D. reflexivity.
  - intros newName pin P acc' D. rewrite updateName_cases, F, P, D. reflexivity.
  - intros amount pin k Hk. rewrite deposit_cases, withdraw_cases, F.
    destruct (BankAccount.verifyPIN _ _ _); [|auto].
    destruct (BankAccount.deposit _ _), (BankAccount.withdraw _ _); simpl;
      rewrite ?list_lookup_insert_ne by auto; auto.
  - intros newName pin k Hk. rewrite updateName_cases, F.
    destruct (BankAccount.verifyPIN _ _ _); [|auto].
    destruct (BankAccount.updateName _ _); simpl;
      rewrite ?list_lookup_insert_ne by auto; auto.
  - intros m j amount pin k Fj Hi Hj. rewrite transfer_cases, F, Fj.
    case_bool_decide; [reflexivity|].
    destruct (BankAccount.verifyPIN _ _ _); [|reflexivity].
    destruct (BankAccount.withdraw _ _); [reflexivity|].
    destruct (BankAccount.deposit _ _); simpl;
      rewrite ?list_lookup_insert_ne by auto; reflexivity.
  - intros m j amount pin Fj Hnm.
    pose proof (findAccount_ne _ _ _ _ _ F Fj Hnm) as Hij.
    split; [assumption|].
    rewrite transfer_cases, F, Fj, bool_decide_eq_false_2 by assumption.
    split; [|split].
    + intros ->. reflexivity.
    + intros -> e ->. reflexivity.
    + intros -> a W. rewrite W.
      rewrite list_lookup_total_insert_ne by assumption.
      apply withdraw_inr in W as (Hpos & _ & ->). split; [reflexivity|].
      rewrite (deposit_positive _ _ Hpos). eauto.
  - intros pin P.
    rewrite closeAccount_cases, F, P. split; [reflexivity|]. split.
    + intros amount. rewrite deposit_cases, withdraw_cases, F, P. auto.
    + intros newName. rewrite updateName_cases, F, P. reflexivity.
Qed.

Lemma first_match_witness :
  BankManagement.closeAccount example_hash 1001 "1234" [bob; alice; twin]
    = (inr Successful, [bob; twin]) /\
  BankManagement.deposit example_hash 1001 (Double.of_Z 1) "1234" [bob; alice; twin]
    = (inr Successful, [bob; set_balance (Double.of_Z 101) alice; twin]) /\
  BankManagement.closeAccount example_hash 1001 "9999" [bob; alice; twin]
    = (inr AuthenticationFailed, [bob; alice; twin]) /\
  BankManagement.transfer example_hash 1001 1002 (Double.of_Z 30) "9999"
    [bob; alice; twin]
    = (inr AuthenticationFailed, [bob; alice; twin]) /\
  BankManagement.transfer example_hash 1001 1002 (Double.of_Z 30) "1234"
    [bob; alice; twin]
    = (inr Successful,
       [set_balance (Double.of_Z 80) bob; set_balance (Double.of_Z 70) alice;
        twin]).
Proof.
  pose proof (first_match example_hash [bob; alice; twin] 1001 1 eq_refl)
    as (_ & Hclose & Hdeposit & _ & _ & _ & _ & _ & Htransfer & Hpin).
  destruct (Htransfer 1002 0%nat (Double.of_Z 30) "1234" eq_refl
              ltac:(discriminate)) as (_ & _ & _ & Hmoved).
  destruct (Htransfer 1002 0%nat (Double.of_Z 30) "9999" eq_refl
              ltac:(discriminate)) as (_ & Hrefused & _).
  destruct (Hmoved eq_refl _ eq_refl) as (_ & b & _ & -> & Hdone).
  split; [|split; [|split; [|split]]].
  - exact (Hclose "1234" eq_refl).
  - exact (Hdeposit (Double.of_Z 1) "1234" eq_refl _ eq_refl).
  - exact (proj1 (Hpin "9999" eq_refl)).
  - exact (Hrefused eq_refl).
  - exact Hdone.
Defined.

(** ** Sorting by balance (C6) *)

(** C6, as stated, fails.  Seventeen accounts of balance 50 are opened
    from the menu and sorted: the sort of the library takes the ninth to
    the front and returns the others in another order than they had, so
    accounts of equal balance do not keep their relative order.  And next to
    a balance that is NaN, where [<] is no ordering, the sort leaves 100 in
    front of 50. *)
Lemma sort_not_stable :
  (session example_hash libstdcxx_sort savers_open [] = savers /\
   Forall (fun acc => balance acc = Double.of_Z 50) savers /\
   Libstdcxx.sort BankManagement.by_balance savers = Some savers_sorted /\
   BankManagement.sortAccountsByBalance libstdcxx_sort savers
     = (inr Successful, savers_sorted) /\
   session example_hash libstdcxx_sort (savers_open ++ [SortAccounts]) []
     = savers_sorted /\
   ~ stable BankManagement.by_balance savers savers_sorted) /\
  (Libstdcxx.sort BankManagement.by_balance [alice; adrift; overdrawn; bob]
     = Some [overdrawn; alice; adrift; bob] /\
   BankManagement.sortAccountsByBalance libstdcxx_sort
     [alice; adrift; overdrawn; bob]
     = (inr Successful, [overdrawn; alice; adrift; bob]) /\
   Double.ltb (balance bob) (balance alice) = true).
Proof.
  split.
  - split; [vm_compute; reflexivity|].
    split; [repeat constructor|].
    split; [vm_compute; reflexivity|].
    split; [vm_compute; reflexivity|].
    split; [vm_compute; reflexivity|].
    intros H. specialize (H (saver 1)). vm_compute in H. discriminate.
  - split; [vm_compute; reflexivity|]. split; vm_compute; reflexivity.
Qed.

Lemma sorted_by_leb (l : list BankAccount) :
  Forall (fun acc => Double.is_nan (balance acc) = false) l ->
  StronglySorted (fun a b => BankManagement.by_balance b a = false) l ->
  StronglySorted (fun a b => Double.leb (balance a) (balance b) = true) l.
Proof.
  intros Hn Hs. induction Hs as [|a l Hs IH Ha]; [constructor|].
  apply Forall_cons in Hn as (Hna & Hnl).
  constructor; [by apply IH|].
  rewrite Forall_forall in Ha, Hnl |- *. intros b Hb.
  rewrite leb_negb_ltb by auto. unfold BankManagement.by_balance in Ha.
  rewrite (Ha b Hb). reflexivity.
Qed.

(** C6, amended: when no balance is NaN, [sortAccountsByBalance] leaves a
    permutation of the accounts, as many as before, in which no balance is
    above a later one.  The order of accounts with equal balances is that
    of the library's sort, which promises none. *)
Theorem sort_by_balance
    (ranges_sort : forall A : Type, (A -> A -> bool) -> list A -> list A)
    (accounts : list BankAccount) :
  sorts ranges_sort ->
  Forall (fun acc => Double.is_nan (balance acc) = false) accounts ->
  exists accounts',
    BankManagement.sortAccountsByBalance ranges_sort accounts
      = (inr Successful, accounts') /\
    accounts' ≡ₚ accounts /\
    length accounts' = length accounts /\
    StronglySorted (fun a b => Double.leb (balance a) (balance b) = true) accounts'.
Proof.
  intros Hsort Hn. eexists. split; [reflexivity|].
  destruct (Hsort BankAccount BankManagement.by_balance accounts
              (by_balance_swo accounts Hn)) as (Hp & Hs).
  split; [assumption|]. split; [by rewrite Hp|].
  apply sorted_by_leb; [by rewrite Hp | assumption].
Qed.

Lemma sort_by_balance_witness :
  exists accounts',
    BankManagement.sortAccountsByBalance libstdcxx_sort (alice :: bob :: savers)
      = (inr Successful, accounts') /\
    accounts' ≡ₚ alice :: bob :: savers /\
    length accounts' = length (alice :: bob :: savers) /\
    StronglySorted (fun a b => Double.leb (balance a) (balance b) = true) accounts'.
Proof.
  apply (sort_by_balance libstdcxx_sort (alice :: bob :: savers)).
  - apply libstdcxx_sort_sorts.
  - repeat constructor.
Defined.

(** The insertion sort keeps the order of the two accounts of balance 50,
    and on these three accounts the sort of the library returns the same. *)
Example sort_example :
  BankManagement.sortAccountsByBalance insertion_sort [alice; bob; carol]
  = (inr Successful, [bob; carol; alice]).
Proof. vm_compute. reflexivity. Qed.

Example sort_example_library :
  Libstdcxx.sort BankManagement.by_balance [alice; bob; carol]
  = Some [bob; carol; alice].
Proof. vm_compute. reflexivity. Qed.

(** X29: the sort of the library, as embedded from its source, meets the
    contract the other statements take it with.  On a range that the
    comparison orders strictly and weakly, [std::sort] reads and writes
    nothing outside the vector, whatever the depth at which it turns to the
    heap sort, and returns a permutation of the range in which no element
    is less than an earlier one. *)
Theorem library_sort_meets_contract
    (A : Type) (lt : A -> A -> bool) (l : list A) :
  strict_weak_order_on lt l ->
  exists l',
    Libstdcxx.sort lt l = Some l' /\
    libstdcxx_sort A lt l = l' /\
    l' ≡ₚ l /\
    StronglySorted (fun x y => lt y x = false) l'.
Proof.
  intros Hswo.
  destruct (sort_sorted lt l Hswo l (within_refl l)) as (l' & E & Hp & Hs).
  exists l'. unfold libstdcxx_sort. rewrite E. auto.
Qed.

Lemma library_sort_meets_contract_witness :
  exists l',
    Libstdcxx.sort BankManagement.by_balance (alice :: bob :: savers) = Some l' /\
    libstdcxx_sort BankAccount BankManagement.by_balance (alice :: bob :: savers) = l' /\
    l' ≡ₚ alice :: bob :: savers /\
    StronglySorted (fun x y => BankManagement.by_balance y x = false) l'.
Proof.
  apply (library_sort_meets_contract BankAccount BankManagement.by_balance
           (alice :: bob :: savers)).
  apply by_balance_swo. repeat constructor.
Defined.

(** X30: [sortAccountsByBalance] as the program runs it.  When no balance
    is NaN, the call of the library's sort is defined, and it leaves a
    permutation of the accounts in which no balance is above a later
    one. *)
Theorem accounts_sorted_by_library (accounts : list BankAccount) :
  Forall (fun acc => Double.is_nan (balance acc) = false) accounts ->
  exists accounts',
    Libstdcxx.sort BankManagement.by_balance accounts = Some accounts' /\
    BankManagement.sortAccountsByBalance libstdcxx_sort accounts
      = (inr Successful, accounts') /\
    accounts' ≡ₚ accounts /\
    StronglySorted (fun a b => Double.leb (balance a) (balance b) = true) accounts'.
Proof.
  intros Hn.
  destruct (sort_sorted BankManagement.by_balance accounts
              (by_balance_swo accounts Hn) accounts (within_refl accounts))
    as (accounts' & E & Hp & Hs).
  exists accounts'. split; [assumption|]. split; [|split; [assumption|]].
  - change (BankManagement.sortAccountsByBalance libstdcxx_sort accounts)
      with (@inr exception report Successful,
            libstdcxx_sort BankAccount BankManagement.by_balance accounts).
    unfold libstdcxx_sort. rewrite E. reflexivity.
  - apply sorted_by_leb; [by rewrite Hp | assumption].
Qed.

Lemma accounts_sorted_by_library_witness :
  exists accounts',
    Libstdcxx.sort BankManagement.by_balance (alice :: bob :: savers)
      = Some accounts' /\
    BankManagement.sortAccountsByBalance libstdcxx_sort (alice :: bob :: savers)
      = (inr Successful, accounts') /\
    accounts' ≡ₚ alice :: bob :: savers /\
    StronglySorted (fun a b => Double.leb (balance a) (balance b) = true) accounts'.
Proof.
  apply (accounts_sorted_by_library (alice :: bob :: savers)). repeat constructor.
Defined.

(** ** Unique account numbers (C3) *)

(** C3, as stated, fails: a file with two records under one number loads
    as two accounts under one number. *)
Lemma load_duplicate_numbers :
  BankManagement.loadFromFile "accounts_secure.txt"
    {[ "accounts_secure.txt" :=
         RegularFile (BankAccount.save alice ++ BankAccount.save twin) ]} []
    = (inr tt, [alice; twin]) /\
  ~ NoDup (numbers [alice; twin]).
Proof.
  split.
  - unfold BankManagement.loadFromFile. rewrite lookup_singleton_eq.
    vm_compute. reflexivity.
  - intros H. apply NoDup_cons in H as (H & _). apply H. by left.
Qed.

(** C3, amended: the menu keeps the numbers unique.  From a vector without
    duplicate numbers and with admissible balances, no sequence of account
    creations, deposits, withdrawals, transfers, renamings, closings and
    sorts, on inputs the menu lets through, leads to a duplicate.
    [loadFromFile] is not part of this: it takes the numbers of the
    file. *)
Theorem unique_numbers
    (hashPIN : string -> Z)
    (ranges_sort : forall A : Type, (A -> A -> bool) -> list A -> list A)
    (choices : list Menu) (accounts : list BankAccount) :
  sorts ranges_sort ->
  Forall admissible choices ->
  Forall good accounts ->
  NoDup (numbers accounts) ->
  NoDup (numbers (session hashPIN ranges_sort choices accounts)).
Proof.
  intros Hsort Ha Hg Hd.
  destruct (session_keeps hashPIN ranges_sort Hsort choices accounts Ha Hg) as (_ & H).
  by apply H.
Qed.

Lemma busy_session_admissible : Forall admissible busy_session.
Proof. repeat constructor. Qed.

Lemma unique_numbers_witness :
  NoDup (numbers (session example_hash insertion_sort busy_session [])).
Proof.
  apply (unique_numbers example_hash insertion_sort busy_session []).
  - apply insertion_sort_sorts.
  - apply busy_session_admissible.
  - constructor.
  - constructor.
Defined.

Example busy_session_result :
  session example_hash insertion_sort busy_session []
  = [set_balance (Double.of_Z 70) alice].
Proof. vm_compute. reflexivity. Qed.

(** ** Balances that are not negative (C2) *)

(** C2, as stated, fails: [addAccount] stores a negative opening balance,
    [loadFromFile] one that the file holds, and a deposit of NaN leaves a
    balance that is not [>= 0]. *)
Lemma negative_balance_enters :
  BankManagement.addAccount example_hash "Eve" 7 (Double.of_Z (-10)) "0000" []
    = (inr Successful, [overdrawn]) /\
  BankManagement.loadFromFile "accounts_secure.txt"
    {[ "accounts_secure.txt" := RegularFile (BankAccount.save overdrawn) ]} []
    = (inr tt, [overdrawn]) /\
  ~ nonneg (balance overdrawn) /\
  BankManagement.deposit example_hash 1001 S754_nan "1234" [alice]
    = (inr Successful, [set_balance S754_nan alice]) /\
  ~ nonneg S754_nan.
Proof.
  split; [vm_compute; reflexivity|]. split; [|split; [|split]].
  - unfold BankManagement.loadFromFile. rewrite lookup_singleton_eq.
    vm_compute. reflexivity.
  - vm_compute. discriminate.
  - vm_compute. reflexivity.
  - vm_compute. discriminate.
Qed.

(** A withdrawal or transfer above the balance is refused and changes
    nothing. *)
Lemma overdraft_refused
    (hashPIN : string -> Z) (accounts : list BankAccount)
    (n : Z) (i : nat) (amount : double) (pin : string) :
  BankManagement.findAccount n accounts = Some i ->
  Double.ltb (balance (accounts !!! i)) amount = true ->
  (exists e, BankAccount.withdraw amount (accounts !!! i) = inl e) /\
  snd (BankManagement.withdraw hashPIN n amount pin accounts) = accounts /\
  fst (BankManagement.withdraw hashPIN n amount pin accounts) <> inr Successful /\
  forall m,
    snd (BankManagement.transfer hashPIN n m amount pin accounts) = accounts /\
    fst (BankManagement.transfer hashPIN n m amount pin accounts) <> inr Successful.
Proof.
  intros F Hlt.
  assert (W : exists e, BankAccount.withdraw amount (accounts !!! i) = inl e).
  { unfold BankAccount.withdraw. rewrite Hlt.
    destruct (Double.leb amount Double.zero); eauto. }
  destruct W as (e & W). split; [eauto|].
  rewrite withdraw_cases, F, W.
  split; [by destruct (BankAccount.verifyPIN _ _ _)|].
  split; [by destruct (BankAccount.verifyPIN _ _ _)|].
  intros m. rewrite transfer_cases, F, W.
  destruct (BankManagement.findAccount m accounts); [|done].
  case_bool_decide; [done|]. by destruct (BankAccount.verifyPIN _ _ _).
Qed.

(** C2, amended: from balances that are not negative, no sequence of
    deposits, withdrawals, transfers, renamings, closings and sorts with
    finite amounts, and of creations with an opening balance that is not
    negative, leads to a negative balance; a withdrawal or transfer above
    the balance does not succeed and leaves the vector unchanged.  The
    opening balance of [addAccount] and the balances read by
    [loadFromFile] are stored as given. *)
Theorem balances_nonneg
    (hashPIN : string -> Z)
    (ranges_sort : forall A : Type, (A -> A -> bool) -> list A -> list A)
    (choices : list Menu) (accounts : list BankAccount) :
  sorts ranges_sort ->
  Forall admissible choices ->
  Forall good accounts ->
  Forall (fun acc => nonneg (balance acc))
         (session hashPIN ranges_sort choices accounts) /\
  (forall n i amount pin,
     BankManagement.findAccount n accounts = Some i ->
     Double.ltb (balance (accounts !!! i)) amount = true ->
     snd (BankManagement.withdraw hashPIN n amount pin accounts) = accounts /\
     fst (BankManagement.withdraw hashPIN n amount pin accounts) <> inr Successful /\
     forall m,
       snd (BankManagement.transfer hashPIN n m amount pin accounts) = accounts /\
       fst (BankManagement.transfer hashPIN n m amount pin accounts)
         <> inr Successful).
Proof.
  intros Hsort Ha Hg. split.
  - destruct (session_keeps hashPIN ranges_sort Hsort choices accounts Ha Hg) as (H & _).
    eapply Forall_impl; [exact H|]. by intros acc (_ & Hn).
  - intros n i amount pin F Hlt.
    exact (proj2 (overdraft_refused hashPIN accounts n i amount pin F Hlt)).
Qed.

Lemma balances_nonneg_witness :
  Forall (fun acc => nonneg (balance acc))
         (session example_hash insertion_sort busy_session []).
Proof.
  apply (balances_nonneg example_hash insertion_sort busy_session []).
  - apply insertion_sort_sorts.
  - apply busy_session_admissible.
  - constructor.
Defined.

(** ** Saving and loading (C1) *)

(** C1 on a balance of 1234567: [save] writes it with the six significant
    digits of the default precision, as 1.23457e+06, and [load] reads
    1234570; the account that comes back is not the account saved. *)
Lemma balance_not_reproduced :
  BankAccount.save rich
    = list_ascii_of_string "1004 1.23457e+06 " ++
      Stream.show_size_t (pinHash rich) ++
      " "%char :: Stream.show_quoted "Rich" ++ ["010"%char] /\
  exists fs',
    BankManagement.saveToFile "accounts_secure.txt" [rich] ∅ = (inr tt, fs') /\
    BankManagement.loadFromFile "accounts_secure.txt" fs' []
      = (inr tt, [set_balance (Double.of_Z 1234570) rich]) /\
    [set_balance (Double.of_Z 1234570) rich] <> [rich].
Proof.
  split; [vm_compute; reflexivity|].
  eexists. split; [reflexivity|]. split.
  - unfold BankManagement.loadFromFile. rewrite lookup_insert_eq.
    vm_compute. reflexivity.
  - vm_compute. discriminate.
Qed.

Lemma save_length (a : BankAccount) : (1 <= length (BankAccount.save a))%nat.
Proof.
  unfold BankAccount.save. rewrite !length_app. simpl.
  rewrite !length_app. simpl. unfold Stream.show_quoted. simpl.
  rewrite !length_app. simpl. lia.
Qed.

Lemma flat_map_save_length (accounts : list BankAccount) :
  (length accounts <= length (flat_map BankAccount.save accounts))%nat.
Proof.
  induction accounts as [|a l IH]; simpl; [lia|].
  rewrite length_app. pose proof (save_length a). lia.
Qed.

Lemma reloads_set_balance (a a' : BankAccount) :
  reloads a a' -> a' = set_balance (balance a') a.
Proof.
  destruct a, a'. unfold reloads, set_balance. simpl.
  intros (-> & -> & -> & _). reflexivity.
Qed.

(** The loop reads the records back one after the other, and stops at the
    end of the last. *)
Lemma load_loop_saved (accounts accounts' : list BankAccount) :
  Forall storable accounts ->
  Forall2 reloads accounts accounts' ->
  forall (fuel : nat) (acc0 : list BankAccount),
    (length accounts < fuel)%nat ->
    BankManagement.load_loop fuel (flat_map BankAccount.save accounts) acc0
      = Some (acc0 ++ accounts') /\
    BankManagement.load_loop fuel ("010"%char :: flat_map BankAccount.save accounts) acc0
      = Some (acc0 ++ accounts').
Proof.
  intros Hs Hr. revert Hs.
  induction Hr as [|a a' l l' Ha Hl IH]; intros Hs fuel acc0 Hf.
  - destruct fuel as [|fuel]; [simpl in Hf; lia|].
    rewrite app_nil_r. split; reflexivity.
  - destruct fuel as [|fuel]; [simpl in Hf; lia|].
    apply Forall_cons in Hs as ((Hn & Hh) & Hs).
    assert (L : BankAccount.load (flat_map BankAccount.save (a :: l))
                = Some (a', "010"%char :: flat_map BankAccount.save l)).
    { simpl. rewrite (reloads_set_balance a a' Ha).
      apply load_save; try assumption. apply Ha. }
    destruct (IH Hs fuel (acc0 ++ [a']) ltac:(simpl in Hf; lia)) as (_ & IH2).
    rewrite <- app_assoc in IH2. simpl in IH2.
    cbn [BankManagement.load_loop]. rewrite load_newline, L. auto.
Qed.

(** X1: what does hold of a save followed by a load: as many accounts come
    back, in the same order, each with the name, the number and the digest
    it was saved with, and with the balance that the extractor reads back
    from the six significant digits the inserter wrote, provided that text
    reads back at all (that of an infinite balance or a NaN does not).  A
    balance comes back as it was only if six significant digits render it
    exactly. *)
Theorem save_then_load
    (fs : filesystem) (filename : string)
    (accounts accounts' old : list BankAccount) :
  fs !! filename <> Some Directory ->
  Forall storable accounts ->
  Forall2 reloads accounts accounts' ->
  exists fs',
    BankManagement.saveToFile filename accounts fs = (inr tt, fs') /\
    BankManagement.loadFromFile filename fs' old = (inr tt, accounts').
Proof.
  intros Hdir Hs Hr.
  exists (<[filename := RegularFile (flat_map BankAccount.save accounts)]> fs).
  split.
  - unfold BankManagement.saveToFile.
    destruct (fs !! filename) as [[content|]|]; congruence.
  - unfold BankManagement.loadFromFile. rewrite lookup_insert_eq.
    unfold BankManagement.modify, BankManagement.load_all. f_equal.
    destruct (load_loop_saved accounts accounts' Hs Hr
                (S (length (flat_map BankAccount.save accounts))) [])
      as (H & _).
    { pose proof (flat_map_save_length accounts). lia. }
    rewrite H. reflexivity.
Qed.

(** Balances of 100 and 50 come back as they were. *)
Lemma save_then_load_witness :
  exists fs',
    BankManagement.saveToFile "accounts_secure.txt" [alice; bob] ∅ = (inr tt, fs') /\
    BankManagement.loadFromFile "accounts_secure.txt" fs' [] = (inr tt, [alice; bob]).
Proof.
  apply (save_then_load ∅ "accounts_secure.txt" [alice; bob] [alice; bob] []).
  - discriminate.
  - repeat constructor; vm_compute; congruence.
  - repeat constructor; vm_compute; reflexivity.
Defined.

(** The numbers of a file that [saveToFile] wrote are those of the vector
    saved: without a duplicate if that had none. *)
Lemma reloaded_numbers (accounts accounts' : list BankAccount) :
  Forall2 reloads accounts accounts' -> numbers accounts' = numbers accounts.
Proof.
  unfold numbers. induction 1 as [|a a' l l' (_ & Hn & _) _ IH]; [reflexivity|].
  rewrite !fmap_cons, Hn, IH. reflexivity.
Qed.

(** Two deposits of [DBL_MAX] leave an infinite balance; it is written as
    inf, which the extractor does not read: the record and every record
    after it are lost. *)
Example infinite_balance_lost :
  session example_hash insertion_sort
    [Deposit 1001 DBL_MAX "1234"; Deposit 1001 DBL_MAX "1234"] [alice; bob]
    = [set_balance (S754_infinity false) alice; bob] /\
  Stream.show_double (S754_infinity false) = list_ascii_of_string "inf" /\
  exists fs',
    BankManagement.saveToFile "accounts_secure.txt"
      [set_balance (S754_infinity false) alice; bob] ∅ = (inr tt, fs') /\
    BankManagement.loadFromFile "accounts_secure.txt" fs' [] = (inr tt, []).
Proof.
  split; [vm_compute; reflexivity|]. split; [reflexivity|].
  eexists. split; [reflexivity|].
  unfold BankManagement.loadFromFile. rewrite lookup_insert_eq.
  vm_compute. reflexivity.
Qed.

(** X2: the loop of [loadFromFile] always ends within the fuel it is given. *)
Lemma load_all_total (s : Stream.text) :
  exists accounts,
    BankManagement.load_loop (S (length s)) s [] = Some accounts /\
    BankManagement.load_all s = accounts.
Proof.
  destruct (load_loop_total (S (length s)) s [] ltac:(lia)) as (l & H).
  exists l. unfold BankManagement.load_all. rewrite H. auto.
Qed.

(** ** The ledger, operation by operation *)

Lemma set_balance_id (acc : BankAccount) : set_balance (balance acc) acc = acc.
Proof. by destruct acc. Qed.

Lemma numbers_found (n : Z) (accounts : list BankAccount) :
  n ∈ numbers accounts <-> is_Some (BankManagement.findAccount n accounts).
Proof.
  split.
  - intros (acc & -> & Hin)%list_elem_of_fmap.
    destruct (BankManagement.findAccount (accountNum acc) accounts) eqn:F; [eauto|].
    apply findAccount_None in F. rewrite Forall_forall in F. by destruct (F acc).
  - intros [i (Hi & Hn)%findAccount_total].
    apply list_elem_of_fmap. exists (accounts !!! i). split; [done|].
    apply list_elem_of_lookup. eauto.
Qed.

Lemma numbers_not_found (n : Z) (accounts : list BankAccount) :
  n ∉ numbers accounts <-> BankManagement.findAccount n accounts = None.
Proof.
  rewrite numbers_found. split.
  - intros H. destruct (BankManagement.findAccount n accounts); [|reflexivity].
    destruct H. eauto.
  - intros -> [i H]. discriminate.
Qed.

(** A withdrawal that went through was of an amount a deposit takes. *)
Lemma deposit_after_withdraw (amount : double) (acc a b : BankAccount) :
  BankAccount.withdraw amount acc = inr a ->
  exists b', BankAccount.deposit amount b = inr b'.
Proof.
  intros (Hpos & _)%withdraw_inr. rewrite (deposit_positive _ _ Hpos). eauto.
Qed.

(** X3: an operation of the menu that ends in an exception, or that
    reports anything but success, leaves the vector exactly as it was.  In
    particular a transfer is never half done: once the withdrawal has gone
    through, the deposit of the same amount cannot be refused. *)
Theorem unsuccessful_changes_nothing
    (hashPIN : string -> Z)
    (ranges_sort : forall A : Type, (A -> A -> bool) -> list A -> list A)
    (choice : Menu) (accounts : list BankAccount) :
  fst (dispatch hashPIN ranges_sort choice accounts) <> inr Successful ->
  snd (dispatch hashPIN ranges_sort choice accounts) = accounts.
Proof.
  destruct choice as [n num bal pin|num amt pin|num amt pin|from to amt pin
                      |num pin|num newName pin|]; simpl.
  - destruct (four_digits pin); [|reflexivity].
    rewrite addAccount_cases. case_bool_decide; simpl; congruence.
  - rewrite deposit_cases.
    destruct (BankManagement.findAccount num accounts) as [i|]; [|reflexivity].
    destruct (BankAccount.verifyPIN _ _ _); [|reflexivity].
    destruct (BankAccount.deposit _ _); simpl; congruence.
  - rewrite withdraw_cases.
    destruct (BankManagement.findAccount num accounts) as [i|]; [|reflexivity].
    destruct (BankAccount.verifyPIN _ _ _); [|reflexivity].
    destruct (BankAccount.withdraw _ _); simpl; congruence.
  - rewrite transfer_cases.
    destruct (BankManagement.findAccount from accounts) as [i|]; [|reflexivity].
    destruct (BankManagement.findAccount to accounts) as [j|]; [|reflexivity].
    case_bool_decide; [reflexivity|].
    destruct (BankAccount.verifyPIN _ _ _); [|reflexivity].
    destruct (BankAccount.withdraw amt (accounts !!! i)) as [e|a] eqn:W; [reflexivity|].
    destruct (deposit_after_withdraw amt _ a (<[i := a]> accounts !!! j) W) as (b & ->).
    simpl. congruence.
  - rewrite closeAccount_cases.
    destruct (BankManagement.findAccount num accounts) as [i|]; [|reflexivity].
    destruct (BankAccount.verifyPIN _ _ _); simpl; congruence.
  - rewrite updateName_cases.
    destruct (BankManagement.findAccount num accounts) as [i|]; [|reflexivity].
    destruct (BankAccount.verifyPIN _ _ _); [|reflexivity].
    destruct (BankAccount.updateName _ _); simpl; congruence.
  - run. simpl. congruence.
Qed.

Lemma unsuccessful_changes_nothing_witness :
  snd (dispatch example_hash insertion_sort
         (Transfer 1001 1002 (Double.of_Z 1000) "1234") [alice; bob])
  = [alice; bob].
Proof.
  apply (unsuccessful_changes_nothing example_hash insertion_sort
           (Transfer 1001 1002 (Double.of_Z 1000) "1234") [alice; bob]).
  vm_compute. discriminate.
Defined.

(** X4: the PIN is asked for before anything else is looked at.  With a
    PIN whose digest is not the one stored, deposit, withdraw, updateName,
    closeAccount and a transfer out of the account report a failed
    authentication and change nothing, whatever the amount or the name,
    even one that would have been refused with an exception. *)
Theorem wrong_pin_refused
    (hashPIN : string -> Z) (accounts : list BankAccount)
    (num : Z) (i : nat) (pin : string) :
  BankManagement.findAccount num accounts = Some i ->
  pinHash (accounts !!! i) <> hashPIN pin ->
  (forall amount,
     BankManagement.deposit hashPIN num amount pin accounts
     = (inr AuthenticationFailed, accounts)) /\
  (forall amount,
     BankManagement.withdraw hashPIN num amount pin accounts
     = (inr AuthenticationFailed, accounts)) /\
  (forall newName,
     BankManagement.updateName hashPIN num newName pin accounts
     = (inr AuthenticationFailed, accounts)) /\
  BankManagement.closeAccount hashPIN num pin accounts
    = (inr AuthenticationFailed, accounts) /\
  (forall to amount,
     to <> num -> to ∈ numbers accounts ->
     BankManagement.transfer hashPIN num to amount pin accounts
     = (inr AuthenticationFailed, accounts)).
Proof.
  intros F Hp.
  assert (P : BankAccount.verifyPIN hashPIN (accounts !!! i) pin = false)
    by (by apply bool_decide_eq_false_2).
  split; [|split; [|split; [|split]]].
  - intros amount. by rewrite deposit_cases, F, P.
  - intros amount. by rewrite withdraw_cases, F, P.
  - intros newName. by rewrite updateName_cases, F, P.
  - by rewrite closeAccount_cases, F, P.
  - intros to amount Hne [j Fj]%numbers_found.
    rewrite transfer_cases, F, Fj, bool_decide_eq_false_2 by congruence.
    by rewrite P.
Qed.

Lemma wrong_pin_refused_witness :
  BankManagement.deposit example_hash 1001 (Double.of_Z (-5)) "0000" [alice; bob]
    = (inr AuthenticationFailed, [alice; bob]) /\
  BankManagement.closeAccount example_hash 1001 "0000" [alice; bob]
    = (inr AuthenticationFailed, [alice; bob]).
Proof.
  destruct (wrong_pin_refused example_hash [alice; bob] 1001 0 "0000")
    as (Hd & _ & _ & Hc & _).
  - reflexivity.
  - vm_compute. discriminate.
  - split; [apply Hd | exact Hc].
Defined.

(** X5: a number that no account has.  deposit, withdraw, updateName and
    closeAccount return normally with the report that the account was not
    found; a transfer throws, whichever of its two accounts is missing.
    No PIN is looked at and the vector stays as it was. *)
Theorem missing_account
    (hashPIN : string -> Z) (accounts : list BankAccount) (num : Z) :
  num ∉ numbers accounts ->
  (forall amount pin,
     BankManagement.deposit hashPIN num amount pin accounts = (inr NotFound, accounts) /\
     BankManagement.withdraw hashPIN num amount pin accounts = (inr NotFound, accounts)) /\
  (forall newName pin,
     BankManagement.updateName hashPIN num newName pin accounts
     = (inr NotFound, accounts)) /\
  (forall pin,
     BankManagement.closeAccount hashPIN num pin accounts = (inr NotFound, accounts)) /\
  (forall other amount pin,
     BankManagement.transfer hashPIN num other amount pin accounts
       = (inl AccountNotFound, accounts) /\
     BankManagement.transfer hashPIN other num amount pin accounts
       = (inl AccountNotFound, accounts)).
Proof.
  intros F%numbers_not_found. split; [|split; [|split]].
  - intros amount pin. by rewrite deposit_cases, withdraw_cases, F.
  - intros newName pin. by rewrite updateName_cases, F.
  - intros pin. by rewrite closeAccount_cases, F.
  - intros other amount pin. rewrite !transfer_cases, F.
    by destruct (BankManagement.findAccount other accounts).
Qed.

Lemma missing_account_witness :
  BankManagement.closeAccount example_hash 1003 "1234" [alice; bob]
    = (inr NotFound, [alice; bob]) /\
  BankManagement.transfer example_hash 1001 1003 (Double.of_Z 5) "1234" [alice; bob]
    = (inl AccountNotFound, [alice; bob]).
Proof.
  destruct (missing_account example_hash [alice; bob] 1003) as (_ & _ & Hc & Ht).
  - apply numbers_not_found. reflexivity.
  - split; [apply Hc | apply Ht].
Defined.

(** X6: deposit, on an account that exists and with its PIN.  An amount
    that is [<= 0] is refused with [invalid_argument] and nothing changes;
    any other amount is added to the balance of the first account with the
    number, in double arithmetic, and nothing else changes: not the other
    fields of the account, not the other accounts, not the order.  A NaN is
    not [<= 0]: it is taken, and leaves the balance NaN. *)
Theorem deposit_by_amount
    (hashPIN : string -> Z) (accounts : list BankAccount)
    (num : Z) (i : nat) (amount : double) (pin : string) :
  let acc := accounts !!! i in
  BankManagement.findAccount num accounts = Some i ->
  BankAccount.verifyPIN hashPIN acc pin = true ->
  (Double.leb amount Double.zero = true ->
     BankManagement.deposit hashPIN num amount pin accounts
     = (inl InvalidDeposit, accounts)) /\
  (Double.leb amount Double.zero = false ->
     BankManagement.deposit hashPIN num amount pin accounts
     = (inr Successful,
        <[i := {| name := name acc; accountNum := accountNum acc;
                  balance := Double.add (balance acc) amount;
                  pinHash := pinHash acc |}]> accounts)) /\
  (amount = S754_nan ->
     balance (snd (BankManagement.deposit hashPIN num amount pin accounts) !!! i)
     = S754_nan).
Proof.
  intros acc F P. rewrite deposit_cases, F. fold acc. rewrite P.
  unfold BankAccount.deposit. split; [|split].
  - intros ->. reflexivity.
  - intros ->. reflexivity.
  - intros ->. simpl.
    rewrite list_lookup_total_insert_eq by (by eapply findAccount_lt). simpl.
    by destruct (balance acc).
Qed.

Lemma deposit_by_amount_witness :
  BankManagement.deposit example_hash 1002 (Double.of_Z 0) "5678" [alice; bob]
    = (inl InvalidDeposit, [alice; bob]) /\
  BankManagement.deposit example_hash 1002 (Double.of_Z 25) "5678" [alice; bob]
    = (inr Successful, [alice; set_balance (Double.of_Z 75) bob]).
Proof.
  split.
  - apply (deposit_by_amount example_hash [alice; bob] 1002 1 (Double.of_Z 0) "5678");
      reflexivity.
  - apply (deposit_by_amount example_hash [alice; bob] 1002 1 (Double.of_Z 25) "5678");
      reflexivity.
Defined.

(** X7: updateName, on an account that exists and with its PIN.  The empty
    name is refused with [invalid_argument]; any other string, blanks
    included, replaces the name of the first account with the number, and
    its number, balance and PIN digest stay. *)
Theorem updateName_by_name
    (hashPIN : string -> Z) (accounts : list BankAccount)
    (num : Z) (i : nat) (newName pin : string) :
  let acc := accounts !!! i in
  BankManagement.findAccount num accounts = Some i ->
  BankAccount.verifyPIN hashPIN acc pin = true ->
  (newName = "" ->
     BankManagement.updateName hashPIN num newName pin accounts
     = (inl EmptyName, accounts)) /\
  (newName <> "" ->
     BankManagement.updateName hashPIN num newName pin accounts
     = (inr Successful,
        <[i := {| name := newName; accountNum := accountNum acc;
                  balance := balance acc; pinHash := pinHash acc |}]> accounts)).
Proof.
  intros acc F P. rewrite updateName_cases, F. fold acc. rewrite P.
  unfold BankAccount.updateName. split; intros H.
  - by rewrite bool_decide_eq_true_2.
  - by rewrite bool_decide_eq_false_2.
Qed.

Lemma updateName_by_name_witness :
  BankManagement.updateName example_hash 1002 "" "5678" [alice; bob]
    = (inl EmptyName, [alice; bob]) /\
  BankManagement.updateName example_hash 1002 " " "5678" [alice; bob]
    = (inr Successful, [alice; set_name " " bob]).
Proof.
  split.
  - apply (updateName_by_name example_hash [alice; bob] 1002 1 "" "5678");
      reflexivity.
  - apply (updateName_by_name example_hash [alice; bob] 1002 1 " " "5678");
      [reflexivity | reflexivity | discriminate].
Defined.

(** ** Opening, finding and closing *)

Lemma findAccount_app_new (n : Z) (accounts : list BankAccount) (acc : BankAccount) :
  accountNum acc = n -> n ∉ numbers accounts ->
  BankManagement.findAccount n (accounts ++ [acc]) = Some (length accounts).
Proof.
  intros Hn Hnot. apply findAccount_Some. exists acc. split; [|split].
  - rewrite lookup_app_r by lia. by rewrite Nat.sub_diag.
  - assumption.
  - intros j acc' Hj Hlt Hx. rewrite lookup_app_l in Hj by assumption.
    apply Hnot. apply list_elem_of_fmap. exists acc'. split; [done|].
    apply list_elem_of_lookup. eauto.
Qed.

Lemma findAccount_app_old (n : Z) (accounts : list BankAccount) (acc : BankAccount) :
  accountNum acc <> n ->
  BankManagement.findAccount n (accounts ++ [acc]) = BankManagement.findAccount n accounts.
Proof.
  intros Hn. destruct (BankManagement.findAccount n accounts) as [i|] eqn:F.
  - apply findAccount_Some in F as (a & Hi & Ha & Hfirst).
    apply findAccount_Some. exists a. split; [|split; [assumption|]].
    + apply lookup_app_l_Some. assumption.
    + intros j a' Hj Hlt. apply (Hfirst j a'); [|assumption].
      rewrite lookup_app_l in Hj; [assumption|].
      apply lookup_lt_Some in Hi. lia.
  - apply findAccount_None. apply findAccount_None in F.
    apply Forall_app. split; [assumption|]. by constructor.
Qed.

(** X8: an account that [addAccount] has opened is there to be used.  The
    new account goes to the end of the vector with the fields given; its
    number now finds it, the PIN it was opened with authenticates it, a PIN
    is taken for it exactly when the digests agree, and every other number
    finds what it found before.  A second account under the number is
    refused. *)
Theorem addAccount_then_find
    (hashPIN : string -> Z) (accounts : list BankAccount)
    (n : string) (num : Z) (bal : double) (pin : string) :
  num ∉ numbers accounts ->
  exists accounts',
    BankManagement.addAccount hashPIN n num bal pin accounts = (inr Successful, accounts') /\
    BankManagement.findAccount num accounts' = Some (length accounts) /\
    accounts' !!! length accounts
      = {| name := n; accountNum := num; balance := bal; pinHash := hashPIN pin |} /\
    (forall pin',
       BankAccount.verifyPIN hashPIN (accounts' !!! length accounts) pin' = true
       <-> hashPIN pin' = hashPIN pin) /\
    (forall other, other <> num ->
       BankManagement.findAccount other accounts'
       = BankManagement.findAccount other accounts) /\
    (forall n' bal' pin',
       BankManagement.addAccount hashPIN n' num bal' pin' accounts'
       = (inl DuplicateAccount, accounts')).
Proof.
  intros Hnew. eexists. split; [|split; [|split; [|split; [|split]]]].
  - rewrite addAccount_cases, bool_decide_eq_false_2 by assumption. reflexivity.
  - by apply findAccount_app_new.
  - rewrite lookup_total_app_r by lia. by rewrite Nat.sub_diag.
  - intros pin'. rewrite lookup_total_app_r by lia. rewrite Nat.sub_diag. simpl.
    unfold BankAccount.verifyPIN. simpl. rewrite bool_decide_eq_true. split; congruence.
  - intros other Hne. apply findAccount_app_old. simpl. congruence.
  - intros n' bal' pin'. rewrite addAccount_cases, bool_decide_eq_true_2; [reflexivity|].
    unfold numbers. rewrite fmap_app. set_solver.
Qed.

Lemma addAccount_then_find_witness :
  exists accounts',
    BankManagement.addAccount example_hash "Carol" 1003 (Double.of_Z 50) "0000" [alice; bob]
      = (inr Successful, accounts') /\
    BankManagement.findAccount 1003 accounts' = Some 2%nat /\
    accounts' !!! 2%nat = carol.
Proof.
  destruct (addAccount_then_find example_hash [alice; bob] "Carol" 1003
              (Double.of_Z 50) "0000") as (accounts' & H1 & H2 & H3 & _).
  - apply numbers_not_found. reflexivity.
  - exists accounts'. split; [exact H1|]. split; [exact H2 | exact H3].
Defined.

Lemma findAccount_delete_unique (n : Z) (accounts : list BankAccount) (i : nat) :
  NoDup (numbers accounts) ->
  BankManagement.findAccount n accounts = Some i ->
  n ∉ numbers (delete i accounts).
Proof.
  intros Hd F. destruct (findAccount_total _ _ _ F) as (Hi & Hn).
  unfold numbers in *. rewrite list_fmap_delete.
  assert (Hl : (accountNum <$> accounts) !! i = Some n).
  { rewrite list_lookup_fmap, Hi. simpl. by rewrite Hn. }
  intros (j & Hj)%list_elem_of_lookup.
  destruct (decide (j < i)%nat) as [Hlt|Hge].
  - rewrite list_lookup_delete_lt in Hj by assumption.
    pose proof (NoDup_lookup _ _ _ _ Hd Hj Hl). lia.
  - rewrite list_lookup_delete_ge in Hj by lia.
    pose proof (NoDup_lookup _ _ _ _ Hd Hj Hl). lia.
Qed.

(** X9: closing an account frees its number.  On a vector whose numbers
    are all different, once [closeAccount] has succeeded the number finds
    nothing, every operation on it reports that the account was not found,
    and [addAccount] takes the number again, for any name, balance and
    PIN. *)
Theorem closeAccount_frees_number
    (hashPIN : string -> Z) (accounts : list BankAccount)
    (num : Z) (i : nat) (pin : string) :
  NoDup (numbers accounts) ->
  BankManagement.findAccount num accounts = Some i ->
  BankAccount.verifyPIN hashPIN (accounts !!! i) pin = true ->
  exists accounts',
    BankManagement.closeAccount hashPIN num pin accounts = (inr Successful, accounts') /\
    length accounts = S (length accounts') /\
    numbers accounts' = delete i (numbers accounts) /\
    BankManagement.findAccount num accounts' = None /\
    BankManagement.closeAccount hashPIN num pin accounts' = (inr NotFound, accounts') /\
    (forall n' bal' pin',
       BankManagement.addAccount hashPIN n' num bal' pin' accounts'
       = (inr Successful,
          accounts' ++ [{| name := n'; accountNum := num; balance := bal';
                           pinHash := hashPIN pin' |}])).
Proof.
  intros Hd F P. pose proof (findAccount_lt _ _ _ F) as Hlt.
  pose proof (findAccount_delete_unique _ _ _ Hd F) as Hfree.
  exists (delete i accounts). split; [|split; [|split; [|split; [|split]]]].
  - by rewrite closeAccount_cases, F, P.
  - rewrite length_delete by (by apply lookup_lt_is_Some). lia.
  - unfold numbers. by rewrite list_fmap_delete.
  - by apply numbers_not_found.
  - rewrite closeAccount_cases. apply numbers_not_found in Hfree. by rewrite Hfree.
  - intros n' bal' pin'.
    rewrite addAccount_cases, bool_decide_eq_false_2 by assumption. reflexivity.
Qed.

Lemma closeAccount_frees_number_witness :
  exists accounts',
    BankManagement.closeAccount example_hash 1001 "1234" [alice; bob]
      = (inr Successful, accounts') /\
    BankManagement.findAccount 1001 accounts' = None.
Proof.
  destruct (closeAccount_frees_number example_hash [alice; bob] 1001 0 "1234")
    as (accounts' & H1 & _ & _ & H2 & _).
  - apply (bool_decide_unpack _). vm_compute. exact I.
  - reflexivity.
  - reflexivity.
  - exists accounts'. split; [exact H1 | exact H2].
Defined.

(** ** What no operation touches *)

Lemma credentials_insert (i : nat) (acc' : BankAccount) (accounts : list BankAccount) :
  (i < length accounts)%nat ->
  credentials acc' = credentials (accounts !!! i) ->
  credentials <$> <[i := acc']> accounts = credentials <$> accounts.
Proof.
  intros Hi Hc. rewrite list_fmap_insert. apply list_insert_id.
  rewrite list_lookup_fmap, (list_lookup_lookup_total_lt _ _ Hi). simpl. by rewrite Hc.
Qed.

(** X10: the number and the PIN digest of an account are never changed;
    the program has no operation that would.  deposit, withdraw, transfer
    and updateName leave the pair (number, digest) of every account where
    it was, whether they succeed or not; closeAccount takes at most one
    pair away; addAccount puts at most one after the others, made of the
    number and of the digest of the PIN given; and the sort, when its
    contract applies, permutes them. *)
Theorem credentials_fixed
    (hashPIN : string -> Z)
    (ranges_sort : forall A : Type, (A -> A -> bool) -> list A -> list A)
    (choice : Menu) (accounts : list BankAccount) :
  let before := credentials <$> accounts in
  let after := credentials <$> turn hashPIN ranges_sort accounts choice in
  match choice with
  | CreateAccount _ num _ pin =>
      after = before \/ after = before ++ [(num, hashPIN pin)]
  | CloseAccount _ _ =>
      after = before \/ exists i, (i < length before)%nat /\ after = delete i before
  | SortAccounts =>
      sorts ranges_sort ->
      Forall (fun acc => Double.is_nan (balance acc) = false) accounts ->
      after ≡ₚ before
  | _ => after = before
  end.
Proof.
  unfold turn.
  destruct choice as [n num bal pin|num amt pin|num amt pin|from to amt pin
                      |num pin|num newName pin|]; simpl.
  - destruct (four_digits pin); [|by left].
    rewrite addAccount_cases. case_bool_decide; simpl; [by left|right].
    by rewrite fmap_app.
  - rewrite deposit_cases.
    destruct (BankManagement.findAccount num accounts) as [i|] eqn:F; [|reflexivity].
    apply findAccount_lt in F.
    destruct (BankAccount.verifyPIN _ _ _); [|reflexivity].
    destruct (BankAccount.deposit amt (accounts !!! i)) as [e|acc'] eqn:D;
      [reflexivity|].
    apply deposit_inr in D as (_ & ->). by apply credentials_insert.
  - rewrite withdraw_cases.
    destruct (BankManagement.findAccount num accounts) as [i|] eqn:F; [|reflexivity].
    apply findAccount_lt in F.
    destruct (BankAccount.verifyPIN _ _ _); [|reflexivity].
    destruct (BankAccount.withdraw amt (accounts !!! i)) as [e|acc'] eqn:D;
      [reflexivity|].
    apply withdraw_inr in D as (_ & _ & ->). by apply credentials_insert.
  - rewrite transfer_cases.
    destruct (BankManagement.findAccount from accounts) as [i|] eqn:Fi; [|reflexivity].
    destruct (BankManagement.findAccount to accounts) as [j|] eqn:Fj; [|reflexivity].
    apply findAccount_lt in Fi, Fj.
    case_bool_decide; [reflexivity|].
    destruct (BankAccount.verifyPIN _ _ _); [|reflexivity].
    destruct (BankAccount.withdraw amt (accounts !!! i)) as [e|a] eqn:W;
      [reflexivity|].
    apply withdraw_inr in W as (_ & _ & ->).
    destruct (BankAccount.deposit amt _) as [e|b] eqn:D; simpl.
    + by apply credentials_insert.
    + apply deposit_inr in D as (_ & ->).
      rewrite credentials_insert; [by apply credentials_insert| |reflexivity].
      by rewrite length_insert.
  - rewrite closeAccount_cases.
    destruct (BankManagement.findAccount num accounts) as [i|] eqn:F; [|by left].
    apply findAccount_lt in F.
    destruct (BankAccount.verifyPIN _ _ _); [|by left].
    right. exists i. simpl. split; [by rewrite length_fmap|].
    by rewrite list_fmap_delete.
  - rewrite updateName_cases.
    destruct (BankManagement.findAccount num accounts) as [i|] eqn:F; [|reflexivity].
    apply findAccount_lt in F.
    destruct (BankAccount.verifyPIN _ _ _); [|reflexivity].
    destruct (BankAccount.updateName newName (accounts !!! i)) as [e|acc'] eqn:D;
      [reflexivity|].
    apply updateName_inr in D as (_ & ->). by apply credentials_insert.
  - intros Hsort Hnan. run. simpl.
    destruct (Hsort BankAccount BankManagement.by_balance accounts) as (Hp & _).
    { by apply by_balance_swo. }
    by rewrite Hp.
Qed.

(** ** Operations one after the other *)

(** X11: a deposit and then a withdrawal of the same amount put the
    vector back as it was, when the balance and the amount are whole
    numbers and their sum is below [2^53]: neither update rounds. *)
Theorem deposit_then_withdraw
    (hashPIN : string -> Z) (accounts : list BankAccount)
    (num : Z) (i : nat) (pin : string) (A X : Z) :
  BankManagement.findAccount num accounts = Some i ->
  BankAccount.verifyPIN hashPIN (accounts !!! i) pin = true ->
  balance (accounts !!! i) = Double.of_Z A ->
  0 <= A -> 0 < X -> A + X < 2 ^ 53 ->
  exists accounts1,
    BankManagement.deposit hashPIN num (Double.of_Z X) pin accounts
      = (inr Successful, accounts1) /\
    balance (accounts1 !!! i) = Double.of_Z (A + X) /\
    BankManagement.withdraw hashPIN num (Double.of_Z X) pin accounts1
      = (inr Successful, accounts).
Proof.
  intros F P HA HA0 HX Hsum.
  pose proof (findAccount_lt _ _ _ F) as Hlt.
  assert (H0 : Double.ltb Double.zero (Double.of_Z X) = true)
    by (apply ltb_zero_whole; lia).
  set (acc := accounts !!! i) in *.
  set (acc1 := set_balance (Double.of_Z (A + X)) acc).
  exists (<[i := acc1]> accounts).
  assert (L1 : <[i := acc1]> accounts !!! i = acc1)
    by (by apply list_lookup_total_insert_eq).
  split; [|split].
  - rewrite deposit_cases, F. fold acc. rewrite P.
    rewrite (deposit_positive _ _ (lt_zero_not_le _ H0)).
    rewrite HA, add_whole by lia. reflexivity.
  - by rewrite L1.
  - rewrite withdraw_cases.
    rewrite (findAccount_numbers num _ accounts), F.
    2:{ apply (updated_numbers i acc1). by repeat split. }
    rewrite L1.
    assert (P1 : BankAccount.verifyPIN hashPIN acc1 pin = true) by exact P.
    rewrite P1.
    rewrite (withdraw_sufficient _ _ H0).
    2:{ simpl. apply leb_whole; lia. }
    simpl balance. rewrite sub_whole by lia.
    replace (A + X - X) with A by lia.
    rewrite list_insert_insert_eq. f_equal. apply list_insert_id.
    rewrite (list_lookup_lookup_total_lt _ _ Hlt). fold acc. f_equal.
    unfold acc1, set_balance. simpl. rewrite <- HA. by destruct acc.
Qed.

Lemma deposit_then_withdraw_witness :
  exists accounts1,
    BankManagement.deposit example_hash 1001 (Double.of_Z 30) "1234" [alice; bob]
      = (inr Successful, accounts1) /\
    balance (accounts1 !!! 0%nat) = Double.of_Z 130 /\
    BankManagement.withdraw example_hash 1001 (Double.of_Z 30) "1234" accounts1
      = (inr Successful, [alice; bob]).
Proof.
  apply (deposit_then_withdraw example_hash [alice; bob] 1001 0 "1234" 100 30);
    (reflexivity || lia).
Defined.

Lemma NoDup_numbers_inj (accounts : list BankAccount) (a b : BankAccount) :
  NoDup (numbers accounts) -> a ∈ accounts -> b ∈ accounts ->
  accountNum a = accountNum b -> a = b.
Proof.
  intros Hd (i & Hi)%list_elem_of_lookup (j & Hj)%list_elem_of_lookup Hn.
  assert (Hi' : numbers accounts !! i = Some (accountNum a)).
  { unfold numbers. by rewrite list_lookup_fmap, Hi. }
  assert (Hj' : numbers accounts !! j = Some (accountNum a)).
  { unfold numbers. rewrite list_lookup_fmap, Hj. simpl. by rewrite Hn. }
  pose proof (NoDup_lookup _ _ _ _ Hd Hi' Hj') as ->. congruence.
Qed.

(** X12: sorting does not change what a number stands for.  On a vector
    whose numbers are all different and whose balances are not NaN, after
    [sortAccountsByBalance] every number finds the very account it found
    before, at its new place, and a number that found nothing still finds
    nothing. *)
Theorem sort_keeps_accounts
    (ranges_sort : forall A : Type, (A -> A -> bool) -> list A -> list A)
    (accounts : list BankAccount) (n : Z) :
  sorts ranges_sort ->
  Forall (fun acc => Double.is_nan (balance acc) = false) accounts ->
  NoDup (numbers accounts) ->
  let accounts' := snd (BankManagement.sortAccountsByBalance ranges_sort accounts) in
  match BankManagement.findAccount n accounts with
  | Some i =>
      exists j, BankManagement.findAccount n accounts' = Some j /\
                accounts' !!! j = accounts !!! i
  | None => BankManagement.findAccount n accounts' = None
  end.
Proof.
  intros Hsort Hnan Hd. run. simpl.
  destruct (Hsort BankAccount BankManagement.by_balance accounts) as (Hp & _).
  { by apply by_balance_swo. }
  set (accounts' := ranges_sort BankAccount BankManagement.by_balance accounts) in *.
  destruct (BankManagement.findAccount n accounts) as [i|] eqn:F.
  - destruct (findAccount_total _ _ _ F) as (Hi & Hn).
    assert (Hin : n ∈ numbers accounts').
    { unfold numbers. rewrite Hp. apply numbers_found. eauto. }
    apply numbers_found in Hin as [j Fj]. exists j. split; [assumption|].
    destruct (findAccount_total _ _ _ Fj) as (Hj & Hn').
    apply (NoDup_numbers_inj accounts); [assumption| | |congruence].
    + rewrite <- Hp. apply list_elem_of_lookup. eauto.
    + apply list_elem_of_lookup. eauto.
  - apply numbers_not_found. apply numbers_not_found in F.
    unfold numbers in *. by rewrite Hp.
Qed.

Lemma sort_keeps_accounts_witness :
  exists j,
    BankManagement.findAccount 1001
      (snd (BankManagement.sortAccountsByBalance insertion_sort [alice; bob])) = Some j /\
    snd (BankManagement.sortAccountsByBalance insertion_sort [alice; bob]) !!! j = alice.
Proof.
  apply (sort_keeps_accounts insertion_sort [alice; bob] 1001).
  - apply insertion_sort_sorts.
  - repeat constructor.
  - apply (bool_decide_unpack _). vm_compute. exact I.
Defined.

(** ** Files that were not written by the program, and balances that come back *)

(** The loop reads the records that [save] wrote and stops at what does not
    read as a record. *)
Lemma load_loop_saved_then (accounts accounts' : list BankAccount) (rest : Stream.text) :
  Forall storable accounts ->
  Forall2 reloads accounts accounts' ->
  BankAccount.load rest = None ->
  forall (fuel : nat) (acc0 : list BankAccount),
    (length accounts < fuel)%nat ->
    BankManagement.load_loop fuel (flat_map BankAccount.save accounts ++ rest) acc0
      = Some (acc0 ++ accounts') /\
    BankManagement.load_loop fuel
      ("010"%char :: flat_map BankAccount.save accounts ++ rest) acc0
      = Some (acc0 ++ accounts').
Proof.
  intros Hs Hr Hrest. revert Hs.
  induction Hr as [|a a' l l' Ha Hl IH]; intros Hs fuel acc0 Hf.
  - destruct fuel as [|fuel]; [simpl in Hf; lia|].
    rewrite app_nil_r. simpl flat_map. simpl app.
    cbn [BankManagement.load_loop]. rewrite load_newline, Hrest. auto.
  - destruct fuel as [|fuel]; [simpl in Hf; lia|].
    apply Forall_cons in Hs as ((Hn & Hh) & Hs).
    assert (L : BankAccount.load (flat_map BankAccount.save (a :: l) ++ rest)
                = Some (a', "010"%char :: flat_map BankAccount.save l ++ rest)).
    { simpl. rewrite <- app_assoc. rewrite (reloads_set_balance a a' Ha).
      apply load_save; try assumption. apply Ha. }
    destruct (IH Hs fuel (acc0 ++ [a']) ltac:(simpl in Hf; lia)) as (_ & IH2).
    rewrite <- app_assoc in IH2. simpl in IH2.
    cbn [BankManagement.load_loop]. rewrite load_newline, L. auto.
Qed.

Lemma load_all_saved_then (accounts accounts' : list BankAccount) (rest : Stream.text) :
  Forall storable accounts ->
  Forall2 reloads accounts accounts' ->
  BankAccount.load rest = None ->
  BankManagement.load_all (flat_map BankAccount.save accounts ++ rest) = accounts'.
Proof.
  intros Hs Hr Hrest. unfold BankManagement.load_all.
  destruct (load_loop_saved_then accounts accounts' rest Hs Hr Hrest
              (S (length (flat_map BankAccount.save accounts ++ rest))) [])
    as (H & _).
  { rewrite length_app. pose proof (flat_map_save_length accounts). lia. }
  rewrite H. reflexivity.
Qed.

(** X13: a file is read up to the first record that does not read, and no
    further.  When the file holds records that [save] wrote and then
    something that is not a record, [loadFromFile] returns normally with
    the accounts of the records before it: the rest of the file is dropped
    without an error, whatever it holds, and so are the accounts the vector
    held before.  A file whose first record does not read, an empty file
    among them, leaves the vector empty. *)
Theorem load_stops_at_bad_record
    (fs : filesystem) (filename : string)
    (accounts accounts' old : list BankAccount) (rest : Stream.text) :
  Forall storable accounts ->
  Forall2 reloads accounts accounts' ->
  BankAccount.load rest = None ->
  fs !! filename
    = Some (RegularFile (flat_map BankAccount.save accounts ++ rest)) ->
  BankManagement.loadFromFile filename fs old = (inr tt, accounts').
Proof.
  intros Hs Hr Hrest Hf. unfold BankManagement.loadFromFile. rewrite Hf.
  unfold BankManagement.modify. f_equal.
  by apply load_all_saved_then.
Qed.

Lemma load_stops_at_bad_record_witness :
  BankManagement.loadFromFile "accounts_secure.txt"
    {[ "accounts_secure.txt" :=
         RegularFile (flat_map BankAccount.save [alice]
                      ++ list_ascii_of_string "1002 fifty 7 Bob" ++ ["010"%char]
                      ++ BankAccount.save carol) ]}
    [bob]
  = (inr tt, [alice]).
Proof.
  apply (load_stops_at_bad_record _ "accounts_secure.txt" [alice] [alice] [bob]
           (list_ascii_of_string "1002 fifty 7 Bob" ++ ["010"%char]
            ++ BankAccount.save carol)).
  - repeat constructor; vm_compute; congruence.
  - repeat constructor; vm_compute; reflexivity.
  - vm_compute. reflexivity.
  - apply lookup_singleton_eq.
Defined.

(** ** Whole balances of at most six digits are written and read exactly *)

Section WholeBalances.
Import Stream.

Lemma exp10_up_spec (fuel : nat) (n d k : Z) :
  0 < d -> d <= n -> n < d * 10 ^ Z.of_nat fuel ->
  k <= exp10_up fuel n d k /\
  d * 10 ^ (exp10_up fuel n d k - k) <= n
    < d * 10 ^ (exp10_up fuel n d k - k + 1).
Proof.
  revert d k. induction fuel as [|fuel IH]; intros d k Hd Hle Hlt.
  - simpl in Hlt. lia.
  - cbn [exp10_up]. destruct (d * 10 <=? n) eqn:E.
    + apply Z.leb_le in E.
      destruct (IH (d * 10) (k + 1)) as (H1 & H2 & H3); [lia | lia | |].
      { rewrite Nat2Z.inj_succ, Z.pow_succ_r in Hlt by lia. lia. }
      set (r := exp10_up fuel n (d * 10) (k + 1)) in *.
      split; [lia|].
      replace (r - k) with (Z.succ (r - (k + 1))) by lia.
      replace (Z.succ (r - (k + 1)) + 1) with (Z.succ (r - (k + 1) + 1)) by lia.
      rewrite !Z.pow_succ_r by lia. lia.
    + apply Z.leb_gt in E. rewrite Z.sub_diag. simpl. lia.
Qed.

Lemma decimal_exponent_whole (n d : Z) :
  0 < n -> 0 < d ->
  0 <= decimal_exponent (n * d) d /\
  10 ^ decimal_exponent (n * d) d <= n < 10 ^ (decimal_exponent (n * d) d + 1).
Proof.
  intros Hn Hd. unfold decimal_exponent.
  assert (Hle : d <= n * d) by nia.
  rewrite (proj2 (Z.leb_le _ _) Hle).
  set (fuel := S (Z.to_nat (Z.log2 (n * d)))).
  destruct (exp10_up_spec fuel (n * d) d 0 Hd Hle) as (H0 & H1 & H2).
  { unfold fuel. rewrite Nat2Z.inj_succ, Z2Nat.id by apply Z.log2_nonneg.
    assert (0 < n * d) by nia.
    pose proof (Z.log2_spec (n * d) H) as (_ & Hup).
    assert (2 ^ Z.succ (Z.log2 (n * d)) <= 10 ^ Z.succ (Z.log2 (n * d))).
    { apply Z.pow_le_mono_l. lia. }
    assert (0 < 10 ^ Z.succ (Z.log2 (n * d))).
    { apply Z.pow_pos_nonneg; [lia|]. pose proof (Z.log2_nonneg (n * d)). lia. }
    nia. }
  set (X := exp10_up fuel (n * d) d 0) in *. rewrite Z.sub_0_r in H1, H2.
  split; [assumption|].
  assert (0 < 10 ^ X) by (apply Z.pow_pos_nonneg; lia).
  assert (0 < 10 ^ (X + 1)) by (apply Z.pow_pos_nonneg; lia).
  nia.
Qed.

Lemma round_half_even_exact (q d : Z) : 0 < d -> round_half_even (q * d) d = q.
Proof.
  intros Hd. unfold round_half_even.
  rewrite Z.div_mul, Z.mod_mul by lia.
  destruct d; [lia | reflexivity | lia].
Qed.

Lemma significand_whole (n d : Z) :
  0 < n < 10 ^ 6 -> 0 < d ->
  significand 6 (n * d) d
  = (n * 10 ^ (5 - decimal_exponent (n * d) d), decimal_exponent (n * d) d).
Proof.
  intros Hn Hd. unfold significand.
  destruct (decimal_exponent_whole n d) as (H0 & H1 & H2); [lia | lia |].
  set (X := decimal_exponent (n * d) d) in *.
  assert (HX : X <= 5).
  { destruct (Z.le_gt_cases X 5) as [|Hgt]; [assumption|].
    assert (10 ^ 6 <= 10 ^ X) by (apply Z.pow_le_mono_r; lia). lia. }
  change (Z.of_nat 6) with 6. change (6 - 1) with 5.
  assert (HD : (if 0 <=? X - 5
                then round_half_even (n * d) (d * 10 ^ (X - 5))
                else round_half_even (n * d * 10 ^ (- (X - 5))) d)
               = n * 10 ^ (5 - X)).
  { destruct (0 <=? X - 5) eqn:E.
    - apply Z.leb_le in E. assert (E5 : X = 5) by lia. rewrite E5.
      change (5 - 5) with 0. rewrite Z.pow_0_r, !Z.mul_1_r.
      by apply round_half_even_exact.
    - replace (- (X - 5)) with (5 - X) by lia.
      replace (n * d * 10 ^ (5 - X)) with (n * 10 ^ (5 - X) * d) by lia.
      by apply round_half_even_exact. }
  rewrite HD.
  assert (Hlt : n * 10 ^ (5 - X) < 10 ^ 6).
  { replace 6 with ((X + 1) + (5 - X)) at 1 by lia.
    rewrite Z.pow_add_r by lia.
    assert (0 < 10 ^ (5 - X)) by (apply Z.pow_pos_nonneg; lia). nia. }
  rewrite (proj2 (Z.leb_gt _ _) Hlt). reflexivity.
Qed.

Lemma fixed_digits_length (P : nat) (D : Z) : length (fixed_digits P D) = P.
Proof. unfold fixed_digits. by rewrite length_map, length_seq. Qed.

Lemma fixed_digits_S (P : nat) (n : Z) :
  fixed_digits (S P) n = fixed_digits P (n / 10) ++ [digit_char (n mod 10)].
Proof.
  unfold fixed_digits. rewrite seq_S, map_app. simpl map. f_equal.
  - apply map_ext_in. intros i Hi%in_seq. cbv beta.
    replace (P - 0 - i)%nat with (S (P - 1 - i)) by lia.
    rewrite Nat2Z.inj_succ, Z.pow_succ_r by lia.
    rewrite Z.div_div; [reflexivity | lia | apply Z.pow_pos_nonneg; lia].
  - replace (P - 0 - P)%nat with 0%nat by lia.
    change (10 ^ Z.of_nat 0) with 1. by rewrite Z.div_1_r.
Qed.

(** The digits written are the decimal digits of the number. *)
Lemma fixed_digits_value (P : nat) (n : Z) :
  0 <= n < 10 ^ Z.of_nat P ->
  exists ds, fixed_digits P n = map digit_char ds /\
             Forall is_digit_value ds /\ length ds = P /\ digits_value ds = n.
Proof.
  revert n. induction P as [|P IH]; intros n Hn.
  - exists []. simpl in Hn.
    split; [reflexivity|]. split; [constructor|]. split; [reflexivity|].
    unfold digits_value. simpl. lia.
  - rewrite Nat2Z.inj_succ, Z.pow_succ_r in Hn by lia.
    destruct (IH (n / 10)) as (ds & Hds & Hall & Hlen & Hv).
    { split; [apply Z.div_pos; lia | apply Z.div_lt_upper_bound; lia]. }
    exists (ds ++ [n mod 10]). rewrite fixed_digits_S, Hds, map_app.
    split; [reflexivity|]. split; [|split].
    + apply Forall_app. split; [assumption|]. constructor; [|constructor].
      unfold is_digit_value. pose proof (Z.mod_pos_bound n 10). lia.
    + rewrite length_app. simpl. lia.
    + rewrite digits_value_snoc, Hv. pose proof (Z.div_mod n 10). lia.
Qed.

Lemma fixed_digits_scaled (P k : nat) (n : Z) :
  fixed_digits (P + k) (n * 10 ^ Z.of_nat k)
  = fixed_digits P n ++ replicate k "0"%char.
Proof.
  induction k as [|k IH].
  - rewrite Nat.add_0_r. simpl. rewrite Z.mul_1_r, app_nil_r. reflexivity.
  - replace (P + S k)%nat with (S (P + k)) by lia.
    rewrite fixed_digits_S, Nat2Z.inj_succ, Z.pow_succ_r by lia.
    replace (n * (10 * 10 ^ Z.of_nat k)) with (n * 10 ^ Z.of_nat k * 10) by lia.
    rewrite Z.div_mul, Z.mod_mul by lia. rewrite IH, <- app_assoc. f_equal.
    change [digit_char 0] with (replicate 1 "0"%char).
    rewrite <- replicate_add. f_equal. lia.
Qed.

Lemma strip_trailing_zeros_replicate (k : nat) :
  strip_trailing_zeros (replicate k "0"%char) = [].
Proof. induction k as [|k IH]; simpl; [reflexivity|]. by rewrite IH. Qed.

(** A whole number of at most six digits is written with its digits and
    nothing else. *)
Lemma show_general_whole (n d : Z) :
  0 < n < 10 ^ 6 -> 0 < d ->
  exists ds, show_general 6 (n * d) d = map digit_char ds /\
             Forall is_digit_value ds /\ ds <> [] /\ digits_value ds = n.
Proof.
  intros Hn Hd. unfold show_general. rewrite significand_whole by assumption.
  destruct (decimal_exponent_whole n d) as (H0 & H1 & H2); [lia | lia |].
  set (X := decimal_exponent (n * d) d) in *.
  assert (HX : X <= 5).
  { destruct (Z.le_gt_cases X 5) as [|Hgt]; [assumption|].
    assert (10 ^ 6 <= 10 ^ X) by (apply Z.pow_le_mono_r; lia). lia. }
  assert (E1 : ((X <? -4) || (Z.of_nat 6 <=? X)) = false).
  { apply orb_false_iff. split; [apply Z.ltb_ge | apply Z.leb_gt]; simpl; lia. }
  assert (E2 : (X <? 0) = false) by (apply Z.ltb_ge; lia).
  rewrite E1, E2.
  assert (Hds : fixed_digits 6 (n * 10 ^ (5 - X))
                = fixed_digits (S (Z.to_nat X)) n
                  ++ replicate (Z.to_nat (5 - X)) "0"%char).
  { rewrite <- fixed_digits_scaled. f_equal; [lia|]. f_equal. f_equal. lia. }
  rewrite Hds. clear Hds.
  replace (Z.to_nat (X + 1)) with (S (Z.to_nat X)) by lia.
  rewrite take_app_length', drop_app_length'
    by (symmetry; apply fixed_digits_length).
  unfold with_fraction. rewrite strip_trailing_zeros_replicate.
  destruct (fixed_digits_value (S (Z.to_nat X)) n) as (ds & Hds & Hall & Hlen & Hv).
  { rewrite Nat2Z.inj_succ, Z2Nat.id by lia. lia. }
  exists ds. repeat split; try assumption. intros ->. discriminate.
Qed.

Lemma show_double_whole (p : positive) :
  Zpos p < 10 ^ 6 ->
  exists ds, show_double (Double.of_Z (Zpos p)) = map digit_char ds /\
             Forall is_digit_value ds /\ ds <> [] /\ digits_value ds = Zpos p.
Proof.
  intros Hp. assert (H53 : Zpos p < 2 ^ 53) by lia.
  rewrite of_Z_pos by assumption. unfold show_double.
  pose proof (whole_mantissa_value p H53) as Hm.
  pose proof (digits2_pos_bounds p) as (Hlo & _).
  assert (Hd : Zpos (digits2_pos p) <= 20).
  { destruct (Z.le_gt_cases (Zpos (digits2_pos p)) 20) as [|Hgt]; [assumption|].
    assert (2 ^ 20 <= 2 ^ (Zpos (digits2_pos p) - 1)) by (apply Z.pow_le_mono_r; lia).
    lia. }
  unfold Double.whole_exponent.
  destruct (Zpos (digits2_pos p) - 53) as [|q|q] eqn:He; try lia.
  unfold Double.to_ratio. simpl sign_text. rewrite app_nil_l.
  rewrite Hm. replace (53 - Zpos (digits2_pos p)) with (Zpos q) by lia.
  apply show_general_whole; [lia | apply Z.pow_pos_nonneg; lia].
Qed.

Lemma of_decimal_whole (n : Z) : of_decimal false n 0 = Double.of_Z n.
Proof.
  unfold of_decimal. destruct n; [reflexivity| |]; simpl; by rewrite ?Z.mul_1_r, ?Pos.mul_1_r.
Qed.

(** Digits and nothing else read as the whole number they spell. *)
Lemma read_double_digits (ds : list Z) :
  Forall is_digit_value ds -> ds <> [] ->
  0 <= digits_value ds < 2 ^ 53 ->
  read_double (map digit_char ds) = Some (Double.of_Z (digits_value ds), []).
Proof.
  intros Hall Hne Hv.
  destruct (map_digit_char_head ds [] Hne) as (c & s & Hcs & Hc).
  rewrite app_nil_r in Hcs.
  unfold read_double.
  rewrite skip_ws_stop by (rewrite Hcs; simpl; by apply is_digit_not_space).
  assert (read_sign (map digit_char ds) = (false, map digit_char ds)) as ->.
  { rewrite Hcs. unfold read_sign. destruct (is_digit_not_sign c Hc) as (H1 & H2).
    rewrite !bool_decide_eq_false_2 by assumption. reflexivity. }
  cbv beta iota.
  pose proof (read_digits_app ds [] Hall I) as Hrd. rewrite app_nil_r in Hrd.
  rewrite Hrd. cbn [read_fraction]. cbv beta iota. rewrite app_nil_r.
  destruct ds as [|d0 ds0]; [congruence|].
  cbn [read_exponent mbind option_bind]. simpl length. rewrite Z.sub_0_r.
  rewrite of_decimal_whole.
  destruct (digits_value (d0 :: ds0)) as [|q|q] eqn:E; [reflexivity| |lia].
  rewrite of_Z_pos by lia. reflexivity.
Qed.

Lemma reread_whole (n : Z) :
  0 <= n < 10 ^ 6 -> reread (Double.of_Z n) (Double.of_Z n).
Proof.
  intros Hn. unfold reread. destruct n as [|p|p]; [reflexivity| |lia].
  destruct (show_double_whole p) as (ds & -> & Hall & Hne & Hv); [lia|].
  rewrite read_double_digits by (assumption || lia). by rewrite Hv.
Qed.

End WholeBalances.

Lemma reloads_whole (accounts : list BankAccount) :
  Forall whole_balance accounts -> Forall2 reloads accounts accounts.
Proof.
  induction 1 as [|a l (n & Hn & Hb) _ IH]; constructor; [|assumption].
  repeat split. rewrite Hb. by apply reread_whole.
Qed.

(** X14: balances in whole units of at most six digits survive a save and
    a load.  Such a balance is written with its digits and nothing else,
    which the six significant digits of the default precision hold in
    full; an account with such a balance, a number that is an [int] and a
    digest that is a [size_t] comes back from the file exactly as it was
    saved, whatever its name, and so does a vector of such accounts, in
    its order. *)
Theorem whole_balances_come_back
    (fs : filesystem) (filename : string) (accounts old : list BankAccount) :
  fs !! filename <> Some Directory ->
  Forall storable accounts ->
  Forall whole_balance accounts ->
  exists fs',
    BankManagement.saveToFile filename accounts fs = (inr tt, fs') /\
    BankManagement.loadFromFile filename fs' old = (inr tt, accounts).
Proof.
  intros Hdir Hs Hw.
  exists (<[filename := RegularFile (flat_map BankAccount.save accounts)]> fs).
  split.
  - unfold BankManagement.saveToFile.
    destruct (fs !! filename) as [[content|]|]; congruence.
  - unfold BankManagement.loadFromFile. rewrite lookup_insert_eq.
    unfold BankManagement.modify. f_equal.
    rewrite <- (app_nil_r (flat_map _ _)).
    apply load_all_saved_then; [assumption | by apply reloads_whole | reflexivity].
Qed.

Lemma whole_balances_come_back_witness :
  exists fs',
    BankManagement.saveToFile "ledger.txt" [bob; carol; alice] ∅ = (inr tt, fs') /\
    BankManagement.loadFromFile "ledger.txt" fs' [twin] = (inr tt, [bob; carol; alice]).
Proof.
  apply (whole_balances_come_back ∅ "ledger.txt" [bob; carol; alice] [twin]).
  - rewrite lookup_empty. discriminate.
  - repeat constructor; vm_compute; congruence.
  - repeat constructor; [exists 50 | exists 50 | exists 100];
      (split; [lia | reflexivity]).
Defined.

(** ** The doubles that the extractor delivers *)

Section ReadValid.
Import Double.

Lemma Zdigits2_nonneg (q : Z) : 0 <= Zdigits2 q.
Proof. destruct q; simpl; lia. Qed.

Lemma Zdigits2_lower (q k : Z) : 0 <= k -> 2 ^ k <= q -> k + 1 <= Zdigits2 q.
Proof.
  intros Hk Hq. assert (0 < 2 ^ k) by (apply Z.pow_pos_nonneg; lia).
  destruct (Zdigits2_bounds q ltac:(lia)) as (Hd & _ & Hup).
  destruct (Z.le_gt_cases (k + 1) (Zdigits2 q)) as [|Hgt]; [assumption|].
  assert (2 ^ Zdigits2 q <= 2 ^ k) by (apply Z.pow_le_mono_r; lia). lia.
Qed.

(** The quotient that the division hands to the rounding has digits
    enough for the exponent it comes with. *)
Lemma div_core_valid (s : bool) (p : positive) (d : Z) :
  0 < d ->
  valid (let '(q, e, l) := SFdiv_core_binary prec emax (Zpos p) 0 d 0 in
         binary_round_aux prec emax s q e l) = true.
Proof.
  intros Hd. unfold SFdiv_core_binary.
  set (d1 := Zdigits2 (Zpos p)). set (d2 := Zdigits2 d).
  set (e' := Z.min (fexp prec emax (d1 + 0 - (d2 + 0))) (0 - 0)).
  set (sh := 0 - 0 - e').
  assert (Hsh : 0 <= sh) by (unfold sh, e'; lia).
  set (m' := match sh with Z0 => Zpos p | Zpos _ => Z.shiftl (Zpos p) sh | Zneg _ => 0 end).
  assert (Hm' : m' = Zpos p * 2 ^ sh).
  { unfold m'. destruct sh as [|q|q] eqn:E; [simpl; lia| |lia].
    by rewrite Z.shiftl_mul_pow2. }
  destruct (Z.div_eucl m' d) as [q r] eqn:E.
  assert (Hq : q = m' / d) by (unfold Z.div; by rewrite E).
  assert (H2s : 0 < 2 ^ sh) by (apply Z.pow_pos_nonneg; lia).
  apply binary_round_aux_valid.
  - rewrite Hq. apply Z.div_pos; lia.
  - assert (Hdig : d1 + sh - d2 <= Zdigits2 q).
    { destruct (Z.le_gt_cases (d1 + sh - d2) 0) as [Hle|Hgt].
      - pose proof (Zdigits2_nonneg q). lia.
      - replace (d1 + sh - d2) with ((d1 + sh - d2 - 1) + 1) by lia.
        apply Zdigits2_lower; [lia|]. rewrite Hq.
        apply Z.div_le_lower_bound; [lia|].
        destruct (Zdigits2_bounds (Zpos p) ltac:(lia)) as (Hd1 & Hlo & _).
        destruct (Zdigits2_bounds d Hd) as (Hd2 & _ & Hup).
        fold d1 in Hlo, Hd1. fold d2 in Hup, Hd2.
        assert (d * 2 ^ (d1 + sh - d2 - 1) <= 2 ^ d2 * 2 ^ (d1 + sh - d2 - 1)).
        { apply Z.mul_le_mono_nonneg_r; [apply Z.pow_nonneg|]; lia. }
        rewrite <- Z.pow_add_r in H by lia.
        replace (d2 + (d1 + sh - d2 - 1)) with ((d1 - 1) + sh) in H by lia.
        rewrite Z.pow_add_r in H by lia. rewrite Hm'.
        assert (2 ^ (d1 - 1) * 2 ^ sh <= Zpos p * 2 ^ sh).
        { apply Z.mul_le_mono_nonneg_r; [lia | exact Hlo]. }
        lia. }
    unfold sh, e' in *. unfold fexp, emin, prec, emax in *. lia.
Qed.

Lemma of_ratio_valid (n d : Z) : 0 < d -> valid (of_ratio n d) = true.
Proof.
  intros Hd. destruct n as [|p|p]; [reflexivity| |]; by apply div_core_valid.
Qed.

Lemma of_decimal_valid (neg : bool) (N k : Z) :
  valid (Stream.of_decimal neg N k) = true.
Proof.
  unfold Stream.of_decimal. destruct N as [|p|p]; [reflexivity| |];
    (destruct (0 <=? k) eqn:E;
     [apply binary_normalize_valid
     |apply of_ratio_valid, Z.pow_pos_nonneg; [lia | apply Z.leb_gt in E; lia]]).
Qed.

End ReadValid.

(** What [>>] delivers is a canonical finite double: a field that
    overflows is refused, and no field reads as NaN. *)
Lemma read_double_valid (s r : Stream.text) (v : double) :
  Stream.read_double s = Some (v, r) ->
  Double.valid v = true /\ Double.is_finite v = true.
Proof.
  unfold Stream.read_double.
  destruct (Stream.read_sign (Stream.skip_ws s)) as [neg s1].
  destruct (Stream.read_digits s1) as [ip s2].
  destruct (Stream.read_fraction s2) as [fp s3].
  destruct (ip ++ fp) as [|d ds]; [discriminate|].
  destruct (Stream.read_exponent s3) as [[ex s4]|]; [|discriminate]. simpl.
  pose proof (of_decimal_valid neg (Stream.digits_value (d :: ds))
                (ex - Z.of_nat (length fp))) as Hv.
  destruct (Stream.of_decimal _ _ _); try discriminate;
    intros [= <- <-]; auto.
Qed.

(** ** Reading from std::cin *)

Section CinFacts.
Import Stream.

Lemma read_line_newline (l rest : text) :
  "010"%char ∉ l -> Cin.read_line (l ++ "010"%char :: rest) = (l, Some rest).
Proof.
  induction l as [|c l IH]; intros Hl; simpl; [reflexivity|].
  rewrite bool_decide_eq_false_2 by set_solver.
  rewrite IH by set_solver. reflexivity.
Qed.

Lemma read_line_end (l : text) : "010"%char ∉ l -> Cin.read_line l = (l, None).
Proof.
  induction l as [|c l IH]; intros Hl; simpl; [reflexivity|].
  rewrite bool_decide_eq_false_2 by set_solver.
  rewrite IH by set_solver. reflexivity.
Qed.

(** *** An extraction leaves a suffix of what it was given *)

Lemma suffix_newline (r s : text) :
  r `suffix_of` s -> "010"%char ∉ s -> "010"%char ∉ r.
Proof. intros [k ->] H Hr. apply H. apply elem_of_app. by right. Qed.

Lemma skip_ws_suffix (s : text) : skip_ws s `suffix_of` s.
Proof.
  induction s as [|c s IH]; simpl; [reflexivity|].
  destruct (is_space c); [by apply suffix_cons_r | reflexivity].
Qed.

Lemma read_sign_suffix (s : text) : snd (read_sign s) `suffix_of` s.
Proof.
  destruct s as [|c s]; simpl; [reflexivity|].
  destruct (bool_decide (c = "-"%char)); [by apply suffix_cons_r|].
  destruct (bool_decide (c = "+"%char)); [by apply suffix_cons_r | reflexivity].
Qed.

Lemma read_digits_suffix (s : text) : snd (read_digits s) `suffix_of` s.
Proof.
  induction s as [|c s IH]; simpl; [reflexivity|].
  destruct (digit_val c); [|reflexivity].
  destruct (read_digits s) as [ds r]. simpl in *. by apply suffix_cons_r.
Qed.

Lemma read_fraction_suffix (s : text) : snd (read_fraction s) `suffix_of` s.
Proof.
  destruct s as [|c s]; simpl; [reflexivity|].
  destruct (bool_decide (c = "."%char)); [|reflexivity].
  apply suffix_cons_r, read_digits_suffix.
Qed.

Lemma after_exponent_suffix (s : text) : Cin.after_exponent s `suffix_of` s.
Proof.
  destruct s as [|c s]; simpl; [reflexivity|].
  destruct (_ || _); [|reflexivity].
  apply suffix_cons_r. etrans; [apply read_digits_suffix | apply read_sign_suffix].
Qed.

Lemma after_integer_suffix (s : text) : Cin.after_integer s `suffix_of` s.
Proof.
  unfold Cin.after_integer.
  etrans; [apply read_digits_suffix|]. etrans; [apply read_sign_suffix|].
  apply skip_ws_suffix.
Qed.

Lemma after_double_suffix (s : text) : Cin.after_double s `suffix_of` s.
Proof.
  unfold Cin.after_double.
  pose proof (skip_ws_suffix s) as H0.
  pose proof (read_sign_suffix (skip_ws s)) as H1.
  destruct (read_sign (skip_ws s)) as [neg s1]. simpl in H1.
  pose proof (read_digits_suffix s1) as H2.
  destruct (read_digits s1) as [ip s2]. simpl in H2.
  pose proof (read_fraction_suffix s2) as H3.
  destruct (read_fraction s2) as [fp s3]. simpl in H3.
  assert (H : s3 `suffix_of` s).
  { etrans; [exact H3|]. etrans; [exact H2|]. etrans; [exact H1 | exact H0]. }
  destruct (ip ++ fp); [assumption|].
  etrans; [apply after_exponent_suffix | assumption].
Qed.

(** What is left after a field that converts is what is left after its
    scan. *)
Lemma read_int_after (s r : text) (v : Z) :
  read_int s = Some (v, r) -> r = Cin.after_integer s.
Proof.
  unfold read_int, read_integer, Cin.after_integer.
  destruct (read_sign (skip_ws s)) as [neg s1]. simpl.
  destruct (read_digits s1) as [ds s2]. simpl.
  destruct ds; [discriminate|]. simpl.
  destruct (_ && _); [|discriminate]. by intros [= _ <-].
Qed.

Lemma read_exponent_after (s r : text) (ex : Z) :
  read_exponent s = Some (ex, r) -> r = Cin.after_exponent s.
Proof.
  destruct s as [|c s]; simpl; [by intros [= _ <-]|].
  destruct (_ || _); [|by intros [= _ <-]].
  destruct (read_sign s) as [neg s1]. simpl.
  destruct (read_digits s1) as [ds s2]. simpl.
  destruct ds; [discriminate|]. by intros [= _ <-].
Qed.

Lemma read_double_after (s r : text) (v : double) :
  read_double s = Some (v, r) -> r = Cin.after_double s.
Proof.
  unfold read_double, Cin.after_double.
  destruct (read_sign (skip_ws s)) as [neg s1].
  destruct (read_digits s1) as [ip s2].
  destruct (read_fraction s2) as [fp s3].
  destruct (ip ++ fp) as [|d ds]; [discriminate|].
  destruct (read_exponent s3) as [[ex s4]|] eqn:E; [|discriminate]. simpl.
  apply read_exponent_after in E.
  destruct (of_decimal _ _ _); try discriminate; by intros [= _ <-].
Qed.

Lemma read_int_range (s r : text) (v : Z) :
  read_int s = Some (v, r) -> in_int_range v.
Proof.
  unfold read_int. destruct (read_integer s) as [[[neg n] r']|]; [|discriminate].
  simpl. destruct (_ && _) eqn:E; [|discriminate]. intros [= <- _].
  apply andb_true_iff in E as [E1%Z.leb_le E2%Z.leb_le]. by split.
Qed.

(** *** A field followed by a newline

    The newline ends the line and belongs to no field: an extractor that
    found something to scan on the line stops at the newline as it would
    at the end of the input. *)

Lemma read_sign_newline (s r : text) :
  read_sign (s ++ "010"%char :: r)
  = (fst (read_sign s), snd (read_sign s) ++ "010"%char :: r).
Proof.
  destruct s as [|c s]; simpl; [reflexivity|].
  destruct (bool_decide (c = "-"%char)); [reflexivity|].
  destruct (bool_decide (c = "+"%char)); reflexivity.
Qed.

Lemma read_digits_newline (s r : text) :
  read_digits (s ++ "010"%char :: r)
  = (fst (read_digits s), snd (read_digits s) ++ "010"%char :: r).
Proof.
  induction s as [|c s IH]; simpl; [reflexivity|].
  destruct (digit_val c); [|reflexivity].
  rewrite IH. destruct (read_digits s). reflexivity.
Qed.

Lemma read_fraction_newline (s r : text) :
  read_fraction (s ++ "010"%char :: r)
  = (fst (read_fraction s), snd (read_fraction s) ++ "010"%char :: r).
Proof.
  destruct s as [|c s]; simpl; [reflexivity|].
  destruct (bool_decide (c = "."%char)); [|reflexivity].
  apply read_digits_newline.
Qed.

Lemma read_exponent_newline (s r : text) :
  read_exponent (s ++ "010"%char :: r)
  = (fun '(e, s') => (e, s' ++ "010"%char :: r)) <$> read_exponent s.
Proof.
  destruct s as [|c s]; simpl; [reflexivity|].
  destruct (bool_decide (c = "e"%char) || bool_decide (c = "E"%char)); [|reflexivity].
  rewrite read_sign_newline. destruct (read_sign s) as [neg s1]. simpl.
  rewrite read_digits_newline. destruct (read_digits s1) as [ds s2]. simpl.
  destruct ds; reflexivity.
Qed.

Lemma after_exponent_newline (s r : text) :
  Cin.after_exponent (s ++ "010"%char :: r)
  = Cin.after_exponent s ++ "010"%char :: r.
Proof.
  destruct s as [|c s]; simpl; [reflexivity|].
  destruct (bool_decide (c = "e"%char) || bool_decide (c = "E"%char)); [|reflexivity].
  rewrite read_sign_newline. simpl. by rewrite read_digits_newline.
Qed.

Lemma read_int_newline (s r : text) :
  skip_ws s <> [] ->
  read_int (s ++ "010"%char :: r)
  = (fun '(v, s') => (v, s' ++ "010"%char :: r)) <$> read_int s.
Proof.
  intros Hws. unfold read_int, read_integer.
  rewrite skip_ws_app by assumption. rewrite read_sign_newline.
  destruct (read_sign (skip_ws s)) as [neg s1]. simpl fst; simpl snd. cbv beta iota.
  rewrite read_digits_newline. destruct (read_digits s1) as [ds s2].
  simpl fst; simpl snd. cbv beta iota.
  destruct ds as [|d ds]; [reflexivity|]. simpl.
  destruct (_ && _); reflexivity.
Qed.

Lemma after_integer_newline (s r : text) :
  skip_ws s <> [] ->
  Cin.after_integer (s ++ "010"%char :: r) = Cin.after_integer s ++ "010"%char :: r.
Proof.
  intros Hws. unfold Cin.after_integer.
  rewrite skip_ws_app by assumption. rewrite read_sign_newline. simpl.
  by rewrite read_digits_newline.
Qed.

Lemma read_double_newline (s r : text) :
  skip_ws s <> [] ->
  read_double (s ++ "010"%char :: r)
  = (fun '(v, s') => (v, s' ++ "010"%char :: r)) <$> read_double s.
Proof.
  intros Hws. unfold read_double.
  rewrite skip_ws_app by assumption. rewrite read_sign_newline.
  destruct (read_sign (skip_ws s)) as [neg s1]. simpl fst; simpl snd. cbv beta iota.
  rewrite read_digits_newline. destruct (read_digits s1) as [ip s2].
  simpl fst; simpl snd. cbv beta iota.
  rewrite read_fraction_newline. destruct (read_fraction s2) as [fp s3].
  simpl fst; simpl snd. cbv beta iota.
  destruct (ip ++ fp) as [|d ds]; [reflexivity|].
  rewrite read_exponent_newline.
  destruct (read_exponent s3) as [[ex s4]|]; [|reflexivity]. simpl.
  destruct (of_decimal neg (digits_value (d :: ds)) (ex - Z.of_nat (length fp)));
    reflexivity.
Qed.

Lemma after_double_newline (s r : text) :
  skip_ws s <> [] ->
  Cin.after_double (s ++ "010"%char :: r) = Cin.after_double s ++ "010"%char :: r.
Proof.
  intros Hws. unfold Cin.after_double.
  rewrite skip_ws_app by assumption. rewrite read_sign_newline.
  destruct (read_sign (skip_ws s)) as [neg s1]. simpl fst; simpl snd. cbv beta iota.
  rewrite read_digits_newline. destruct (read_digits s1) as [ip s2].
  simpl fst; simpl snd. cbv beta iota.
  rewrite read_fraction_newline. destruct (read_fraction s2) as [fp s3].
  simpl fst; simpl snd. cbv beta iota.
  destruct (ip ++ fp) as [|d ds]; [reflexivity|].
  apply after_exponent_newline.
Qed.

(** *** The line is dropped after the field *)

Lemma ignore_line_rest (r rest : text) (failed : bool) :
  "010"%char ∉ r ->
  Cin.ignore_line (Cin.clear (Cin.scanned (r ++ "010"%char :: rest) failed))
  = Cin.opened rest.
Proof.
  intros Hr. unfold Cin.ignore_line, Cin.clear, Cin.scanned. simpl.
  by rewrite read_line_newline.
Qed.

Lemma ignore_line_scanned (r rest : text) :
  "010"%char ∉ r ->
  Cin.ignore_line (Cin.scanned (r ++ "010"%char :: rest) false) = Cin.opened rest.
Proof.
  intros Hr. unfold Cin.ignore_line, Cin.scanned, Cin.good. simpl.
  rewrite bool_decide_eq_false_2 by (by destruct r). simpl.
  by rewrite read_line_newline.
Qed.

Lemma read_int_skip_ws (s r : text) (v : Z) :
  read_int s = Some (v, r) -> skip_ws s <> [].
Proof. intros H E. unfold read_int, read_integer in H. by rewrite E in H. Qed.

Lemma read_double_skip_ws (s r : text) (v : double) :
  read_double s = Some (v, r) -> skip_ws s <> [].
Proof. intros H E. unfold read_double in H. by rewrite E in H. Qed.

End CinFacts.

(** ** What a load guarantees, whatever the file *)

Section LoadedFacts.
Import Stream.

Lemma digit_val_range (c : ascii) (d : Z) : digit_val c = Some d -> 0 <= d <= 9.
Proof.
  unfold digit_val. destruct (_ && _) eqn:E; [|discriminate]. intros [= <-].
  apply andb_true_iff in E as [E1%Z.leb_le E2%Z.leb_le]. lia.
Qed.

Lemma read_digits_range (s : text) :
  Forall is_digit_value (fst (read_digits s)).
Proof.
  induction s as [|c s IH]; simpl; [constructor|].
  destruct (digit_val c) as [d|] eqn:E; [|constructor].
  destruct (read_digits s) as [ds r]. simpl in *.
  constructor; [by eapply digit_val_range | assumption].
Qed.

Lemma digits_value_nonneg (ds : list Z) :
  Forall is_digit_value ds -> 0 <= digits_value ds.
Proof.
  induction ds as [|d ds IH] using rev_ind; intros H; [reflexivity|].
  apply Forall_app in H as (H1 & H2). rewrite digits_value_snoc.
  apply Forall_cons in H2 as (H2 & _). unfold is_digit_value in H2.
  specialize (IH H1). lia.
Qed.

Lemma read_size_t_range (s r : text) (v : Z) :
  read_size_t s = Some (v, r) -> in_size_t_range v.
Proof.
  unfold read_size_t, read_integer.
  destruct (read_sign (skip_ws s)) as [neg s1].
  pose proof (read_digits_range s1) as Hr.
  destruct (read_digits s1) as [ds s2]. simpl in Hr.
  apply digits_value_nonneg in Hr.
  destruct ds as [|d ds]; [discriminate|]. simpl.
  destruct (_ <=? _) eqn:E; [|discriminate]. apply Z.leb_le in E.
  intros [= <- _]. unfold in_size_t_range, SIZE_MAX in *.
  destruct neg; [|lia].
  pose proof (Z.mod_pos_bound (- digits_value (d :: ds)) (2 ^ 64)). lia.
Qed.

End LoadedFacts.

Lemma load_readable (s r : Stream.text) (acc : BankAccount) :
  BankAccount.load s = Some (acc, r) -> readable acc.
Proof.
  unfold BankAccount.load.
  destruct (Stream.read_int s) as [[ac s1]|] eqn:E1; simpl; [|discriminate].
  destruct (Stream.read_double s1) as [[bal s2]|] eqn:E2; simpl; [|discriminate].
  destruct (Stream.read_size_t s2) as [[h s3]|] eqn:E3; simpl; [|discriminate].
  destruct (Stream.read_quoted s3) as [[n s4]|] eqn:E4; simpl; [|discriminate].
  intros [= <- _]. unfold readable. simpl.
  apply read_int_range in E1. apply read_size_t_range in E3.
  apply read_double_valid in E2 as (V & F). auto.
Qed.

Lemma load_loop_readable (fuel : nat) (s : Stream.text)
    (acc0 accounts : list BankAccount) :
  Forall readable acc0 ->
  BankManagement.load_loop fuel s acc0 = Some accounts -> Forall readable accounts.
Proof.
  revert s acc0. induction fuel as [|fuel IH]; intros s acc0 H0; [discriminate|].
  simpl. destruct (BankAccount.load s) as [[acc r]|] eqn:E.
  - apply IH. apply Forall_app. split; [assumption|].
    constructor; [by eapply load_readable | constructor].
  - by intros [= <-].
Qed.

(** X15: what comes out of a file is readable, and no more is checked.
    Whatever the file holds, every account that [loadFromFile] puts in the
    vector has a number within [int], a digest within [size_t] and a
    balance that is a canonical finite double: never a NaN, never an
    infinity.  (The balance may be negative, the name empty and the number
    taken twice: none of that is looked at.) *)
Theorem loaded_accounts_readable
    (fs : filesystem) (path : string) (old : list BankAccount) :
  fs !! path <> None ->
  Forall readable (snd (BankManagement.loadFromFile path fs old)).
Proof.
  intros Hf. unfold BankManagement.loadFromFile.
  destruct (fs !! path) as [[content|]|]; [| |congruence]; simpl.
  - unfold BankManagement.load_all.
    destruct (load_loop_total (S (length content)) content [] ltac:(lia))
      as (accounts & Hl).
    rewrite Hl. simpl.
    apply (load_loop_readable _ _ [] _ (Forall_nil_2 _) Hl).
  - constructor.
Qed.

Lemma loaded_accounts_readable_witness :
  Forall readable
    (snd (BankManagement.loadFromFile filename
            {[ filename := RegularFile (typed ["7 -10 12345 Eve"; "8 1e999 1 Max"]) ]}
            [])).
Proof.
  apply (loaded_accounts_readable _ filename []).
  rewrite lookup_singleton_eq. discriminate.
Defined.

(** ** The input helpers *)

Lemma in_bounds_true (min max v : Z) :
  min <= v <= max -> (min <=? v) && (v <=? max) = true.
Proof. intros [H1 H2]. apply andb_true_iff. split; by apply Z.leb_le. Qed.

Lemma in_bounds_false (min max v : Z) :
  ~ (min <= v <= max) -> (min <=? v) && (v <=? max) = false.
Proof.
  intros H. apply andb_false_iff.
  destruct (Z.leb_spec min v); [|by left]. destruct (Z.leb_spec v max); [lia|by right].
Qed.

Lemma extract_int_opened (s : Stream.text) :
  Cin.extract_int (Cin.opened s)
  = match Stream.read_int s with
    | Some (v, r) => (Some v, Cin.scanned r false)
    | None => (None, Cin.scanned (Cin.after_integer s) true)
    end.
Proof. reflexivity. Qed.

Lemma extract_double_opened (s : Stream.text) :
  Cin.extract_double (Cin.opened s)
  = match Stream.read_double s with
    | Some (v, r) => (Some v, Cin.scanned r false)
    | None => (None, Cin.scanned (Cin.after_double s) true)
    end.
Proof. reflexivity. Qed.

(** X16: [getInt] returns the first number on the input when it is within
    the bounds.  White space in front of it, blank lines included, is
    skipped, and what follows the digits on their line is dropped with the
    line, whatever it is: 12abc is taken as 12, and 1.5 as 1.  The next
    read starts on the line after. *)
Theorem getInt_accepts
    (fuel : nat) (min max : Z) (s r rest : Stream.text) (v : Z) :
  Stream.read_int s = Some (v, r) ->
  "010"%char ∉ r ->
  min <= v <= max ->
  getInt (S fuel) min max (Cin.opened (s ++ "010"%char :: rest))
  = Some (v, Cin.opened rest).
Proof.
  intros Hread Hr Hv. cbn [getInt]. rewrite extract_int_opened.
  rewrite read_int_newline by (by eapply read_int_skip_ws).
  rewrite Hread. cbn [fmap option_fmap option_map].
  rewrite in_bounds_true by assumption.
  by rewrite ignore_line_scanned.
Qed.

Lemma getInt_accepts_witness :
  getInt 1 1 Stream.INT_MAX
    (Cin.opened (list_ascii_of_string "1.5" ++ "010"%char :: list_ascii_of_string "next"))
  = Some (1, Cin.opened (list_ascii_of_string "next")).
Proof.
  apply (getInt_accepts 0 1 Stream.INT_MAX (list_ascii_of_string "1.5")
           (list_ascii_of_string ".5") (list_ascii_of_string "next") 1).
  - reflexivity.
  - apply (bool_decide_unpack _). vm_compute. exact I.
  - vm_compute. split; discriminate.
Defined.

(** X17: [getInt] passes over a line that does not start with a number
    within the bounds, and asks again.  A line that holds something other
    than white space, and whose start either does not read as an [int] or
    reads as one outside [min, max], is dropped whole, and the helper goes
    on with the line after it. *)
Theorem getInt_retries
    (fuel : nat) (min max : Z) (line rest : Stream.text) :
  "010"%char ∉ line ->
  Stream.skip_ws line <> [] ->
  (forall v r, Stream.read_int line = Some (v, r) -> ~ (min <= v <= max)) ->
  getInt (S fuel) min max (Cin.opened (line ++ "010"%char :: rest))
  = getInt fuel min max (Cin.opened rest).
Proof.
  intros Hl Hws Hrej. cbn [getInt]. rewrite extract_int_opened.
  rewrite read_int_newline by assumption.
  destruct (Stream.read_int line) as [[v r]|] eqn:E; cbn [fmap option_fmap option_map].
  - rewrite in_bounds_false by (by eapply Hrej).
    rewrite ignore_line_rest; [reflexivity|].
    apply (suffix_newline _ line); [|assumption].
    rewrite (read_int_after _ _ _ E). apply after_integer_suffix.
  - rewrite after_integer_newline by assumption.
    rewrite ignore_line_rest; [reflexivity|].
    apply (suffix_newline _ line); [apply after_integer_suffix | assumption].
Qed.

Lemma getInt_retries_witness :
  getInt 2 0 10
    (Cin.opened (list_ascii_of_string "seven" ++
                 "010"%char :: list_ascii_of_string "7"))
  = Some (7, {| Cin.buffer := []; Cin.eofbit := true; Cin.failbit := true |}).
Proof.
  rewrite (getInt_retries 1 0 10 (list_ascii_of_string "seven")).
  - reflexivity.
  - apply (bool_decide_unpack _). vm_compute. exact I.
  - discriminate.
  - intros v r. vm_compute. discriminate.
Defined.

Lemma ignore_clear_empty (cin : Cin.istream) :
  Cin.buffer cin = [] -> Cin.buffer (Cin.ignore_line (Cin.clear cin)) = [].
Proof. intros H. unfold Cin.ignore_line, Cin.clear. simpl. by rewrite H. Qed.

Lemma extract_int_empty (cin : Cin.istream) :
  Cin.buffer cin = [] ->
  fst (Cin.extract_int cin) = None /\ Cin.buffer (snd (Cin.extract_int cin)) = [].
Proof.
  intros H. unfold Cin.extract_int. rewrite H.
  destruct (Cin.good cin); simpl; auto.
Qed.

Lemma extract_double_empty (cin : Cin.istream) :
  Cin.buffer cin = [] ->
  fst (Cin.extract_double cin) = None /\ Cin.buffer (snd (Cin.extract_double cin)) = [].
Proof.
  intros H. unfold Cin.extract_double. rewrite H.
  destruct (Cin.good cin); simpl; auto.
Qed.

Lemma getline_empty (cin : Cin.istream) :
  Cin.buffer cin = [] ->
  fst (Cin.getline cin "") = "" /\ Cin.buffer (snd (Cin.getline cin "")) = [].
Proof.
  intros H. unfold Cin.getline. rewrite H.
  destruct (Cin.good cin); simpl; auto.
Qed.

Lemma getInt_empty (fuel : nat) (min max : Z) (cin : Cin.istream) :
  Cin.buffer cin = [] -> getInt fuel min max cin = None.
Proof.
  revert cin. induction fuel as [|fuel IH]; intros cin H; [reflexivity|].
  cbn [getInt]. destruct (extract_int_empty cin H) as (H1 & H2).
  destruct (Cin.extract_int cin) as [o cin1]. simpl in *. subst o.
  apply IH. by apply ignore_clear_empty.
Qed.

Lemma getDouble_empty (fuel : nat) (min max : double) (cin : Cin.istream) :
  Cin.buffer cin = [] -> getDouble fuel min max cin = None.
Proof.
  revert cin. induction fuel as [|fuel IH]; intros cin H; [reflexivity|].
  cbn [getDouble]. destruct (extract_double_empty cin H) as (H1 & H2).
  destruct (Cin.extract_double cin) as [o cin1]. simpl in *. subst o.
  apply IH. by apply ignore_clear_empty.
Qed.

Lemma getNonEmptyString_empty (fuel : nat) (cin : Cin.istream) :
  Cin.buffer cin = [] -> getNonEmptyString fuel cin "" = None.
Proof.
  revert cin. induction fuel as [|fuel IH]; intros cin H; [reflexivity|].
  cbn [getNonEmptyString]. destruct (getline_empty cin H) as (H1 & H2).
  destruct (Cin.getline cin "") as [value' cin1]. simpl in *. subst value'.
  rewrite bool_decide_eq_true_2 by reflexivity. by apply IH.
Qed.

(** X20: at the end of the input no helper returns.  Once nothing is left
    to read, whatever the state bits, every extraction fails, [clear] and
    [ignore] bring nothing back, and the loop of each helper goes round
    without end: there is no bound on the turns within which [getInt],
    [getDouble] or [getNonEmptyString] (called, as the program does, with
    an empty string) comes back. *)
Theorem helpers_at_end_of_input (fuel : nat) (cin : Cin.istream) :
  Cin.buffer cin = [] ->
  (forall min max, getInt fuel min max cin = None) /\
  (forall min max, getDouble fuel min max cin = None) /\
  getNonEmptyString fuel cin "" = None.
Proof.
  intros H. split; [|split].
  - intros min max. by apply getInt_empty.
  - intros min max. by apply getDouble_empty.
  - by apply getNonEmptyString_empty.
Qed.

Lemma helpers_at_end_of_input_witness :
  getInt 1000 0 10 (Cin.opened []) = None.
Proof. by apply (helpers_at_end_of_input 1000 (Cin.opened [])). Defined.

Lemma getInt_bounds (fuel : nat) (min max : Z) (cin cin' : Cin.istream) (v : Z) :
  getInt fuel min max cin = Some (v, cin') -> min <= v <= max /\ in_int_range v.
Proof.
  revert cin. induction fuel as [|fuel IH]; intros cin; [discriminate|].
  cbn [getInt]. unfold Cin.extract_int.
  destruct (Cin.good cin); [|apply IH].
  destruct (Stream.read_int (Cin.buffer cin)) as [[v' r]|] eqn:E; [|apply IH].
  destruct (_ && _) eqn:B; [|apply IH].
  intros [= -> _]. apply andb_true_iff in B as [B1%Z.leb_le B2%Z.leb_le].
  split; [lia | by eapply read_int_range].
Qed.

Lemma getDouble_bounds (fuel : nat) (min max : double) (cin cin' : Cin.istream)
    (v : double) :
  getDouble fuel min max cin = Some (v, cin') ->
  Double.leb min v = true /\ Double.leb v max = true /\
  Double.valid v = true /\ Double.is_finite v = true.
Proof.
  revert cin. induction fuel as [|fuel IH]; intros cin; [discriminate|].
  cbn [getDouble]. unfold Cin.extract_double.
  destruct (Cin.good cin); [|apply IH].
  destruct (Stream.read_double (Cin.buffer cin)) as [[v' r]|] eqn:E; [|apply IH].
  destruct (_ && _) eqn:B; [|apply IH].
  intros [= -> _]. apply andb_true_iff in B as [B1 B2].
  destruct (read_double_valid _ _ _ E). auto.
Qed.

Lemma getNonEmptyString_nonempty (fuel : nat) (cin cin' : Cin.istream)
    (value v : string) :
  getNonEmptyString fuel cin value = Some (v, cin') -> v <> "".
Proof.
  revert cin value. induction fuel as [|fuel IH]; intros cin value; [discriminate|].
  cbn [getNonEmptyString]. destruct (Cin.getline cin value) as [value' cin1].
  case_bool_decide; [apply IH|]. by intros [= <- _].
Qed.

(** X21: what a helper returns is within the bounds it was called with.
    [getInt] returns an [int] of [min, max]; [getDouble] a double [v] with
    [min <= v] and [v <= max], canonical and finite, so never a NaN and
    never an infinity, whatever was typed; [getNonEmptyString] a string
    that is not empty. *)
Theorem helpers_within_bounds (fuel : nat) (cin cin' : Cin.istream) :
  (forall min max v,
     getInt fuel min max cin = Some (v, cin') ->
     min <= v <= max /\ Stream.INT_MIN <= v <= Stream.INT_MAX) /\
  (forall min max v,
     getDouble fuel min max cin = Some (v, cin') ->
     Double.leb min v = true /\ Double.leb v max = true /\
     Double.valid v = true /\ Double.is_finite v = true) /\
  (forall value v,
     getNonEmptyString fuel cin value = Some (v, cin') -> v <> "").
Proof.
  split; [|split].
  - intros min max v. apply getInt_bounds.
  - intros min max v. apply getDouble_bounds.
  - intros value v. apply getNonEmptyString_nonempty.
Qed.

(** X18: [getDouble], one line at a time.  On a line that holds something
    other than white space, the helper reads the longest start of the line
    that is a floating-point field; when that converts to a double within
    [min, max] it is returned, and otherwise the helper asks again; either
    way the rest of the line is dropped.  So 12abc is taken as 12, and a
    line such as abc, 1e999 or one out of range is passed over. *)
Theorem getDouble_by_line
    (fuel : nat) (min max : double) (line rest : Stream.text) :
  "010"%char ∉ line ->
  Stream.skip_ws line <> [] ->
  getDouble (S fuel) min max (Cin.opened (line ++ "010"%char :: rest))
  = match Stream.read_double line with
    | Some (v, _) =>
        if Double.leb min v && Double.leb v max then Some (v, Cin.opened rest)
        else getDouble fuel min max (Cin.opened rest)
    | None => getDouble fuel min max (Cin.opened rest)
    end.
Proof.
  intros Hl Hws. cbn [getDouble]. rewrite extract_double_opened.
  rewrite read_double_newline by assumption.
  destruct (Stream.read_double line) as [[v r]|] eqn:E;
    cbn [fmap option_fmap option_map].
  - assert (Hr : "010"%char ∉ r).
    { apply (suffix_newline _ line); [|assumption].
      rewrite (read_double_after _ _ _ E). apply after_double_suffix. }
    destruct (_ && _).
    + by rewrite ignore_line_scanned.
    + by rewrite ignore_line_rest.
  - rewrite after_double_newline by assumption.
    rewrite ignore_line_rest; [reflexivity|].
    apply (suffix_newline _ line); [apply after_double_suffix | assumption].
Qed.

Lemma getDouble_by_line_witness :
  getDouble 1 (Double.of_ratio 1 100) DBL_MAX
    (Cin.opened (list_ascii_of_string "12abc" ++ ["010"%char]))
  = Some (Double.of_Z 12, Cin.opened []).
Proof.
  rewrite (getDouble_by_line 0 (Double.of_ratio 1 100) DBL_MAX
             (list_ascii_of_string "12abc") []).
  - reflexivity.
  - apply (bool_decide_unpack _). vm_compute. exact I.
  - discriminate.
Defined.

Lemma getline_opened_empty_line (rest : Stream.text) :
  Cin.getline (Cin.opened ("010"%char :: rest)) "" = ("", Cin.opened rest).
Proof. reflexivity. Qed.

Lemma getline_opened_line (line rest : Stream.text) :
  line <> [] -> "010"%char ∉ line ->
  Cin.getline (Cin.opened (line ++ "010"%char :: rest)) ""
  = (string_of_list_ascii line, Cin.opened rest).
Proof.
  intros Hne Hl. destruct line as [|c l]; [congruence|].
  unfold Cin.getline.
  cbn [Cin.opened Cin.good Cin.buffer Cin.eofbit Cin.failbit negb andb app].
  change (c :: l ++ "010"%char :: rest) with ((c :: l) ++ "010"%char :: rest).
  rewrite read_line_newline by assumption. reflexivity.
Qed.

Lemma string_of_list_ascii_nonempty (l : Stream.text) :
  l <> [] -> string_of_list_ascii l <> "".
Proof. destruct l; [congruence | discriminate]. Qed.

(** X19: [getNonEmptyString] returns the first line that is not empty, as
    it stands.  Empty lines in front of it are passed over; the line is
    not trimmed and nothing on it is looked at, so a line of blanks is
    taken; the next read starts on the line after. *)
Theorem getNonEmptyString_first_line
    (fuel k : nat) (line rest : Stream.text) :
  line <> [] ->
  "010"%char ∉ line ->
  (k < fuel)%nat ->
  getNonEmptyString fuel
    (Cin.opened (replicate k "010"%char ++ line ++ "010"%char :: rest)) ""
  = Some (string_of_list_ascii line, Cin.opened rest).
Proof.
  intros Hne Hl. revert fuel. induction k as [|k IH]; intros fuel Hk.
  - destruct fuel as [|fuel]; [lia|]. cbn [replicate app getNonEmptyString].
    rewrite getline_opened_line by assumption.
    by rewrite bool_decide_eq_false_2 by (by apply string_of_list_ascii_nonempty).
  - destruct fuel as [|fuel]; [lia|]. cbn [replicate getNonEmptyString].
    rewrite <- app_comm_cons, getline_opened_empty_line.
    rewrite bool_decide_eq_true_2 by reflexivity. apply IH. lia.
Qed.

Lemma getNonEmptyString_first_line_witness :
  getNonEmptyString 3
    (Cin.opened ("010"%char :: "010"%char :: " "%char :: "010"%char ::
                 list_ascii_of_string "Bob"))
    ""
  = Some (" ", Cin.opened (list_ascii_of_string "Bob")).
Proof.
  apply (getNonEmptyString_first_line 3 2 [" "%char] (list_ascii_of_string "Bob")).
  - discriminate.
  - apply (bool_decide_unpack _). vm_compute. exact I.
  - lia.
Defined.

(** ** The PIN, read from the input *)

Ltac run_console :=
  unfold Console.deposit, Console.withdraw, Console.transfer, Console.updateName,
    Console.closeAccount, Console.authenticate, Console.bind, Console.ret,
    Console.throw, Console.lift, BankManagement.gets, BankManagement.modify,
    BankManagement.call, asking.

Section ConsoleFacts.

Variable hashPIN : string -> Z.

Lemma found_decide (num : Z) (accounts : list BankAccount) :
  bool_decide (num ∈ numbers accounts)
  = match BankManagement.findAccount num accounts with Some _ => true | None => false end.
Proof.
  destruct (BankManagement.findAccount num accounts) as [i|] eqn:F.
  - apply bool_decide_eq_true_2, numbers_found. rewrite F. eauto.
  - apply bool_decide_eq_false_2, numbers_not_found, F.
Qed.

Lemma console_deposit (num : Z) (amt : double) (w : Cin.istream * list BankAccount) :
  Console.deposit hashPIN num amt w
  = asking (bool_decide (num ∈ numbers (snd w)))
      (BankManagement.deposit hashPIN num amt) w.
Proof.
  destruct w as [cin accounts]. simpl snd. rewrite found_decide.
  run_console.
  destruct (BankManagement.findAccount num accounts) as [i|] eqn:F;
    [|by rewrite deposit_cases, F].
  destruct (Cin.getline cin "") as [pin cin']. rewrite deposit_cases, F.
  destruct (BankAccount.verifyPIN hashPIN (accounts !!! i) pin); [|reflexivity].
  simpl. destruct (BankAccount.deposit amt (accounts !!! i)); reflexivity.
Qed.

Lemma console_withdraw (num : Z) (amt : double) (w : Cin.istream * list BankAccount) :
  Console.withdraw hashPIN num amt w
  = asking (bool_decide (num ∈ numbers (snd w)))
      (BankManagement.withdraw hashPIN num amt) w.
Proof.
  destruct w as [cin accounts]. simpl snd. rewrite found_decide.
  run_console.
  destruct (BankManagement.findAccount num accounts) as [i|] eqn:F;
    [|by rewrite withdraw_cases, F].
  destruct (Cin.getline cin "") as [pin cin']. rewrite withdraw_cases, F.
  destruct (BankAccount.verifyPIN hashPIN (accounts !!! i) pin); [|reflexivity].
  simpl. destruct (BankAccount.withdraw amt (accounts !!! i)); reflexivity.
Qed.

Lemma console_updateName (num : Z) (newName : string)
    (w : Cin.istream * list BankAccount) :
  Console.updateName hashPIN num newName w
  = asking (bool_decide (num ∈ numbers (snd w)))
      (BankManagement.updateName hashPIN num newName) w.
Proof.
  destruct w as [cin accounts]. simpl snd. rewrite found_decide.
  run_console.
  destruct (BankManagement.findAccount num accounts) as [i|] eqn:F;
    [|by rewrite updateName_cases, F].
  destruct (Cin.getline cin "") as [pin cin']. rewrite updateName_cases, F.
  destruct (BankAccount.verifyPIN hashPIN (accounts !!! i) pin); [|reflexivity].
  simpl. destruct (BankAccount.updateName newName (accounts !!! i)); reflexivity.
Qed.

Lemma console_closeAccount (num : Z) (w : Cin.istream * list BankAccount) :
  Console.closeAccount hashPIN num w
  = asking (bool_decide (num ∈ numbers (snd w)))
      (BankManagement.closeAccount hashPIN num) w.
Proof.
  destruct w as [cin accounts]. simpl snd. rewrite found_decide.
  run_console.
  destruct (BankManagement.findAccount num accounts) as [i|] eqn:F;
    [|by rewrite closeAccount_cases, F].
  destruct (Cin.getline cin "") as [pin cin']. rewrite closeAccount_cases, F.
  destruct (BankAccount.verifyPIN hashPIN (accounts !!! i) pin); reflexivity.
Qed.

Lemma console_transfer (from to : Z) (amt : double)
    (w : Cin.istream * list BankAccount) :
  Console.transfer hashPIN from to amt w
  = asking (bool_decide (from ∈ numbers (snd w)) && bool_decide (to ∈ numbers (snd w))
            && negb (bool_decide (from = to)))
      (BankManagement.transfer hashPIN from to amt) w.
Proof.
  destruct w as [cin accounts]. simpl snd. rewrite !found_decide.
  run_console.
  destruct (BankManagement.findAccount from accounts) as [i|] eqn:Fi;
    [|by rewrite transfer_cases, Fi].
  destruct (BankManagement.findAccount to accounts) as [j|] eqn:Fj;
    [|by rewrite transfer_cases, Fi, Fj].
  destruct (bool_decide (from = to)) eqn:E; [by rewrite transfer_cases, Fi, Fj, E|].
  simpl. destruct (Cin.getline cin "") as [pin cin'].
  rewrite transfer_cases, Fi, Fj, E.
  destruct (BankAccount.verifyPIN hashPIN (accounts !!! i) pin); [|reflexivity].
  simpl. destruct (BankAccount.withdraw amt (accounts !!! i)); [reflexivity|].
  destruct (BankAccount.deposit amt _); reflexivity.
Qed.

End ConsoleFacts.

(** X22: the PIN is read from the input when, and only when, the call
    gets as far as asking for it.  deposit, withdraw, updateName and
    closeAccount take the next line of the input as the PIN when the
    number is that of an account, and a transfer when both numbers are and
    they differ; the call then does what it does with that line as the
    PIN.  In every other case no line is taken: what was typed for the PIN
    is still there for the next read. *)
Theorem pin_read_when_asked
    (hashPIN : string -> Z) (w : Cin.istream * list BankAccount) :
  let found num := bool_decide (num ∈ numbers (snd w)) in
  (forall num amt,
     Console.deposit hashPIN num amt w
     = asking (found num) (BankManagement.deposit hashPIN num amt) w) /\
  (forall num amt,
     Console.withdraw hashPIN num amt w
     = asking (found num) (BankManagement.withdraw hashPIN num amt) w) /\
  (forall num newName,
     Console.updateName hashPIN num newName w
     = asking (found num) (BankManagement.updateName hashPIN num newName) w) /\
  (forall num,
     Console.closeAccount hashPIN num w
     = asking (found num) (BankManagement.closeAccount hashPIN num) w) /\
  (forall from to amt,
     Console.transfer hashPIN from to amt w
     = asking (found from && found to && negb (bool_decide (from = to)))
         (BankManagement.transfer hashPIN from to amt) w).
Proof.
  intros found. split; [|split; [|split; [|split]]].
  - intros num amt. apply console_deposit.
  - intros num amt. apply console_withdraw.
  - intros num newName. apply console_updateName.
  - intros num. apply console_closeAccount.
  - intros from to amt. apply console_transfer.
Qed.

(** ** The program as a whole *)

Lemma saveToFile_inr (path : string) (accounts : list BankAccount)
    (fs fs' : filesystem) (u : unit) :
  BankManagement.saveToFile path accounts fs = (inr u, fs') ->
  fs !! path <> Some Directory /\
  fs' = <[path := RegularFile (flat_map BankAccount.save accounts)]> fs.
Proof.
  unfold BankManagement.saveToFile.
  destruct (fs !! path) as [[content|]|]; intros [= <-]; split; congruence.
Qed.

Lemma saveToFile_directory (path : string) (accounts : list BankAccount)
    (fs : filesystem) :
  fs !! path = Some Directory ->
  BankManagement.saveToFile path accounts fs = (inl IOError, fs).
Proof. unfold BankManagement.saveToFile. by intros ->. Qed.

Lemma asking_vector (reached : bool) (op : string -> BankManagement.M report)
    (cin : Cin.istream) (accounts : list BankAccount) :
  exists pin, snd (snd (asking reached op (cin, accounts))) = snd (op pin accounts).
Proof.
  unfold asking. destruct reached.
  - destruct (Cin.getline cin "") as [pin cin']. exists pin.
    by destruct (op pin accounts).
  - exists "". by destruct (op "" accounts).
Qed.

Lemma entered_admissible (choice : Menu) : entered choice -> admissible choice.
Proof. destruct choice; simpl; tauto. Qed.

Section ProgramFacts.

Variable hashPIN : string -> Z.
Variable ranges_sort : forall A : Type, (A -> A -> bool) -> list A -> list A.

Lemma under_try_vector (m : Console.M report) (reached : bool)
    (op : string -> BankManagement.M report)
    (cin : Cin.istream) (accounts : list BankAccount) (st : step) :
  m (cin, accounts) = asking reached op (cin, accounts) ->
  under_try m cin accounts = Some st ->
  exists cin' pin, st = Again cin' (snd (op pin accounts)).
Proof.
  intros Hm. unfold under_try. rewrite Hm.
  destruct (asking_vector reached op cin accounts) as (pin & Hpin).
  destruct (asking reached op (cin, accounts)) as [r [cin' accounts']].
  simpl in Hpin. intros [= <-]. exists cin', pin. by rewrite Hpin.
Qed.

Ltac bounds :=
  repeat match goal with
  | H : getInt _ _ _ _ = Some _ |- _ => apply getInt_bounds in H as (? & _)
  | H : getDouble _ _ _ _ = Some _ |- _ => apply getDouble_bounds in H as (? & ? & ? & ?)
  | H : getNonEmptyString _ _ _ = Some _ |- _ => apply getNonEmptyString_nonempty in H
  end.

Tactic Notation "next_input" hyp(H) "as" ident(x) ident(c) :=
  match type of H with
  | context [mbind _ ?m] =>
      let E := fresh "E" in
      destruct m as [[x c]|] eqn:E; cbn [mbind option_bind] in H; [|discriminate H]
  end.

Lemma menu_turn_outcome (fuel : nat) (fs : filesystem) (cin : Cin.istream)
    (accounts : list BankAccount) (st : step) :
  menu_turn hashPIN ranges_sort fuel fs cin accounts = Some st ->
  match st with
  | Returned fs' =>
      BankManagement.saveToFile filename accounts fs = (inr tt, fs')
  | Again _ accounts' => turned hashPIN ranges_sort accounts accounts'
  end.
Proof.
  unfold menu_turn. intros H.
  destruct (getInt fuel 0 10 cin) as [[choice cin1]|] eqn:Hc;
    cbn [mbind option_bind] in H; [|discriminate H].
  apply getInt_bounds in Hc as (Hc & _).
  assert (Hch : choice = 0 \/ choice = 1 \/ choice = 2 \/ choice = 3 \/ choice = 4
                \/ choice = 5 \/ choice = 6 \/ choice = 7 \/ choice = 8
                \/ choice = 9 \/ choice = 10) by lia.
  clear Hc.
  destruct Hch as [->|[->|[->|[->|[->|[->|[->|[->|[->|[->| ->]]]]]]]]]].
  - (* Exit *)
    destruct (BankManagement.saveToFile filename accounts fs) as [[e|[]] fs'].
    + injection H as <-. by left.
    + injection H as <-. reflexivity.
  - (* CreateAccount *)
    next_input H as n c2. next_input H as num c3.
    next_input H as bal c4. next_input H as pin c5.
    injection H as <-. bounds. right.
    exists (CreateAccount n num bal pin). split; [|reflexivity]. simpl.
    repeat split; try assumption; lia.
  - (* ShowAll *)
    injection H as <-. by left.
  - (* Search *)
    next_input H as num c2. injection H as <-. by left.
  - (* Deposit *)
    next_input H as num c2. next_input H as amt c3.
    destruct (under_try_vector _ _ _ _ _ _ (console_deposit hashPIN _ _ _) H)
      as (cin' & pin & ->).
    bounds. right. exists (Deposit num amt pin). split; [|reflexivity]. simpl.
    repeat split; try assumption; lia.
  - (* Withdraw *)
    next_input H as num c2. next_input H as amt c3.
    destruct (under_try_vector _ _ _ _ _ _ (console_withdraw hashPIN _ _ _) H)
      as (cin' & pin & ->).
    bounds. right. exists (Withdraw num amt pin). split; [|reflexivity]. simpl.
    repeat split; try assumption; lia.
  - (* Transfer *)
    next_input H as from c2. next_input H as to c3. next_input H as amt c4.
    destruct (under_try_vector _ _ _ _ _ _ (console_transfer hashPIN _ _ _ _) H)
      as (cin' & pin & ->).
    bounds. right. exists (Transfer from to amt pin). split; [|reflexivity]. simpl.
    repeat split; try assumption; lia.
  - (* CloseAccount *)
    next_input H as num c2.
    destruct (under_try_vector _ _ _ _ _ _ (console_closeAccount hashPIN _ _) H)
      as (cin' & pin & ->).
    bounds. right. exists (CloseAccount num pin). split; [|reflexivity]. simpl. lia.
  - (* UpdateName *)
    next_input H as num c2. next_input H as newName c3.
    destruct (under_try_vector _ _ _ _ _ _ (console_updateName hashPIN _ _ _) H)
      as (cin' & pin & ->).
    bounds. right. exists (UpdateName num newName pin). split; [|reflexivity]. simpl.
    split; [lia | assumption].
  - (* HighBalance *)
    next_input H as threshold c2. injection H as <-. by left.
  - (* SortAccounts *)
    injection H as <-. right. exists SortAccounts. by split.
Qed.

Lemma menu_loop_session (fuel : nat) (fs fs' : filesystem) (cin : Cin.istream)
    (accounts : list BankAccount) :
  menu_loop hashPIN ranges_sort fuel fs cin accounts = Some fs' ->
  exists choices,
    Forall entered choices /\
    BankManagement.saveToFile filename
      (session hashPIN ranges_sort choices accounts) fs = (inr tt, fs').
Proof.
  revert cin accounts. induction fuel as [|fuel IH]; intros cin accounts; [discriminate|].
  cbn [menu_loop].
  destruct (menu_turn hashPIN ranges_sort fuel fs cin accounts) as [[fs1|cin1 accounts1]|]
    eqn:T; [| |discriminate].
  - intros [= <-]. apply menu_turn_outcome in T. exists []. split; [constructor | exact T].
  - intros (choices & Hall & Hsave)%IH. apply menu_turn_outcome in T.
    destruct T as [->|(choice & Hc & ->)].
    + exists choices. auto.
    + exists (choice :: choices). split; [by constructor | exact Hsave].
Qed.

(** A run at the end of its input, or with a file it cannot write, does
    not come back. *)
Lemma menu_loop_empty (fuel : nat) (fs : filesystem) (cin : Cin.istream)
    (accounts : list BankAccount) :
  Cin.buffer cin = [] -> menu_loop hashPIN ranges_sort fuel fs cin accounts = None.
Proof.
  intros H. destruct fuel as [|fuel]; [reflexivity|]. cbn [menu_loop].
  unfold menu_turn. by rewrite getInt_empty.
Qed.

Lemma menu_loop_directory (fuel : nat) (fs : filesystem) (cin : Cin.istream)
    (accounts : list BankAccount) :
  fs !! filename = Some Directory ->
  menu_loop hashPIN ranges_sort fuel fs cin accounts = None.
Proof.
  intros Hd. destruct (menu_loop hashPIN ranges_sort fuel fs cin accounts) as [fs'|] eqn:E;
    [|reflexivity].
  apply menu_loop_session in E as (choices & _ & Hsave).
  rewrite saveToFile_directory in Hsave by assumption. discriminate.
Qed.

End ProgramFacts.

(** *** What a session of entered choices keeps *)

Lemma registered_set_balance (hashPIN : string -> Z) (b : double) (acc : BankAccount) :
  registered hashPIN acc -> registered hashPIN (set_balance b acc).
Proof. auto. Qed.

Lemma registered_insert (hashPIN : string -> Z) (i : nat) (acc' : BankAccount)
    (accounts : list BankAccount) :
  (i < length accounts)%nat ->
  (registered hashPIN (accounts !!! i) -> registered hashPIN acc') ->
  Forall (registered hashPIN) accounts ->
  Forall (registered hashPIN) (<[i := acc']> accounts).
Proof.
  intros Hi Hr Hall. apply Forall_insert; [assumption|]. apply Hr.
  rewrite Forall_forall in Hall. apply Hall, list_elem_of_lookup.
  exists i. by apply list_lookup_lookup_total_lt.
Qed.

Section SessionFacts.

Variable hashPIN : string -> Z.
Variable ranges_sort : forall A : Type, (A -> A -> bool) -> list A -> list A.
Hypothesis ranges_sort_sorts : sorts ranges_sort.

Lemma turn_registered (choice : Menu) (accounts : list BankAccount) :
  entered choice ->
  Forall (fun acc => Double.is_nan (balance acc) = false) accounts ->
  Forall (registered hashPIN) accounts ->
  Forall (registered hashPIN) (turn hashPIN ranges_sort accounts choice).
Proof.
  intros He Hnan Hall. unfold turn.
  destruct choice as [n num bal pin|num amt pin|num amt pin|from to amt pin
                      |num pin|num newName pin|]; simpl in *.
  - destruct (four_digits pin) eqn:E4; [|assumption].
    rewrite addAccount_cases. case_bool_decide; simpl; [assumption|].
    apply Forall_app. split; [assumption|]. constructor; [|constructor].
    destruct He as (Hn & Hnum & _).
    split; [assumption|]. split; [simpl; lia|]. by exists pin.
  - rewrite deposit_cases.
    destruct (BankManagement.findAccount num accounts) as [i|] eqn:F; [|assumption].
    apply findAccount_lt in F.
    destruct (BankAccount.verifyPIN _ _ _); [|assumption].
    destruct (BankAccount.deposit amt (accounts !!! i)) as [e|acc'] eqn:D;
      [assumption|].
    apply deposit_inr in D as (_ & ->). by apply registered_insert.
  - rewrite withdraw_cases.
    destruct (BankManagement.findAccount num accounts) as [i|] eqn:F; [|assumption].
    apply findAccount_lt in F.
    destruct (BankAccount.verifyPIN _ _ _); [|assumption].
    destruct (BankAccount.withdraw amt (accounts !!! i)) as [e|acc'] eqn:D;
      [assumption|].
    apply withdraw_inr in D as (_ & _ & ->). by apply registered_insert.
  - rewrite transfer_cases.
    destruct (BankManagement.findAccount from accounts) as [i|] eqn:Fi; [|assumption].
    destruct (BankManagement.findAccount to accounts) as [j|] eqn:Fj; [|assumption].
    apply findAccount_lt in Fi, Fj.
    case_bool_decide; [assumption|].
    destruct (BankAccount.verifyPIN _ _ _); [|assumption].
    destruct (BankAccount.withdraw amt (accounts !!! i)) as [e|a] eqn:W;
      [assumption|].
    apply withdraw_inr in W as (_ & _ & ->).
    assert (H1 : Forall (registered hashPIN)
                   (<[i := set_balance (Double.sub (balance (accounts !!! i)) amt)
                             (accounts !!! i)]> accounts))
      by (by apply registered_insert).
    destruct (BankAccount.deposit amt _) as [e|b] eqn:D; simpl; [assumption|].
    apply deposit_inr in D as (_ & ->).
    apply registered_insert; [by rewrite length_insert | auto | assumption].
  - rewrite closeAccount_cases.
    destruct (BankManagement.findAccount num accounts) as [i|]; [|assumption].
    destruct (BankAccount.verifyPIN _ _ _); [|assumption].
    by apply Forall_delete.
  - rewrite updateName_cases.
    destruct (BankManagement.findAccount num accounts) as [i|] eqn:F; [|assumption].
    apply findAccount_lt in F.
    destruct (BankAccount.verifyPIN _ _ _); [|assumption].
    destruct (BankAccount.updateName newName (accounts !!! i)) as [e|acc'] eqn:D;
      [assumption|].
    apply updateName_inr in D as (Hne & ->). simpl.
    apply registered_insert; [assumption| |assumption].
    intros (_ & Hnum & Hpin). split; [assumption|]. by split.
  - run. simpl.
    destruct (ranges_sort_sorts BankAccount BankManagement.by_balance accounts) as (Hp & _).
    { by apply by_balance_swo. }
    by rewrite Hp.
Qed.

Lemma proper_split (accounts : list BankAccount) :
  Forall (proper hashPIN) accounts
  <-> Forall (registered hashPIN) accounts /\ Forall good accounts.
Proof. unfold proper. apply Forall_and. Qed.

Lemma session_proper (choices : list Menu) (accounts : list BankAccount) :
  Forall entered choices ->
  Forall (proper hashPIN) accounts -> NoDup (numbers accounts) ->
  Forall (proper hashPIN) (session hashPIN ranges_sort choices accounts) /\
  NoDup (numbers (session hashPIN ranges_sort choices accounts)).
Proof.
  intros Hc. revert accounts. induction Hc as [|c choices Hc _ IH]; intros accounts Hp Hd.
  - auto.
  - simpl. apply proper_split in Hp as (Hr & Hg).
    destruct (turn_keeps hashPIN ranges_sort ranges_sort_sorts c accounts
                (entered_admissible c Hc) Hg) as (Hg' & Hd').
    apply IH; [|by apply Hd'].
    apply proper_split. split; [|assumption].
    apply turn_registered; [assumption | by apply good_no_nan | assumption].
Qed.

End SessionFacts.

(** ** The bound on the turns does not matter

    A helper, a turn or a run that has ended within a bound ends the same
    way within any larger bound. *)

Lemma getInt_fuel (f f' : nat) (min max : Z) (cin : Cin.istream)
    (x : Z * Cin.istream) :
  getInt f min max cin = Some x -> (f <= f')%nat -> getInt f' min max cin = Some x.
Proof.
  revert f' cin. induction f as [|f IH]; intros f' cin H Hle; [discriminate|].
  destruct f' as [|f']; [lia|]. cbn [getInt] in *.
  destruct (Cin.extract_int cin) as [[v|] cin1].
  - destruct (_ && _); [assumption|]. apply IH; [assumption | lia].
  - apply IH; [assumption | lia].
Qed.

Lemma getDouble_fuel (f f' : nat) (min max : double) (cin : Cin.istream)
    (x : double * Cin.istream) :
  getDouble f min max cin = Some x -> (f <= f')%nat ->
  getDouble f' min max cin = Some x.
Proof.
  revert f' cin. induction f as [|f IH]; intros f' cin H Hle; [discriminate|].
  destruct f' as [|f']; [lia|]. cbn [getDouble] in *.
  destruct (Cin.extract_double cin) as [[v|] cin1].
  - destruct (_ && _); [assumption|]. apply IH; [assumption | lia].
  - apply IH; [assumption | lia].
Qed.

Lemma getNonEmptyString_fuel (f f' : nat) (cin : Cin.istream) (value : string)
    (x : string * Cin.istream) :
  getNonEmptyString f cin value = Some x -> (f <= f')%nat ->
  getNonEmptyString f' cin value = Some x.
Proof.
  revert f' cin value. induction f as [|f IH]; intros f' cin value H Hle; [discriminate|].
  destruct f' as [|f']; [lia|]. cbn [getNonEmptyString] in *.
  destruct (Cin.getline cin value) as [value' cin1].
  case_bool_decide; [|assumption]. apply IH; [assumption | lia].
Qed.

Section FuelFacts.

Variable hashPIN : string -> Z.
Variable ranges_sort : forall A : Type, (A -> A -> bool) -> list A -> list A.

Tactic Notation "same_input" hyp(H) constr(Hle) :=
  match type of H with
  | context [mbind _ ?m] =>
      let E := fresh "E" in
      destruct m as [[? ?]|] eqn:E; cbn [mbind option_bind] in H; [|discriminate H];
      first [ rewrite (getInt_fuel _ _ _ _ _ _ E Hle)
            | rewrite (getDouble_fuel _ _ _ _ _ _ E Hle)
            | rewrite (getNonEmptyString_fuel _ _ _ _ _ E Hle) ];
      cbn [mbind option_bind]
  end.

Lemma menu_turn_fuel (f f' : nat) (fs : filesystem) (cin : Cin.istream)
    (accounts : list BankAccount) (st : step) :
  menu_turn hashPIN ranges_sort f fs cin accounts = Some st -> (f <= f')%nat ->
  menu_turn hashPIN ranges_sort f' fs cin accounts = Some st.
Proof.
  unfold menu_turn. intros H Hle.
  destruct (getInt f 0 10 cin) as [[choice cin1]|] eqn:Hc;
    cbn [mbind option_bind] in H; [|discriminate H].
  rewrite (getInt_fuel _ _ _ _ _ _ Hc Hle). cbn [mbind option_bind].
  apply getInt_bounds in Hc as (Hc & _).
  assert (Hch : choice = 0 \/ choice = 1 \/ choice = 2 \/ choice = 3 \/ choice = 4
                \/ choice = 5 \/ choice = 6 \/ choice = 7 \/ choice = 8
                \/ choice = 9 \/ choice = 10) by lia.
  clear Hc.
  destruct Hch as [->|[->|[->|[->|[->|[->|[->|[->|[->|[->| ->]]]]]]]]]];
    repeat same_input H Hle; exact H.
Qed.

Lemma menu_loop_fuel (f f' : nat) (fs fs' : filesystem) (cin : Cin.istream)
    (accounts : list BankAccount) :
  menu_loop hashPIN ranges_sort f fs cin accounts = Some fs' -> (f <= f')%nat ->
  menu_loop hashPIN ranges_sort f' fs cin accounts = Some fs'.
Proof.
  revert f' cin accounts. induction f as [|f IH]; intros f' cin accounts H Hle;
    [discriminate|].
  destruct f' as [|f']; [lia|]. cbn [menu_loop] in *.
  destruct (menu_turn hashPIN ranges_sort f fs cin accounts) as [st|] eqn:T;
    [|discriminate].
  rewrite (menu_turn_fuel _ _ _ _ _ _ T) by lia.
  destruct st as [fs1|cin1 accounts1]; [assumption|]. apply IH; [assumption | lia].
Qed.

End FuelFacts.

(** ** Runs of the program *)

Lemma getInt_zero (fuel : nat) (rest : Stream.text) :
  getInt (S fuel) 0 10 (Cin.opened ("0"%char :: "010"%char :: rest))
  = Some (0, Cin.opened rest).
Proof. reflexivity. Qed.

Lemma menu_exit
    (hashPIN : string -> Z)
    (ranges_sort : forall A : Type, (A -> A -> bool) -> list A -> list A)
    (fuel : nat) (rest : Stream.text) (fs : filesystem) (accounts : list BankAccount) :
  fs !! filename <> Some Directory ->
  menu_loop hashPIN ranges_sort (S (S fuel)) fs
    (Cin.opened ("0"%char :: "010"%char :: rest)) accounts
  = Some (<[filename := RegularFile (flat_map BankAccount.save accounts)]> fs).
Proof.
  intros Hd. cbn [menu_loop]. unfold menu_turn.
  rewrite getInt_zero. cbn [mbind option_bind].
  unfold BankManagement.saveToFile.
  destruct (fs !! filename) as [[content|]|]; [reflexivity | congruence | reflexivity].
Qed.

(** X23: leaving at once rewrites the file from what was read of it.  When
    the first line of the input is 0 and the path can be written, the
    program returns, and the file then holds the records of the accounts
    that [loadFromFile] had read, written afresh, and nothing else: with
    no file before, an empty file is created; what the loading did not
    read of a file is no longer in it.  No other path is touched. *)
Theorem main_exit_at_once
    (hashPIN : string -> Z)
    (ranges_sort : forall A : Type, (A -> A -> bool) -> list A -> list A)
    (fuel : nat) (rest : Stream.text) (fs : filesystem) :
  fs !! filename <> Some Directory ->
  main hashPIN ranges_sort (S (S fuel)) ("0"%char :: "010"%char :: rest) fs
  = Some (<[filename :=
              RegularFile (flat_map BankAccount.save
                             (snd (BankManagement.loadFromFile filename fs [])))]> fs).
Proof. intros Hd. unfold main. by apply menu_exit. Qed.

Lemma main_exit_at_once_witness :
  main example_hash insertion_sort 2 (typed ["0"]) ∅
  = Some {[ filename := RegularFile [] ]}.
Proof.
  exact (main_exit_at_once example_hash insertion_sort 0 [] ∅
           ltac:(rewrite lookup_empty; discriminate)).
Defined.

(** X24: leaving at once loses what the program could not read.  When
    the file holds records of accounts with whole balances of at most six
    digits and then something that does not read as a record, and the
    first line typed is 0, the program returns and the file holds the
    records and nothing else: everything from the first record that did
    not read to the end of the file is gone, whatever it was. *)
Theorem exit_drops_what_was_not_read
    (hashPIN : string -> Z)
    (ranges_sort : forall A : Type, (A -> A -> bool) -> list A -> list A)
    (fuel : nat) (more rest : Stream.text) (fs : filesystem)
    (accounts : list BankAccount) :
  Forall storable accounts ->
  Forall whole_balance accounts ->
  BankAccount.load rest = None ->
  fs !! filename = Some (RegularFile (flat_map BankAccount.save accounts ++ rest)) ->
  main hashPIN ranges_sort (S (S fuel)) ("0"%char :: "010"%char :: more) fs
  = Some (<[filename := RegularFile (flat_map BankAccount.save accounts)]> fs).
Proof.
  intros Hs Hw Hrest Hf. unfold main.
  rewrite menu_exit by (rewrite Hf; discriminate). do 4 f_equal.
  unfold BankManagement.loadFromFile. rewrite Hf. simpl.
  apply load_all_saved_then; [assumption | by apply reloads_whole | assumption].
Qed.

Lemma exit_drops_what_was_not_read_witness :
  main example_hash insertion_sort 2 (typed ["0"])
    {[ filename :=
         RegularFile (flat_map BankAccount.save [alice]
                      ++ typed ["1002 fifty 7 Bob"] ++ BankAccount.save carol) ]}
  = Some (<[filename := RegularFile (flat_map BankAccount.save [alice])]>
            {[ filename :=
                 RegularFile (flat_map BankAccount.save [alice]
                              ++ typed ["1002 fifty 7 Bob"]
                              ++ BankAccount.save carol) ]}).
Proof.
  apply (exit_drops_what_was_not_read example_hash insertion_sort 0 []
           (typed ["1002 fifty 7 Bob"] ++ BankAccount.save carol) _ [alice]).
  - repeat constructor; vm_compute; congruence.
  - repeat constructor. exists 100. split; [lia | reflexivity].
  - vm_compute. reflexivity.
  - apply lookup_singleton_eq.
Defined.

(** X25: a run that ends is a session of the menu.  When [main] returns,
    the path could be written, no other path has changed, and the file
    holds the records of the vector that a sequence of menu choices leads
    to from the vector loaded at the start, each choice with inputs within
    the bounds of its prompts: names that are not empty, numbers from 1 up
    to [INT_MAX], balances from 0 up and amounts from one hundredth up,
    all of them finite doubles. *)
Theorem run_is_session
    (hashPIN : string -> Z)
    (ranges_sort : forall A : Type, (A -> A -> bool) -> list A -> list A)
    (fuel : nat) (input : Stream.text) (fs fs' : filesystem) :
  main hashPIN ranges_sort fuel input fs = Some fs' ->
  exists choices,
    Forall entered choices /\
    fs !! filename <> Some Directory /\
    fs' = <[filename :=
              RegularFile
                (flat_map BankAccount.save
                   (session hashPIN ranges_sort choices
                      (snd (BankManagement.loadFromFile filename fs []))))]> fs.
Proof.
  unfold main. intros (choices & Hall & Hsave)%menu_loop_session.
  apply saveToFile_inr in Hsave as (Hd & ->). eauto.
Qed.

Lemma short_run_returns :
  main example_hash insertion_sort 4 short_run ∅
  = Some {[ filename :=
              RegularFile (BankAccount.save (set_balance (Double.of_Z 125) alice)) ]}.
Proof. vm_compute. reflexivity. Qed.

Lemma run_is_session_witness :
  exists choices,
    Forall entered choices /\
    (∅ : filesystem) !! filename <> Some Directory /\
    ({[ filename :=
          RegularFile (BankAccount.save (set_balance (Double.of_Z 125) alice)) ]}
       : filesystem)
    = <[filename :=
          RegularFile
            (flat_map BankAccount.save
               (session example_hash insertion_sort choices
                  (snd (BankManagement.loadFromFile filename ∅ []))))]> ∅.
Proof.
  apply (run_is_session example_hash insertion_sort 4 short_run ∅).
  vm_compute. reflexivity.
Defined.

(** X26: the program keeps its file in order.  Call an account proper when
    its name is not empty, its number is at least 1, its balance is a
    canonical double that is not negative, and its digest is that of a PIN
    of four digits.  If the accounts loaded at the start are proper and
    their numbers all different (as when there is no file), then whatever
    is typed, a run that ends leaves a file with the records of proper
    accounts with numbers all different. *)
Theorem main_keeps_proper
    (hashPIN : string -> Z)
    (ranges_sort : forall A : Type, (A -> A -> bool) -> list A -> list A)
    (fuel : nat) (input : Stream.text) (fs fs' : filesystem) :
  sorts ranges_sort ->
  Forall (proper hashPIN) (snd (BankManagement.loadFromFile filename fs [])) ->
  NoDup (numbers (snd (BankManagement.loadFromFile filename fs []))) ->
  main hashPIN ranges_sort fuel input fs = Some fs' ->
  exists accounts,
    fs' = <[filename := RegularFile (flat_map BankAccount.save accounts)]> fs /\
    Forall (proper hashPIN) accounts /\
    NoDup (numbers accounts).
Proof.
  intros Hsort Hp Hd. unfold main.
  intros (choices & Hall & Hsave)%menu_loop_session.
  apply saveToFile_inr in Hsave as (_ & ->). eexists. split; [reflexivity|].
  by apply session_proper.
Qed.

Lemma main_keeps_proper_witness :
  exists accounts,
    ({[ filename :=
          RegularFile (BankAccount.save (set_balance (Double.of_Z 125) alice)) ]}
       : filesystem)
    = <[filename := RegularFile (flat_map BankAccount.save accounts)]> ∅ /\
    Forall (proper example_hash) accounts /\
    NoDup (numbers accounts).
Proof.
  apply (main_keeps_proper example_hash insertion_sort 4 short_run ∅).
  - apply insertion_sort_sorts.
  - constructor.
  - constructor.
  - vm_compute. reflexivity.
Defined.

(** X27: at the end of the input the program neither ends nor saves.
    From a turn of the menu loop that finds nothing left to read, the loop
    never reaches [return 0], whatever the vector holds by then: within no
    bound on its turns does the run end, and [saveToFile] is not called.
    So it is for the whole run when the input is empty. *)
Theorem main_at_end_of_input
    (hashPIN : string -> Z)
    (ranges_sort : forall A : Type, (A -> A -> bool) -> list A -> list A)
    (fuel : nat) (fs : filesystem) :
  (forall cin accounts,
     Cin.buffer cin = [] ->
     menu_loop hashPIN ranges_sort fuel fs cin accounts = None) /\
  main hashPIN ranges_sort fuel [] fs = None.
Proof.
  split.
  - intros cin accounts. apply menu_loop_empty.
  - unfold main. by apply menu_loop_empty.
Qed.

(** X28: a file that cannot be written keeps the program from ending.
    When the path names something that [ofstream] cannot open,
    [saveToFile] throws under the [try] of the loop, the exception is
    caught, and the loop goes on: whatever is typed, the choice 0
    included, the run does not end. *)
Theorem main_cannot_save
    (hashPIN : string -> Z)
    (ranges_sort : forall A : Type, (A -> A -> bool) -> list A -> list A)
    (fuel : nat) (input : Stream.text) (fs : filesystem) :
  fs !! filename = Some Directory ->
  main hashPIN ranges_sort fuel input fs = None.
Proof. intros Hd. unfold main. by apply menu_loop_directory. Qed.

Lemma main_cannot_save_witness :
  main example_hash insertion_sort 50 short_run {[ filename := Directory ]} = None.
Proof.
  apply (main_cannot_save example_hash insertion_sort 50 short_run).
  apply lookup_singleton_eq.
Defined.
